(** * Frequent-itemset mining with an FP-tree: the two miners of the repository

    Two programs are embedded:
    - [Hamm]  : src/Hamm.cpp, the plain recursive miner (comma separated
      input, fixed table of 1000 headers in [main]);
    - [Opt]   : src/unnamed/part_001, the miner with the single-node
      shortcut [hamm_search_optimized] (blank separated input).

    Conventions of the embedding.
    - A tree is an arena [list Node]; a [Node*] is an index into the arena of
      its own tree ([None] is [nullptr]); [new Node()] appends.  Index 0 is
      the root.  Every tree of the programs is built in one go and never
      shared, so one arena per tree loses nothing.
    - A [Header*] is identified with the header's item: both programs
      allocate exactly one [Header] per item and per level.  The table
      [headerMap] (1000 slots) holds the objects; a [vector<Header*>] that is
      only read is a list of [Header] values.
    - [int] values are mathematical integers ([Z]); the counts are bounded by
      the number of transactions.
    - Indexing a [vector] outside its bounds is undefined behaviour in C++;
      the embedding returns [Undefined] there.  An exception that nobody
      catches ([std::stoi]) is [Thrown].  [OutOfFuel] means that the
      recursion (or a pointer walk) needs more steps than the fuel given.
    - [ofstream] is the list of the [(pattern, support)] pairs handed to
      [write_output], in the order of the calls. *)

From Stdlib Require Import ZArith Lia Bool Ascii String SpecFloat.
From Stdlib Require Import Sorting.Permutation Sorting.Sorted.
From stdpp Require Import base list.

Local Open Scope Z_scope.

(** ** Outcomes *)

Inductive outcome (A : Type) : Type :=
| Done (a : A)
| Undefined
| Thrown
| OutOfFuel.
Arguments Done {A} a.
Arguments Undefined {A}.
Arguments Thrown {A}.
Arguments OutOfFuel {A}.

#[global] Instance outcome_bind : MBind outcome := fun A B f m =>
  match m with
  | Done a => f a
  | Undefined => Undefined
  | Thrown => Thrown
  | OutOfFuel => OutOfFuel
  end.

(** The fixed capacity of the per-item vectors (Hamm.cpp:66,87,166;
    part_001:90,188). *)
Definition CAP : nat := 1000.

(** ** std::sort

    The comparators of the program are strict orders in which two
    incomparable elements are equal, so the result of [std::sort] is the
    unique ordered arrangement, which insertion computes. *)

Fixpoint insert_sorted {A} (lt : A -> A -> bool) (x : A) (l : list A) : list A :=
  match l with
  | [] => [x]
  | y :: r => if lt x y then x :: l else y :: insert_sorted lt x r
  end.

Definition sort {A} (lt : A -> A -> bool) (l : list A) : list A :=
  foldr (insert_sorted lt) [] l.

(** ** Data model (Hamm.cpp:13-26, part_001:27-40) *)

Record Node := mkNode {
  n_item : Z;
  n_freq : Z;
  n_parent : option nat;
  n_children : list (Z * nat);
  n_hlink : option nat
}.

Record Header := mkHeader {
  h_item : Z;
  h_freq : Z;
  h_next : option nat;
  h_tail : option nat
}.

Abbreviation Tree := (list Node).

(** [new Node()] and [new Header()] with their default member values. *)
Definition new_Node : Node := mkNode (-1) 0 None [] None.

#[global] Instance Node_inhabited : Inhabited Node := populate new_Node.

Definition deref (t : Tree) (p : nat) : Node := t !!! p.

Definition set_freq (f : Z) (n : Node) : Node :=
  mkNode (n_item n) f (n_parent n) (n_children n) (n_hlink n).
Definition set_children (c : list (Z * nat)) (n : Node) : Node :=
  mkNode (n_item n) (n_freq n) (n_parent n) c (n_hlink n).
Definition set_hlink (l : option nat) (n : Node) : Node :=
  mkNode (n_item n) (n_freq n) (n_parent n) (n_children n) l.
Definition set_chain (nx tl : option nat) (h : Header) : Header :=
  mkHeader (h_item h) (h_freq h) nx tl.

(** [v[i]] on a vector of [CAP] slots indexed by an [int]. *)
Definition in_cap (i : Z) : bool := (0 <=? i) && (i <? Z.of_nat CAP).

Definition vec_get {A} `{Inhabited A} (v : list A) (i : Z) : outcome A :=
  if (0 <=? i) && (i <? Z.of_nat (length v)) then Done (v !!! Z.to_nat i) else Undefined.

Definition vec_set {A} (v : list A) (i : Z) (x : A) : outcome (list A) :=
  if (0 <=? i) && (i <? Z.of_nat (length v)) then Done (<[Z.to_nat i := x]> v) else Undefined.

(** Hamm.cpp:28-33, part_001:58-63 *)
Fixpoint find_child (cs : list (Z * nat)) (x : Z) : option nat :=
  match cs with
  | [] => None
  | (i, c) :: r => if i =? x then Some c else find_child r x
  end.

Definition get_child (t : Tree) (parent : nat) (x : Z) : option nat :=
  find_child (n_children (deref t parent)) x.

(** Hamm.cpp:35-37, part_001:65-67 *)
Definition add_child (t : Tree) (parent child : nat) : Tree :=
  <[parent := set_children (n_children (deref t parent) ++ [(n_item (deref t child), child)])
                           (deref t parent)]> t.

(** Hamm.cpp:39-47, part_001:69-77: null pointers and infrequent headers are
    erased. *)
Definition remove_infrequent_items (itemList : list (option Header)) (min_sup : Z)
  : list Header :=
  omap (fun oh => match oh with
                  | Some h => if h_freq h <? min_sup then None else Some h
                  | None => None
                  end) itemList.

(** The two comparators of the program.  [cmp_path] orders the items of one
    path (Hamm.cpp:117-120,197-200; part_001:106-109), [cmp_headers] orders a
    header table (Hamm.cpp:101-104; part_001:215-218,268-271). *)
Definition cmp_path (a b : Header) : bool :=
  if h_freq a =? h_freq b then h_item a <? h_item b else h_freq b <? h_freq a.

Definition cmp_headers (a b : Header) : bool :=
  if h_freq a =? h_freq b then h_item a <? h_item b else h_freq a <? h_freq b.

(** Appending a fresh node to the node-link chain of its header
    (Hamm.cpp:137-144,224-231; part_001:125-132).  The header object lives in
    [headerMap]. *)
Definition link_node (t : Tree) (headerMap : list (option Header)) (x : Z) (node : nat)
  : outcome (Tree * list (option Header)) :=
  oh ← vec_get headerMap x;
  match oh with
  | None => Undefined
  | Some header =>
    match h_next header with
    | None =>
      hm ← vec_set headerMap x (Some (set_chain (Some node) (Some node) header));
      Done (t, hm)
    | Some nx =>
      match h_tail header with
      | None => Undefined
      | Some tl =>
        hm ← vec_set headerMap x (Some (set_chain (Some nx) (Some node) header));
        Done (<[tl := set_hlink (Some node) (deref t tl)]> t, hm)
      end
    end
  end.

(** The insertion of one ordered path with its multiplicity
    (Hamm.cpp:122-147, part_001:111-135; Hamm.cpp:207-234 is the same loop
    with [count = 1]). *)
Fixpoint insert_path (sortedPath : list Header) (count : Z) (curr : nat)
    (t : Tree) (headerMap : list (option Header))
  : outcome (Tree * list (option Header)) :=
  match sortedPath with
  | [] => Done (t, headerMap)
  | header :: rest =>
    match get_child t curr (h_item header) with
    | Some child =>
      insert_path rest count child
        (<[child := set_freq (n_freq (deref t child) + count) (deref t child)]> t) headerMap
    | None =>
      let node := length t in
      let t1 := t ++ [mkNode (h_item header) count (Some curr) [] None] in
      let t2 := add_child t1 curr node in
      '(t3, hm) ← link_node t2 headerMap (h_item header) node;
      insert_path rest count node t3 hm
    end
  end.

(** The filter of a raw path through [headerMap]
    (Hamm.cpp:111-116, part_001:100-105). *)
Fixpoint lookup_path (headerMap : list (option Header)) (rawPath : list Z)
  : outcome (list Header) :=
  match rawPath with
  | [] => Done []
  | x :: r =>
    oh ← vec_get headerMap x;
    rest ← lookup_path headerMap r;
    Done (match oh with Some h => h :: rest | None => rest end)
  end.

(** The loop over the pattern base (Hamm.cpp:107-148, part_001:97-136). *)
Fixpoint insert_paths (condPaths : list (list Z * Z)) (t : Tree)
    (headerMap : list (option Header)) : outcome (Tree * list (option Header)) :=
  match condPaths with
  | [] => Done (t, headerMap)
  | (rawPath, count) :: rest =>
    sortedPath ← lookup_path headerMap rawPath;
    '(t', hm') ← insert_path (sort cmp_path sortedPath) count 0%nat t headerMap;
    insert_paths rest t' hm'
  end.

(** Reading the header objects back through the pointers of a header
    vector, after the objects were updated in [headerMap]. *)
Definition reload (headerMap : list (option Header)) (headers : list Header) : list Header :=
  map (fun h => match headerMap !!! Z.to_nat (h_item h) with
                | Some h' => h'
                | None => h
                end) headers.

(** The ancestors of a node, from its parent up to the root, together with
    the update of the conditional counters
    (Hamm.cpp:73-77, part_001:194-198). *)
Fixpoint walk_up (fuel : nat) (t : Tree) (parent : nat) (f : Z)
    (condCounts : list Z) (path : list Z) : outcome (list Z * list Z) :=
  match fuel with
  | O => OutOfFuel
  | S k =>
    let p := deref t parent in
    if n_item p =? -1 then Done (condCounts, path)
    else
      old ← vec_get condCounts (n_item p);
      cc ← vec_set condCounts (n_item p) (old + f);
      match n_parent p with
      | None => Undefined
      | Some pp => walk_up k t pp f cc (path ++ [n_item p])
      end
  end.

(** The candidate headers of the next level
    (Hamm.cpp:89-98, part_001:204-212). *)
Definition make_headers (condCounts : list Z) (min_sup : Z) : list Header :=
  flat_map (fun i : nat =>
              let count := condCounts !!! i in
              if min_sup <=? count then [mkHeader (Z.of_nat i) count None None] else [])
           (seq 0 CAP).

(** A [for] loop whose body appends to the output file. *)
Fixpoint for_each {A B} (body : A -> outcome (list B)) (l : list A) : outcome (list B) :=
  match l with
  | [] => Done []
  | x :: r =>
    out ← body x;
    outs ← for_each body r;
    Done (out ++ outs)
  end.

(** ** The threshold (Hamm.cpp:187, part_001:254)

    [min_sup_rate] is a [float]: the count is converted to binary32, the
    product is a binary32 product, [ceil] is taken on that value and the
    result is converted to [int]. *)
Definition float_of_count (n : Z) : spec_float := binary_normalize 24 128 n 0 false.

Definition ceil_float (x : spec_float) : option Z :=
  match x with
  | S754_zero _ => Some 0
  | S754_finite s m e =>
    let a := if s then Z.neg m else Z.pos m in
    Some (if 0 <=? e then a * 2 ^ e else - ((- a) / 2 ^ (- e)))
  | _ => None
  end.

Definition threshold (min_sup_rate : spec_float) (n : nat) : outcome Z :=
  match ceil_float (SFmul 24 128 min_sup_rate (float_of_count (Z.of_nat n))) with
  | Some c => if (- 2 ^ 31 <=? c) && (c <? 2 ^ 31) then Done c else Undefined
  | None => Undefined
  end.

(** ** Reading the lines *)

Definition is_space (c : ascii) : bool :=
  let n := nat_of_ascii c in
  (Nat.eqb n 32 || (Nat.leb 9 n && Nat.leb n 13))%bool.

Definition is_digit (c : ascii) : bool :=
  let n := nat_of_ascii c in (Nat.leb 48 n && Nat.leb n 57)%bool.

Fixpoint skip_space (cs : list ascii) : list ascii :=
  match cs with
  | c :: r => if is_space c then skip_space r else cs
  | [] => []
  end.

(** The digits at the front of [cs], as a number, and what follows them. *)
Fixpoint read_digits (acc : Z) (seen : bool) (cs : list ascii) : option Z * list ascii :=
  match cs with
  | c :: r =>
    if is_digit c then read_digits (10 * acc + (Z.of_nat (nat_of_ascii c) - 48)) true r
    else (if seen then Some acc else None, cs)
  | [] => (if seen then Some acc else None, [])
  end.

(** An optionally signed decimal [int] after optional blanks: [None] when
    there is no digit or the value does not fit an [int]. *)
Definition read_int (cs : list ascii) : option Z * list ascii :=
  let cs1 := skip_space cs in
  let '(neg, cs2) :=
    match cs1 with
    | c :: r => if Ascii.eqb c "-" then (true, r)
                else if Ascii.eqb c "+" then (false, r) else (false, cs1)
    | [] => (false, cs1)
    end in
  match read_digits 0 false cs2 with
  | (Some v, rest) =>
    let v' := if neg then - v else v in
    (if (- 2 ^ 31 <=? v') && (v' <? 2 ^ 31) then Some v' else None, rest)
  | (None, rest) => (None, rest)
  end.

(** [std::stoi] (Hamm.cpp:174): what follows the number is ignored. *)
Definition stoi (s : list ascii) : outcome Z :=
  match fst (read_int s) with
  | Some v => Done v
  | None => Thrown
  end.

(** [getline(ss, item, ',')] until it fails (Hamm.cpp:173). *)
Fixpoint split_comma (cur : list ascii) (cs : list ascii) : list (list ascii) :=
  match cs with
  | [] => match cur with [] => [] | _ => [cur] end
  | c :: r => if Ascii.eqb c "," then cur :: split_comma [] r
              else split_comma (cur ++ [c]) r
  end.

(** [while (ss >> item_id)] (part_001:245): the loop ends at the first
    extraction that fails. *)
Fixpoint read_ints (fuel : nat) (cs : list ascii) : list Z :=
  match fuel with
  | O => []
  | S k =>
    match read_int cs with
    | (Some v, rest) => v :: read_ints k rest
    | (None, _) => []
    end
  end.

Fixpoint mapM {A B} (f : A -> outcome B) (l : list A) : outcome (list B) :=
  match l with
  | [] => Done []
  | x :: r => y ← f x; ys ← mapM f r; Done (y :: ys)
  end.

Abbreviation output := (list (list Z * Z)).

(** ** src/unnamed/part_001: the miner with the single-node shortcut *)
Module Opt.

(** part_001:79-86 *)
Definition write_output (pattern : list Z) (support : Z) : output :=
  [(sort Z.ltb pattern, support)].

(** part_001:91-95 *)
Fixpoint register (newHeaders : list Header) (headerMap : list (option Header))
  : outcome (list (option Header)) :=
  match newHeaders with
  | [] => Done headerMap
  | h :: r =>
    hm ← vec_set headerMap (h_item h) (Some (set_chain None None h));
    register r hm
  end.

(** part_001:88-138 *)
Definition construct_tree (condPaths : list (list Z * Z)) (newHeaders : list Header)
  : outcome (Tree * list Header) :=
  hm ← register newHeaders (replicate CAP None);
  '(t, hm') ← insert_paths condPaths [new_Node] hm;
  Done (t, reload hm' newHeaders).

(** part_001:140-142 *)
Definition is_single_node (t : Tree) (header : Header) : bool :=
  match h_next header with
  | Some n => match n_hlink (deref t n) with None => true | Some _ => false end
  | None => false
  end.

(** part_001:144-163.  The list argument is the part of the source's [IL]
    from [index] on; [UL] is never read. *)
Fixpoint hamm_search_optimized (IL : list Z) (current_sum : Z)
    (current_pattern : list Z) (min_sup : Z) : output :=
  match IL with
  | [] =>
    match current_pattern with
    | [] => []
    | _ => write_output current_pattern current_sum
    end
  | x :: rest =>
    (if min_sup <=? current_sum
     then hamm_search_optimized rest current_sum current_pattern min_sup
     else [])
    ++ hamm_search_optimized rest current_sum (current_pattern ++ [x]) min_sup
  end.

(** part_001:177-182 *)
Fixpoint collect_IL (fuel : nat) (t : Tree) (curr : nat) (IL : list Z) : outcome (list Z) :=
  match fuel with
  | O => OutOfFuel
  | S k =>
    let c := deref t curr in
    if n_item c =? -1 then Done IL
    else match n_parent c with
         | None => Undefined
         | Some pp => collect_IL k t pp (IL ++ [n_item c])
         end
  end.

(** part_001:191-201 *)
Fixpoint walk_chain (fuel : nat) (t : Tree) (node : option nat)
    (condCounts : list Z) (condPaths : list (list Z * Z))
  : outcome (list Z * list (list Z * Z)) :=
  match node with
  | None => Done (condCounts, condPaths)
  | Some n =>
    match fuel with
    | O => OutOfFuel
    | S k =>
      let nd := deref t n in
      match n_parent nd with
      | None => Undefined
      | Some par =>
        '(cc, path) ← walk_up (length t) t par (n_freq nd) condCounts [];
        walk_chain k t (n_hlink nd) cc
          (match path with [] => condPaths | _ => condPaths ++ [(path, n_freq nd)] end)
      end
    end
  end.

(** The body of the loop of part_001:166-222; [rec] is the recursive call. *)
Definition FP_Growth_body (rec : Tree -> list Header -> list Z -> outcome output)
    (t : Tree) (prefix : list Z) (min_sup : Z) (header : Header) : outcome output :=
  let newPattern := prefix ++ [h_item header] in
  let out := write_output newPattern (h_freq header) in
  if is_single_node t header then
    match h_next header with
    | None => Undefined
    | Some n =>
      match n_parent (deref t n) with
      | None => Undefined
      | Some par =>
        IL ← collect_IL (length t) t par [];
        Done (out ++ hamm_search_optimized IL (h_freq header) newPattern min_sup)
      end
    end
  else
    '(condCounts, condPaths) ← walk_chain (length t) t (h_next header) (replicate CAP 0) [];
    match make_headers condCounts min_sup with
    | [] => Done out
    | newHeaders =>
      '(newRoot, hs) ← construct_tree condPaths (sort cmp_headers newHeaders);
      sub ← rec newRoot hs newPattern;
      Done (out ++ sub)
    end.

(** part_001:165-223 *)
Fixpoint FP_Growth (fuel : nat) (t : Tree) (headers : list Header) (prefix : list Z)
    (min_sup : Z) : outcome output :=
  match fuel with
  | O => OutOfFuel
  | S k =>
    for_each (FP_Growth_body (fun t' hs p => FP_Growth k t' hs p min_sup) t prefix min_sup)
             headers
  end.

(** [temp_counts[item_id]++] on a [std::map<int,int>], kept in key order. *)
Fixpoint map_incr (k : Z) (m : list (Z * Z)) : list (Z * Z) :=
  match m with
  | [] => [(k, 1)]
  | (k', v) :: r =>
    if k =? k' then (k', v + 1) :: r
    else if k <? k' then (k, 1) :: m
    else (k', v) :: map_incr k r
  end.

(** part_001:240-251: a line that is empty is skipped. *)
Definition read_transactions (lines : list string) : list (list Z) :=
  flat_map (fun line =>
              match line with
              | EmptyString => []
              | _ => [read_ints (S (String.length line)) (list_ascii_of_string line)]
              end) lines.

(** part_001:256-266 *)
Fixpoint frequent_headers (temp_counts : list (Z * Z)) (min_sup : Z)
    (headers : list Header) (header_map : list (option Header))
  : outcome (list Header * list (option Header)) :=
  match temp_counts with
  | [] => Done (headers, header_map)
  | (id, f) :: r =>
    if min_sup <=? f then
      let h := mkHeader id f None None in
      hm ← vec_set header_map id (Some h);
      frequent_headers r min_sup (headers ++ [h]) hm
    else frequent_headers r min_sup headers header_map
  end.

(** part_001:276-282 *)
Fixpoint filter_path (header_map : list (option Header)) (trans : list Z)
  : outcome (list Z) :=
  match trans with
  | [] => Done []
  | id :: r =>
    oh ← vec_get header_map id;
    rest ← filter_path header_map r;
    Done (match oh with Some _ => id :: rest | None => rest end)
  end.

Fixpoint initial_paths (header_map : list (option Header)) (transactions : list (list Z))
  : outcome (list (list Z * Z)) :=
  match transactions with
  | [] => Done []
  | trans :: r =>
    filtered_path ← filter_path header_map trans;
    rest ← initial_paths header_map r;
    Done (match filtered_path with [] => rest | _ => (filtered_path, 1) :: rest end)
  end.

(** [max_id_found + 1] (part_001:257) is an addition of [int]s: at the
    largest [int] it overflows, which is undefined.  Below it the vector is
    allocated; storage is not bounded here, an allocation does not fail. *)
Definition header_map_size (max_id_found : Z) : outcome nat :=
  if max_id_found + 1 <? 2 ^ 31 then Done (Z.to_nat (max_id_found + 1)) else Undefined.

(** part_001:254-291, after the lines were read: the counters
    [temp_counts] and [max_id_found] are those of the reading loop. *)
Definition mine (fuel : nat) (min_sup : Z) (transactions : list (list Z)) : outcome output :=
  let temp_counts := foldl (fun m id => map_incr id m) [] (concat transactions) in
  let max_id_found := foldl Z.max 0 (concat transactions) in
  size ← header_map_size max_id_found;
  '(headers0, header_map) ←
     frequent_headers temp_counts min_sup [] (replicate size None);
  let headers := remove_infrequent_items (map Some (sort cmp_headers headers0)) min_sup in
  initialPaths ← initial_paths header_map transactions;
  '(root, hs) ← construct_tree initialPaths headers;
  FP_Growth fuel root hs [] min_sup.

(** part_001:225-306 *)
Definition main (fuel : nat) (min_sup_rate : spec_float) (lines : list string)
  : outcome output :=
  let transactions := read_transactions lines in
  min_sup ← threshold min_sup_rate (length transactions);
  mine fuel min_sup transactions.

End Opt.

(** ** src/Hamm.cpp: the plain recursive miner *)
Module Hamm.

(** Hamm.cpp:49-57.  The pattern is sorted in place; the support is printed
    as the ratio [support / total_transactions] with four decimals, which is
    a rendering of the pair recorded here. *)
Definition write_output (pattern : list Z) (support : Z) : output :=
  [(sort Z.ltb pattern, support)].

(** Hamm.cpp:69-84: the path starts with the item of the node itself and is
    reversed at the end. *)
Fixpoint walk_chain (fuel : nat) (t : Tree) (node : option nat)
    (condCounts : list Z) (condPaths : list (list Z * Z))
  : outcome (list Z * list (list Z * Z)) :=
  match node with
  | None => Done (condCounts, condPaths)
  | Some n =>
    match fuel with
    | O => OutOfFuel
    | S k =>
      let nd := deref t n in
      match n_parent nd with
      | None => Undefined
      | Some par =>
        '(cc, path) ← walk_up (length t) t par (n_freq nd) condCounts [n_item nd];
        walk_chain k t (n_hlink nd) cc (condPaths ++ [(rev path, n_freq nd)])
      end
    end
  end.

(** Hamm.cpp:87-98: the table [headerMap] of the next level. *)
Definition make_headerMap (condCounts : list Z) (min_sup : Z) : list (option Header) :=
  map (fun i : nat =>
         let count := condCounts !!! i in
         if min_sup <=? count then Some (mkHeader (Z.of_nat i) count None None) else None)
      (seq 0 CAP).

(** The body of the loop of Hamm.cpp:60-150; [rec] is the recursive call. *)
Definition FP_Growth_body (rec : Tree -> list Header -> list Z -> outcome output)
    (t : Tree) (prefix : list Z) (min_sup : Z) (header : Header) : outcome output :=
  let out := write_output (prefix ++ [h_item header]) (h_freq header) in
  let newPattern := sort Z.ltb (prefix ++ [h_item header]) in
  '(condCounts, condPaths) ← walk_chain (length t) t (h_next header) (replicate CAP 0) [];
  match make_headers condCounts min_sup with
  | [] => Done out
  | newHeaders =>
    '(newRoot, hm) ← insert_paths condPaths [new_Node] (make_headerMap condCounts min_sup);
    sub ← rec newRoot (reload hm (sort cmp_headers newHeaders)) newPattern;
    Done (out ++ sub)
  end.

(** Hamm.cpp:59-151.  The tree the headers point into is passed along. *)
Fixpoint FP_Growth (fuel : nat) (t : Tree) (headers : list Header) (prefix : list Z)
    (min_sup : Z) : outcome output :=
  match fuel with
  | O => OutOfFuel
  | S k =>
    for_each (FP_Growth_body (fun t' hs p => FP_Growth k t' hs p min_sup) t prefix min_sup)
             headers
  end.

(** Hamm.cpp:175-181: the counter of one item in the table of headers. *)
Definition count_item (itemVal : Z) (headers : list (option Header))
  : outcome (list (option Header)) :=
  oh ← vec_get headers itemVal;
  vec_set headers itemVal
    (Some match oh with
          | None => mkHeader itemVal 1 None None
          | Some h => mkHeader (h_item h) (h_freq h + 1) (h_next h) (h_tail h)
          end).

(** Hamm.cpp:173-182: the tokens of one line; a token that is no number
    throws.  The transaction holds the items; the pointers into the table
    are read once all the counts are final. *)
Fixpoint read_line (tokens : list (list ascii)) (headers : list (option Header))
    (transaction : list Z) : outcome (list (option Header) * list Z) :=
  match tokens with
  | [] => Done (headers, transaction)
  | item :: r =>
    itemVal ← stoi item;
    hs ← count_item itemVal headers;
    read_line r hs (transaction ++ [itemVal])
  end.

(** Hamm.cpp:169-184: no line is skipped. *)
Fixpoint read_lines (lines : list string) (headers : list (option Header))
    (transactions : list (list Z)) : outcome (list (option Header) * list (list Z)) :=
  match lines with
  | [] => Done (headers, transactions)
  | line :: r =>
    '(hs, transaction) ← read_line (split_comma [] (list_ascii_of_string line)) headers [];
    read_lines r hs (transactions ++ [transaction])
  end.

(** The table of the reading loop as a function of the items read. *)
Fixpoint count_items (trans : list Z) (headers : list (option Header))
  : outcome (list (option Header)) :=
  match trans with
  | [] => Done headers
  | itemVal :: r => hs ← count_item itemVal headers; count_items r hs
  end.

(** Hamm.cpp:189-192 *)
Definition cmp_main (a b : option Header) : bool :=
  match a, b with
  | Some a, Some b =>
    if h_freq a =? h_freq b then h_item b <? h_item a else h_freq a <? h_freq b
  | Some _, None => true
  | None, _ => false
  end.

(** Hamm.cpp:206-235 *)
Fixpoint build_tree (transactions : list (list Header)) (t : Tree)
    (headers : list (option Header)) : outcome (Tree * list (option Header)) :=
  match transactions with
  | [] => Done (t, headers)
  | transaction :: rest =>
    '(t', hs) ← insert_path transaction 1 0%nat t headers;
    build_tree rest t' hs
  end.

(** Hamm.cpp:187-239, after the lines were read.  [table] is the table of
    the reading loop. *)
Definition mine_from (fuel : nat) (min_sup : Z) (table : list (option Header))
    (transactions : list (list Z)) : outcome output :=
  let headers := remove_infrequent_items (sort cmp_main table) min_sup in
  let transactions' :=
    map (fun trans =>
           remove_infrequent_items
             (map Some (sort cmp_path (omap (fun x => table !!! Z.to_nat x) trans))) min_sup)
        transactions in
  '(root, table') ← build_tree transactions' [new_Node] table;
  FP_Growth fuel root (reload table' headers) [] min_sup.

(** Hamm.cpp:153-242 *)
Definition main (fuel : nat) (min_sup_rate : spec_float) (lines : list string)
  : outcome output :=
  '(table, transactions) ← read_lines lines (replicate CAP None) [];
  min_sup ← threshold min_sup_rate (length transactions);
  mine_from fuel min_sup table transactions.

(** The program on the transactions of its input: the table is the one the
    reading loop leaves for them. *)
Definition mine (fuel : nat) (min_sup : Z) (transactions : list (list Z)) : outcome output :=
  table ← count_items (concat transactions) (replicate CAP None);
  mine_from fuel min_sup table transactions.

End Hamm.


(** ** The text of the files

    [outfile << n] for an [int] (Hamm.cpp:52, part_001:82,85): the decimal
    digits, after a minus sign for a negative value. *)
Definition digit_char (d : Z) : ascii := ascii_of_nat (48 + Z.to_nat d).

Fixpoint show_digits (fuel : nat) (n : Z) (acc : list ascii) : list ascii :=
  match fuel with
  | O => acc
  | S k =>
    if n <? 10 then digit_char n :: acc
    else show_digits k (n / 10) (digit_char (n mod 10) :: acc)
  end.

Definition show_nat (n : Z) : list ascii := show_digits (S (Z.to_nat (Z.log2 n))) n [].

Definition show_int (n : Z) : list ascii :=
  if n <? 0 then "-"%char :: show_nat (- n) else show_nat n.

(** The loop that writes the items of a pattern with a separator between
    them (Hamm.cpp:51-53, part_001:81-83). *)
Fixpoint join_items (sep : list ascii) (pattern : list Z) : list ascii :=
  match pattern with
  | [] => []
  | [x] => show_int x
  | x :: r => show_int x ++ sep ++ join_items sep r
  end.

(** The line part_001 writes for a pair of its output (part_001:79-86),
    without the newline at its end. *)
Definition Opt_line (e : list Z * Z) : string :=
  string_of_list_ascii
    (join_items [" "%char] (fst e) ++ list_ascii_of_string " #SUP: " ++ show_int (snd e)).
(** ** Reference notions: itemsets and supports *)

(** [S] is included in [p], as sets of items. *)
Definition incl_b (S p : list Z) : bool :=
  forallb (fun x => existsb (Z.eqb x) p) S.

Definition sumZ (l : list Z) : Z := foldr Z.add 0 l.

(** The support of [S] in a database of paths with multiplicities. *)
Definition wsupp (db : list (list Z * Z)) (S : list Z) : Z :=
  sumZ (map (fun pc => if incl_b S (fst pc) then snd pc else 0) db).

(** The number of transactions whose item set includes [I], by brute force. *)
Definition support (D : list (list Z)) (I : list Z) : Z :=
  Z.of_nat (length (List.filter (incl_b I) D)).

(** The transaction databases both programs are meant for: every line is a
    set of items, and every item fits the per-item vectors. *)
Definition wf_db (D : list (list Z)) : Prop :=
  Forall (fun trans => NoDup trans /\ Forall (fun x => in_cap x = true) trans) D.

(** ** Shape of an arena *)

(** The items met from node [i] up to the root, the root excluded. *)
Fixpoint upto (fuel : nat) (t : Tree) (i : nat) : list Z :=
  match fuel with
  | O => []
  | S k =>
    let n := deref t i in
    if n_item n =? -1 then []
    else n_item n :: match n_parent n with Some j => upto k t j | None => [] end
  end.

Definition pathup (t : Tree) (i : nat) : list Z := upto (S i) t i.

(** The same items from the root down to node [i]. *)
Definition npath (t : Tree) (i : nat) : list Z := rev (pathup t i).

(** The nodes that hold item [x], in the order of their creation. *)
Definition nodes_with (x : Z) (t : Tree) : list nat :=
  List.filter (fun i => n_item (deref t i) =? x) (seq 1 (length t - 1)).

(** [l] is the node-link chain that starts at [o]. *)
Fixpoint chain_rel (t : Tree) (o : option nat) (l : list nat) : Prop :=
  match l with
  | [] => o = None
  | i :: l' => o = Some i /\ chain_rel t (n_hlink (deref t i)) l'
  end.

Record wf_tree (t : Tree) : Prop := {
  wf_len : (0 < length t)%nat;
  wf_root : n_item (deref t 0) = -1;
  wf_par : forall i, (0 < i < length t)%nat ->
           exists j, n_parent (deref t i) = Some j /\ (j < i)%nat;
  wf_item : forall i, (0 < i < length t)%nat -> in_cap (n_item (deref t i)) = true;
  wf_child_sound : forall j x c, (j < length t)%nat -> get_child t j x = Some c ->
           (0 < c < length t)%nat /\ n_parent (deref t c) = Some j /\ n_item (deref t c) = x;
  wf_child_complete : forall c j, (0 < c < length t)%nat ->
           n_parent (deref t c) = Some j -> get_child t j (n_item (deref t c)) = Some c
}.

(** The header objects of a table describe the chains of the tree. *)
Record wf_table (t : Tree) (hm : list (option Header)) : Prop := {
  wt_len : length hm = CAP;
  wt_chain : forall (x : nat) h, hm !! x = Some (Some h) ->
             h_item h = Z.of_nat x /\
             chain_rel t (h_next h) (nodes_with (Z.of_nat x) t) /\
             h_tail h = last (nodes_with (Z.of_nat x) t);
  wt_nodes : forall i, (0 < i < length t)%nat ->
             exists h, hm !! Z.to_nat (n_item (deref t i)) = Some (Some h)
}.

(** [p] is a prefix of [q]. *)
Fixpoint is_prefix_b (p q : list Z) : bool :=
  match p, q with
  | [], _ => true
  | x :: p', y :: q' => (x =? y) && is_prefix_b p' q'
  | _ :: _, [] => false
  end.

(** The paths [ps] (from the root down) with their multiplicities are what
    the tree [t] stores. *)
Record tree_counts (t : Tree) (ps : list (list Z * Z)) : Prop := {
  tc_freq : forall i, (0 < i < length t)%nat ->
            n_freq (deref t i) =
            sumZ (map (fun qc => if is_prefix_b (npath t i) (fst qc) then snd qc else 0) ps);
  tc_cover : forall q c r, (q, c) ∈ ps -> r <> [] -> is_prefix_b r q = true ->
             exists i, (0 < i < length t)%nat /\ npath t i = r;
  tc_support : forall i, (0 < i < length t)%nat ->
             exists q c, (q, c) ∈ ps /\ is_prefix_b (npath t i) q = true
}.

(** A table without its chain pointers. *)
Definition strip (hm : list (option Header)) : list (option Header) :=
  map (option_map (set_chain None None)) hm.

(** Two arenas with the same items and parents below [b]. *)
Definition same_skel (b : nat) (t t' : Tree) : Prop :=
  forall i, (i < b)%nat ->
    n_item (deref t' i) = n_item (deref t i) /\ n_parent (deref t' i) = n_parent (deref t i).

(** A header of the table, within the capacity. *)
Definition registered (hm : list (option Header)) (h : Header) : Prop :=
  in_cap (h_item h) = true /\ exists h', hm !! Z.to_nat (h_item h) = Some (Some h').

(** What the counter of a node gains when the path [q1 ++ q2] is inserted
    from the node of path [q1] on. *)
Definition gain (q1 q2 p : list Z) (c : Z) : Z :=
  if is_prefix_b p (q1 ++ q2) && (length q1 <? length p)%nat then c else 0.

(** The header of item [x] in a table, without its chain pointers. *)
Definition hdr (hm : list (option Header)) (x : Z) : option Header :=
  strip hm !!! Z.to_nat x.

(** The items of a raw path that have a header, in the order of the tree. *)
Definition path_items (hm : list (option Header)) (p : list Z) : list Z :=
  map h_item (sort cmp_path (omap (hdr hm) p)).

Definition ps_of (hm : list (option Header)) (cps : list (list Z * Z)) : list (list Z * Z) :=
  map (fun pc => (path_items hm (fst pc), snd pc)) cps.

(** ** Projections *)

(** The conditional pattern base of item [x] in the tree: for every node
    of its chain, the ancestors (upwards) and the counter of the node. *)
Definition parent_path (t : Tree) (i : nat) : list Z :=
  match n_parent (deref t i) with
  | Some j => pathup t j
  | None => []
  end.

Definition proj (t : Tree) (x : Z) : list (list Z * Z) :=
  map (fun i => (parent_path t i, n_freq (deref t i))) (nodes_with x t).

(** The counters after one path was walked. *)
Definition add_all (p : list Z) (f : Z) (cc : list Z) : list Z :=
  foldl (fun cc x => <[Z.to_nat x := cc !!! Z.to_nat x + f]> cc) cc p.

Definition add_base (base : list (list Z * Z)) (cc : list Z) : list Z :=
  foldl (fun cc e => add_all (fst e) (snd e) cc) cc base.

(** The items of [q] before [x]. *)
Fixpoint before (x : Z) (q : list Z) : list Z :=
  match q with
  | [] => []
  | y :: r => if y =? x then [] else y :: before x r
  end.

(** The conditional pattern base of [x] in a database of ordered paths. *)
Definition project (x : Z) (ps : list (list Z * Z)) : list (list Z * Z) :=
  flat_map (fun qc => if existsb (Z.eqb x) (fst qc) then [(before x (fst qc), snd qc)] else [])
           ps.

(** The order of the items in the paths of a tree whose header of item [x]
    has frequency [fr x]: [cmp_path] on the items. *)
Definition lt_fr (fr : Z -> Z) (x y : Z) : bool :=
  if fr x =? fr y then x <? y else fr y <? fr x.

(** A level of the recursion: the tree [t] and the header vector [hs] were
    built from the ordered paths [ps], under the threshold [ms]. *)
Record level (ms : Z) (ps : list (list Z * Z)) (t : Tree) (hs : list Header) : Prop := {
  lv_wf : wf_tree t;
  lv_counts : tree_counts t ps;
  lv_nodup : NoDup (map h_item hs);
  lv_header : forall h, h ∈ hs ->
      in_cap (h_item h) = true /\
      chain_rel t (h_next h) (nodes_with (h_item h) t) /\
      h_freq h = wsupp ps [h_item h] /\ ms <= h_freq h;
  lv_paths : forall q c, (q, c) ∈ ps ->
      0 < c /\
      StronglySorted (fun x y => lt_fr (fun z => wsupp ps [z]) x y = true) q /\
      (forall x, x ∈ q -> x ∈ map h_item hs)
}.

(** The entries of a pattern base that part_001 keeps. *)
Definition nonempty_paths (base : list (list Z * Z)) : list (list Z * Z) :=
  List.filter (fun e => match fst e with [] => false | _ => true end) base.

(** The table [hm0] holds exactly the headers [hs], none of them linked to
    a node yet. *)
Record table_of (hs : list Header) (hm0 : list (option Header)) : Prop := {
  to_len : length hm0 = CAP;
  to_sound : forall (k : nat) h, hm0 !! k = Some (Some h) ->
             h ∈ hs /\ h_item h = Z.of_nat k /\ h_next h = None /\ h_tail h = None;
  to_complete : forall h, h ∈ hs ->
             in_cap (h_item h) = true /\ hm0 !! Z.to_nat (h_item h) = Some (Some h)
}.

(** ** What the miner must write *)

(** The entries for the itemsets [prefix ∪ S], [S] not empty, frequent in
    the database [ps]. *)
Definition mined (ms : Z) (ps : list (list Z * Z)) (prefix : list Z) (e : list Z * Z) : Prop :=
  exists S, S <> [] /\ NoDup S /\ snd e = wsupp ps S /\ ms <= snd e /\
            fst e = sort Z.ltb (prefix ++ S).

(** Those among them whose last item, in the order of the level, is [x]. *)
Definition mined_at (ms : Z) (ps : list (list Z * Z)) (x : Z) (prefix : list Z)
    (e : list Z * Z) : Prop :=
  exists S, NoDup (x :: S) /\
            (forall y, y ∈ S -> lt_fr (fun z => wsupp ps [z]) y x = true) /\
            snd e = wsupp ps (x :: S) /\ ms <= snd e /\
            fst e = sort Z.ltb (prefix ++ x :: S).

(** The pattern base src/Hamm.cpp collects for item [x]: every node of the
    chain, with its own item at the end of the path. *)
Definition base_Hamm (t : Tree) (x : Z) : list (list Z * Z) :=
  map (fun i => (npath t i, n_freq (deref t i))) (nodes_with x t).

(** The pattern base part_001 collects: the nodes of the chain that have an
    ancestor. *)
Definition base_Opt (t : Tree) (x : Z) : list (list Z * Z) := nonempty_paths (proj t x).

(** ** Counting *)

(** The number of occurrences of [x] in a list of items. *)
Definition cnt (x : Z) (l : list Z) : Z :=
  Z.of_nat (length (List.filter (Z.eqb x) l)).

(** The value of a key in the counters of part_001 ([0] when absent). *)
Definition mget (m : list (Z * Z)) (k : Z) : Z :=
  sumZ (map snd (List.filter (fun kv => fst kv =? k) m)).

(** The itemsets the miner must report for the database [D] under the
    threshold [ms], with their supports: the non-empty sets of items with
    a support of at least [ms], written in increasing order. *)
Definition frequent (ms : Z) (D : list (list Z)) (e : list Z * Z) : Prop :=
  exists S, S <> [] /\ NoDup S /\ snd e = support D S /\ ms <= snd e /\
            fst e = sort Z.ltb S.

(** ** The first pass of part_001 *)

(** Whether the item has an entry in the table of frequent items. *)
Definition has_header (header_map : list (option Header)) (id : Z) : bool :=
  match header_map !!! Z.to_nat id with Some _ => true | None => false end.

(** The headers made from the counters that reach the threshold. *)
Definition headers_of_counts (ms : Z) (tc : list (Z * Z)) : list Header :=
  map (fun kv => mkHeader (fst kv) (snd kv) None None)
      (List.filter (fun kv => ms <=? snd kv) tc).

(** The transactions restricted to the items of the table. *)
Definition restrict (header_map : list (option Header)) (D : list (list Z))
  : list (list Z * Z) :=
  map (fun trans => (List.filter (has_header header_map) trans, 1)) D.

(** ** The first pass of Hamm.cpp *)

(** The counter of item [k] in the table of the reading loop. *)
Definition table_freq (tb : list (option Header)) (k : nat) : Z :=
  match tb !!! k with Some h => h_freq h | None => 0 end.

(** The entries of the table were made by the reading loop. *)
Definition counted (tb : list (option Header)) : Prop :=
  forall (k : nat) h, tb !! k = Some (Some h) ->
    h = mkHeader (Z.of_nat k) (h_freq h) None None /\ 0 < h_freq h.

(** The header of item [x] once the database [D] was read. *)
Definition header_of (D : list (list Z)) (x : Z) : Header :=
  mkHeader x (support D [x]) None None.

(** The table of the reading loop for the database [D]. *)
Definition counts_table (D : list (list Z)) (tb : list (option Header)) : Prop :=
  length tb = CAP /\
  forall k : nat, (k < CAP)%nat ->
    tb !! k = Some (if 0 <? support D [Z.of_nat k]
                    then Some (header_of D (Z.of_nat k)) else None).

(** The sorted and pruned transactions of Hamm.cpp:196-202. *)
Definition pruned (ms : Z) (D : list (list Z)) : list (list Header) :=
  map (fun trans =>
         remove_infrequent_items (map Some (sort cmp_path (map (header_of D) trans))) ms) D.

(** The paths of a list of transactions, one occurrence each. *)
Definition paths_of (txs : list (list Header)) : list (list Z * Z) :=
  map (fun tx => (map h_item tx, 1)) txs.

(** ** Runs without a fault *)

(** An outcome without a fault: a result, or a recursion deeper than the fuel. *)
Definition faultless {A} (o : outcome A) : Prop :=
  match o with
  | Done _ | OutOfFuel => True
  | Undefined | Thrown => False
  end.

(** What [FP_Growth] needs to walk a tree: the tree is well formed, every
    header of the vector is within the capacity and points at the node-link
    chain of its item, and no counter is negative. *)
Record walkable (t : Tree) (hs : list Header) : Prop := {
  wk_wf : wf_tree t;
  wk_header : forall h, h ∈ hs ->
      in_cap (h_item h) = true /\ chain_rel t (h_next h) (nodes_with (h_item h) t);
  wk_freq : forall i, (0 < i < length t)%nat -> 0 <= n_freq (deref t i)
}.


(** The nodes of a node-link chain, as the loop of Hamm.cpp:69-84 and
    part_001:191-201 meets them: from [o] on, following [hlink]. *)
Fixpoint chain_nodes (fuel : nat) (t : Tree) (o : option nat) : list nat :=
  match fuel, o with
  | S k, Some n => n :: chain_nodes k t (n_hlink (deref t n))
  | _, _ => []
  end.

(** ** Items repeated within a transaction *)




(** ** Thresholds *)

(** Some binary32 ratios: [1.0], [0.5], and the values nearest to [0.6] and
    to [0.3]. *)
Definition one : spec_float := S754_finite false 8388608 (-23).
Definition half : spec_float := S754_finite false 8388608 (-24).
Definition ratio_06 : spec_float := S754_finite false 10066330 (-24).
Definition ratio_03 : spec_float := S754_finite false 10066330 (-25).

(** The ceiling of [(p / q) * n] in exact arithmetic, [q] positive. *)
Definition ceil_ratio (p q : Z) (n : nat) : Z := - ((- (p * Z.of_nat n)) / q).

(** The ceiling of [r * n] in exact arithmetic, for the number that the
    binary32 value [r] stands for. *)
Definition threshold_exact (r : spec_float) (n : nat) : option Z :=
  match r with
  | S754_zero _ => Some 0
  | S754_finite s m e =>
    let a := (if s then Z.neg m else Z.pos m) * Z.of_nat n in
    Some (if 0 <=? e then a * 2 ^ e else - ((- a) / 2 ^ (- e)))
  | _ => None
  end.

(** ** Inputs *)

(** Four transactions over three items. *)
Definition db_small : list (list Z) := [[1; 2; 3]; [1; 2]; [1]; [2; 3]].

(** ** Hamm.cpp up to the call of [FP_Growth] *)

(** The tree and the headers [main] hands to [FP_Growth]. *)
Definition Hamm_first_pass (min_sup : Z) (table : list (option Header))
    (transactions : list (list Z)) : outcome (Tree * list Header) :=
  let headers := remove_infrequent_items (sort Hamm.cmp_main table) min_sup in
  let transactions' :=
    map (fun trans =>
           remove_infrequent_items
             (map Some (sort cmp_path (omap (fun x => table !!! Z.to_nat x) trans))) min_sup)
        transactions in
  '(root, table') ← Hamm.build_tree transactions' [new_Node] table;
  Done (root, reload table' headers).

(** The same from the lines of the input, with the threshold. *)
Definition Hamm_setup (min_sup_rate : spec_float) (lines : list string)
  : outcome (Z * (Tree * list Header)) :=
  '(table, transactions) ← Hamm.read_lines lines (replicate CAP None) [];
  min_sup ← threshold min_sup_rate (length transactions);
  th ← Hamm_first_pass min_sup table transactions;
  Done (min_sup, th).

(** The tree of the line [1,1], and of every level below it: the item is
    its own ancestor.  [a] is the counter of the upper node. *)
Definition loop_tree (a : Z) : Tree :=
  [ mkNode (-1) 0 None [(1, 1%nat)] None;
    mkNode 1 a (Some 0%nat) [(1, 2%nat)] (Some 2%nat);
    mkNode 1 1 (Some 1%nat) [] None ].

Definition loop_header (f : Z) : Header := mkHeader 1 f (Some 1%nat) (Some 2%nat).

(** The significand of a finite binary32 value. *)
Definition mantissa (r : spec_float) : Z :=
  match r with S754_finite _ m _ => Z.pos m | _ => 0 end.

(** ** The first pass of part_001, up to the call of [FP_Growth] *)

Definition Opt_first_pass (min_sup : Z) (transactions : list (list Z))
  : outcome (Tree * list Header) :=
  let temp_counts := foldl (fun m id => Opt.map_incr id m) [] (concat transactions) in
  let max_id_found := foldl Z.max 0 (concat transactions) in
  size ← Opt.header_map_size max_id_found;
  '(headers0, header_map) ←
     Opt.frequent_headers temp_counts min_sup [] (replicate size None);
  let headers := remove_infrequent_items (map Some (sort cmp_headers headers0)) min_sup in
  initialPaths ← Opt.initial_paths header_map transactions;
  Opt.construct_tree initialPaths headers.

(** The calls of [FP_Growth] in a run of part_001 on the database [D]: the
    call of [main], and the call of part_001:221 for a header of a reached
    call whose chain does not hold exactly one node and whose conditional
    header table is not empty.  The arguments are the tree, the header
    vector and the prefix. *)
Inductive Opt_reach (ms : Z) (D : list (list Z)) : Tree -> list Header -> list Z -> Prop :=
| reach_main (t : Tree) hs :
    Opt_first_pass ms D = Done (t, hs) -> Opt_reach ms D t hs []
| reach_call (t : Tree) hs prefix header condCounts condPaths (newRoot : Tree) hs' :
    Opt_reach ms D t hs prefix -> header ∈ hs ->
    Opt.is_single_node t header = false ->
    Opt.walk_chain (length t) t (h_next header) (replicate CAP 0) [] =
      Done (condCounts, condPaths) ->
    make_headers condCounts ms <> [] ->
    Opt.construct_tree condPaths (sort cmp_headers (make_headers condCounts ms)) =
      Done (newRoot, hs') ->
    Opt_reach ms D newRoot hs' (prefix ++ [h_item header]).

(** Three transactions with the items 1, 2, 3 and one with the item 3 only:
    the item 3 has two nodes, and its conditional tree is a path. *)
Definition db_deep : list (list Z) := [[1; 2; 3]; [1; 2; 3]; [3]; [1; 2]].

(** The tree [t] and the header vector [hs] are those of a call of
    [FP_Growth] with the prefix [prefix], in a run on the database [D]: the
    call of [main] in Hamm.cpp, or any call in part_001. *)
Definition tree_of_run (ms : Z) (D : list (list Z)) (t : Tree) (hs : list Header)
    (prefix : list Z) : Prop :=
  (prefix = [] /\
   exists tb, Hamm.count_items (concat D) (replicate CAP None) = Done tb /\
              Hamm_first_pass ms tb D = Done (t, hs)) \/
  Opt_reach ms D t hs prefix.

(** The tree and the header vector that part_001 builds for [db_small] under
    the threshold 2. *)
Definition tree_small : Tree :=
  [ mkNode (-1) 0 None [(1, 1%nat); (2, 4%nat)] None;
    mkNode 1 3 (Some 0%nat) [(2, 2%nat)] None;
    mkNode 2 2 (Some 1%nat) [(3, 3%nat)] (Some 4%nat);
    mkNode 3 1 (Some 2%nat) [] (Some 5%nat);
    mkNode 2 1 (Some 0%nat) [(3, 5%nat)] None;
    mkNode 3 1 (Some 4%nat) [] None ].

Definition headers_small : list Header :=
  [ mkHeader 3 2 (Some 3%nat) (Some 5%nat);
    mkHeader 1 3 (Some 1%nat) (Some 1%nat);
    mkHeader 2 3 (Some 2%nat) (Some 4%nat) ].

(** ** src/unnamed/part_002: the table and the transactions after the sorts

    What [main] of part_002 holds when it returns: the header vector after
    its sort and the removal of the infrequent entries (lines 75-80), and
    the transactions after theirs (lines 82-88).  Hamm.cpp:189-202 and
    part_003:95-108 are the same code. *)
Definition sort_and_prune (min_sup : Z) (table : list (option Header))
    (transactions : list (list Z)) : list Header * list (list Header) :=
  (remove_infrequent_items (sort Hamm.cmp_main table) min_sup,
   map (fun trans =>
          remove_infrequent_items
            (map Some (sort cmp_path (omap (fun x => table !!! Z.to_nat x) trans))) min_sup)
       transactions).



(** * Proofs *)

(** ** Outcomes *)

Lemma bind_Done {A B} (m : outcome A) (f : A -> outcome B) b :
  (m ≫= f) = Done b -> exists a, m = Done a /\ f a = Done b.
Proof. destruct m; simpl; intros H; try discriminate. eauto. Qed.

Lemma bind_Done_l {A B} (m : outcome A) (f : A -> outcome B) a :
  m = Done a -> (m ≫= f) = f a.
Proof. intros ->. reflexivity. Qed.

Ltac inv_bind H :=
  repeat match type of H with
  | (_ ≫= _) = Done _ =>
    let a := fresh "a" in let Ha := fresh "Ha" in
    apply bind_Done in H; destruct H as (a & Ha & H)
  end.

Lemma for_each_Done {A B} (body : A -> outcome (list B)) l out :
  for_each body l = Done out ->
  forall e, e ∈ out <-> exists x o, x ∈ l /\ body x = Done o /\ e ∈ o.
Proof.
  revert out. induction l as [|x l IH]; simpl; intros out H e.
  - inversion H; subst. split; [by intros ?%elem_of_nil|].
    by intros (?&?&?%elem_of_nil&_).
  - apply bind_Done in H. destruct H as (o & Ho & H).
    apply bind_Done in H. destruct H as (os & Hos & H).
    inversion H; subst. rewrite elem_of_app, (IH _ Hos e). split.
    + intros [He|(y & o' & Hy & Hb & He)].
      * exists x, o. split; [by left|auto].
      * exists y, o'. split; [by right|auto].
    + intros (y & o' & Hy & Hb & He). apply elem_of_cons in Hy as [->|Hy].
      * left. congruence.
      * right. exists y, o'. auto.
Qed.

Lemma for_each_total {A B} (body : A -> outcome (list B)) l :
  (forall x, x ∈ l -> exists o, body x = Done o) ->
  exists out, for_each body l = Done out.
Proof.
  induction l as [|x l IH]; simpl; intros H; [eauto|].
  destruct (H x) as [o Ho]; [by left|].
  destruct IH as [os Hos]; [intros; apply H; by right|].
  rewrite Ho. simpl. rewrite Hos. simpl. eauto.
Qed.

(** ** Sorting *)
Section Sorting.
Context {A : Type} (lt : A -> A -> bool) (P : A -> Prop).
Hypothesis lt_trans : forall a b c, P a -> P b -> P c ->
  lt a b = true -> lt b c = true -> lt a c = true.
Hypothesis lt_asym : forall a b, P a -> P b -> lt a b = true -> lt b a = false.
Hypothesis lt_total : forall a b, P a -> P b -> lt a b = false -> lt b a = false -> a = b.

Let le (a b : A) : Prop := lt b a = false.

Lemma insert_sorted_perm x l : Permutation (insert_sorted lt x l) (x :: l).
Proof.
  induction l as [|y l IH]; simpl; [reflexivity|].
  destruct (lt x y); [reflexivity|].
  rewrite IH. apply perm_swap.
Qed.

Lemma sort_perm l : Permutation (sort lt l) l.
Proof.
  induction l as [|x l IH]; simpl; [reflexivity|].
  unfold sort in *. simpl. rewrite insert_sorted_perm. by constructor.
Qed.

Lemma le_trans a b c : P a -> P b -> P c -> le a b -> le b c -> le a c.
Proof.
  unfold le. intros Pa Pb Pc Hab Hbc.
  destruct (lt c a) eqn:Hca; [|reflexivity].
  destruct (lt b c) eqn:E1.
  - rewrite (lt_trans b c a) in Hab; auto.
  - assert (b = c) by (apply lt_total; auto). subst. congruence.
Qed.

Lemma insert_sorted_sorted x l :
  P x -> Forall P l -> StronglySorted le l -> StronglySorted le (insert_sorted lt x l).
Proof.
  intros Px HP Hs. induction Hs as [|y l Hs IH Hy]; simpl.
  - repeat constructor.
  - inversion HP as [|? ? Py HPl]; subst.
    destruct (lt x y) eqn:E.
    + constructor; [by constructor|]. constructor.
      * unfold le. by apply lt_asym.
      * rewrite Forall_forall in *. intros z Hz.
        apply (le_trans x y z); auto. unfold le. by apply lt_asym.
    + constructor; [auto|].
      eapply Permutation_Forall; [symmetry; apply insert_sorted_perm|].
      constructor; [exact E|exact Hy].
Qed.

Lemma sort_sorted l : Forall P l -> StronglySorted le (sort lt l).
Proof.
  induction 1 as [|x l Px HP IH]; [constructor|].
  unfold sort in *. simpl. apply insert_sorted_sorted; auto.
  eapply Permutation_Forall; [symmetry; apply sort_perm|exact HP].
Qed.

Lemma sorted_unique l l' :
  Forall P l -> StronglySorted le l -> StronglySorted le l' -> Permutation l l' -> l = l'.
Proof.
  revert l'. induction l as [|a l IH]; intros l' HP Hs Hs' Hp.
  - by apply Permutation_nil in Hp.
  - destruct l' as [|b l']; [by apply Permutation_sym, Permutation_nil in Hp|].
    inversion Hs as [|? ? Hsl Ha]; inversion Hs' as [|? ? Hsl' Hb]; subst.
    inversion HP as [|? ? Pa HPl]; subst.
    assert (HP' : Forall P (b :: l')) by (eapply Permutation_Forall; eauto).
    inversion HP' as [|? ? Pb HPl']; subst.
    assert (a = b) as ->.
    { assert (Hin : a ∈ b :: l') by (rewrite <- Hp; by left).
      assert (Hin' : b ∈ a :: l) by (rewrite Hp; by left).
      apply elem_of_cons in Hin as [->|Hin]; [reflexivity|].
      apply elem_of_cons in Hin' as [->|Hin']; [reflexivity|].
      rewrite Forall_forall in Ha, Hb.
      apply lt_total; [done|done|by apply Hb|by apply Ha]. }
    f_equal. apply IH; auto. by apply Permutation_cons_inv in Hp.
Qed.

Lemma sort_unique l l' : Forall P l -> Permutation l l' -> sort lt l = sort lt l'.
Proof.
  intros HP Hp.
  assert (HP' : Forall P l') by (eapply Permutation_Forall; eauto).
  apply sorted_unique.
  - eapply Permutation_Forall; [symmetry; apply sort_perm|exact HP].
  - by apply sort_sorted.
  - by apply sort_sorted.
  - rewrite !sort_perm. exact Hp.
Qed.

Lemma sort_strict l :
  Forall P l -> NoDup l -> StronglySorted (fun a b => lt a b = true) (sort lt l).
Proof.
  intros HP Hnd.
  assert (Hnd' : NoDup (sort lt l)).
  { by rewrite sort_perm. }
  assert (HP' : Forall P (sort lt l)).
  { eapply Permutation_Forall; [symmetry; apply sort_perm|exact HP]. }
  pose proof (sort_sorted l HP) as Hs.
  induction Hs as [|a k Hs IH Ha]; [constructor|].
  inversion Hnd' as [|? ? Hnotin Hnd'']; subst.
  inversion HP' as [|? ? Pa HPk]; subst.
  constructor; [by apply IH|].
  rewrite Forall_forall in *. intros b Hb.
  destruct (lt a b) eqn:E; [reflexivity|].
  assert (a = b) by (apply lt_total; [done|by apply HPk|done|by apply Ha]).
  by subst.
Qed.
End Sorting.

(** ** Arenas *)

Lemma deref_insert_eq (t : Tree) i v : (i < length t)%nat -> deref (<[i:=v]> t) i = v.
Proof. intros. unfold deref. by rewrite list_lookup_total_insert_eq. Qed.

Lemma deref_insert_ne (t : Tree) i j v : i <> j -> deref (<[i:=v]> t) j = deref t j.
Proof. intros. unfold deref. by rewrite list_lookup_total_insert_ne. Qed.

Lemma deref_app_l (t l : Tree) i : (i < length t)%nat -> deref (t ++ l) i = deref t i.
Proof. intros. unfold deref. by rewrite lookup_total_app_l. Qed.

Lemma deref_app_new (t : Tree) n : deref (t ++ [n]) (length t) = n.
Proof. unfold deref. rewrite lookup_total_app_r by lia. by rewrite Nat.sub_diag. Qed.

Lemma deref_ge (t : Tree) i : (length t <= i)%nat -> deref t i = new_Node.
Proof.
  intros. unfold deref. rewrite list_lookup_total_alt.
  by rewrite lookup_ge_None_2.
Qed.

Lemma in_cap_spec x : in_cap x = true <-> 0 <= x < Z.of_nat CAP.
Proof. unfold in_cap. rewrite andb_true_iff, Z.leb_le, Z.ltb_lt. tauto. Qed.

Lemma in_cap_ne x : in_cap x = true -> (x =? -1) = false.
Proof. rewrite in_cap_spec. intros. apply Z.eqb_neq. lia. Qed.


Lemma upto_skel t t' fuel i :
  wf_tree t -> same_skel (length t) t t' -> (i < length t)%nat ->
  upto fuel t' i = upto fuel t i.
Proof.
  intros Hwf Hs. revert i. induction fuel as [|k IH]; intros i Hi; [reflexivity|].
  simpl. destruct (Hs i Hi) as [-> ->].
  destruct (n_item (deref t i) =? -1) eqn:Ei; [reflexivity|]. f_equal.
  destruct (n_parent (deref t i)) as [j|] eqn:E; [|reflexivity].
  apply IH. destruct (Nat.eq_dec i 0%nat) as [->|Hne].
  - rewrite (wf_root t Hwf) in Ei. discriminate.
  - destruct (wf_par t Hwf i) as (j' & Hj & Hlt); [lia|]. rewrite E in Hj.
    inversion Hj; subst. lia.
Qed.

Lemma upto_fuel t fuel i :
  wf_tree t -> (i < length t)%nat -> (i < fuel)%nat -> upto fuel t i = pathup t i.
Proof.
  intros Hwf. unfold pathup. revert fuel.
  induction i as [i IH] using lt_wf_ind. intros fuel Hi Hf.
  destruct fuel as [|k]; [lia|]. simpl.
  destruct (n_item (deref t i) =? -1) eqn:E; [reflexivity|]. f_equal.
  destruct (Nat.eq_dec i 0%nat) as [->|Hne].
  { rewrite (wf_root t Hwf) in E. discriminate. }
  destruct (wf_par t Hwf i) as (j & Hj & Hlt); [lia|]. rewrite Hj.
  rewrite (IH j Hlt k) by lia. rewrite (IH j Hlt i) by lia. reflexivity.
Qed.

Lemma pathup_root t : wf_tree t -> pathup t 0%nat = [].
Proof. intros Hwf. unfold pathup. simpl. by rewrite (wf_root t Hwf). Qed.

Lemma pathup_step t i j :
  wf_tree t -> (0 < i < length t)%nat -> n_parent (deref t i) = Some j ->
  pathup t i = n_item (deref t i) :: pathup t j.
Proof.
  intros Hwf Hi Hj. unfold pathup at 1. simpl.
  rewrite (in_cap_ne _ (wf_item t Hwf i Hi)). rewrite Hj. f_equal.
  destruct (wf_par t Hwf i Hi) as (j' & Hj' & Hlt). rewrite Hj in Hj'.
  inversion Hj'; subst. apply upto_fuel; auto. lia.
Qed.

Lemma pathup_skel t t' i :
  wf_tree t -> same_skel (length t) t t' -> (i < length t)%nat ->
  pathup t' i = pathup t i.
Proof. intros. unfold pathup. by apply upto_skel. Qed.

Lemma pathup_length t i : wf_tree t -> (i < length t)%nat -> (length (pathup t i) <= i)%nat.
Proof.
  intros Hwf. induction i as [i IH] using lt_wf_ind. intros Hi.
  destruct (Nat.eq_dec i 0%nat) as [->|Hne].
  - by rewrite pathup_root.
  - destruct (wf_par t Hwf i) as (j & Hj & Hlt); [lia|].
    rewrite (pathup_step t i j) by (auto; lia). simpl.
    specialize (IH j Hlt). lia.
Qed.

Lemma pathup_in_cap t i x :
  wf_tree t -> (i < length t)%nat -> x ∈ pathup t i -> in_cap x = true.
Proof.
  intros Hwf. induction i as [i IH] using lt_wf_ind. intros Hi.
  destruct (Nat.eq_dec i 0%nat) as [->|Hne].
  - rewrite pathup_root by done. by intros ?%elem_of_nil.
  - destruct (wf_par t Hwf i) as (j & Hj & Hlt); [lia|].
    rewrite (pathup_step t i j) by (auto; lia).
    intros [->|Hx]%elem_of_cons.
    + apply (wf_item t Hwf). lia.
    + apply (IH j); auto. lia.
Qed.

(** Two nodes with the same path are the same node. *)
Lemma pathup_inj t i j :
  wf_tree t -> (i < length t)%nat -> (j < length t)%nat ->
  pathup t i = pathup t j -> i = j.
Proof.
  intros Hwf. revert j. induction i as [i IH] using lt_wf_ind. intros j Hi Hj Heq.
  destruct (Nat.eq_dec i 0%nat) as [->|Hi0]; destruct (Nat.eq_dec j 0%nat) as [->|Hj0]; auto.
  - destruct (wf_par t Hwf j) as (pj & Hpj & Hlt); [lia|].
    rewrite pathup_root, (pathup_step t j pj) in Heq by (auto; lia). discriminate.
  - destruct (wf_par t Hwf i) as (pi & Hpi & Hlt); [lia|].
    rewrite pathup_root, (pathup_step t i pi) in Heq by (auto; lia). discriminate.
  - destruct (wf_par t Hwf i) as (pi & Hpi & Hlti); [lia|].
    destruct (wf_par t Hwf j) as (pj & Hpj & Hltj); [lia|].
    rewrite (pathup_step t i pi), (pathup_step t j pj) in Heq by (auto; lia).
    inversion Heq as [[Hitem Hrest]].
    assert (pi = pj) by (apply IH; auto; lia). subst pj.
    pose proof (wf_child_complete t Hwf i pi ltac:(lia) Hpi) as H1.
    pose proof (wf_child_complete t Hwf j pi ltac:(lia) Hpj) as H2.
    rewrite Hitem in H1. congruence.
Qed.

Lemma npath_inj t i j :
  wf_tree t -> (i < length t)%nat -> (j < length t)%nat ->
  npath t i = npath t j -> i = j.
Proof.
  unfold npath. intros Hwf Hi Hj Heq. apply (pathup_inj t); auto.
  apply (f_equal (@rev Z)) in Heq. by rewrite !rev_involutive in Heq.
Qed.

Lemma npath_root t : wf_tree t -> npath t 0%nat = [].
Proof. intros. unfold npath. by rewrite pathup_root. Qed.

Lemma npath_step t i j :
  wf_tree t -> (0 < i < length t)%nat -> n_parent (deref t i) = Some j ->
  npath t i = npath t j ++ [n_item (deref t i)].
Proof. intros. unfold npath. by rewrite (pathup_step t i j). Qed.

Lemma npath_nonempty t i : wf_tree t -> (0 < i < length t)%nat -> npath t i <> [].
Proof.
  intros Hwf Hi. destruct (wf_par t Hwf i Hi) as (j & Hj & _).
  rewrite (npath_step t i j) by auto. by destruct (npath t j).
Qed.

(** ** One step of the insertion *)

Lemma deref_update (g : Node -> Node) (t : Tree) j i :
  deref (<[j := g (deref t j)]> t) i =
  if decide (i = j /\ (j < length t)%nat) then g (deref t i) else deref t i.
Proof.
  case_decide as H.
  - destruct H as [-> H]. by rewrite deref_insert_eq.
  - destruct (decide (i = j)) as [->|Hne].
    + unfold deref. rewrite list_insert_ge by lia. reflexivity.
    + by rewrite deref_insert_ne.
Qed.

Lemma find_child_app cs cs' x :
  find_child (cs ++ cs') x =
  match find_child cs x with Some c => Some c | None => find_child cs' x end.
Proof.
  induction cs as [|[i c] cs IH]; simpl; [reflexivity|].
  destruct (i =? x); [reflexivity|exact IH].
Qed.

Lemma wf_tree_fields (t t' : Tree) :
  length t' = length t ->
  (forall i, n_item (deref t' i) = n_item (deref t i) /\
             n_parent (deref t' i) = n_parent (deref t i) /\
             n_children (deref t' i) = n_children (deref t i)) ->
  wf_tree t -> wf_tree t'.
Proof.
  intros Hlen Hf Hwf.
  assert (Hgc : forall j x, get_child t' j x = get_child t j x).
  { intros. unfold get_child. destruct (Hf j) as (_ & _ & ->). reflexivity. }
  constructor.
  - rewrite Hlen. apply Hwf.
  - destruct (Hf 0%nat) as (-> & _). apply Hwf.
  - intros i Hi. destruct (Hf i) as (_ & -> & _). apply Hwf. lia.
  - intros i Hi. destruct (Hf i) as (-> & _). apply Hwf. lia.
  - intros j x c Hj Hc. rewrite Hgc in Hc. rewrite Hlen in *.
    destruct (Hf c) as (-> & -> & _). by apply Hwf.
  - intros c j Hc Hp. rewrite Hlen in *. destruct (Hf c) as (-> & Hpc & _).
    rewrite Hpc in Hp. rewrite Hgc. by apply Hwf.
Qed.

Lemma nodes_with_fields x (t t' : Tree) :
  length t' = length t ->
  (forall i, n_item (deref t' i) = n_item (deref t i)) ->
  nodes_with x t' = nodes_with x t.
Proof.
  intros Hlen Hf. unfold nodes_with. rewrite Hlen.
  apply filter_ext. intros i. by rewrite Hf.
Qed.

Lemma chain_rel_fields (t t' : Tree) o l :
  (forall i, i ∈ l -> n_hlink (deref t' i) = n_hlink (deref t i)) ->
  chain_rel t o l -> chain_rel t' o l.
Proof.
  revert o. induction l as [|i l IH]; simpl; intros o Hf H; [exact H|].
  destruct H as [-> H]. split; [reflexivity|].
  rewrite Hf by (by left). apply IH; [|exact H].
  intros j Hj. apply Hf. by right.
Qed.

Lemma wf_table_fields (t t' : Tree) hm :
  length t' = length t ->
  (forall i, n_item (deref t' i) = n_item (deref t i) /\
             n_hlink (deref t' i) = n_hlink (deref t i)) ->
  wf_table t hm -> wf_table t' hm.
Proof.
  intros Hlen Hf [H1 H2 H3].
  assert (Hnw : forall x, nodes_with x t' = nodes_with x t).
  { intros. apply nodes_with_fields; [done|]. intros i. apply Hf. }
  constructor; [done| |].
  - intros x h Hx. destruct (H2 x h Hx) as (Ha & Hb & Hc).
    rewrite Hnw. split_and!; [done| |done].
    eapply chain_rel_fields; [|exact Hb]. intros i _. apply Hf.
  - intros i Hi. destruct (Hf i) as [-> _]. apply H3. lia.
Qed.

Lemma nodes_with_bound x t i : i ∈ nodes_with x t -> (0 < i < length t)%nat /\ n_item (deref t i) = x.
Proof.
  unfold nodes_with. rewrite list_elem_of_In, filter_In, in_seq, Z.eqb_eq. lia.
Qed.

Lemma nodes_with_elem x t i :
  (0 < i < length t)%nat -> n_item (deref t i) = x -> i ∈ nodes_with x t.
Proof.
  unfold nodes_with. rewrite list_elem_of_In, filter_In, in_seq, Z.eqb_eq. lia.
Qed.

Lemma nodes_with_NoDup x t : NoDup (nodes_with x t).
Proof.
  unfold nodes_with. apply NoDup_ListNoDup, List.NoDup_filter, seq_NoDup.
Qed.

Lemma nodes_with_snoc x (t : Tree) nd :
  (0 < length t)%nat ->
  nodes_with x (t ++ [nd]) =
  nodes_with x t ++ (if n_item nd =? x then [length t] else []).
Proof.
  intros Hlen. unfold nodes_with. rewrite length_app. simpl.
  replace (length t + 1 - 1)%nat with (S (length t - 1)) by lia.
  rewrite seq_S, List.filter_app. simpl.
  replace (S (length t - 1))%nat with (length t) by lia.
  rewrite deref_app_new. f_equal.
  apply filter_ext_in. intros i Hi%in_seq. rewrite deref_app_l by lia. reflexivity.
Qed.

Lemma chain_rel_None t l : chain_rel t None l -> l = [].
Proof. destruct l; simpl; [done|]. by intros [? _]. Qed.

Lemma chain_rel_snoc (t t' : Tree) o l tl n :
  chain_rel t o l -> NoDup l -> last l = Some tl ->
  (forall i, i ∈ l -> i <> tl -> n_hlink (deref t' i) = n_hlink (deref t i)) ->
  n_hlink (deref t' tl) = Some n -> n_hlink (deref t' n) = None ->
  chain_rel t' o (l ++ [n]).
Proof.
  revert o. induction l as [|i l IH]; intros o Hc Hnd Hl Hf Htl Hn; [done|].
  destruct Hc as [-> Hc]. simpl. split; [reflexivity|].
  apply NoDup_cons in Hnd as [Hi Hnd].
  destruct l as [|i' l].
  - simpl in Hl. inversion Hl; subst. rewrite Htl. simpl. done.
  - assert (Hl' : last (i' :: l) = Some tl) by (by rewrite last_cons_cons in Hl).
    rewrite Hf; [|by left|].
    + apply IH; auto. intros j Hj. apply Hf. by right.
    + intros ->. apply Hi. by apply last_Some_elem_of in Hl'.
Qed.

Section Grow.
Variables (t : Tree) (hm : list (option Header)) (curr : nat) (x c : Z) (h0 : Header).
Hypothesis Hwf : wf_tree t.
Hypothesis Hwt : wf_table t hm.
Hypothesis Hcurr : (curr < length t)%nat.
Hypothesis Hx : in_cap x = true.
Hypothesis Hh0 : hm !! Z.to_nat x = Some (Some h0).
Hypothesis Hnone : get_child t curr x = None.

Local Abbreviation n := (length t).
Local Abbreviation t1 := (t ++ [mkNode x c (Some curr) [] None]).

Variable t3 : Tree.
Hypothesis Hlen : length t3 = S n.
Hypothesis Hitem : forall i, n_item (deref t3 i) = n_item (deref t1 i).
Hypothesis Hpar : forall i, n_parent (deref t3 i) = n_parent (deref t1 i).
Hypothesis Hch : forall i, n_children (deref t3 i) =
  if decide (i = curr) then n_children (deref t curr) ++ [(x, n)]
  else n_children (deref t1 i).
Hypothesis Hhl : forall i, n_hlink (deref t3 i) =
  if decide (Some i = h_tail h0) then Some n else n_hlink (deref t1 i).

Lemma grow_t1_old i : (i < n)%nat -> deref t1 i = deref t i.
Proof. intros. by rewrite deref_app_l. Qed.

Lemma grow_t1_new : deref t1 n = mkNode x c (Some curr) [] None.
Proof. by rewrite deref_app_new. Qed.

Lemma grow_wf_tree : wf_tree t3.
Proof.
  pose proof (wf_len t Hwf) as Hl0.
  assert (Hgc : forall j y, (j < n)%nat ->
            get_child t3 j y =
            match get_child t j y with
            | Some r => Some r
            | None => if decide (j = curr) then if x =? y then Some n else None else None
            end).
  { intros j y Hj. unfold get_child. rewrite Hch. case_decide as Hd.
    - subst j. rewrite find_child_app. simpl. by destruct (find_child _ y), (x =? y).
    - rewrite grow_t1_old by done. by destruct (find_child _ y). }
  constructor.
  - lia.
  - rewrite Hitem, grow_t1_old by lia. apply Hwf.
  - intros i Hi. rewrite Hpar. destruct (decide (i = n)) as [->|Hne].
    + rewrite grow_t1_new. simpl. exists curr. split; [done|]. lia.
    + rewrite grow_t1_old by lia. apply Hwf. lia.
  - intros i Hi. rewrite Hitem. destruct (decide (i = n)) as [->|Hne].
    + by rewrite grow_t1_new.
    + rewrite grow_t1_old by lia. apply Hwf. lia.
  - intros j y r Hj Hr. rewrite Hitem, Hpar. destruct (decide (j = n)) as [->|Hne].
    + unfold get_child in Hr. rewrite Hch in Hr. case_decide; [lia|].
      rewrite grow_t1_new in Hr. discriminate.
    + rewrite Hgc in Hr by lia.
      destruct (get_child t j y) as [r'|] eqn:E.
      * inversion Hr; subst r'.
        destruct (wf_child_sound t Hwf j y r) as (H1 & H2 & H3); [lia|done|].
        rewrite grow_t1_old by lia. split; [lia|done].
      * case_decide; [|done]. destruct (x =? y) eqn:Exy; [|done].
        apply Z.eqb_eq in Exy. subst y. inversion Hr; subst r.
        rewrite grow_t1_new. simpl. split; [lia|]. by subst j.
  - intros r j Hr Hp. rewrite Hpar in Hp. rewrite Hitem.
    destruct (decide (r = n)) as [->|Hne].
    + rewrite grow_t1_new in *. simpl in *. inversion Hp; subst j.
      rewrite Hgc by done. rewrite Hnone. rewrite decide_True by done.
      by rewrite Z.eqb_refl.
    + rewrite grow_t1_old in * by lia.
      assert (Hr' : (0 < r < length t)%nat) by (lia).
      destruct (wf_par t Hwf r Hr') as (j' & Hj' & Hlt). rewrite Hp in Hj'.
      inversion Hj'; subst j'.
      rewrite Hgc by lia.
      by rewrite (wf_child_complete t Hwf r j Hr' Hp).
Qed.

Lemma grow_nodes_with y :
  nodes_with y t3 = nodes_with y t ++ (if x =? y then [n] else []).
Proof.
  rewrite (nodes_with_fields y t1 t3); [|by rewrite Hlen, length_app; simpl; lia|done].
  rewrite nodes_with_snoc by apply Hwf. reflexivity.
Qed.

Lemma grow_wf_table hm3 :
  hm3 = <[Z.to_nat x := Some (set_chain (match h_next h0 with None => Some n | s => s end)
                                        (Some n) h0)]> hm ->
  wf_table t3 hm3.
Proof.
  intros ->. destruct Hwt as [H1 H2 H3].
  destruct (H2 _ _ Hh0) as (Hi0 & Hc0 & Ht0).
  apply in_cap_spec in Hx as Hx'.
  rewrite Z2Nat.id in * by lia.
  constructor.
  - by rewrite length_insert.
  - intros y h Hy. rewrite grow_nodes_with.
    destruct (decide (y = Z.to_nat x)) as [->|Hne].
    + rewrite list_lookup_insert_eq in Hy by lia. inversion Hy; subst h. simpl.
      rewrite Z2Nat.id, Z.eqb_refl by lia. split; [done|]. split.
      * destruct (nodes_with x t) as [|i l] eqn:El.
        { simpl in Hc0. rewrite Hc0. simpl. split; [done|].
          rewrite Hhl. rewrite Ht0. rewrite decide_False by done.
          by rewrite grow_t1_new. }
        destruct (h_next h0) as [nx|] eqn:En; [|by destruct Hc0].
        assert (Hlast : exists tl, last (i :: l) = Some tl).
        { destruct (last (i :: l)) eqn:E; [eauto|]. by apply last_None in E. }
        destruct Hlast as [tl Htl].
        assert (Hb : forall j, j ∈ i :: l -> (0 < j < n)%nat).
        { intros j Hj. rewrite <- El in Hj. by apply nodes_with_bound in Hj as []. }
        eapply chain_rel_snoc; [exact Hc0| |exact Htl| | |].
        -- rewrite <- El. apply nodes_with_NoDup.
        -- intros j Hj Hjt. rewrite Hhl, Ht0, Htl.
           rewrite decide_False by congruence.
           rewrite grow_t1_old; [done|]. apply Hb in Hj. lia.
        -- rewrite Hhl, Ht0, Htl. by rewrite decide_True.
        -- rewrite Hhl, Ht0, Htl.
           rewrite decide_False; [by rewrite grow_t1_new|].
           intros [= <-]. apply last_Some_elem_of, Hb in Htl. lia.
      * by rewrite last_snoc.
    + rewrite list_lookup_insert_ne in Hy by done.
      destruct (H2 _ _ Hy) as (Ha & Hb & Hc).
      assert (Exy : (x =? Z.of_nat y) = false) by (apply Z.eqb_neq; lia).
      rewrite Exy, app_nil_r. split_and!; [done| |done].
      eapply chain_rel_fields; [|exact Hb].
      intros i Hi. apply nodes_with_bound in Hi as [Hi1 Hi2].
      rewrite Hhl. rewrite decide_False; [by rewrite grow_t1_old by lia|].
      rewrite Ht0. intros Hl. symmetry in Hl. apply last_Some_elem_of in Hl.
      apply nodes_with_bound in Hl as [_ Hl]. lia.
  - intros i Hi. rewrite Hitem. destruct (decide (i = n)) as [->|Hne].
    + rewrite grow_t1_new. simpl. rewrite list_lookup_insert_eq by lia. eauto.
    + rewrite grow_t1_old by lia.
      destruct (H3 i) as [h Hh]; [lia|].
      destruct (decide (Z.to_nat (n_item (deref t i)) = Z.to_nat x)) as [->|Hd].
      * rewrite list_lookup_insert_eq by lia. eauto.
      * rewrite list_lookup_insert_ne by done. eauto.
Qed.
End Grow.

Lemma vec_get_Done {A} `{Inhabited A} (v : list A) (i : Z) :
  0 <= i < Z.of_nat (length v) -> vec_get v i = Done (v !!! Z.to_nat i).
Proof.
  intros Hi. unfold vec_get.
  replace (0 <=? i) with true by (symmetry; apply Z.leb_le; lia).
  replace (i <? Z.of_nat (length v)) with true by (symmetry; apply Z.ltb_lt; lia).
  reflexivity.
Qed.

Lemma vec_set_Done {A} (v : list A) (i : Z) x :
  0 <= i < Z.of_nat (length v) -> vec_set v i x = Done (<[Z.to_nat i := x]> v).
Proof.
  intros Hi. unfold vec_set.
  replace (0 <=? i) with true by (symmetry; apply Z.leb_le; lia).
  replace (i <? Z.of_nat (length v)) with true by (symmetry; apply Z.ltb_lt; lia).
  reflexivity.
Qed.

Lemma link_grow (t : Tree) hm curr x c h0 :
  wf_tree t -> wf_table t hm -> (curr < length t)%nat -> in_cap x = true ->
  hm !! Z.to_nat x = Some (Some h0) ->
  let n := length t in
  let t1 := t ++ [mkNode x c (Some curr) [] None] in
  exists t3,
    link_node (add_child t1 curr n) hm x n =
      Done (t3, <[Z.to_nat x := Some (set_chain (match h_next h0 with None => Some n | s => s end)
                                                (Some n) h0)]> hm) /\
    length t3 = S n /\
    (forall i, n_item (deref t3 i) = n_item (deref t1 i)) /\
    (forall i, n_parent (deref t3 i) = n_parent (deref t1 i)) /\
    (forall i, n_freq (deref t3 i) = n_freq (deref t1 i)) /\
    (forall i, n_children (deref t3 i) =
       if decide (i = curr) then n_children (deref t curr) ++ [(x, n)]
       else n_children (deref t1 i)) /\
    (forall i, n_hlink (deref t3 i) =
       if decide (Some i = h_tail h0) then Some n else n_hlink (deref t1 i)).
Proof.
  intros Hwf Hwt Hcurr Hx Hh0 n t1.
  destruct Hwt as [H1 H2 H3]. destruct (H2 _ _ Hh0) as (Hi0 & Hc0 & Ht0).
  apply in_cap_spec in Hx as Hx'.
  rewrite Z2Nat.id in Hi0, Hc0, Ht0 by lia.
  assert (Hlen1 : length t1 = S n) by (unfold t1; rewrite length_app; simpl; lia).
  assert (Ht2 : forall i, deref (add_child t1 curr n) i =
            if decide (i = curr) then
              set_children (n_children (deref t curr) ++ [(x, n)]) (deref t1 i)
            else deref t1 i).
  { intros i. unfold add_child. rewrite deref_update.
    assert (deref t1 n = mkNode x c (Some curr) [] None) as ->
      by (unfold t1, n; apply deref_app_new).
    assert (deref t1 curr = deref t curr) as -> by (unfold t1; by apply deref_app_l).
    simpl.
    case_decide as Hd; case_decide as Hd'; try reflexivity; exfalso.
    - by destruct Hd.
    - apply Hd. split; [done|lia]. }
  unfold link_node. rewrite vec_get_Done by lia. simpl.
  rewrite (list_lookup_total_correct _ _ _ Hh0).
  destruct (h_next h0) as [nx|] eqn:En.
  - destruct (nodes_with x t) as [|i0 l] eqn:El; [by simpl in Hc0|].
    destruct (last (i0 :: l)) as [tl|] eqn:Etl; [|by apply last_None in Etl].
    rewrite Ht0. rewrite vec_set_Done by lia. simpl.
    assert (Htl : (0 < tl < n)%nat).
    { apply last_Some_elem_of in Etl. rewrite <- El in Etl.
      by apply nodes_with_bound in Etl as []. }
    eexists. split; [reflexivity|].
    assert (Ht3 : forall i,
       deref (<[tl := set_hlink (Some n) (deref (add_child t1 curr n) tl)]> (add_child t1 curr n)) i =
       if decide (i = tl) then set_hlink (Some n) (deref (add_child t1 curr n) i)
       else deref (add_child t1 curr n) i).
    { intros i. rewrite deref_update.
      assert (length (add_child t1 curr n) = S n) as ->
        by (unfold add_child; by rewrite length_insert).
      case_decide as Hd; case_decide as Hd'; try reflexivity; exfalso.
      - by destruct Hd.
      - apply Hd. split; [done|lia]. }
    split; [by unfold add_child; rewrite !length_insert|].
    split_and!; intros i; rewrite Ht3, Ht2; repeat case_decide; simpl; try congruence.
  - apply chain_rel_None in Hc0. rewrite Hc0 in Ht0. simpl in Ht0.
    rewrite vec_set_Done by lia. simpl.
    eexists. split; [reflexivity|].
    split; [by unfold add_child; rewrite length_insert|].
    rewrite Ht0.
    split_and!; intros i; rewrite Ht2; repeat case_decide; simpl; try congruence.
Qed.

(** ** The insertion of a path *)

Lemma is_prefix_b_spec p q : is_prefix_b p q = true <-> p `prefix_of` q.
Proof.
  revert q. induction p as [|x p IH]; intros q; simpl.
  - split; [intros _; apply prefix_nil|done].
  - destruct q as [|y q].
    + split; [done|]. intros H. by apply prefix_nil_inv in H.
    + rewrite andb_true_iff, Z.eqb_eq, IH. split.
      * intros [-> H]. by apply prefix_cons.
      * intros H. split; [by apply prefix_cons_inv_1 in H|by apply prefix_cons_inv_2 in H].
Qed.

Lemma is_prefix_b_app_r q1 r q : is_prefix_b (q1 ++ r) (q1 ++ q) = is_prefix_b r q.
Proof. induction q1 as [|x q1 IH]; simpl; [done|]. by rewrite Z.eqb_refl, IH. Qed.

Lemma strip_lookup hm hm' (k : nat) h :
  strip hm' = strip hm -> hm !! k = Some (Some h) ->
  exists h', hm' !! k = Some (Some h') /\ h_item h' = h_item h /\ h_freq h' = h_freq h.
Proof.
  intros Hs Hk. apply (f_equal (fun l => l !! k)) in Hs.
  unfold strip in Hs. rewrite !list_lookup_fmap, Hk in Hs. simpl in Hs.
  destruct (hm' !! k) as [[h'|]|]; simpl in Hs; try discriminate.
  inversion Hs. eauto.
Qed.

Lemma strip_insert hm (k : nat) h h' :
  hm !! k = Some (Some h) -> h_item h' = h_item h -> h_freq h' = h_freq h ->
  strip (<[k := Some h']> hm) = strip hm.
Proof.
  intros Hk Hi Hf. unfold strip. rewrite list_fmap_insert. simpl.
  apply list_insert_id. rewrite list_lookup_fmap, Hk. simpl.
  unfold set_chain. by rewrite Hi, Hf.
Qed.


Lemma registered_strip hm hm' h :
  strip hm' = strip hm -> registered hm h -> registered hm' h.
Proof.
  intros Hs [Hc [h' Hh']]. split; [done|].
  destruct (strip_lookup _ _ _ _ Hs Hh') as (h'' & Hk & _). eauto.
Qed.

Lemma same_skel_trans b b' (t t' t'' : Tree) :
  (b <= b')%nat -> same_skel b t t' -> same_skel b' t' t'' -> same_skel b t t''.
Proof.
  intros Hb H1 H2 i Hi. destruct (H1 i Hi) as [<- <-]. apply H2. lia.
Qed.


Lemma gain_nil q1 p c : gain q1 [] p c = 0.
Proof.
  unfold gain. rewrite app_nil_r.
  destruct (is_prefix_b p q1) eqn:E; [|done].
  apply is_prefix_b_spec, prefix_length in E.
  replace (length q1 <? length p)%nat with false; [done|].
  symmetry. apply Nat.ltb_ge. lia.
Qed.

Lemma gain_step q1 x q2 p c :
  gain q1 (x :: q2) p c =
  (if decide (p = q1 ++ [x]) then c else 0) + gain (q1 ++ [x]) q2 p c.
Proof.
  unfold gain. rewrite <- app_assoc. simpl.
  case_decide as Hd.
  - subst p. rewrite <- (app_nil_r (q1 ++ [x])) at 1. rewrite <- !app_assoc. simpl.
    rewrite is_prefix_b_app_r. simpl. rewrite Z.eqb_refl. simpl.
    rewrite !length_app. simpl.
    replace (length q1 <? length q1 + 1)%nat with true by (symmetry; apply Nat.ltb_lt; lia).
    replace (length q1 + 1 <? length q1 + 1)%nat with false by (symmetry; apply Nat.ltb_ge; lia).
    lia.
  - destruct (is_prefix_b p (q1 ++ x :: q2)) eqn:E; simpl; [|done].
    rewrite length_app. simpl.
    destruct (length q1 <? length p)%nat eqn:E1, (length q1 + 1 <? length p)%nat eqn:E2; try lia.
    + apply Nat.ltb_lt in E1. apply Nat.ltb_ge in E2. exfalso. apply Hd.
      apply is_prefix_b_spec in E. destruct E as [k Hk].
      assert (Hlen : length p = (length q1 + 1)%nat) by lia.
      apply (f_equal (take (length q1 + 1))) in Hk.
      rewrite (take_app_le p k) in Hk by lia. rewrite (take_ge p) in Hk by lia.
      rewrite <- Hk.
      replace (q1 ++ x :: q2) with ((q1 ++ [x]) ++ q2) by (by rewrite <- app_assoc).
      rewrite take_app_le by (rewrite length_app; simpl; lia).
      rewrite take_ge; [done|]. rewrite length_app. simpl. lia.
    + apply Nat.ltb_ge in E1. apply Nat.ltb_lt in E2. lia.
Qed.

Lemma npath_skel t t' i :
  wf_tree t -> same_skel (length t) t t' -> (i < length t)%nat -> npath t' i = npath t i.
Proof. intros. unfold npath. by rewrite (pathup_skel t t'). Qed.

Lemma insert_path_spec sp c : forall curr (t : Tree) hm q1,
  wf_tree t -> wf_table t hm -> (curr < length t)%nat -> npath t curr = q1 ->
  Forall (registered hm) sp ->
  exists t' hm',
    insert_path sp c curr t hm = Done (t', hm') /\
    wf_tree t' /\ wf_table t' hm' /\ strip hm' = strip hm /\
    (length t <= length t')%nat /\ same_skel (length t) t t' /\
    (forall i, (0 < i < length t')%nat ->
       n_freq (deref t' i) = n_freq (deref t i) + gain q1 (map h_item sp) (npath t' i) c) /\
    (forall r, r <> [] -> is_prefix_b r (map h_item sp) = true ->
       exists i, (0 < i < length t')%nat /\ npath t' i = q1 ++ r) /\
    (forall i, (length t <= i < length t')%nat ->
       exists r, r <> [] /\ is_prefix_b r (map h_item sp) = true /\ npath t' i = q1 ++ r).
Proof.
  induction sp as [|header rest IH]; intros curr t hm q1 Hwf Hwt Hcurr Hq1 Hreg.
  { exists t, hm. simpl. split_and!; auto.
    - by intros i Hi.
    - intros i Hi. rewrite gain_nil. lia.
    - intros r Hr Hp. by destruct r.
    - intros i Hi. lia. }
  apply Forall_cons in Hreg as [Hh Hrest].
  destruct Hh as [Hx [h0 Hh0]].
  set (x := h_item header) in *.
  (* the node [ch] that stands for [q1 ++ [x]] after the first step *)
  assert (Hstep : exists ch (t1 : Tree) hm1,
    (length t1 = length t \/ ch = length t) /\
    insert_path (header :: rest) c curr t hm = insert_path rest c ch t1 hm1 /\
    wf_tree t1 /\ wf_table t1 hm1 /\ strip hm1 = strip hm /\
    (length t <= length t1 <= S (length t))%nat /\ same_skel (length t) t t1 /\
    (0 < ch < length t1)%nat /\ npath t1 ch = q1 ++ [x] /\
    (forall i, n_freq (deref t1 i) = n_freq (deref t i) + if decide (i = ch) then c else 0)).
  { simpl. fold x. destruct (get_child t curr x) as [ch|] eqn:Egc.
    - destruct (wf_child_sound t Hwf curr x ch Hcurr Egc) as (Hch & Hpar & Hitem).
      set (t1 := <[ch := set_freq (n_freq (deref t ch) + c) (deref t ch)]> t).
      assert (Hf : forall i, deref t1 i =
                 if decide (i = ch) then set_freq (n_freq (deref t ch) + c) (deref t i)
                 else deref t i).
      { intros i. unfold t1. rewrite deref_update.
        case_decide as Hd; case_decide as Hd'; try reflexivity; exfalso.
        - by destruct Hd.
        - apply Hd. split; [done|lia]. }
      assert (Hlen : length t1 = length t) by (unfold t1; by rewrite length_insert).
      assert (Hsk : same_skel (length t) t t1).
      { intros i _. rewrite Hf. by case_decide. }
      exists ch, t1, hm. split_and!; auto.
      + apply (wf_tree_fields t t1); auto. intros i. rewrite Hf. by case_decide.
      + apply (wf_table_fields t t1); auto. intros i. rewrite Hf. by case_decide.
      + lia.
      + lia.
      + lia.
      + lia.
      + rewrite (npath_skel t t1), (npath_step t ch curr) by (auto; lia).
        by rewrite Hq1, Hitem.
      + intros i. rewrite Hf. case_decide; simpl; [by subst|lia].
    - destruct (link_grow t hm curr x c h0 Hwf Hwt Hcurr Hx Hh0)
        as (t3 & Hlink & Hlen & Hitem & Hpar & Hfreq & Hch & Hhl).
      rewrite Hlink. simpl.
      pose proof (grow_wf_tree t curr x c Hwf Hcurr Hx Egc t3 Hlen Hitem Hpar Hch) as Hwf3.
      assert (Hwt3 : wf_table t3
        (<[Z.to_nat x := Some (set_chain (match h_next h0 with None => Some (length t) | s => s end)
                                         (Some (length t)) h0)]> hm)).
      { eapply (grow_wf_table t hm curr x c h0); eauto. }
      assert (Hsk : same_skel (length t) t t3).
      { intros i Hi. rewrite Hitem, Hpar, deref_app_l by done. done. }
      eexists (length t), t3, _. split_and!; [by right|reflexivity|done|done| | | |done| | | |].
      + destruct Hwt as [_ H2 _]. destruct (H2 _ _ Hh0) as (Hi0 & _).
        eapply strip_insert; [exact Hh0|done|done].
      + lia.
      + lia.
      + pose proof (wf_len t Hwf). lia.
      + lia.
      + rewrite (npath_step t3 (length t) curr).
        * rewrite (npath_skel t t3), Hq1, Hitem, deref_app_new by done. done.
        * done.
        * pose proof (wf_len t Hwf). lia.
        * by rewrite Hpar, deref_app_new.
      + intros i. rewrite Hfreq. case_decide as Hd.
        * subst i. rewrite deref_app_new, deref_ge by lia. simpl. lia.
        * destruct (decide (i < length t)%nat).
          -- rewrite deref_app_l by done. lia.
          -- rewrite !deref_ge; [lia|lia|]. rewrite length_app. simpl. lia. }
  destruct Hstep as (ch & t1 & hm1 & Hcase & Heq & Hwf1 & Hwt1 & Hs1 & Hlen1 & Hsk1 & Hch & Hpch & Hfr1).
  destruct (IH ch t1 hm1 (q1 ++ [x]) Hwf1 Hwt1 ltac:(lia) Hpch)
    as (t' & hm' & Hins & Hwf' & Hwt' & Hs' & Hlen' & Hsk' & Hfr' & Hcov' & Hnew').
  { eapply Forall_impl; [exact Hrest|]. intros h. by apply registered_strip. }
  exists t', hm'. rewrite Heq.
  assert (Hpch' : npath t' ch = q1 ++ [x]) by (by rewrite (npath_skel t1 t') by (auto; lia)).
  split_and!; auto.
  - congruence.
  - lia.
  - eapply same_skel_trans; [|exact Hsk1|exact Hsk']. lia.
  - intros i Hi. rewrite (Hfr' i Hi), Hfr1. simpl. fold x. rewrite gain_step.
    assert ((if decide (i = ch) then c else 0) =
            (if decide (npath t' i = q1 ++ [x]) then c else 0)) as ->; [|lia].
    case_decide as Hd; case_decide as Hd'; try done.
    + subst i. done.
    + exfalso. apply Hd. apply (npath_inj t'); auto; [lia|lia|congruence].
  - intros r Hr Hp. simpl in Hp. fold x in Hp. destruct r as [|y r]; [done|].
    simpl in Hp. apply andb_true_iff in Hp as [Hy Hp]. apply Z.eqb_eq in Hy. subst y.
    destruct r as [|z r].
    + exists ch. split; [lia|done].
    + destruct (Hcov' (z :: r)) as (i & Hi & Hpi); [done|done|].
      exists i. split; [done|]. rewrite Hpi, <- app_assoc. done.
  - intros i Hi. destruct (decide (i < length t1)%nat) as [Hlt|Hge].
    + assert (i = ch).
      { assert (i = length t) by lia. subst i.
        assert (length t1 = S (length t)) by lia.
        destruct Hcase; [lia|done]. }
      subst i. exists [x]. simpl. fold x. rewrite Z.eqb_refl. split_and!; done.
    + destruct (Hnew' i) as (r & Hr & Hp & Hpi); [lia|].
      exists (x :: r). simpl. fold x. rewrite Z.eqb_refl. split_and!; [done|done|].
      rewrite Hpi, <- app_assoc. done.
Qed.

(** ** The insertion of a pattern base *)

Lemma sumZ_app l l' : sumZ (l ++ l') = sumZ l + sumZ l'.
Proof. induction l as [|x l IH]; simpl; lia. Qed.

Lemma sumZ_zero l : Forall (fun x => x = 0) l -> sumZ l = 0.
Proof. induction 1; simpl; lia. Qed.

Lemma sort_map {A B} (f : A -> B) (lt : A -> A -> bool) (lt' : B -> B -> bool) l :
  (forall a b, lt' (f a) (f b) = lt a b) ->
  sort lt' (map f l) = map f (sort lt l).
Proof.
  intros Hf. induction l as [|x l IH]; [done|].
  unfold sort in *. simpl. rewrite IH. clear IH.
  induction (foldr (insert_sorted lt) [] l) as [|y k IHk]; [done|].
  simpl. rewrite Hf. destruct (lt x y); simpl; [done|]. by rewrite IHk.
Qed.

Lemma strip_total hm (k : nat) :
  strip hm !!! k = option_map (set_chain None None) (hm !!! k).
Proof.
  unfold strip. rewrite !list_lookup_total_alt, list_lookup_fmap.
  by destruct (hm !! k).
Qed.

Lemma path_items_eq hm p :
  path_items hm p = map h_item (sort cmp_path (omap (fun x => hm !!! Z.to_nat x) p)).
Proof.
  unfold path_items.
  assert (omap (hdr hm) p =
          map (set_chain None None) (omap (fun x => hm !!! Z.to_nat x) p)) as ->.
  { induction p as [|x p IH]; [done|].
    change (omap (hdr hm) (x :: p)) with
      (match hdr hm x with Some h => h :: omap (hdr hm) p | None => omap (hdr hm) p end).
    rewrite IH. unfold hdr. rewrite strip_total. simpl.
    by destruct (hm !!! Z.to_nat x). }
  rewrite (sort_map _ cmp_path cmp_path) by done.
  rewrite map_map. done.
Qed.

Lemma path_items_strip hm hm' p : strip hm' = strip hm -> path_items hm' p = path_items hm p.
Proof. intros Hs. unfold path_items, hdr. by rewrite Hs. Qed.

Lemma ps_of_strip hm hm' cps : strip hm' = strip hm -> ps_of hm' cps = ps_of hm cps.
Proof.
  intros Hs. unfold ps_of. apply map_ext. intros [p c]. simpl.
  by rewrite (path_items_strip hm hm').
Qed.

Lemma lookup_path_Done hm p :
  length hm = CAP -> Forall (fun x => in_cap x = true) p ->
  lookup_path hm p = Done (omap (fun x => hm !!! Z.to_nat x) p).
Proof.
  intros Hlen. induction 1 as [|x p Hx Hp IH]; [done|].
  simpl. apply in_cap_spec in Hx. rewrite vec_get_Done by lia. simpl.
  rewrite IH. simpl. done.
Qed.

Lemma registered_lookup t hm p :
  wf_table t hm -> Forall (fun x => in_cap x = true) p ->
  Forall (registered hm) (omap (fun x => hm !!! Z.to_nat x) p).
Proof.
  intros [H1 H2 H3]. induction 1 as [|x p Hx Hp IH]; [constructor|].
  simpl. destruct (hm !!! Z.to_nat x) as [h|] eqn:E; [|done].
  constructor; [|done].
  apply in_cap_spec in Hx as Hx'.
  assert (Hl : hm !! Z.to_nat x = Some (Some h)).
  { rewrite <- E. apply list_lookup_lookup_total_lt. lia. }
  destruct (H2 _ _ Hl) as (Hi & _). rewrite Z2Nat.id in Hi by lia.
  split; rewrite Hi; eauto.
Qed.

Lemma gain_root q p c :
  p <> [] -> gain [] q p c = if is_prefix_b p q then c else 0.
Proof.
  intros Hp. unfold gain. simpl.
  replace (0 <? length p)%nat with true; [by rewrite andb_true_r|].
  symmetry. apply Nat.ltb_lt. destruct p; [done|simpl; lia].
Qed.

Lemma insert_path_counts sp c (t : Tree) hm ps :
  wf_tree t -> wf_table t hm -> tree_counts t ps -> Forall (registered hm) sp ->
  exists t' hm',
    insert_path sp c 0%nat t hm = Done (t', hm') /\
    wf_tree t' /\ wf_table t' hm' /\ strip hm' = strip hm /\
    tree_counts t' (ps ++ [(map h_item sp, c)]).
Proof.
  intros Hwf Hwt [Hf Hc Hs] Hreg.
  destruct (insert_path_spec sp c 0%nat t hm [] Hwf Hwt (wf_len t Hwf) (npath_root t Hwf) Hreg)
    as (t' & hm' & Hins & Hwf' & Hwt' & Hst & Hlen & Hsk & Hfr & Hcov & Hnew).
  exists t', hm'. split_and!; auto. constructor.
  - intros i Hi. rewrite (Hfr i Hi), gain_root by (by apply npath_nonempty).
    rewrite map_app, sumZ_app. simpl. rewrite Z.add_0_r. f_equal.
    destruct (decide (i < length t)%nat) as [Hlt|Hge].
    + rewrite (npath_skel t t') by done. apply Hf. lia.
    + rewrite deref_ge by lia. simpl. symmetry. apply sumZ_zero.
      apply Forall_forall. intros z Hz. apply list_elem_of_fmap in Hz as ([q c'] & -> & Hq).
      simpl. destruct (is_prefix_b (npath t' i) q) eqn:E; [|done]. exfalso.
      destruct (Hc q c' (npath t' i) Hq) as (j & Hj & Hpj); [by apply npath_nonempty|done|].
      rewrite <- (npath_skel t t') in Hpj by (auto; lia).
      apply npath_inj in Hpj; auto; lia.
  - intros q c' r Hq Hr Hp. apply elem_of_app in Hq as [Hq|Hq].
    + destruct (Hc q c' r Hq Hr Hp) as (j & Hj & Hpj). exists j. split; [lia|].
      by rewrite (npath_skel t t') by (auto; lia).
    + apply list_elem_of_singleton in Hq. inversion Hq; subst.
      destruct (Hcov r Hr Hp) as (i & Hi & Hpi). eauto.
  - intros i Hi. destruct (decide (i < length t)%nat) as [Hlt|Hge].
    + destruct (Hs i) as (q & c' & Hq & Hp); [lia|]. exists q, c'.
      split; [apply elem_of_app; by left|]. by rewrite (npath_skel t t').
    + destruct (Hnew i) as (r & Hr & Hp & Hpi); [lia|].
      exists (map h_item sp), c. split; [apply elem_of_app; right; by left|].
      by rewrite Hpi.
Qed.

Lemma insert_paths_spec cps : forall (t : Tree) hm ps,
  wf_tree t -> wf_table t hm -> tree_counts t ps ->
  Forall (fun pc => Forall (fun x => in_cap x = true) (fst pc)) cps ->
  exists t' hm',
    insert_paths cps t hm = Done (t', hm') /\
    wf_tree t' /\ wf_table t' hm' /\ strip hm' = strip hm /\
    tree_counts t' (ps ++ ps_of hm cps).
Proof.
  induction cps as [|[p c] cps IH]; intros t hm ps Hwf Hwt Htc Hcap.
  { exists t, hm. simpl. rewrite app_nil_r. auto. }
  apply Forall_cons in Hcap as [Hp Hcap]. simpl in Hp.
  simpl. rewrite lookup_path_Done by (auto; apply Hwt). simpl.
  destruct (insert_path_counts (sort cmp_path (omap (fun x => hm !!! Z.to_nat x) p)) c t hm ps)
    as (t1 & hm1 & Hins & Hwf1 & Hwt1 & Hs1 & Htc1); auto.
  { eapply Permutation_Forall; [symmetry; apply sort_perm|]. by apply (registered_lookup t). }
  rewrite Hins. simpl.
  destruct (IH t1 hm1 _ Hwf1 Hwt1 Htc1 Hcap) as (t' & hm' & Hins' & Hwf' & Hwt' & Hs' & Htc').
  exists t', hm'. split_and!; auto; [congruence|].
  rewrite <- app_assoc in Htc'. simpl in Htc'.
  rewrite (ps_of_strip hm hm1) in Htc' by done.
  by rewrite <- path_items_eq in Htc'.
Qed.

(** ** The walks of the miner *)

Lemma add_all_length p f cc : length (add_all p f cc) = length cc.
Proof.
  revert cc. induction p as [|x p IH]; intros cc; [done|].
  unfold add_all in *. simpl. rewrite IH. by rewrite length_insert.
Qed.

Lemma add_base_length base cc : length (add_base base cc) = length cc.
Proof.
  revert cc. induction base as [|e base IH]; intros cc; [done|].
  unfold add_base in *. simpl. rewrite IH. apply add_all_length.
Qed.

Lemma walk_up_spec (t : Tree) f : forall fuel j cc path,
  wf_tree t -> (j < length t)%nat -> (j < fuel)%nat -> length cc = CAP ->
  walk_up fuel t j f cc path = Done (add_all (pathup t j) f cc, path ++ pathup t j).
Proof.
  induction fuel as [|k IH]; intros j cc path Hwf Hj Hf Hcc; [lia|].
  simpl. destruct (n_item (deref t j) =? -1) eqn:E.
  - unfold pathup. simpl. rewrite E. simpl. by rewrite app_nil_r.
  - assert (Hj0 : (0 < j)%nat).
    { destruct j; [|lia]. rewrite (wf_root t Hwf) in E. discriminate. }
    pose proof (wf_item t Hwf j ltac:(lia)) as Hc. apply in_cap_spec in Hc.
    destruct (wf_par t Hwf j ltac:(lia)) as (pp & Hpp & Hlt).
    rewrite vec_get_Done by lia. simpl. rewrite vec_set_Done by lia. simpl.
    rewrite Hpp. rewrite IH; try lia; [|done|by rewrite length_insert].
    rewrite (pathup_step t j pp) by (auto; lia).
    simpl. by rewrite <- app_assoc.
Qed.

Lemma collect_IL_spec (t : Tree) : forall fuel j IL,
  wf_tree t -> (j < length t)%nat -> (j < fuel)%nat ->
  Opt.collect_IL fuel t j IL = Done (IL ++ pathup t j).
Proof.
  induction fuel as [|k IH]; intros j IL Hwf Hj Hf; [lia|].
  simpl. destruct (n_item (deref t j) =? -1) eqn:E.
  - unfold pathup. simpl. rewrite E. simpl. by rewrite app_nil_r.
  - assert (Hj0 : (0 < j)%nat).
    { destruct j; [|lia]. rewrite (wf_root t Hwf) in E. discriminate. }
    destruct (wf_par t Hwf j ltac:(lia)) as (pp & Hpp & Hlt).
    rewrite Hpp. rewrite IH; try lia; [|done].
    rewrite (pathup_step t j pp) by (auto; lia).
    simpl. by rewrite <- app_assoc.
Qed.

Lemma parent_path_eq t i :
  wf_tree t -> (0 < i < length t)%nat ->
  exists j, n_parent (deref t i) = Some j /\ (j < i)%nat /\
            parent_path t i = pathup t j /\
            pathup t i = n_item (deref t i) :: parent_path t i.
Proof.
  intros Hwf Hi. destruct (wf_par t Hwf i Hi) as (j & Hj & Hlt).
  exists j. unfold parent_path. rewrite Hj. split_and!; auto.
  by apply pathup_step.
Qed.


Lemma Opt_walk_chain_spec (t : Tree) : forall l fuel o cc cps,
  wf_tree t -> chain_rel t o l -> (forall i, i ∈ l -> (0 < i < length t)%nat) ->
  (length l <= fuel)%nat -> length cc = CAP ->
  let base := map (fun i => (parent_path t i, n_freq (deref t i))) l in
  Opt.walk_chain fuel t o cc cps = Done (add_base base cc, cps ++ nonempty_paths base).
Proof.
  induction l as [|i l IH]; intros fuel o cc cps Hwf Hc Hb Hf Hcc; simpl in *.
  - subst o. destruct fuel; simpl; by rewrite app_nil_r.
  - destruct Hc as [-> Hc]. destruct fuel as [|k]; [lia|]. simpl.
    destruct (parent_path_eq t i Hwf) as (j & Hj & Hlt & Hpp & _); [apply Hb; by left|].
    rewrite Hj. pose proof (Hb i ltac:(by left)).
    rewrite walk_up_spec by (auto; lia). simpl.
    rewrite IH; auto; [| |lia|by rewrite add_all_length].
    + unfold add_base. simpl. rewrite Hpp. f_equal. f_equal.
      destruct (pathup t j); simpl; [done|by rewrite <- app_assoc].
    + intros i' Hi'. apply Hb. by right.
Qed.

Lemma Hamm_walk_chain_spec (t : Tree) : forall l fuel o cc cps,
  wf_tree t -> chain_rel t o l -> (forall i, i ∈ l -> (0 < i < length t)%nat) ->
  (length l <= fuel)%nat -> length cc = CAP ->
  let base := map (fun i => (parent_path t i, n_freq (deref t i))) l in
  Hamm.walk_chain fuel t o cc cps =
  Done (add_base base cc, cps ++ map (fun i => (npath t i, n_freq (deref t i))) l).
Proof.
  induction l as [|i l IH]; intros fuel o cc cps Hwf Hc Hb Hf Hcc; simpl in *.
  - subst o. destruct fuel; simpl; by rewrite app_nil_r.
  - destruct Hc as [-> Hc]. destruct fuel as [|k]; [lia|]. simpl.
    destruct (parent_path_eq t i Hwf) as (j & Hj & Hlt & Hpp & Hpi); [apply Hb; by left|].
    rewrite Hj. pose proof (Hb i ltac:(by left)).
    rewrite walk_up_spec by (auto; lia). simpl.
    rewrite IH; auto; [| |lia|by rewrite add_all_length].
    + unfold add_base. simpl. rewrite Hpp. f_equal. f_equal.
      rewrite <- app_assoc. simpl. unfold npath. rewrite Hpi, Hpp. done.
    + intros i' Hi'. apply Hb. by right.
Qed.

Lemma nodes_with_length x t : (length (nodes_with x t) <= length t)%nat.
Proof.
  unfold nodes_with. etransitivity; [apply filter_length_le|]. rewrite length_seq. lia.
Qed.

(** ** The conditional counters *)

Lemma add_all_lookup p f : forall cc (k : nat),
  NoDup p -> Forall (fun x => in_cap x = true) p -> (k < length cc)%nat ->
  add_all p f cc !!! k =
  cc !!! k + (if existsb (Z.eqb (Z.of_nat k)) p then f else 0).
Proof.
  induction p as [|x p IH]; intros cc k Hnd Hcap Hk; simpl; [lia|].
  apply NoDup_cons in Hnd as [Hx Hnd]. apply Forall_cons in Hcap as [Hxc Hcap].
  apply in_cap_spec in Hxc.
  unfold add_all in *. simpl. rewrite IH by (auto; by rewrite length_insert).
  destruct (decide (k = Z.to_nat x)) as [->|Hne].
  - rewrite list_lookup_total_insert_eq by lia.
    rewrite Z2Nat.id, Z.eqb_refl by lia. simpl.
    replace (existsb (Z.eqb x) p) with false; [lia|].
    symmetry. apply not_true_is_false. intros (y & Hy & Hxy)%existsb_exists.
    apply Z.eqb_eq in Hxy. subst y. by apply list_elem_of_In in Hy.
  - rewrite list_lookup_total_insert_ne by done.
    replace (Z.of_nat k =? x) with false by (symmetry; apply Z.eqb_neq; lia).
    simpl. lia.
Qed.

Lemma incl_b_single x p : incl_b [x] p = existsb (Z.eqb x) p.
Proof. unfold incl_b. simpl. by rewrite andb_true_r. Qed.

Lemma add_base_lookup base : forall cc (k : nat),
  Forall (fun e => NoDup (fst e) /\ Forall (fun x => in_cap x = true) (fst e)) base ->
  (k < length cc)%nat ->
  add_base base cc !!! k = cc !!! k + wsupp base [Z.of_nat k].
Proof.
  induction base as [|[p f] base IH]; intros cc k Hb Hk.
  - unfold wsupp. simpl. lia.
  - apply Forall_cons in Hb as [[Hnd Hcap] Hb]. simpl in *.
    unfold add_base in *. simpl. rewrite IH by (auto; by rewrite add_all_length).
    rewrite add_all_lookup by auto. unfold wsupp, sumZ.
    cbn [map foldr fst snd]. rewrite incl_b_single. lia.
Qed.

Lemma replicate_total {A} `{Inhabited A} (n k : nat) (x : A) :
  (k < n)%nat -> replicate n x !!! k = x.
Proof. intros. by apply lookup_total_replicate_2. Qed.

Lemma cond_counts base x :
  Forall (fun e => NoDup (fst e) /\ Forall (fun x => in_cap x = true) (fst e)) base ->
  in_cap x = true ->
  add_base base (replicate CAP 0) !!! Z.to_nat x = wsupp base [x].
Proof.
  intros Hb Hx. apply in_cap_spec in Hx.
  rewrite add_base_lookup by (auto; rewrite length_replicate; lia).
  rewrite replicate_total by lia. rewrite Z2Nat.id by lia. lia.
Qed.

Lemma make_headers_elem cc ms h :
  h ∈ make_headers cc ms <->
  exists i : nat, (i < CAP)%nat /\ ms <= cc !!! i /\ h = mkHeader (Z.of_nat i) (cc !!! i) None None.
Proof.
  unfold make_headers. rewrite list_elem_of_In, in_flat_map. split.
  - intros (i & Hi%in_seq & Hh). exists i. simpl in Hh.
    destruct (ms <=? cc !!! i) eqn:E; [|done].
    apply Z.leb_le in E. destruct Hh as [<-|[]]. split_and!; auto. lia.
  - intros (i & Hi & Hms & ->). exists i. split; [apply in_seq; lia|].
    simpl. apply Z.leb_le in Hms. rewrite Hms. by left.
Qed.

Lemma headers_from_items (P : nat -> bool) (F : nat -> Z) (l : list nat) :
  map h_item (flat_map (fun i => if P i then [mkHeader (Z.of_nat i) (F i) None None] else []) l)
  = map Z.of_nat (List.filter P l).
Proof.
  induction l as [|i l IH]; [done|].
  simpl. destruct (P i); simpl; by rewrite IH.
Qed.

Lemma headers_from_NoDup (P : nat -> bool) (F : nat -> Z) (l : list nat) :
  NoDup l ->
  NoDup (map h_item
    (flat_map (fun i => if P i then [mkHeader (Z.of_nat i) (F i) None None] else []) l)).
Proof.
  intros Hnd. rewrite headers_from_items.
  apply NoDup_fmap_2; [intros ? ? ?; lia|].
  by apply NoDup_ListNoDup, List.NoDup_filter, NoDup_ListNoDup.
Qed.

Lemma make_headers_NoDup cc ms : NoDup (map h_item (make_headers cc ms)).
Proof.
  apply (headers_from_NoDup (fun i => ms <=? cc !!! i) (fun i => cc !!! i) (seq 0 CAP)).
  apply NoDup_ListNoDup, seq_NoDup.
Qed.

Lemma make_headerMap_length cc ms : length (Hamm.make_headerMap cc ms) = CAP.
Proof. unfold Hamm.make_headerMap. by rewrite length_map, length_seq. Qed.

Lemma make_headerMap_lookup cc ms (k : nat) :
  (k < CAP)%nat ->
  Hamm.make_headerMap cc ms !! k =
  Some (if ms <=? cc !!! k then Some (mkHeader (Z.of_nat k) (cc !!! k) None None) else None).
Proof.
  intros Hk. unfold Hamm.make_headerMap. rewrite list_lookup_fmap.
  rewrite lookup_seq_lt by done. reflexivity.
Qed.

(** The table of part_001 is the table of Hamm.cpp. *)
Lemma register_spec hs : forall hm,
  length hm = CAP -> Forall (fun h => in_cap (h_item h) = true) hs ->
  Opt.register hs hm =
  Done (foldl (fun hm h => <[Z.to_nat (h_item h) := Some (set_chain None None h)]> hm) hm hs).
Proof.
  induction hs as [|h hs IH]; intros hm Hlen Hcap; [done|].
  apply Forall_cons in Hcap as [Hh Hcap]. apply in_cap_spec in Hh.
  simpl. rewrite vec_set_Done by lia. simpl. rewrite IH; auto.
  by rewrite length_insert.
Qed.

Lemma foldl_insert_length (hs : list Header) : forall hm,
  length (foldl (fun hm h => <[Z.to_nat (h_item h) := Some (set_chain None None h)]> hm) hm hs)
  = length hm.
Proof.
  induction hs as [|h hs IH]; intros hm; [done|].
  simpl. rewrite IH. by rewrite length_insert.
Qed.

Lemma foldl_insert_lookup (hs : list Header) : forall hm (k : nat),
  (forall h, h ∈ hs -> (Z.to_nat (h_item h) < length hm)%nat) ->
  foldl (fun hm h => <[Z.to_nat (h_item h) := Some (set_chain None None h)]> hm) hm hs !! k =
  match last (List.filter (fun h => Nat.eqb (Z.to_nat (h_item h)) k) hs) with
  | Some h => Some (Some (set_chain None None h))
  | None => hm !! k
  end.
Proof.
  induction hs as [|h hs IH] using rev_ind; intros hm k Hb; [done|].
  rewrite foldl_app, List.filter_app. simpl.
  assert (Hh : (Z.to_nat (h_item h) < length hm)%nat).
  { apply Hb. apply elem_of_app. right. by left. }
  destruct (Nat.eqb_spec (Z.to_nat (h_item h)) k) as [<-|Hne].
  - rewrite last_snoc. rewrite list_lookup_insert_eq; [done|].
    by rewrite foldl_insert_length.
  - rewrite app_nil_r. rewrite list_lookup_insert_ne by done.
    apply IH. intros. apply Hb. apply elem_of_app. by left.
Qed.

(** ** Supports *)

Lemma existsb_eqb x (p : list Z) : existsb (Z.eqb x) p = true <-> x ∈ p.
Proof.
  rewrite existsb_exists. split.
  - intros (y & Hy & ->%Z.eqb_eq). by apply list_elem_of_In.
  - intros H. exists x. split; [by apply list_elem_of_In|apply Z.eqb_refl].
Qed.

Lemma existsb_eqb_false x (p : list Z) : existsb (Z.eqb x) p = false <-> x ∉ p.
Proof. rewrite <- existsb_eqb. by destruct (existsb (Z.eqb x) p). Qed.

Lemma elem_of_rev {A} (x : A) l : x ∈ rev l <-> x ∈ l.
Proof. rewrite !list_elem_of_In. symmetry. apply in_rev. Qed.

Lemma incl_b_spec S p : incl_b S p = true <-> forall x, x ∈ S -> x ∈ p.
Proof.
  unfold incl_b. rewrite forallb_forall. split.
  - intros H x Hx. apply existsb_eqb, H. by apply list_elem_of_In.
  - intros H x Hx. apply existsb_eqb, H. by apply list_elem_of_In.
Qed.

Lemma incl_b_ext S S' p p' :
  (forall x, x ∈ S <-> x ∈ S') -> (forall x, x ∈ p <-> x ∈ p') ->
  incl_b S p = incl_b S' p'.
Proof.
  intros HS Hp. apply eq_true_iff_eq. rewrite !incl_b_spec.
  split; intros H x Hx; apply Hp, H, HS, Hx.
Qed.

Lemma incl_b_cons x S p : incl_b (x :: S) p = existsb (Z.eqb x) p && incl_b S p.
Proof. reflexivity. Qed.

Lemma incl_b_nil p : incl_b [] p = true.
Proof. reflexivity. Qed.

Lemma wsupp_nil S : wsupp [] S = 0.
Proof. reflexivity. Qed.

Lemma wsupp_cons p c db S :
  wsupp ((p, c) :: db) S = (if incl_b S p then c else 0) + wsupp db S.
Proof. reflexivity. Qed.

Lemma wsupp_app db db' S : wsupp (db ++ db') S = wsupp db S + wsupp db' S.
Proof. unfold wsupp. by rewrite map_app, sumZ_app. Qed.

Lemma wsupp_ext db S S' : (forall x, x ∈ S <-> x ∈ S') -> wsupp db S = wsupp db S'.
Proof.
  intros H. unfold wsupp. f_equal. apply map_ext. intros [p c]. simpl.
  by rewrite (incl_b_ext S S' p p).
Qed.

Lemma wsupp_nonneg db S : Forall (fun e => 0 <= snd e) db -> 0 <= wsupp db S.
Proof.
  induction 1 as [|[p c] db Hc H IH]; [done|].
  rewrite wsupp_cons. simpl in Hc. destruct (incl_b S p); lia.
Qed.

(** Anti-monotonicity. *)
Lemma wsupp_mono db S S' :
  Forall (fun e => 0 <= snd e) db -> (forall x, x ∈ S -> x ∈ S') ->
  wsupp db S' <= wsupp db S.
Proof.
  intros Hdb HS. induction Hdb as [|[p c] db Hc H IH]; [done|].
  rewrite !wsupp_cons. simpl in Hc.
  destruct (incl_b S' p) eqn:E'; destruct (incl_b S p) eqn:E; try lia.
  exfalso. apply not_true_iff_false in E. apply E.
  rewrite incl_b_spec in *. auto.
Qed.

Lemma wsupp_pos_elem db S :
  0 < wsupp db S -> exists p c, (p, c) ∈ db /\ incl_b S p = true.
Proof.
  induction db as [|[p c] db IH]; [rewrite wsupp_nil; lia|].
  rewrite wsupp_cons. destruct (incl_b S p) eqn:E.
  - intros _. exists p, c. split; [by left|done].
  - intros H. destruct IH as (p' & c' & Hin & Hi); [lia|].
    exists p', c'. split; [by right|done].
Qed.

Lemma sumZ_swap {A B} (f : A -> B -> Z) (l : list A) (k : list B) :
  sumZ (map (fun a => sumZ (map (fun b => f a b) k)) l) =
  sumZ (map (fun b => sumZ (map (fun a => f a b) l)) k).
Proof.
  induction l as [|a l IH]; simpl.
  - induction k as [|b k IHk]; simpl; [done|]. by rewrite <- IHk.
  - rewrite IH. clear IH. induction k as [|b k IHk]; simpl; [done|].
    rewrite <- IHk. lia.
Qed.

Lemma sumZ_if (b : bool) {A} (g : A -> Z) (l : list A) :
  (if b then sumZ (map g l) else 0) = sumZ (map (fun a => if b then g a else 0) l).
Proof.
  destruct b; [done|]. symmetry. apply sumZ_zero.
  apply Forall_forall. intros z Hz. apply list_elem_of_fmap in Hz as (? & -> & _). done.
Qed.

Lemma sumZ_map_ext {A} (f g : A -> Z) l :
  (forall a, a ∈ l -> f a = g a) -> sumZ (map f l) = sumZ (map g l).
Proof.
  induction l as [|a l IH]; intros H; simpl; [done|].
  rewrite H by (by left). rewrite IH; [done|]. intros. apply H. by right.
Qed.

Lemma sumZ_single {A} (f : A -> Z) (l : list A) a0 :
  NoDup l -> a0 ∈ l -> (forall a, a ∈ l -> a <> a0 -> f a = 0) ->
  sumZ (map f l) = f a0.
Proof.
  induction l as [|a l IH]; intros Hnd Hin Hz; [by apply elem_of_nil in Hin|].
  apply NoDup_cons in Hnd as [Ha Hnd]. simpl.
  apply elem_of_cons in Hin as [->|Hin].
  - rewrite sumZ_zero; [lia|]. apply Forall_forall. intros z Hz'.
    apply list_elem_of_fmap in Hz' as (b & -> & Hb). apply Hz; [by right|].
    intros ->. done.
  - rewrite IH; auto.
    + rewrite Hz; [lia|by left|]. intros ->. done.
    + intros b Hb Hne. apply Hz; [by right|done].
Qed.

(** ** Projection of a database of ordered paths *)

Lemma before_prefix x q : x ∈ q -> (before x q ++ [x]) `prefix_of` q.
Proof.
  induction q as [|y q IH]; intros H; [by apply elem_of_nil in H|].
  simpl. destruct (Z.eqb_spec y x) as [->|Hne].
  - simpl. apply prefix_cons, prefix_nil.
  - simpl. apply prefix_cons, IH. apply elem_of_cons in H as [->|H]; done.
Qed.

Lemma before_of_prefix x p q : (p ++ [x]) `prefix_of` q -> x ∉ p -> before x q = p.
Proof.
  revert q. induction p as [|y p IH]; intros q Hp Hx.
  - destruct q as [|z q]; [by apply prefix_nil_inv in Hp|].
    simpl in *. apply prefix_cons_inv_1 in Hp. subst z. by rewrite Z.eqb_refl.
  - destruct q as [|z q]; [by apply prefix_nil_inv in Hp|].
    simpl in Hp. pose proof (prefix_cons_inv_1 _ _ _ _ Hp). subst z.
    apply prefix_cons_inv_2 in Hp. simpl.
    apply not_elem_of_cons in Hx as [Hxy Hx].
    destruct (Z.eqb_spec y x); [congruence|]. f_equal. by apply IH.
Qed.

Lemma before_not_elem x q : x ∉ before x q.
Proof.
  induction q as [|y q IH]; simpl; [by apply not_elem_of_nil|].
  destruct (Z.eqb_spec y x); [by apply not_elem_of_nil|].
  apply not_elem_of_cons. split; [congruence|done].
Qed.

Lemma before_subset x q y : y ∈ before x q -> y ∈ q.
Proof.
  induction q as [|z q IH]; simpl; [done|].
  destruct (z =? x); [by intros ?%elem_of_nil|].
  intros [->|H]%elem_of_cons; [by left|right; auto].
Qed.

Lemma wsupp_project x ps S :
  wsupp (project x ps) S =
  sumZ (map (fun qc => if existsb (Z.eqb x) (fst qc) && incl_b S (before x (fst qc))
                       then snd qc else 0) ps).
Proof.
  induction ps as [|[q c] ps IH]; [done|].
  change (project x ((q, c) :: ps)) with
    ((if existsb (Z.eqb x) q then [(before x q, c)] else []) ++ project x ps).
  rewrite wsupp_app, IH. unfold sumZ. cbn [map foldr fst snd].
  destruct (existsb (Z.eqb x) q); cbn [andb]; [|rewrite wsupp_nil; lia].
  rewrite wsupp_cons, wsupp_nil. lia.
Qed.

(** The pattern base read off the tree carries the supports of the
    projected database. *)
Lemma proj_project (t : Tree) ps x S :
  wf_tree t -> tree_counts t ps -> (forall q c, (q, c) ∈ ps -> NoDup q) ->
  wsupp (proj t x) S = wsupp (project x ps) S.
Proof.
  intros Hwf [Hf Hc Hs] Hnd. rewrite wsupp_project.
  unfold wsupp, proj. rewrite map_map. simpl.
  rewrite (sumZ_map_ext _
    (fun i => sumZ (map (fun qc => if incl_b S (parent_path t i) &&
                                      is_prefix_b (npath t i) (fst qc)
                                   then snd qc else 0) ps))).
  2:{ intros i Hi. apply nodes_with_bound in Hi as [Hi _].
      rewrite (Hf i Hi), sumZ_if. apply sumZ_map_ext. intros [q c] _. simpl.
      by destruct (incl_b S (parent_path t i)). }
  rewrite sumZ_swap. apply sumZ_map_ext. intros [q c] Hq. simpl.
  assert (Hnode : forall i, i ∈ nodes_with x t -> is_prefix_b (npath t i) q = true ->
            npath t i = before x q ++ [x] /\
            (forall y, y ∈ parent_path t i <-> y ∈ before x q)).
  { intros i Hi Hp. apply nodes_with_bound in Hi as [Hi Hx].
    destruct (parent_path_eq t i Hwf Hi) as (j & Hj & Hlt & Hpp & Hpi).
    assert (Hnp : npath t i = npath t j ++ [x]) by (by rewrite (npath_step t i j), Hx).
    apply is_prefix_b_spec in Hp. rewrite Hnp in Hp.
    assert (Hndq : NoDup (npath t j ++ [x])).
    { destruct Hp as [k ->]. apply Hnd in Hq. by apply NoDup_app in Hq as [? _]. }
    assert (Hxj : x ∉ npath t j).
    { apply NoDup_app in Hndq as (_ & H & _). intros Hin. apply (H x Hin). by left. }
    rewrite (before_of_prefix x (npath t j) q Hp Hxj). split; [done|].
    intros y. rewrite Hpp. unfold npath. by rewrite elem_of_rev. }
  destruct (existsb (Z.eqb x) q) eqn:Ex; simpl.
  - apply existsb_eqb in Ex. pose proof (before_prefix x q Ex) as Hpre.
    destruct (Hc q c (before x q ++ [x]) Hq) as (i0 & Hi0 & Hp0);
      [by destruct (before x q)|by apply is_prefix_b_spec|].
    assert (Hx0 : n_item (deref t i0) = x).
    { destruct (wf_par t Hwf i0 Hi0) as (j & Hj & _).
      rewrite (npath_step t i0 j) in Hp0 by done.
      by apply app_inj_tail in Hp0 as [_ ?]. }
    assert (Hin0 : i0 ∈ nodes_with x t) by (by apply nodes_with_elem).
    assert (Hpb0 : is_prefix_b (npath t i0) q = true).
    { rewrite Hp0. by apply is_prefix_b_spec. }
    rewrite (sumZ_single _ _ i0); [| apply nodes_with_NoDup | done |].
    + rewrite Hpb0, andb_true_r.
      destruct (Hnode i0 Hin0 Hpb0) as [_ Heq].
      by rewrite (incl_b_ext S S (parent_path t i0) (before x q)).
    + intros i Hi Hne. destruct (is_prefix_b (npath t i) q) eqn:E; [|by rewrite andb_false_r].
      exfalso. apply Hne. destruct (Hnode i Hi E) as [Hpi _].
      apply nodes_with_bound in Hi as [Hi _].
      apply (npath_inj t); auto; [lia|lia|congruence].
  - apply sumZ_zero, Forall_forall. intros z Hz.
    apply list_elem_of_fmap in Hz as (i & -> & Hi).
    destruct (is_prefix_b (npath t i) q) eqn:E; [|by rewrite andb_false_r].
    exfalso. destruct (Hnode i Hi E) as [Hpi _].
    apply is_prefix_b_spec in E. rewrite Hpi in E. destruct E as [k Hk].
    apply existsb_eqb_false in Ex. apply Ex. rewrite Hk.
    apply elem_of_app. left. apply elem_of_app. right. by left.
Qed.

(** ** Building a level *)

Lemma cmp_path_trans a b c :
  cmp_path a b = true -> cmp_path b c = true -> cmp_path a c = true.
Proof.
  unfold cmp_path.
  destruct (Z.eqb_spec (h_freq a) (h_freq b)), (Z.eqb_spec (h_freq b) (h_freq c)),
    (Z.eqb_spec (h_freq a) (h_freq c)); rewrite ?Z.ltb_lt; lia.
Qed.

Lemma cmp_path_asym a b : cmp_path a b = true -> cmp_path b a = false.
Proof.
  unfold cmp_path.
  destruct (Z.eqb_spec (h_freq a) (h_freq b)), (Z.eqb_spec (h_freq b) (h_freq a));
    rewrite ?Z.ltb_lt, ?Z.ltb_ge; lia.
Qed.

Lemma cmp_path_total a b :
  cmp_path a b = false -> cmp_path b a = false ->
  h_item a = h_item b /\ h_freq a = h_freq b.
Proof.
  unfold cmp_path.
  destruct (Z.eqb_spec (h_freq a) (h_freq b)), (Z.eqb_spec (h_freq b) (h_freq a));
    rewrite ?Z.ltb_ge; lia.
Qed.

Lemma cmp_headers_trans a b c :
  cmp_headers a b = true -> cmp_headers b c = true -> cmp_headers a c = true.
Proof.
  unfold cmp_headers.
  destruct (Z.eqb_spec (h_freq a) (h_freq b)), (Z.eqb_spec (h_freq b) (h_freq c)),
    (Z.eqb_spec (h_freq a) (h_freq c)); rewrite ?Z.ltb_lt; lia.
Qed.

Lemma cmp_headers_asym a b : cmp_headers a b = true -> cmp_headers b a = false.
Proof.
  unfold cmp_headers.
  destruct (Z.eqb_spec (h_freq a) (h_freq b)), (Z.eqb_spec (h_freq b) (h_freq a));
    rewrite ?Z.ltb_lt, ?Z.ltb_ge; lia.
Qed.

Lemma cmp_headers_total a b :
  cmp_headers a b = false -> cmp_headers b a = false ->
  h_item a = h_item b /\ h_freq a = h_freq b.
Proof.
  unfold cmp_headers.
  destruct (Z.eqb_spec (h_freq a) (h_freq b)), (Z.eqb_spec (h_freq b) (h_freq a));
    rewrite ?Z.ltb_ge; lia.
Qed.

Lemma lt_fr_irrefl fr x : lt_fr fr x x = false.
Proof. unfold lt_fr. rewrite Z.eqb_refl. apply Z.ltb_irrefl. Qed.

Lemma lt_fr_asym fr x y : lt_fr fr x y = true -> lt_fr fr y x = false.
Proof.
  unfold lt_fr.
  destruct (Z.eqb_spec (fr x) (fr y)), (Z.eqb_spec (fr y) (fr x));
    rewrite ?Z.ltb_lt, ?Z.ltb_ge; lia.
Qed.

Lemma lt_fr_trans fr x y z : lt_fr fr x y = true -> lt_fr fr y z = true -> lt_fr fr x z = true.
Proof.
  unfold lt_fr.
  destruct (Z.eqb_spec (fr x) (fr y)), (Z.eqb_spec (fr y) (fr z)),
    (Z.eqb_spec (fr x) (fr z)); rewrite ?Z.ltb_lt; lia.
Qed.

Lemma lt_fr_total fr x y : lt_fr fr x y = false -> lt_fr fr y x = false -> x = y.
Proof.
  unfold lt_fr.
  destruct (Z.eqb_spec (fr x) (fr y)), (Z.eqb_spec (fr y) (fr x));
    rewrite ?Z.ltb_ge; lia.
Qed.

Lemma StronglySorted_NoDup {A} (R : A -> A -> Prop) l :
  (forall x, ~ R x x) -> StronglySorted R l -> NoDup l.
Proof.
  intros Hirr. induction 1 as [|x l Hs IH Hx]; constructor; [|done].
  intros Hin. rewrite Forall_forall in Hx. by apply (Hirr x), Hx.
Qed.

Lemma StronglySorted_map {A B} (f : A -> B) (R : A -> A -> Prop) (R' : B -> B -> Prop) l :
  (forall a b, a ∈ l -> b ∈ l -> R a b -> R' (f a) (f b)) ->
  StronglySorted R l -> StronglySorted R' (map f l).
Proof.
  intros Hf Hs. induction Hs as [|x l Hs IH Hx]; simpl; constructor.
  - apply IH. intros a b Ha Hb. apply Hf; by right.
  - rewrite Forall_forall in Hx. apply Forall_forall. intros y Hy.
    apply list_elem_of_fmap in Hy as (a & -> & Ha).
    apply Hf; [by left|by right|by apply Hx].
Qed.

Section Table.
Variables (hs : list Header) (hm0 : list (option Header)).
Hypothesis Htab : table_of hs hm0.

Lemma hdr_Some x h :
  in_cap x = true -> hdr hm0 x = Some h ->
  exists h', h' ∈ hs /\ h = set_chain None None h' /\ h' = h /\ h_item h = x.
Proof.
  intros Hx Hh. apply in_cap_spec in Hx. unfold hdr in Hh.
  rewrite strip_total in Hh.
  destruct (hm0 !!! Z.to_nat x) as [h'|] eqn:E; [|done]. simpl in Hh.
  assert (Hl : hm0 !! Z.to_nat x = Some (Some h')).
  { rewrite <- E. apply list_lookup_lookup_total_lt. rewrite (to_len _ _ Htab). lia. }
  destruct (to_sound _ _ Htab _ _ Hl) as (H1 & H2 & H3 & H4).
  inversion Hh; subst h. exists h'. rewrite Z2Nat.id in H2 by lia.
  assert (set_chain None None h' = h') as ->.
  { destruct h'. unfold set_chain. simpl in *. by subst. }
  done.
Qed.

Lemma hdr_of_header h : h ∈ hs -> hdr hm0 (h_item h) = Some h.
Proof.
  intros Hh. destruct (to_complete _ _ Htab h Hh) as [Hc Hl].
  unfold hdr. rewrite strip_total.
  rewrite (list_lookup_total_correct _ _ _ Hl). simpl.
  destruct (to_sound _ _ Htab _ _ Hl) as (_ & _ & H3 & H4).
  destruct h. unfold set_chain. simpl in *. by subst.
Qed.

Lemma omap_hdr_elem p h :
  Forall (fun x => in_cap x = true) p ->
  h ∈ omap (hdr hm0) p <-> h ∈ hs /\ h_item h ∈ p.
Proof.
  intros Hp. rewrite list_elem_of_omap. split.
  - intros (x & Hx & Hh). rewrite Forall_forall in Hp.
    destruct (hdr_Some x h (Hp x Hx) Hh) as (h' & H1 & _ & -> & H3). by subst.
  - intros [Hh Hin]. exists (h_item h). split; [done|]. by apply hdr_of_header.
Qed.

Lemma path_items_elem p y :
  Forall (fun x => in_cap x = true) p ->
  y ∈ path_items hm0 p <-> y ∈ p /\ y ∈ map h_item hs.
Proof.
  intros Hp. unfold path_items.
  rewrite (list_elem_of_fmap h_item). split.
  - intros (h & -> & Hh). rewrite sort_perm in Hh.
    apply omap_hdr_elem in Hh as [H1 H2]; [|done]. split; [done|].
    apply list_elem_of_fmap. eauto.
  - intros [Hy Hin]. apply list_elem_of_fmap in Hin as (h & -> & Hh).
    exists h. split; [done|]. rewrite sort_perm. by apply omap_hdr_elem.
Qed.

Lemma omap_hdr_NoDup p :
  Forall (fun x => in_cap x = true) p -> NoDup p -> NoDup (omap (hdr hm0) p).
Proof.
  intros Hp Hnd. induction Hnd as [|x p Hx Hnd IH]; [constructor|].
  apply Forall_cons in Hp as [Hxc Hp].
  change (omap (hdr hm0) (x :: p)) with
    (match hdr hm0 x with Some h => h :: omap (hdr hm0) p | None => omap (hdr hm0) p end).
  destruct (hdr hm0 x) as [h|] eqn:E; [|by apply IH].
  constructor; [|by apply IH].
  intros Hin. apply omap_hdr_elem in Hin as [_ Hin]; [|done].
  destruct (hdr_Some x h Hxc E) as (_ & _ & _ & _ & Hi). by subst.
Qed.

Lemma path_items_sorted p (fr : Z -> Z) :
  (forall h, h ∈ hs -> h_freq h = fr (h_item h)) ->
  Forall (fun x => in_cap x = true) p -> NoDup p ->
  StronglySorted (fun x y => lt_fr fr x y = true) (path_items hm0 p).
Proof.
  intros Hfr Hp Hnd. unfold path_items.
  apply (StronglySorted_map h_item (fun a b => cmp_path a b = true)).
  - intros a b Ha Hb Hab. rewrite sort_perm in Ha, Hb.
    apply omap_hdr_elem in Ha as [Ha _]; [|done].
    apply omap_hdr_elem in Hb as [Hb _]; [|done].
    unfold lt_fr. rewrite <- !Hfr by done. exact Hab.
  - apply (sort_strict cmp_path (fun h => h ∈ hs)).
    + intros a b c _ _ _. apply cmp_path_trans.
    + intros a b _ _. apply cmp_path_asym.
    + intros a b Ha Hb H1 H2. destruct (cmp_path_total a b H1 H2) as [Hi Hf].
      pose proof (hdr_of_header a Ha) as Ea. pose proof (hdr_of_header b Hb) as Eb.
      rewrite Hi in Ea. congruence.
    + apply Forall_forall. intros h Hh. by apply omap_hdr_elem in Hh as [? _].
    + by apply omap_hdr_NoDup.
Qed.

Lemma wsupp_ps_of cps S :
  Forall (fun pc => Forall (fun x => in_cap x = true) (fst pc)) cps ->
  (forall x, x ∈ S -> x ∈ map h_item hs) ->
  wsupp (ps_of hm0 cps) S = wsupp cps S.
Proof.
  intros Hcps HS. induction Hcps as [|[p c] cps Hp Hcps IH]; [done|].
  change (ps_of hm0 ((p, c) :: cps)) with ((path_items hm0 p, c) :: ps_of hm0 cps).
  rewrite !wsupp_cons, IH. f_equal.
  assert (incl_b S (path_items hm0 p) = incl_b S p) as ->; [|done].
  apply eq_true_iff_eq. rewrite !incl_b_spec. split; intros H x Hx.
  - by apply (path_items_elem p x Hp), H.
  - apply (path_items_elem p x Hp). split; [by apply H|by apply HS].
Qed.
End Table.

Lemma wf_tree_init : wf_tree [new_Node].
Proof.
  constructor; simpl; try (intros; lia); try done.
  - intros j x c Hj. assert (j = 0%nat) as -> by lia. done.
Qed.

Lemma nodes_with_init x : nodes_with x [new_Node] = [].
Proof. reflexivity. Qed.

Lemma wf_table_init hs hm0 : table_of hs hm0 -> wf_table [new_Node] hm0.
Proof.
  intros [H1 H2 H3]. constructor; [done| |simpl; intros; lia].
  intros x h Hx. destruct (H2 x h Hx) as (_ & Hi & Hn & Ht).
  rewrite nodes_with_init, Hn, Ht. done.
Qed.

Lemma tree_counts_init : tree_counts [new_Node] [].
Proof.
  constructor; simpl; try (intros; lia).
  intros q c r Hq. by apply elem_of_nil in Hq.
Qed.

Lemma reload_spec (t : Tree) hs hm0 hm h :
  table_of hs hm0 -> strip hm = strip hm0 -> h ∈ hs ->
  exists h', match hm !!! Z.to_nat (h_item h) with Some h' => h' | None => h end = h' /\
             hm !! Z.to_nat (h_item h) = Some (Some h') /\
             h_item h' = h_item h /\ h_freq h' = h_freq h.
Proof.
  intros Htab Hs Hh. destruct (to_complete _ _ Htab h Hh) as [Hc Hl].
  destruct (strip_lookup hm0 hm _ _ Hs Hl) as (h' & Hl' & Hi & Hf).
  exists h'. rewrite (list_lookup_total_correct _ _ _ Hl'). done.
Qed.

Lemma reload_items (t : Tree) hs hm0 hm :
  table_of hs hm0 -> strip hm = strip hm0 -> map h_item (reload hm hs) = map h_item hs.
Proof.
  intros Htab Hs. unfold reload. rewrite map_map. apply map_ext_in.
  intros h Hh%list_elem_of_In.
  destruct (reload_spec t hs hm0 hm h Htab Hs Hh) as (h' & -> & _ & Hi & _). done.
Qed.

Lemma build_level ms cps hs hm0 :
  table_of hs hm0 -> NoDup (map h_item hs) ->
  (forall h, h ∈ hs -> h_freq h = wsupp cps [h_item h] /\ ms <= h_freq h) ->
  Forall (fun pc => NoDup (fst pc) /\ Forall (fun x => in_cap x = true) (fst pc) /\ 0 < snd pc)
         cps ->
  exists t hm,
    insert_paths cps [new_Node] hm0 = Done (t, hm) /\
    level ms (ps_of hm0 cps) t (reload hm hs).
Proof.
  intros Htab Hnd Hfr Hcps.
  assert (Hcap : Forall (fun pc => Forall (fun x => in_cap x = true) (fst pc)) cps).
  { eapply Forall_impl; [exact Hcps|]. by intros ? (_ & ? & _). }
  destruct (insert_paths_spec cps [new_Node] hm0 [] wf_tree_init (wf_table_init _ _ Htab)
              tree_counts_init Hcap) as (t & hm & Hins & Hwf & Hwt & Hs & Htc).
  exists t, hm. split; [done|]. simpl in Htc.
  assert (Hfr' : forall h, h ∈ hs -> h_freq h = wsupp (ps_of hm0 cps) [h_item h]).
  { intros h Hh. rewrite (wsupp_ps_of hs hm0 Htab) by
      (auto; intros x ->%list_elem_of_singleton; apply list_elem_of_fmap; eauto).
    by apply Hfr. }
  constructor; auto.
  - by rewrite (reload_items t hs hm0).
  - intros h' Hh'. unfold reload in Hh'. apply list_elem_of_fmap in Hh' as (h & Heq & Hh).
    destruct (reload_spec t hs hm0 hm h Htab Hs Hh) as (h'' & E & Hl & Hi & Hf).
    rewrite E in Heq. subst h''.
    destruct (to_complete _ _ Htab h Hh) as [Hc _].
    destruct (wt_chain _ _ Hwt _ _ Hl) as (_ & Hch & _).
    apply in_cap_spec in Hc as Hc'. rewrite Z2Nat.id in Hch by lia.
    rewrite Hi, Hf. split_and!; [done|done|by apply Hfr'|by apply Hfr].
  - intros q c Hq. unfold ps_of in Hq. apply list_elem_of_fmap in Hq as ([p c'] & Heq & Hp).
    simpl in Heq. inversion Heq; subst q c'.
    rewrite Forall_forall in Hcps. destruct (Hcps _ Hp) as (Hndp & Hcp & Hc). simpl in *.
    split_and!; [done| |].
    + apply (path_items_sorted hs hm0 Htab); auto.
    + intros x Hx. apply (path_items_elem hs hm0 Htab) in Hx as [_ Hx]; [|done].
      by rewrite (reload_items t hs hm0).
Qed.

(** ** The pattern base of a header *)

Lemma sumZ_pos (l : list Z) x :
  Forall (fun y => 0 <= y) l -> x ∈ l -> 0 < x -> 0 < sumZ l.
Proof.
  induction 1 as [|y l Hy Hl IH]; intros Hin Hx; [by apply elem_of_nil in Hin|].
  simpl. assert (0 <= sumZ l).
  { clear -Hl. induction Hl; simpl; lia. }
  apply elem_of_cons in Hin as [->|Hin]; [lia|]. specialize (IH Hin Hx). lia.
Qed.

Lemma before_sorted (R : Z -> Z -> Prop) x q y :
  (forall a, ~ R a a) -> (forall a b, R a b -> ~ R b a) ->
  StronglySorted R q -> x ∈ q ->
  y ∈ before x q <-> y ∈ q /\ R y x.
Proof.
  intros Hirr Hasym Hs. induction Hs as [|z q Hs IH Hz]; intros Hx.
  { by apply elem_of_nil in Hx. }
  rewrite Forall_forall in Hz. simpl.
  destruct (Z.eqb_spec z x) as [->|Hne].
  - split; [by intros ?%elem_of_nil|]. intros [[->|Hy]%elem_of_cons Hr].
    + by apply Hirr in Hr.
    + exfalso. by apply (Hasym x y (Hz y Hy)).
  - apply elem_of_cons in Hx as [->|Hx]; [done|].
    rewrite !elem_of_cons, IH by done. split.
    + intros [->|[Hy Hr]]; [|by auto]. split; [by left|by apply Hz].
    + intros [[->|Hy] Hr]; [by left|right; done].
Qed.

Section Level.
Variables (ms : Z) (ps : list (list Z * Z)) (t : Tree) (hs : list Header).
Hypothesis Hms : 1 <= ms.
Hypothesis Hlv : level ms ps t hs.

Local Abbreviation fr := (fun z => wsupp ps [z]).

Lemma level_path_NoDup q c : (q, c) ∈ ps -> NoDup q.
Proof.
  intros Hq. destruct (lv_paths _ _ _ _ Hlv q c Hq) as (_ & Hs & _).
  eapply StronglySorted_NoDup; [|exact Hs].
  intros x. simpl. by rewrite lt_fr_irrefl.
Qed.

Lemma level_counts_nonneg : Forall (fun e => 0 <= snd e) ps.
Proof.
  apply Forall_forall. intros [q c] Hq.
  destruct (lv_paths _ _ _ _ Hlv q c Hq) as (Hc & _). simpl. lia.
Qed.

Lemma level_node i :
  (0 < i < length t)%nat ->
  exists q c, (q, c) ∈ ps /\ npath t i `prefix_of` q /\ NoDup (npath t i) /\
              0 < n_freq (deref t i) /\
              npath t i = rev (parent_path t i) ++ [n_item (deref t i)].
Proof.
  intros Hi. pose proof (lv_wf _ _ _ _ Hlv) as Hwf.
  destruct (tc_support _ _ (lv_counts _ _ _ _ Hlv) i Hi) as (q & c & Hq & Hp).
  exists q, c. apply is_prefix_b_spec in Hp as Hp'. split_and!; auto.
  - destruct Hp' as [k Hk]. pose proof (level_path_NoDup q c Hq) as Hnd.
    rewrite Hk in Hnd. by apply NoDup_app in Hnd as [? _].
  - rewrite (tc_freq _ _ (lv_counts _ _ _ _ Hlv) i Hi).
    destruct (lv_paths _ _ _ _ Hlv q c Hq) as (Hc & _).
    apply (sumZ_pos _ c); [| |done].
    + apply Forall_forall. intros z Hz. apply list_elem_of_fmap in Hz as ([q' c'] & -> & Hq').
      simpl. destruct (lv_paths _ _ _ _ Hlv q' c' Hq') as (Hc' & _).
      destruct (is_prefix_b (npath t i) q'); lia.
    + apply list_elem_of_fmap. exists (q, c). simpl. by rewrite Hp.
  - destruct (parent_path_eq t i Hwf Hi) as (j & Hj & Hlt & Hpp & Hpi).
    unfold npath. rewrite Hpi. done.
Qed.

Lemma level_proj_wf x :
  Forall (fun e => NoDup (fst e) /\ Forall (fun y => in_cap y = true) (fst e) /\ 0 < snd e)
         (proj t x).
Proof.
  pose proof (lv_wf _ _ _ _ Hlv) as Hwf.
  apply Forall_forall. intros e He. unfold proj in He.
  apply list_elem_of_fmap in He as (i & -> & Hi). simpl.
  apply nodes_with_bound in Hi as [Hi Hx].
  destruct (level_node i Hi) as (q & c & Hq & Hp & Hnd & Hf & Heq).
  split_and!; [| |done].
  - rewrite Heq in Hnd. apply NoDup_app in Hnd as [Hnd _].
    apply NoDup_ListNoDup in Hnd. apply NoDup_ListNoDup.
    apply NoDup_rev in Hnd. by rewrite rev_involutive in Hnd.
  - apply Forall_forall. intros y Hy.
    destruct (parent_path_eq t i Hwf Hi) as (j & Hj & Hlt & Hpp & Hpi).
    rewrite Hpp in Hy. apply (pathup_in_cap t j); auto. lia.
Qed.

(** The ancestors of a node of item [x] come before [x] in the order of
    the level, and they have a header. *)
Lemma level_proj_before x p c y :
  (p, c) ∈ proj t x -> y ∈ p ->
  lt_fr fr y x = true /\ y ∈ map h_item hs /\ y <> x.
Proof.
  intros He Hy. unfold proj in He.
  apply list_elem_of_fmap in He as (i & Heq & Hi). inversion Heq; subst p c.
  apply nodes_with_bound in Hi as [Hi Hx].
  destruct (level_node i Hi) as (q & c & Hq & Hp & Hnd & Hf & Hnp).
  destruct (lv_paths _ _ _ _ Hlv q c Hq) as (_ & Hs & Hin).
  rewrite Hnp, Hx in Hp, Hnd.
  assert (Hxq : x ∈ q).
  { destruct Hp as [k ->]. apply elem_of_app. left. apply elem_of_app. right. by left. }
  assert (Hxn : x ∉ rev (parent_path t i)).
  { apply NoDup_app in Hnd as (_ & H & _). intros Hin'. apply (H x Hin'). by left. }
  assert (Hb : y ∈ before x q).
  { rewrite (before_of_prefix x _ q Hp Hxn). by apply elem_of_rev. }
  apply (before_sorted (fun a b => lt_fr fr a b = true)) in Hb as [Hyq Hlt]; auto.
  - split_and!; auto. intros ->. by rewrite lt_fr_irrefl in Hlt.
  - intros a. by rewrite lt_fr_irrefl.
  - intros a b Hab. by rewrite (lt_fr_asym _ _ _ Hab).
Qed.

(** In ordered paths, the projection on [x] keeps the support of the
    itemsets whose other items come before [x]. *)
Lemma level_project x S :
  (forall y, y ∈ S -> lt_fr fr y x = true) ->
  wsupp (project x ps) S = wsupp ps (x :: S).
Proof.
  intros HS. rewrite wsupp_project. unfold wsupp. apply sumZ_map_ext.
  intros [q c] Hq. cbn [fst snd]. rewrite incl_b_cons.
  destruct (existsb (Z.eqb x) q) eqn:Ex; [|done]. cbn [andb].
  apply existsb_eqb in Ex.
  destruct (lv_paths _ _ _ _ Hlv q c Hq) as (_ & Hs & _).
  assert (incl_b S (before x q) = incl_b S q) as ->; [|done].
  apply eq_true_iff_eq. rewrite !incl_b_spec. split; intros H y Hy.
  - by apply (before_subset x), H.
  - apply (before_sorted (fun a b => lt_fr fr a b = true)); auto.
    + intros a. by rewrite lt_fr_irrefl.
    + intros a b Hab. by rewrite (lt_fr_asym _ _ _ Hab).
Qed.

Lemma level_proj_supp x S :
  (forall y, y ∈ S -> lt_fr fr y x = true) ->
  wsupp (proj t x) S = wsupp ps (x :: S).
Proof.
  intros HS. rewrite <- level_project by done.
  apply proj_project; [apply Hlv|apply Hlv|apply level_path_NoDup].
Qed.

(** Items with a positive support in the pattern base are ancestors. *)
Lemma level_proj_pos x S y :
  0 < wsupp (proj t x) S -> y ∈ S ->
  lt_fr fr y x = true /\ y ∈ map h_item hs /\ y <> x.
Proof.
  intros Hpos Hy. apply wsupp_pos_elem in Hpos as (p & c & Hp & Hi).
  rewrite incl_b_spec in Hi. apply (level_proj_before x p c y Hp). by apply Hi.
Qed.

Lemma level_header_freq h :
  h ∈ hs -> h_freq h = wsupp (proj t (h_item h)) [].
Proof.
  intros Hh. destruct (lv_header _ _ _ _ Hlv h Hh) as (_ & _ & -> & _).
  rewrite level_proj_supp; [done|]. by intros y ?%elem_of_nil.
Qed.
End Level.

(** ** The next level *)

Lemma make_headerMap_table cc ms hs0 :
  Permutation hs0 (make_headers cc ms) -> table_of hs0 (Hamm.make_headerMap cc ms).
Proof.
  intros Hperm. constructor.
  - apply make_headerMap_length.
  - intros k h Hk.
    assert (Hlt : (k < CAP)%nat).
    { apply lookup_lt_Some in Hk. by rewrite make_headerMap_length in Hk. }
    rewrite make_headerMap_lookup in Hk by done.
    destruct (ms <=? cc !!! k) eqn:E; [|done]. inversion Hk; subst h. simpl.
    split_and!; auto. rewrite Hperm. apply make_headers_elem.
    exists k. apply Z.leb_le in E. done.
  - intros h Hh. rewrite Hperm in Hh. apply make_headers_elem in Hh as (i & Hi & Hms & ->).
    simpl. split; [apply in_cap_spec; lia|].
    rewrite Nat2Z.id, make_headerMap_lookup by done.
    apply Z.leb_le in Hms. by rewrite Hms.
Qed.

Lemma filter_item_none (hs0 : list Header) x :
  (forall h', h' ∈ hs0 -> 0 <= h_item h') -> 0 <= x -> x ∉ map h_item hs0 ->
  List.filter (fun h' => Nat.eqb (Z.to_nat (h_item h')) (Z.to_nat x)) hs0 = [].
Proof.
  intros Hpos Hx Hnot. induction hs0 as [|a l IH]; [done|]. simpl.
  destruct (Nat.eqb_spec (Z.to_nat (h_item a)) (Z.to_nat x)) as [Heq|Hne].
  - exfalso. apply Hnot. simpl.
    pose proof (Hpos a ltac:(by left)).
    assert (h_item a = x) as -> by lia. by left.
  - apply IH; [intros; apply Hpos; by right|].
    intros Hin. apply Hnot. simpl. by right.
Qed.

Lemma filter_item_single (hs0 : list Header) h :
  NoDup (map h_item hs0) -> (forall h', h' ∈ hs0 -> 0 <= h_item h') -> h ∈ hs0 ->
  List.filter (fun h' => Nat.eqb (Z.to_nat (h_item h')) (Z.to_nat (h_item h))) hs0 = [h].
Proof.
  intros Hnd Hpos Hh. induction hs0 as [|a l IH]; [by apply elem_of_nil in Hh|].
  simpl in Hnd. apply NoDup_cons in Hnd as [Ha Hnd]. simpl.
  apply elem_of_cons in Hh as [->|Hh].
  - rewrite Nat.eqb_refl. f_equal.
    apply filter_item_none; [intros; apply Hpos; by right|apply Hpos; by left|done].
  - destruct (Nat.eqb_spec (Z.to_nat (h_item a)) (Z.to_nat (h_item h))) as [Heq|Hne].
    + exfalso. apply Ha.
      pose proof (Hpos a ltac:(by left)). pose proof (Hpos h ltac:(by right)).
      assert (h_item a = h_item h) as -> by lia.
      apply list_elem_of_fmap. eauto.
    + apply IH; auto. intros. apply Hpos. by right.
Qed.

Lemma register_table hs0 :
  NoDup (map h_item hs0) ->
  Forall (fun h => in_cap (h_item h) = true /\ h_next h = None /\ h_tail h = None) hs0 ->
  exists hm, Opt.register hs0 (replicate CAP None) = Done hm /\ table_of hs0 hm.
Proof.
  intros Hnd Hall. rewrite Forall_forall in Hall.
  assert (Hcap : Forall (fun h => in_cap (h_item h) = true) hs0).
  { apply Forall_forall. intros h Hh. by apply Hall. }
  rewrite register_spec by (auto; apply length_replicate).
  eexists. split; [reflexivity|].
  assert (Hb : forall h, h ∈ hs0 ->
            (Z.to_nat (h_item h) < length (replicate CAP (@None Header)))%nat).
  { intros h Hh. rewrite length_replicate. destruct (Hall h Hh) as [Hc _].
    apply in_cap_spec in Hc. lia. }
  assert (Hstrip : forall h, h ∈ hs0 -> set_chain None None h = h).
  { intros h Hh. destruct (Hall h Hh) as (_ & H1 & H2).
    destruct h. unfold set_chain. simpl in *. by subst. }
  constructor.
  - by rewrite foldl_insert_length, length_replicate.
  - intros k h Hk. rewrite foldl_insert_lookup in Hk by done.
    destruct (last _) as [h'|] eqn:E.
    + apply last_Some_elem_of, list_elem_of_In, filter_In in E as [Hin%list_elem_of_In He].
      apply Nat.eqb_eq in He. inversion Hk; subst h. rewrite (Hstrip h' Hin).
      destruct (Hall h' Hin) as (Hc & H1 & H2). apply in_cap_spec in Hc.
      split_and!; auto. lia.
    + apply lookup_replicate in Hk as [? _]. done.
  - intros h Hh. destruct (Hall h Hh) as (Hc & _). split; [done|].
    rewrite foldl_insert_lookup by done.
    rewrite (filter_item_single hs0 h Hnd); [simpl; by rewrite Hstrip| |done].
    intros h' Hh'. destruct (Hall h' Hh') as (Hc' & _). apply in_cap_spec in Hc'. lia.
Qed.

Lemma NoDup_incl_len (l k : list Z) :
  NoDup l -> (forall y, y ∈ l -> y ∈ k) -> (length l <= length k)%nat.
Proof.
  intros Hnd Hin. apply NoDup_incl_length; [by apply NoDup_ListNoDup|].
  intros y Hy%list_elem_of_In. by apply list_elem_of_In, Hin.
Qed.

Section Cond.
Variables (ms : Z) (ps : list (list Z * Z)) (t : Tree) (hs : list Header).
Hypothesis Hms : 1 <= ms.
Hypothesis Hlv : level ms ps t hs.
Variable x : Z.
Hypothesis Hx : x ∈ map h_item hs.

Local Abbreviation base := (proj t x).
Local Abbreviation cc := (add_base (proj t x) (replicate CAP 0)).
Local Abbreviation newHeaders := (make_headers (add_base (proj t x) (replicate CAP 0)) ms).

Variables (cps : list (list Z * Z)) (hm0 : list (option Header)).
Hypothesis Htab : table_of (sort cmp_headers newHeaders) hm0.
Hypothesis Hcps : Forall (fun pc => NoDup (fst pc) /\
                            Forall (fun y => in_cap y = true) (fst pc) /\ 0 < snd pc) cps.
Hypothesis Hsupp : forall S, S <> [] -> x ∉ S -> wsupp cps S = wsupp base S.
Hypothesis Hanc : forall p c, (p, c) ∈ cps ->
  exists i, (0 < i < length t)%nat /\ forall y, y ∈ p -> y <> x -> y ∈ parent_path t i.

Lemma cond_header_elem y :
  y ∈ map h_item newHeaders <-> in_cap y = true /\ ms <= wsupp base [y].
Proof.
  rewrite list_elem_of_fmap. split.
  - intros (h & -> & Hh). apply make_headers_elem in Hh as (i & Hi & Hle & ->). simpl.
    assert (Hc : in_cap (Z.of_nat i) = true) by (apply in_cap_spec; lia).
    split; [done|].
    rewrite <- (cond_counts base (Z.of_nat i)), Nat2Z.id; auto.
    eapply Forall_impl; [apply (level_proj_wf ms ps t hs Hlv)|]. by intros ? (? & ? & _).
  - intros [Hc Hle]. apply in_cap_spec in Hc as Hc'.
    exists (mkHeader y (cc !!! Z.to_nat y) None None). split; [done|].
    apply make_headers_elem. exists (Z.to_nat y). rewrite Z2Nat.id by lia.
    split_and!; [lia| |done].
    rewrite cond_counts; auto.
    eapply Forall_impl; [apply (level_proj_wf ms ps t hs Hlv)|]. by intros ? (? & ? & _).
Qed.

Lemma cond_header_anc y :
  y ∈ map h_item newHeaders ->
  lt_fr (fun z => wsupp ps [z]) y x = true /\ y ∈ map h_item hs /\ y <> x.
Proof.
  intros [_ Hle]%cond_header_elem.
  apply (level_proj_pos ms ps t hs Hlv x [y] y); [lia|by left].
Qed.

Lemma cond_level :
  exists t' hm',
    insert_paths cps [new_Node] hm0 = Done (t', hm') /\
    level ms (ps_of hm0 cps) t' (reload hm' (sort cmp_headers newHeaders)) /\
    map h_item (reload hm' (sort cmp_headers newHeaders)) =
      map h_item (sort cmp_headers newHeaders) /\
    (forall S, S <> [] -> (forall y, y ∈ S -> y ∈ map h_item newHeaders) ->
       wsupp (ps_of hm0 cps) S = wsupp base S) /\
    (forall q' c', (q', c') ∈ ps_of hm0 cps ->
       exists q c, (q, c) ∈ ps /\ (length q' < length q)%nat).
Proof.
  assert (Hperm : Permutation (sort cmp_headers newHeaders) newHeaders) by apply sort_perm.
  assert (Hitems : forall y, y ∈ map h_item (sort cmp_headers newHeaders) <->
                             y ∈ map h_item newHeaders).
  { intros y. by rewrite Hperm. }
  assert (Hcap : Forall (fun pc => Forall (fun y => in_cap y = true) (fst pc)) cps).
  { eapply Forall_impl; [exact Hcps|]. by intros ? (_ & ? & _). }
  assert (Hfreq : forall h, h ∈ sort cmp_headers newHeaders ->
            h_freq h = wsupp cps [h_item h] /\ ms <= h_freq h).
  { intros h Hh. rewrite Hperm in Hh.
    assert (Hy : h_item h ∈ map h_item newHeaders) by (apply list_elem_of_fmap; eauto).
    destruct (cond_header_anc _ Hy) as (_ & _ & Hne).
    apply cond_header_elem in Hy as [Hc Hle].
    apply make_headers_elem in Hh as (i & Hi & Hle' & ->). simpl in *.
    rewrite Hsupp; [|done|by intros ->%list_elem_of_singleton].
    split; [|done]. rewrite <- (cond_counts base (Z.of_nat i)), Nat2Z.id; auto.
    eapply Forall_impl; [apply (level_proj_wf ms ps t hs Hlv)|]. by intros ? (? & ? & _). }
  destruct (build_level ms cps _ hm0 Htab) as (t' & hm' & Hins & Hlv'); auto.
  { rewrite Hperm. apply make_headers_NoDup. }
  exists t', hm'. split_and!; auto.
  - pose proof (lv_counts _ _ _ _ Hlv') as Htc.
    apply (reload_items t' _ hm0); [done|].
    (* the table keeps its headers *)
    destruct (insert_paths_spec cps [new_Node] hm0 [] wf_tree_init (wf_table_init _ _ Htab)
                tree_counts_init Hcap) as (t2 & hm2 & Hins2 & _ & _ & Hs2 & _).
    rewrite Hins in Hins2. by inversion Hins2; subst.
  - intros S HS HK. rewrite (wsupp_ps_of _ hm0 Htab) by (auto; intros; by apply Hitems, HK).
    apply Hsupp; [done|]. intros Hin. apply HK in Hin.
    by destruct (cond_header_anc _ Hin) as (_ & _ & ?).
  - intros q' c' Hq'. unfold ps_of in Hq'.
    apply list_elem_of_fmap in Hq' as ([p c] & Heq & Hp). simpl in Heq. inversion Heq; subst q' c'.
    destruct (Hanc p c Hp) as (i & Hi & Hin).
    destruct (level_node ms ps t hs Hlv i Hi) as (q & c0 & Hq & Hpre & _ & _ & Hnp).
    exists q, c0. split; [done|].
    apply prefix_length in Hpre. rewrite Hnp, length_app, length_rev in Hpre. simpl in Hpre.
    assert (length (path_items hm0 p) <= length (parent_path t i))%nat; [|lia].
    rewrite Forall_forall in Hcps, Hcap.
    destruct (Hcps _ Hp) as (Hndp & Hcp & _). simpl in *.
    apply NoDup_incl_len.
    + eapply StronglySorted_NoDup;
        [|apply (path_items_sorted _ hm0 Htab p (fun z => wsupp cps [z])); auto].
      * intros a. simpl. by rewrite lt_fr_irrefl.
      * intros h Hh. by apply Hfreq.
    + intros y Hy. apply (path_items_elem _ hm0 Htab) in Hy as [Hy1 Hy2]; [|done].
      apply Hin; [done|]. apply Hitems in Hy2.
      by destruct (cond_header_anc _ Hy2) as (_ & _ & ?).
Qed.
End Cond.

(** ** The entries of one level *)

Lemma sortZ_perm_eq (l l' : list Z) : Permutation l l' -> sort Z.ltb l = sort Z.ltb l'.
Proof.
  apply (sort_unique Z.ltb (fun _ => True)).
  - intros a b c _ _ _. rewrite !Z.ltb_lt. lia.
  - intros a b _ _. rewrite Z.ltb_lt, Z.ltb_ge. lia.
  - intros a b _ _. rewrite !Z.ltb_ge. lia.
  - by apply Forall_forall.
Qed.

Lemma wsupp_perm db S S' : Permutation S S' -> wsupp db S = wsupp db S'.
Proof. intros H. apply wsupp_ext. intros x. by rewrite H. Qed.

Lemma max_lt_fr fr (S : list Z) :
  S <> [] -> NoDup S ->
  exists x S', Permutation S (x :: S') /\ forall y, y ∈ S' -> lt_fr fr y x = true.
Proof.
  induction S as [|a S IH]; intros Hne Hnd; [done|].
  apply NoDup_cons in Hnd as [Ha Hnd].
  destruct S as [|b S].
  { exists a, []. split; [done|]. by intros y ?%elem_of_nil. }
  destruct (IH ltac:(done) Hnd) as (x & S' & Hp & Hmax).
  destruct (lt_fr fr a x) eqn:E.
  - exists x, (a :: S'). split.
    + rewrite Hp. apply perm_swap.
    + intros y [->|Hy]%elem_of_cons; auto.
  - exists a, (x :: S'). split; [by rewrite Hp|].
    assert (Hxa : lt_fr fr x a = true).
    { destruct (lt_fr fr x a) eqn:E'; [done|].
      exfalso. apply Ha. rewrite Hp. assert (x = a) as -> by (by apply (lt_fr_total fr)).
      by left. }
    intros y [->|Hy]%elem_of_cons; [done|].
    eapply lt_fr_trans; [by apply Hmax|done].
Qed.

Lemma mined_split ms ps t hs prefix e :
  1 <= ms -> level ms ps t hs ->
  mined ms ps prefix e <-> exists h, h ∈ hs /\ mined_at ms ps (h_item h) prefix e.
Proof.
  intros Hms Hlv. split.
  - intros (S & Hne & Hnd & Hs & Hle & HI).
    destruct (max_lt_fr (fun z => wsupp ps [z]) S Hne Hnd) as (x & S' & Hp & Hmax).
    assert (Hx : x ∈ map h_item hs).
    { destruct (wsupp_pos_elem ps S) as (q & c & Hq & Hi); [lia|].
      rewrite incl_b_spec in Hi.
      destruct (lv_paths _ _ _ _ Hlv q c Hq) as (_ & _ & Hin).
      apply Hin, Hi. rewrite Hp. by left. }
    apply list_elem_of_fmap in Hx as (h & -> & Hh).
    exists h. split; [done|]. exists S'. split_and!; auto.
    + by rewrite <- Hp.
    + by rewrite <- (wsupp_perm ps S).
    + rewrite HI. apply sortZ_perm_eq. by rewrite Hp.
  - intros (h & Hh & S' & Hnd & Hmax & Hs & Hle & HI).
    exists (h_item h :: S'). split_and!; auto.
Qed.

Lemma mined_at_nil ms ps x prefix e s :
  ms <= s -> s = wsupp ps [x] ->
  e = (sort Z.ltb (prefix ++ [x]), s) ->
  mined_at ms ps x prefix e.
Proof.
  intros Hle Hs ->. exists []. simpl. split_and!; auto.
  - apply NoDup_singleton.
  - by intros y ?%elem_of_nil.
Qed.

(** The entries of the header [x], through the pattern base of [x]. *)
Lemma mined_at_base ms ps t hs x prefix e :
  1 <= ms -> level ms ps t hs -> x ∈ map h_item hs ->
  mined_at ms ps x prefix e <->
  exists S, NoDup S /\ snd e = wsupp (proj t x) S /\ ms <= snd e /\
            fst e = sort Z.ltb (prefix ++ x :: S).
Proof.
  intros Hms Hlv Hx. split.
  - intros (S & Hnd & Hmax & Hs & Hle & HI). exists S.
    apply NoDup_cons in Hnd as [_ Hnd]. split_and!; auto.
    by rewrite (level_proj_supp ms ps t hs Hlv).
  - intros (S & Hnd & Hs & Hle & HI).
    assert (Hanc : forall y, y ∈ S ->
              lt_fr (fun z => wsupp ps [z]) y x = true /\ y ∈ map h_item hs /\ y <> x).
    { intros y Hy. apply (level_proj_pos ms ps t hs Hlv x S y); [lia|done]. }
    exists S. split_and!; auto.
    + apply NoDup_cons. split; [|done]. intros Hin. by destruct (Hanc x Hin) as (_ & _ & ?).
    + intros y Hy. by destruct (Hanc y Hy).
    + rewrite Hs. apply (level_proj_supp ms ps t hs Hlv).
      intros y Hy. by destruct (Hanc y Hy).
Qed.

Section CondEntries.
Variables (ms : Z) (ps : list (list Z * Z)) (t : Tree) (hs : list Header).
Hypothesis Hms : 1 <= ms.
Hypothesis Hlv : level ms ps t hs.
Variable x : Z.
Hypothesis Hx : x ∈ map h_item hs.

Local Abbreviation base := (proj t x).
Local Abbreviation newHeaders := (make_headers (add_base (proj t x) (replicate CAP 0)) ms).

Variables (cps : list (list Z * Z)) (hm0 : list (option Header)).
Hypothesis Htab : table_of (sort cmp_headers newHeaders) hm0.
Hypothesis Hcps : Forall (fun pc => NoDup (fst pc) /\
                            Forall (fun y => in_cap y = true) (fst pc) /\ 0 < snd pc) cps.
Hypothesis Hsupp : forall S, S <> [] -> x ∉ S -> wsupp cps S = wsupp base S.

Variables (prefix newPattern : list Z) (sub : list (list Z * Z)).
Hypothesis Hperm : Permutation newPattern (prefix ++ [x]).
Hypothesis Hsub : forall e, e ∈ sub <-> mined ms (ps_of hm0 cps) newPattern e.
Hypothesis Hfreq0 : ms <= wsupp base [].

Lemma cond_items_sorted y :
  y ∈ map h_item (sort cmp_headers newHeaders) <-> y ∈ map h_item newHeaders.
Proof. by rewrite (sort_perm cmp_headers newHeaders). Qed.

Lemma cond_supp S :
  S <> [] -> (forall y, y ∈ S -> y ∈ map h_item newHeaders) ->
  wsupp (ps_of hm0 cps) S = wsupp base S.
Proof.
  intros HS HK.
  assert (Hcap : Forall (fun pc => Forall (fun y => in_cap y = true) (fst pc)) cps).
  { eapply Forall_impl; [exact Hcps|]. by intros ? (_ & ? & _). }
  rewrite (wsupp_ps_of _ hm0 Htab) by (auto; intros; by apply cond_items_sorted, HK).
  apply Hsupp; [done|]. intros Hin. apply HK in Hin.
  by destruct (cond_header_anc ms ps t hs Hms Hlv x _ Hin) as (_ & _ & ?).
Qed.

Lemma cond_pos_items S y :
  0 < wsupp (ps_of hm0 cps) S -> y ∈ S -> y ∈ map h_item newHeaders.
Proof.
  intros Hpos Hy. apply wsupp_pos_elem in Hpos as (q & c & Hq & Hi).
  rewrite incl_b_spec in Hi. unfold ps_of in Hq.
  apply list_elem_of_fmap in Hq as ([p c'] & Heq & Hp). simpl in Heq. inversion Heq; subst q c.
  rewrite Forall_forall in Hcps. destruct (Hcps _ Hp) as (_ & Hcp & _). simpl in Hcp.
  apply Hi in Hy. apply (path_items_elem _ hm0 Htab) in Hy as [_ Hy]; [|done].
  by apply cond_items_sorted.
Qed.

Lemma cond_entries e :
  e ∈ (sort Z.ltb (prefix ++ [x]), wsupp base []) :: sub <->
  exists S, NoDup S /\ snd e = wsupp base S /\ ms <= snd e /\
            fst e = sort Z.ltb (prefix ++ x :: S).
Proof.
  rewrite elem_of_cons, Hsub. split.
  - intros [->|(S & Hne & Hnd & Hs & Hle & HI)].
    + exists []. split_and!; auto. apply NoDup_nil_2.
    + assert (HK : forall y, y ∈ S -> y ∈ map h_item newHeaders).
      { intros y. apply cond_pos_items. lia. }
      exists S. rewrite Hs, HI. rewrite cond_supp in * by done. split_and!; auto.
      * lia.
      * apply sortZ_perm_eq. rewrite Hperm, <- app_assoc. done.
  - intros (S & Hnd & Hs & Hle & HI). destruct S as [|y0 S0].
    + left. destruct e as [I s]. simpl in *. by subst.
    + right. set (S := y0 :: S0) in *.
      assert (HK : forall y, y ∈ S -> y ∈ map h_item newHeaders).
      { intros y Hy. apply (cond_header_elem ms ps t hs Hlv).
        assert (Hpos : 0 < wsupp base S) by lia.
        destruct (level_proj_pos ms ps t hs Hlv x S y Hpos Hy) as (_ & Hin & _).
        apply list_elem_of_fmap in Hin as (h & -> & Hh).
        destruct (lv_header _ _ _ _ Hlv h Hh) as (Hc & _). split; [done|].
        etransitivity; [exact Hle|]. rewrite Hs. apply wsupp_mono.
        - eapply Forall_impl; [apply (level_proj_wf ms ps t hs Hlv)|].
          intros ? (_ & _ & ?). lia.
        - by intros z ->%list_elem_of_singleton. }
      exists S. rewrite cond_supp by done. split_and!; auto.
      rewrite HI. apply sortZ_perm_eq. rewrite Hperm, <- app_assoc. done.
Qed.
End CondEntries.

(** ** The pattern bases the two programs collect *)

Section Bases.
Variables (ms : Z) (ps : list (list Z * Z)) (t : Tree) (hs : list Header).
Hypothesis Hms : 1 <= ms.
Hypothesis Hlv : level ms ps t hs.
Variable x : Z.

Local Abbreviation base := (proj t x).

Lemma base_Hamm_wf :
  Forall (fun pc => NoDup (fst pc) /\ Forall (fun y => in_cap y = true) (fst pc) /\ 0 < snd pc)
         (base_Hamm t x).
Proof.
  apply Forall_forall. intros e He. unfold base_Hamm in He.
  apply list_elem_of_fmap in He as (i & -> & Hi). simpl.
  apply nodes_with_bound in Hi as [Hi Hx].
  destruct (level_node ms ps t hs Hlv i Hi) as (q & c & Hq & Hp & Hnd & Hf & Heq).
  split_and!; auto. apply Forall_forall. intros y Hy. unfold npath in Hy.
  rewrite elem_of_rev in Hy. apply (pathup_in_cap t i); [apply Hlv|lia|].
  exact Hy.
Qed.

Lemma base_Hamm_supp S : x ∉ S -> wsupp (base_Hamm t x) S = wsupp base S.
Proof.
  intros HS. unfold wsupp, base_Hamm, proj. rewrite !map_map. simpl.
  apply sumZ_map_ext. intros i Hi. apply nodes_with_bound in Hi as [Hi Hx].
  destruct (level_node ms ps t hs Hlv i Hi) as (q & c & Hq & Hp & Hnd & Hf & Heq).
  rewrite Heq, Hx.
  assert (incl_b S (rev (parent_path t i) ++ [x]) = incl_b S (parent_path t i)) as ->; [|done].
  apply eq_true_iff_eq. rewrite !incl_b_spec. split; intros H y Hy.
  - specialize (H y Hy). apply elem_of_app in H as [H|H].
    + by rewrite elem_of_rev in H.
    + apply list_elem_of_singleton in H. by subst.
  - apply elem_of_app. left. apply elem_of_rev. by apply H.
Qed.

Lemma base_Hamm_anc p c :
  (p, c) ∈ (base_Hamm t x) ->
  exists i, (0 < i < length t)%nat /\ forall y, y ∈ p -> y <> x -> y ∈ parent_path t i.
Proof.
  intros He. unfold base_Hamm in He. apply list_elem_of_fmap in He as (i & Heq & Hi).
  inversion Heq; subst p c. apply nodes_with_bound in Hi as [Hi Hx].
  exists i. split; [done|]. intros y Hy Hne.
  destruct (level_node ms ps t hs Hlv i Hi) as (_ & _ & _ & _ & _ & _ & Heq').
  rewrite Heq', Hx in Hy. apply elem_of_app in Hy as [Hy|Hy].
  - by rewrite elem_of_rev in Hy.
  - apply list_elem_of_singleton in Hy. by subst.
Qed.

Lemma base_Opt_wf :
  Forall (fun pc => NoDup (fst pc) /\ Forall (fun y => in_cap y = true) (fst pc) /\ 0 < snd pc)
         (base_Opt t x).
Proof.
  apply Forall_forall. intros e He. unfold base_Opt, nonempty_paths in He.
  apply list_elem_of_In, filter_In in He as [He%list_elem_of_In _].
  pose proof (level_proj_wf ms ps t hs Hlv x) as H. rewrite Forall_forall in H. by apply H.
Qed.

Lemma base_Opt_supp S : S <> [] -> wsupp (base_Opt t x) S = wsupp base S.
Proof.
  intros HS. unfold base_Opt, nonempty_paths.
  induction (proj t x) as [|[p c] l IH]; [done|].
  simpl. rewrite wsupp_cons, <- IH. destruct p as [|y p]; simpl.
  - destruct S as [|z S]; [done|]. rewrite incl_b_cons. simpl. lia.
  - by rewrite wsupp_cons.
Qed.

Lemma base_Opt_anc p c :
  (p, c) ∈ (base_Opt t x) ->
  exists i, (0 < i < length t)%nat /\ forall y, y ∈ p -> y <> x -> y ∈ parent_path t i.
Proof.
  intros He. unfold base_Opt, nonempty_paths in He.
  apply list_elem_of_In, filter_In in He as [He%list_elem_of_In _].
  unfold proj in He. apply list_elem_of_fmap in He as (i & Heq & Hi).
  inversion Heq; subst p c. apply nodes_with_bound in Hi as [Hi Hx].
  exists i. split; [done|]. auto.
Qed.
End Bases.

Lemma for_each_Done_each {A B} (body : A -> outcome (list B)) l out x :
  for_each body l = Done out -> x ∈ l -> exists o, body x = Done o.
Proof.
  revert out. induction l as [|a l IH]; intros out H Hx; [by apply elem_of_nil in Hx|].
  simpl in H. apply bind_Done in H as (o & Ho & H). apply bind_Done in H as (os & Hos & H).
  apply elem_of_cons in Hx as [->|Hx]; eauto.
Qed.

(** ** The recursion of src/Hamm.cpp *)

Section HammBody.
Variables (ms : Z) (ps : list (list Z * Z)) (t : Tree) (hs : list Header).
Hypothesis Hms : 1 <= ms.
Hypothesis Hlv : level ms ps t hs.
Variable h : Header.
Hypothesis Hh : h ∈ hs.
Variable rec : Tree -> list Header -> list Z -> outcome (list (list Z * Z)).
Variable prefix : list Z.

Local Abbreviation x := (h_item h).
Local Abbreviation cc := (add_base (proj t (h_item h)) (replicate CAP 0)).
Local Abbreviation nh := (make_headers (add_base (proj t (h_item h)) (replicate CAP 0)) ms).
Local Abbreviation hm0 :=
  (Hamm.make_headerMap (add_base (proj t (h_item h)) (replicate CAP 0)) ms).
Local Abbreviation cps := (base_Hamm t (h_item h)).
Local Abbreviation newPattern := (sort Z.ltb (prefix ++ [h_item h])).

Lemma Hamm_body_unfold :
  Hamm.FP_Growth_body rec t prefix ms h =
  match nh with
  | [] => Done [(newPattern, h_freq h)]
  | _ =>
    '(t', hm') ← insert_paths cps [new_Node] hm0;
    sub ← rec t' (reload hm' (sort cmp_headers nh)) newPattern;
    Done ((newPattern, h_freq h) :: sub)
  end.
Proof.
  unfold Hamm.FP_Growth_body.
  destruct (lv_header _ _ _ _ Hlv h Hh) as (Hc & Hch & _).
  rewrite (Hamm_walk_chain_spec t (nodes_with x t));
    [|apply Hlv|done|intros i Hi; by apply nodes_with_bound in Hi as [? _]
     |apply nodes_with_length|apply length_replicate].
  rewrite (bind_Done_l _ _ _ eq_refl). cbv beta iota. rewrite app_nil_l.
  fold (proj t x). fold (base_Hamm t x).
  destruct nh; reflexivity.
Qed.

Lemma Hamm_x : x ∈ map h_item hs.
Proof. apply list_elem_of_fmap. eauto. Qed.

Lemma Hamm_table : table_of (sort cmp_headers nh) hm0.
Proof. apply make_headerMap_table, sort_perm. Qed.

Lemma Hamm_cond_level :
  exists t' hm',
    insert_paths cps [new_Node] hm0 = Done (t', hm') /\
    level ms (ps_of hm0 cps) t' (reload hm' (sort cmp_headers nh)) /\
    (forall q' c', (q', c') ∈ ps_of hm0 cps ->
       exists q c, (q, c) ∈ ps /\ (length q' < length q)%nat).
Proof.
  destruct (cond_level ms ps t hs Hms Hlv x Hamm_x cps hm0 Hamm_table)
    as (t' & hm' & Hins & Hlv' & _ & _ & Hdepth).
  - apply (base_Hamm_wf ms ps t hs Hlv).
  - intros S _ HS. by apply (base_Hamm_supp ms ps t hs Hlv).
  - apply (base_Hamm_anc ms ps t hs Hlv).
  - eauto.
Qed.

Lemma Hamm_body_char o :
  (forall ps' t' hs' prefix' out', level ms ps' t' hs' ->
     rec t' hs' prefix' = Done out' -> forall e, e ∈ out' <-> mined ms ps' prefix' e) ->
  Hamm.FP_Growth_body rec t prefix ms h = Done o ->
  forall e, e ∈ o <-> mined_at ms ps x prefix e.
Proof.
  intros Hrec Hbody e. rewrite (mined_at_base ms ps t hs) by (auto; apply Hamm_x).
  rewrite Hamm_body_unfold in Hbody.
  destruct (lv_header _ _ _ _ Hlv h Hh) as (_ & _ & _ & Hle).
  rewrite (level_header_freq ms ps t hs Hlv h Hh) in Hbody, Hle.
  assert (Hsupp : forall S, S <> [] -> x ∉ S -> wsupp cps S = wsupp (proj t x) S).
  { intros S _ HS. by apply (base_Hamm_supp ms ps t hs Hlv). }
  destruct nh as [|h1 l1] eqn:E.
  - inversion Hbody; subst o.
    apply (cond_entries ms ps t hs Hms Hlv x cps hm0 Hamm_table
             (base_Hamm_wf ms ps t hs Hlv x) Hsupp prefix newPattern []); auto.
    + apply sort_perm.
    + intros e'. split; [by intros ?%elem_of_nil|].
      intros (S & Hne & Hnd & Hs & Hle' & _). exfalso.
      destruct S as [|y S]; [done|].
      assert (Hy : y ∈ map h_item nh).
      { apply (cond_pos_items ms t x cps hm0 Hamm_table
                 (base_Hamm_wf ms ps t hs Hlv x) (y :: S)); [lia|by left]. }
      rewrite E in Hy. by apply elem_of_nil in Hy.
  - rewrite <- E in Hbody. destruct Hamm_cond_level as (t' & hm' & Hins & Hlv' & _).
    rewrite Hins in Hbody. simpl in Hbody.
    apply bind_Done in Hbody as (sub & Hsub & Hbody). inversion Hbody; subst o.
    apply (cond_entries ms ps t hs Hms Hlv x cps hm0 Hamm_table
             (base_Hamm_wf ms ps t hs Hlv x) Hsupp prefix newPattern sub); auto.
    + apply sort_perm.
    + by apply (Hrec _ _ _ _ _ Hlv').
Qed.

Lemma Hamm_body_total (n : nat) :
  Forall (fun qc => (length (fst qc) <= n)%nat) ps ->
  (forall m ps' t' hs' prefix', n = S m -> level ms ps' t' hs' ->
     Forall (fun qc => (length (fst qc) <= m)%nat) ps' ->
     exists out', rec t' hs' prefix' = Done out') ->
  exists o, Hamm.FP_Growth_body rec t prefix ms h = Done o.
Proof.
  intros Hn Hrec. rewrite Hamm_body_unfold.
  destruct nh as [|h1 l1] eqn:E; [eauto|]. rewrite <- E.
  destruct Hamm_cond_level as (t' & hm' & Hins & Hlv' & Hdepth).
  rewrite Hins. rewrite (bind_Done_l _ _ _ eq_refl). cbv beta iota.
  (* the level is not empty: the next one is less deep *)
  assert (Hy : h_item h1 ∈ map h_item nh) by (rewrite E; by left).
  destruct (cond_header_anc ms ps t hs Hms Hlv x _ Hy) as (_ & Hin & _).
  apply (cond_header_elem ms ps t hs Hlv) in Hy as [_ Hy].
  destruct (wsupp_pos_elem (proj t x) [h_item h1]) as (p & c & Hp & _); [lia|].
  unfold proj in Hp. apply list_elem_of_fmap in Hp as (i & _ & Hi).
  apply nodes_with_bound in Hi as [Hi _].
  destruct (level_node ms ps t hs Hlv i Hi) as (q & c0 & Hq & Hpre & _ & _ & Hnp).
  rewrite Forall_forall in Hn. pose proof (Hn _ Hq) as Hlen. simpl in Hlen.
  apply prefix_length in Hpre. rewrite Hnp, length_app in Hpre. simpl in Hpre.
  destruct n as [|m]; [lia|].
  destruct (Hrec m _ t' (reload hm' (sort cmp_headers nh)) newPattern eq_refl Hlv') as [sub Hsub].
  - apply Forall_forall. intros [q' c'] Hq'. simpl.
    destruct (Hdepth q' c' Hq') as (q2 & c2 & Hq2 & Hlt).
    pose proof (Hn _ Hq2). simpl in *. lia.
  - rewrite Hsub. rewrite (bind_Done_l _ _ _ eq_refl). eauto.
Qed.
End HammBody.

Lemma Hamm_FP_Growth_S k (t : Tree) hs prefix ms :
  Hamm.FP_Growth (S k) t hs prefix ms =
  for_each (Hamm.FP_Growth_body (fun t' hs' p => Hamm.FP_Growth k t' hs' p ms) t prefix ms) hs.
Proof. reflexivity. Qed.

Lemma Hamm_FP_char ms : 1 <= ms -> forall fuel ps (t : Tree) hs prefix out,
  level ms ps t hs -> Hamm.FP_Growth fuel t hs prefix ms = Done out ->
  forall e, e ∈ out <-> mined ms ps prefix e.
Proof.
  intros Hms. induction fuel as [|k IH]; intros ps t hs prefix out Hlv Hrun e; [done|].
  rewrite Hamm_FP_Growth_S in Hrun.
  rewrite (for_each_Done _ _ _ Hrun), (mined_split ms ps t hs) by done.
  split.
  - intros (h & o & Hh & Ho & He). exists h. split; [done|].
    eapply (Hamm_body_char ms ps t hs Hms Hlv h Hh); [|exact Ho|exact He].
    intros ps' t' hs' prefix' out'. apply IH.
  - intros (h & Hh & He).
    destruct (for_each_Done_each _ _ _ h Hrun Hh) as [o Ho].
    exists h, o. split_and!; auto.
    eapply (Hamm_body_char ms ps t hs Hms Hlv h Hh); [|exact Ho|exact He].
    intros ps' t' hs' prefix' out'. apply IH.
Qed.

Lemma Hamm_FP_total ms : 1 <= ms -> forall n ps (t : Tree) hs prefix,
  level ms ps t hs -> Forall (fun qc => (length (fst qc) <= n)%nat) ps ->
  exists out, Hamm.FP_Growth (S n) t hs prefix ms = Done out.
Proof.
  intros Hms. induction n as [|m IH]; intros ps t hs prefix Hlv Hn;
    rewrite Hamm_FP_Growth_S; apply for_each_total; intros h Hh;
    apply (Hamm_body_total ms ps t hs Hms Hlv h Hh _ _ _ Hn).
  - intros m ? ? ? ? Hm. discriminate.
  - intros m' ps' t' hs' prefix' Hm Hlv' Hn'. inversion Hm; subst m'. by apply (IH ps').
Qed.

(** ** The enumerator of part_001 *)

(** What [hamm_search_optimized] writes: one entry for every sublist of
    [IL], the empty one included. *)
Lemma hamm_search_spec ms f : ms <= f -> forall IL pat e,
  pat <> [] ->
  e ∈ Opt.hamm_search_optimized IL f pat ms <->
  exists sub, sub `sublist_of` IL /\ e = (sort Z.ltb (pat ++ sub), f).
Proof.
  intros Hle. induction IL as [|x IL IH]; intros pat e Hpat.
  - simpl. destruct pat; [done|]. unfold Opt.write_output.
    rewrite list_elem_of_singleton. split.
    + intros ->. exists []. split; [done|]. by rewrite app_nil_r.
    + intros (sub & Hs%sublist_nil_r & ->). subst. by rewrite app_nil_r.
  - simpl. apply Z.leb_le in Hle as Hb. rewrite Hb.
    rewrite elem_of_app, IH, IH by (auto; by destruct pat). split.
    + intros [(sub & Hs & ->)|(sub & Hs & ->)].
      * exists sub. split; [by apply sublist_cons|done].
      * exists (x :: sub). split; [by apply sublist_skip|]. by rewrite <- app_assoc.
    + intros (sub & Hs & ->). apply sublist_cons_r in Hs as [Hs|(sub' & -> & Hs)].
      * left. eauto.
      * right. exists sub'. split; [done|]. by rewrite <- app_assoc.
Qed.

Lemma NoDup_subset_sublist (S l : list Z) :
  NoDup S -> NoDup l -> (forall y, y ∈ S -> y ∈ l) ->
  exists sub, sub `sublist_of` l /\ Permutation S sub.
Proof.
  intros HS Hl Hin. exists (filter (fun y => y ∈ S) l). split.
  - apply sublist_filter.
  - apply NoDup_Permutation; [done|by apply NoDup_filter|].
    intros y. rewrite list_elem_of_filter. split; [auto|tauto].
Qed.

Lemma is_single_node_spec (t : Tree) h l :
  chain_rel t (h_next h) l ->
  Opt.is_single_node t h = true <-> exists n, l = [n].
Proof.
  intros Hc. unfold Opt.is_single_node. destruct l as [|n l]; simpl in Hc.
  - rewrite Hc. split; [done|]. by intros [n ?].
  - destruct Hc as [-> Hc]. destruct l as [|m l]; simpl in Hc.
    + rewrite Hc. split; eauto.
    + destruct Hc as [-> _]. split; [done|]. by intros [? ?].
Qed.

(** ** The recursion of part_001 *)

Section OptBody.
Variables (ms : Z) (ps : list (list Z * Z)) (t : Tree) (hs : list Header).
Hypothesis Hms : 1 <= ms.
Hypothesis Hlv : level ms ps t hs.
Variable h : Header.
Hypothesis Hh : h ∈ hs.
Variable rec : Tree -> list Header -> list Z -> outcome (list (list Z * Z)).
Variable prefix : list Z.

Local Abbreviation x := (h_item h).
Local Abbreviation nh := (make_headers (add_base (proj t (h_item h)) (replicate CAP 0)) ms).
Local Abbreviation cps := (base_Opt t (h_item h)).
Local Abbreviation newPattern := (prefix ++ [h_item h]).

Lemma Opt_x : x ∈ map h_item hs.
Proof. apply list_elem_of_fmap. eauto. Qed.

Lemma Opt_body_single n :
  nodes_with x t = [n] ->
  Opt.FP_Growth_body rec t prefix ms h =
  Done ((sort Z.ltb newPattern, h_freq h)
        :: Opt.hamm_search_optimized (parent_path t n) (h_freq h) newPattern ms).
Proof.
  intros Hn. unfold Opt.FP_Growth_body.
  destruct (lv_header _ _ _ _ Hlv h Hh) as (Hc & Hch & _).
  pose proof (proj2 (is_single_node_spec t h _ Hch) (ex_intro _ n Hn)) as ->.
  rewrite Hn in Hch. destruct Hch as [-> _].
  assert (Hb : (0 < n < length t)%nat).
  { apply (nodes_with_bound x). rewrite Hn. by left. }
  destruct (parent_path_eq t n (lv_wf _ _ _ _ Hlv) Hb) as (j & Hj & Hlt & Hpp & _).
  rewrite Hj. rewrite collect_IL_spec; [|apply Hlv|lia|lia].
  rewrite (bind_Done_l _ _ _ eq_refl). rewrite app_nil_l, Hpp. reflexivity.
Qed.

Lemma Opt_body_general :
  (forall n, nodes_with x t <> [n]) ->
  exists hm0,
    table_of (sort cmp_headers nh) hm0 /\
    Opt.FP_Growth_body rec t prefix ms h =
    match nh with
    | [] => Done [(sort Z.ltb newPattern, h_freq h)]
    | _ =>
      '(t', hm') ← insert_paths cps [new_Node] hm0;
      sub ← rec t' (reload hm' (sort cmp_headers nh)) newPattern;
      Done ((sort Z.ltb newPattern, h_freq h) :: sub)
    end.
Proof.
  intros Hn.
  destruct (register_table (sort cmp_headers nh)) as (hm0 & Hreg & Htab).
  { rewrite (sort_perm cmp_headers nh). apply make_headers_NoDup. }
  { apply Forall_forall. intros h' Hh'. rewrite (sort_perm cmp_headers nh) in Hh'.
    apply make_headers_elem in Hh' as (i & Hi & _ & ->). simpl.
    split; [apply in_cap_spec; lia|done]. }
  exists hm0. split; [done|]. unfold Opt.FP_Growth_body.
  destruct (lv_header _ _ _ _ Hlv h Hh) as (Hc & Hch & _).
  destruct (Opt.is_single_node t h) eqn:E.
  { apply (is_single_node_spec t h _ Hch) in E as [n E]. by apply Hn in E. }
  rewrite (Opt_walk_chain_spec t (nodes_with x t));
    [|apply Hlv|done|intros i Hi; by apply nodes_with_bound in Hi as [? _]
     |apply nodes_with_length|apply length_replicate].
  rewrite (bind_Done_l _ _ _ eq_refl). cbv beta iota. rewrite app_nil_l.
  fold (proj t x). fold (base_Opt t x).
  destruct nh; [reflexivity|].
  unfold Opt.construct_tree. rewrite Hreg.
  rewrite (bind_Done_l _ _ _ eq_refl).
  destruct (insert_paths cps [new_Node] hm0) as [[t' hm']| | |]; reflexivity.
Qed.
End OptBody.

Section OptChar.
Variables (ms : Z) (ps : list (list Z * Z)) (t : Tree) (hs : list Header).
Hypothesis Hms : 1 <= ms.
Hypothesis Hlv : level ms ps t hs.
Variable h : Header.
Hypothesis Hh : h ∈ hs.
Variable rec : Tree -> list Header -> list Z -> outcome (list (list Z * Z)).
Variable prefix : list Z.

Local Abbreviation x := (h_item h).
Local Abbreviation nh := (make_headers (add_base (proj t (h_item h)) (replicate CAP 0)) ms).
Local Abbreviation cps := (base_Opt t (h_item h)).
Local Abbreviation newPattern := (prefix ++ [h_item h]).

Lemma Opt_single_entries n e :
  nodes_with x t = [n] ->
  e ∈ (sort Z.ltb newPattern, h_freq h)
      :: Opt.hamm_search_optimized (parent_path t n) (h_freq h) newPattern ms <->
  mined_at ms ps x prefix e.
Proof.
  intros Hn. rewrite (mined_at_base ms ps t hs) by (auto; apply (Opt_x hs h Hh)).
  destruct (lv_header _ _ _ _ Hlv h Hh) as (_ & _ & _ & Hle).
  pose proof (level_header_freq ms ps t hs Hlv h Hh) as Hf.
  pose proof (level_proj_wf ms ps t hs Hlv x) as Hwf.
  unfold proj in Hf, Hwf |- *. rewrite Hn in Hf, Hwf |- *. simpl in Hf, Hwf |- *.
  apply Forall_cons in Hwf as [(Hnd & _ & _) _]. simpl in Hnd.
  rewrite wsupp_cons, wsupp_nil, incl_b_nil, Z.add_0_r in Hf.
  rewrite elem_of_cons, hamm_search_spec by (auto; by destruct prefix).
  split.
  - intros [->|(sub & Hs & ->)].
    + exists []. rewrite wsupp_cons, wsupp_nil, incl_b_nil. simpl.
      split_and!; auto; [apply NoDup_nil_2|lia].
    + exists sub. rewrite wsupp_cons, wsupp_nil. simpl.
      assert (incl_b sub (parent_path t n) = true) as ->.
      { apply incl_b_spec. intros y Hy. by apply (elem_of_sublist sub). }
      split_and!; auto; [by apply (sublist_NoDup sub (parent_path t n))|lia|].
      by rewrite <- app_assoc.
  - intros (S & HS & Hs & Hle' & HI).
    rewrite wsupp_cons, wsupp_nil in Hs.
    destruct (incl_b S (parent_path t n)) eqn:E; [|lia].
    rewrite incl_b_spec in E.
    destruct (NoDup_subset_sublist S (parent_path t n) HS Hnd E) as (sub & Hsub & Hp).
    right. exists sub. split; [done|]. destruct e as [I s]. simpl in *.
    f_equal; [|lia]. rewrite HI. apply sortZ_perm_eq. rewrite <- app_assoc. simpl.
    by rewrite Hp.
Qed.

Lemma Opt_cond_level hm0 :
  table_of (sort cmp_headers nh) hm0 ->
  exists t' hm',
    insert_paths cps [new_Node] hm0 = Done (t', hm') /\
    level ms (ps_of hm0 cps) t' (reload hm' (sort cmp_headers nh)) /\
    (forall q' c', (q', c') ∈ ps_of hm0 cps ->
       exists q c, (q, c) ∈ ps /\ (length q' < length q)%nat).
Proof.
  intros Htab.
  destruct (cond_level ms ps t hs Hms Hlv x (Opt_x hs h Hh) cps hm0 Htab)
    as (t' & hm' & Hins & Hlv' & _ & _ & Hdepth).
  - apply (base_Opt_wf ms ps t hs Hlv).
  - intros S HS _. by apply base_Opt_supp.
  - apply base_Opt_anc.
  - eauto.
Qed.

Lemma Opt_body_char o :
  (forall ps' t' hs' prefix' out', level ms ps' t' hs' ->
     rec t' hs' prefix' = Done out' -> forall e, e ∈ out' <-> mined ms ps' prefix' e) ->
  Opt.FP_Growth_body rec t prefix ms h = Done o ->
  forall e, e ∈ o <-> mined_at ms ps x prefix e.
Proof.
  intros Hrec Hbody e.
  assert (Hgen : (forall n, nodes_with x t <> [n]) -> e ∈ o <-> mined_at ms ps x prefix e).
  { intros Hn.
    destruct (Opt_body_general ms ps t hs Hlv h Hh rec prefix Hn) as (hm0 & Htab & Heq).
    rewrite Heq in Hbody. clear Heq.
    rewrite (mined_at_base ms ps t hs) by (auto; apply (Opt_x hs h Hh)).
    destruct (lv_header _ _ _ _ Hlv h Hh) as (_ & _ & _ & Hle).
    rewrite (level_header_freq ms ps t hs Hlv h Hh) in Hbody, Hle.
    assert (Hsupp : forall S, S <> [] -> x ∉ S -> wsupp cps S = wsupp (proj t x) S).
    { intros S HS _. by apply base_Opt_supp. }
    assert (Hperm : Permutation (sort Z.ltb newPattern) (prefix ++ [x])) by apply sort_perm.
    destruct nh as [|h1 l1] eqn:E.
    - inversion Hbody; subst o. rewrite <- E in Htab.
      apply (cond_entries ms ps t hs Hms Hlv x cps hm0 Htab
               (base_Opt_wf ms ps t hs Hlv x) Hsupp prefix newPattern []); auto.
      intros e'. split; [by intros ?%elem_of_nil|].
      intros (S & Hne & Hnd & Hs & Hle' & _). exfalso.
      destruct S as [|y S]; [done|].
      assert (Hy : y ∈ map h_item nh).
      { apply (cond_pos_items ms t x cps hm0 Htab
                 (base_Opt_wf ms ps t hs Hlv x) (y :: S)); [lia|by left]. }
      rewrite E in Hy. by apply elem_of_nil in Hy.
    - rewrite <- E in Hbody, Htab. destruct (Opt_cond_level hm0 Htab) as (t' & hm' & Hins & Hlv' & _).
      rewrite Hins in Hbody. simpl in Hbody.
      apply bind_Done in Hbody as (sub & Hsub & Hbody). inversion Hbody; subst o.
      apply (cond_entries ms ps t hs Hms Hlv x cps hm0 Htab
               (base_Opt_wf ms ps t hs Hlv x) Hsupp prefix newPattern sub); auto.
      by apply (Hrec _ _ _ _ _ Hlv'). }
  destruct (nodes_with x t) as [|n [|m l]] eqn:En.
  - apply Hgen. done.
  - rewrite (Opt_body_single ms ps t hs Hlv h Hh rec prefix n En) in Hbody.
    inversion Hbody; subst o. by apply Opt_single_entries.
  - apply Hgen. done.
Qed.

Lemma Opt_body_total (n : nat) :
  Forall (fun qc => (length (fst qc) <= n)%nat) ps ->
  (forall m ps' t' hs' prefix', n = S m -> level ms ps' t' hs' ->
     Forall (fun qc => (length (fst qc) <= m)%nat) ps' ->
     exists out', rec t' hs' prefix' = Done out') ->
  exists o, Opt.FP_Growth_body rec t prefix ms h = Done o.
Proof.
  intros Hn Hrec.
  assert (Hgen : (forall n, nodes_with x t <> [n]) ->
            exists o, Opt.FP_Growth_body rec t prefix ms h = Done o).
  { intros Hsingle.
    destruct (Opt_body_general ms ps t hs Hlv h Hh rec prefix Hsingle) as (hm0 & Htab & ->).
    destruct nh as [|h1 l1] eqn:E; [eauto|]. rewrite <- E in Htab |- *.
    destruct (Opt_cond_level hm0 Htab) as (t' & hm' & Hins & Hlv' & Hdepth).
    rewrite Hins. rewrite (bind_Done_l _ _ _ eq_refl). cbv beta iota.
    assert (Hy : h_item h1 ∈ map h_item nh) by (rewrite E; by left).
    apply (cond_header_elem ms ps t hs Hlv) in Hy as [_ Hy].
    destruct (wsupp_pos_elem (proj t x) [h_item h1]) as (p & c & Hp & _); [lia|].
    unfold proj in Hp. apply list_elem_of_fmap in Hp as (i & _ & Hi).
    apply nodes_with_bound in Hi as [Hi _].
    destruct (level_node ms ps t hs Hlv i Hi) as (q & c0 & Hq & Hpre & _ & _ & Hnp).
    rewrite Forall_forall in Hn. pose proof (Hn _ Hq) as Hlen. simpl in Hlen.
    apply prefix_length in Hpre. rewrite Hnp, length_app in Hpre. simpl in Hpre.
    destruct n as [|m]; [lia|].
    destruct (Hrec m _ t' (reload hm' (sort cmp_headers nh)) newPattern eq_refl Hlv')
      as [sub Hsub].
    - apply Forall_forall. intros [q' c'] Hq'. simpl.
      destruct (Hdepth q' c' Hq') as (q2 & c2 & Hq2 & Hlt).
      pose proof (Hn _ Hq2). simpl in *. lia.
    - rewrite Hsub. rewrite (bind_Done_l _ _ _ eq_refl). eauto. }
  destruct (nodes_with x t) as [|k [|m l]] eqn:En.
  - apply Hgen. done.
  - rewrite (Opt_body_single ms ps t hs Hlv h Hh rec prefix k En). eauto.
  - apply Hgen. done.
Qed.
End OptChar.

Lemma Opt_FP_Growth_S k (t : Tree) hs prefix ms :
  Opt.FP_Growth (S k) t hs prefix ms =
  for_each (Opt.FP_Growth_body (fun t' hs' p => Opt.FP_Growth k t' hs' p ms) t prefix ms) hs.
Proof. reflexivity. Qed.

Lemma Opt_FP_char ms : 1 <= ms -> forall fuel ps (t : Tree) hs prefix out,
  level ms ps t hs -> Opt.FP_Growth fuel t hs prefix ms = Done out ->
  forall e, e ∈ out <-> mined ms ps prefix e.
Proof.
  intros Hms. induction fuel as [|k IH]; intros ps t hs prefix out Hlv Hrun e; [done|].
  rewrite Opt_FP_Growth_S in Hrun.
  rewrite (for_each_Done _ _ _ Hrun), (mined_split ms ps t hs) by done.
  split.
  - intros (h & o & Hh & Ho & He). exists h. split; [done|].
    eapply (Opt_body_char ms ps t hs Hms Hlv h Hh); [|exact Ho|exact He].
    intros ps' t' hs' prefix' out'. apply IH.
  - intros (h & Hh & He).
    destruct (for_each_Done_each _ _ _ h Hrun Hh) as [o Ho].
    exists h, o. split_and!; auto.
    eapply (Opt_body_char ms ps t hs Hms Hlv h Hh); [|exact Ho|exact He].
    intros ps' t' hs' prefix' out'. apply IH.
Qed.

Lemma Opt_FP_total ms : 1 <= ms -> forall n ps (t : Tree) hs prefix,
  level ms ps t hs -> Forall (fun qc => (length (fst qc) <= n)%nat) ps ->
  exists out, Opt.FP_Growth (S n) t hs prefix ms = Done out.
Proof.
  intros Hms. induction n as [|m IH]; intros ps t hs prefix Hlv Hn;
    rewrite Opt_FP_Growth_S; apply for_each_total; intros h Hh;
    apply (Opt_body_total ms ps t hs Hms Hlv h Hh _ _ _ Hn).
  - intros m ? ? ? ? Hm. discriminate.
  - intros m' ps' t' hs' prefix' Hm Hlv' Hn'. inversion Hm; subst m'. by apply (IH ps').
Qed.

(** ** From a level of the tree to the database *)

Lemma support_wsupp D S : support D S = wsupp (map (fun trans => (trans, 1)) D) S.
Proof.
  unfold support, wsupp. induction D as [|trans D IH]; [done|].
  simpl. destruct (incl_b S trans); simpl; lia.
Qed.

Lemma support_mono D S S' : (forall x, x ∈ S -> x ∈ S') -> support D S' <= support D S.
Proof.
  intros H. rewrite !support_wsupp. apply wsupp_mono; [|done].
  apply Forall_forall. intros e He. apply list_elem_of_fmap in He as (? & -> & _). simpl. lia.
Qed.

Lemma support_perm D S S' : Permutation S S' -> support D S = support D S'.
Proof. intros H. rewrite !support_wsupp. by apply wsupp_perm. Qed.

Lemma support_pos_elem D S y :
  0 < support D S -> y ∈ S -> exists trans, trans ∈ D /\ y ∈ trans.
Proof.
  rewrite support_wsupp. intros Hpos Hy.
  apply wsupp_pos_elem in Hpos as (p & c & Hp & Hi).
  apply list_elem_of_fmap in Hp as (trans & Heq & Ht). inversion Heq; subst.
  rewrite incl_b_spec in Hi. eauto.
Qed.

(** The entries of a level that stands for the database [D]. *)
Lemma top_frequent ms D ps (t : Tree) hs (out : output) :
  1 <= ms -> level ms ps t hs ->
  (forall y, ms <= support D [y] -> y ∈ map h_item hs) ->
  (forall S, S <> [] -> (forall y, y ∈ S -> y ∈ map h_item hs) ->
     wsupp ps S = support D S) ->
  (forall e, e ∈ out <-> mined ms ps [] e) ->
  forall e, e ∈ out <-> frequent ms D e.
Proof.
  intros Hms Hlv Hkept Hscope Hout e. rewrite Hout. unfold mined, frequent. simpl.
  split; intros (S & Hne & Hnd & Hs & Hle & HI); exists S.
  - assert (HK : forall y, y ∈ S -> y ∈ map h_item hs).
    { intros y Hy. destruct (wsupp_pos_elem ps S) as (q & c & Hq & Hi); [lia|].
      rewrite incl_b_spec in Hi.
      destruct (lv_paths _ _ _ _ Hlv q c Hq) as (_ & _ & Hin). by apply Hin, Hi. }
    rewrite Hscope in Hs by done. done.
  - assert (HK : forall y, y ∈ S -> y ∈ map h_item hs).
    { intros y Hy. apply Hkept. etransitivity; [exact Hle|]. rewrite Hs.
      apply support_mono. by intros z ->%list_elem_of_singleton. }
    rewrite Hscope by done. done.
Qed.

Lemma cnt_app x l l' : cnt x (l ++ l') = cnt x l + cnt x l'.
Proof. unfold cnt. rewrite List.filter_app, length_app. lia. Qed.

Lemma cnt_NoDup x l : NoDup l -> cnt x l = if existsb (Z.eqb x) l then 1 else 0.
Proof.
  unfold cnt. induction 1 as [|y l Hy Hnd IH]; [done|].
  cbn [List.filter existsb]. destruct (Z.eqb_spec x y) as [->|Hne]; cbn [orb length].
  - destruct (existsb (Z.eqb y) l) eqn:E.
    + apply existsb_eqb in E. done.
    + lia.
  - exact IH.
Qed.

Lemma cnt_concat D x : wf_db D -> cnt x (concat D) = support D [x].
Proof.
  intros Hwf. unfold support. induction Hwf as [|trans D [Hnd _] Hwf IH]; [done|].
  cbn [concat List.filter]. rewrite cnt_app, IH, cnt_NoDup, incl_b_single by done.
  destruct (existsb (Z.eqb x) trans); cbn [length]; lia.
Qed.

Lemma cnt_nonneg x l : 0 <= cnt x l.
Proof. unfold cnt. lia. Qed.

Lemma cnt_pos x l : 0 < cnt x l <-> x ∈ l.
Proof.
  unfold cnt. induction l as [|y l IH]; simpl.
  - split; [lia|by intros ?%elem_of_nil].
  - rewrite elem_of_cons. destruct (Z.eqb_spec x y) as [->|Hne]; simpl.
    + split; [auto|lia].
    + rewrite IH. split; [auto|]. intros [?|?]; [done|auto].
Qed.

Lemma wf_db_concat D : wf_db D -> Forall (fun x => in_cap x = true) (concat D).
Proof.
  induction 1 as [|trans D [_ Hc] Hwf IH]; [constructor|].
  simpl. apply Forall_app. done.
Qed.

(** ** part_001: the counters of the reading loop *)

Lemma mget_cons k v m k' : mget ((k, v) :: m) k' = (if k =? k' then v else 0) + mget m k'.
Proof.
  unfold mget, sumZ. cbn [List.filter fst]. destruct (k =? k'); cbn [map foldr snd]; lia.
Qed.

Lemma mget_map_incr k m k' :
  mget (Opt.map_incr k m) k' = mget m k' + (if k =? k' then 1 else 0).
Proof.
  induction m as [|[k0 v] m IH]; cbn [Opt.map_incr].
  - rewrite mget_cons. lia.
  - destruct (Z.eqb_spec k k0) as [->|Hne].
    + rewrite !mget_cons. destruct (k0 =? k'); lia.
    + destruct (k <? k0).
      * rewrite (mget_cons k 1). lia.
      * rewrite !mget_cons, IH. lia.
Qed.

Lemma map_incr_keys k m x :
  x ∈ map fst (Opt.map_incr k m) <-> x = k \/ x ∈ map fst m.
Proof.
  induction m as [|[k0 v] m IH]; cbn [Opt.map_incr].
  - cbn [map fst]. rewrite elem_of_cons. tauto.
  - destruct (Z.eqb_spec k k0) as [->|Hne].
    + cbn [map fst]. rewrite !elem_of_cons. tauto.
    + destruct (k <? k0).
      * cbn [map fst]. rewrite !elem_of_cons. tauto.
      * cbn [map fst] in *. rewrite !elem_of_cons, IH. tauto.
Qed.

Lemma map_incr_sorted k m :
  StronglySorted Z.lt (map fst m) -> StronglySorted Z.lt (map fst (Opt.map_incr k m)).
Proof.
  induction m as [|[k0 v] m IH]; cbn [Opt.map_incr]; intros Hs.
  - repeat constructor.
  - destruct (Z.eqb_spec k k0) as [->|Hne]; [exact Hs|].
    destruct (Z.ltb_spec k k0) as [Hlt|Hge].
    + cbn [map fst] in *. constructor; [exact Hs|].
      inversion Hs as [|? ? _ Hall]; subst. constructor; [done|].
      eapply Forall_impl; [exact Hall|]. simpl. intros. lia.
    + cbn [map fst] in *. inversion Hs as [|? ? Hs' Hall]; subst.
      constructor; [by apply IH|].
      apply Forall_forall. intros x Hx. apply map_incr_keys in Hx as [->|Hx]; [lia|].
      rewrite Forall_forall in Hall. by apply Hall.
Qed.

Lemma map_incr_pos k m :
  Forall (fun kv => 0 < snd kv) m -> Forall (fun kv => 0 < snd kv) (Opt.map_incr k m).
Proof.
  induction m as [|[k0 v] m IH]; cbn [Opt.map_incr]; intros Hp.
  - by repeat constructor.
  - apply Forall_cons in Hp as [Hv Hp]. simpl in Hv.
    destruct (k =? k0); [constructor; [simpl; lia|done]|].
    destruct (k <? k0); [by repeat constructor|]. constructor; auto.
Qed.

Lemma mget_absent m k : k ∉ map fst m -> mget m k = 0.
Proof.
  induction m as [|[k0 v] m IH]; [done|]. cbn [map fst]. rewrite not_elem_of_cons.
  intros [Hne Hk]. rewrite mget_cons, IH by done.
  destruct (Z.eqb_spec k0 k); [congruence|done].
Qed.

Lemma mget_elem m k v : StronglySorted Z.lt (map fst m) -> (k, v) ∈ m -> mget m k = v.
Proof.
  induction m as [|[k0 v0] m IH]; [by intros _ ?%elem_of_nil|].
  cbn [map fst]. intros Hs Hin. inversion Hs as [|? ? Hs' Hall]; subst.
  rewrite Forall_forall in Hall. rewrite mget_cons.
  apply elem_of_cons in Hin as [Heq|Hin].
  - inversion Heq; subst. rewrite Z.eqb_refl, mget_absent; [lia|].
    intros Hk. apply Hall in Hk. lia.
  - assert (k0 < k). { apply Hall, list_elem_of_fmap. by exists (k, v). }
    destruct (Z.eqb_spec k0 k); [lia|]. rewrite IH by done. lia.
Qed.

Lemma counts_spec L :
  let tc := foldl (fun m id => Opt.map_incr id m) [] L in
  StronglySorted Z.lt (map fst tc) /\ Forall (fun kv => 0 < snd kv) tc /\
  (forall k, mget tc k = cnt k L) /\ (forall k, k ∈ map fst tc <-> k ∈ L).
Proof.
  induction L as [|x L IH] using rev_ind.
  - simpl. split_and!; [constructor|constructor|done|done].
  - cbv zeta in *. rewrite foldl_app. cbn [foldl].
    destruct IH as (Hs & Hp & Hg & Hk). split_and!.
    + by apply map_incr_sorted.
    + by apply map_incr_pos.
    + intros k. rewrite mget_map_incr, Hg, cnt_app. f_equal.
      unfold cnt. cbn [List.filter]. rewrite (Z.eqb_sym k x). by destruct (x =? k).
    + intros k. rewrite map_incr_keys, Hk, elem_of_app, list_elem_of_singleton. tauto.
Qed.

Lemma foldl_max_ge L : forall a, a <= foldl Z.max a L /\ forall x, x ∈ L -> x <= foldl Z.max a L.
Proof.
  induction L as [|y L IH]; intros a; simpl.
  - split; [lia|by intros ? ?%elem_of_nil].
  - destruct (IH (Z.max a y)) as [H1 H2]. split; [lia|].
    intros x [->|Hx]%elem_of_cons; [lia|auto].
Qed.

Lemma foldl_max_le L : forall a b, a <= b -> Forall (fun x => x <= b) L -> foldl Z.max a L <= b.
Proof.
  induction L as [|y L IH]; intros a b Ha HL; simpl; [done|].
  apply Forall_cons in HL as [Hy HL]. apply IH; [lia|done].
Qed.

Lemma header_map_size_Done mx :
  mx < 2 ^ 31 - 1 -> Opt.header_map_size mx = Done (Z.to_nat (mx + 1)).
Proof.
  intros H. unfold Opt.header_map_size.
  destruct (Z.ltb_spec (mx + 1) (2 ^ 31)); [done|lia].
Qed.


(** ** part_001: the table of frequent items and the first paths *)

Lemma frequent_headers_spec ms tc : forall hs hm,
  Forall (fun kv => 0 <= fst kv < Z.of_nat (length hm)) tc ->
  Opt.frequent_headers tc ms hs hm =
  Done (hs ++ headers_of_counts ms tc,
        foldl (fun hm h => <[Z.to_nat (h_item h) := Some (set_chain None None h)]> hm) hm
              (headers_of_counts ms tc)).
Proof.
  unfold headers_of_counts.
  induction tc as [|[id f] tc IH]; intros hs hm Hb; cbn [Opt.frequent_headers].
  - by rewrite app_nil_r.
  - apply Forall_cons in Hb as [Hid Hb]. simpl in Hid. cbn [List.filter snd].
    destruct (ms <=? f).
    + rewrite vec_set_Done by done. rewrite (bind_Done_l _ _ _ eq_refl). cbv beta.
      rewrite IH by (by rewrite length_insert). cbn [map foldl fst snd h_item].
      by rewrite <- app_assoc.
    + by apply IH.
Qed.

Lemma remove_infrequent_all ms l :
  Forall (fun h => ms <= h_freq h) l -> remove_infrequent_items (map Some l) ms = l.
Proof.
  unfold remove_infrequent_items. induction 1 as [|h l Hh Hl IH]; [done|].
  simpl. destruct (h_freq h <? ms) eqn:E; [apply Z.ltb_lt in E; lia|]. f_equal. exact IH.
Qed.

Lemma filter_path_spec hm trans :
  Forall (fun id => 0 <= id < Z.of_nat (length hm)) trans ->
  Opt.filter_path hm trans = Done (List.filter (has_header hm) trans).
Proof.
  induction 1 as [|id trans Hid Ht IH]; [done|].
  cbn [Opt.filter_path]. rewrite vec_get_Done by done.
  rewrite (bind_Done_l _ _ _ eq_refl). cbv beta. rewrite IH.
  rewrite (bind_Done_l _ _ _ eq_refl). cbv beta.
  cbn [List.filter]. unfold has_header. by destruct (hm !!! Z.to_nat id).
Qed.

Lemma initial_paths_spec hm D :
  Forall (Forall (fun id => 0 <= id < Z.of_nat (length hm))) D ->
  Opt.initial_paths hm D = Done (nonempty_paths (restrict hm D)).
Proof.
  induction 1 as [|trans D Ht HD IH]; [done|].
  cbn [Opt.initial_paths]. rewrite filter_path_spec by done.
  rewrite (bind_Done_l _ _ _ eq_refl). cbv beta. rewrite IH.
  rewrite (bind_Done_l _ _ _ eq_refl). cbv beta.
  unfold restrict, nonempty_paths. cbn [map List.filter fst].
  by destruct (List.filter (has_header hm) trans).
Qed.

Lemma wsupp_nonempty db S : S <> [] -> wsupp (nonempty_paths db) S = wsupp db S.
Proof.
  intros HS. unfold nonempty_paths.
  induction db as [|[p c] l IH]; [done|].
  cbn [List.filter fst]. rewrite wsupp_cons, <- IH. destruct p as [|y p].
  - destruct S as [|z S]; [done|]. rewrite incl_b_cons. simpl. lia.
  - by rewrite wsupp_cons.
Qed.

Lemma wsupp_restrict hm D S :
  (forall y, y ∈ S -> has_header hm y = true) -> wsupp (restrict hm D) S = support D S.
Proof.
  intros HS. rewrite support_wsupp. unfold restrict.
  induction D as [|trans D IH]; [done|].
  cbn [map]. rewrite !wsupp_cons, IH. f_equal.
  assert (incl_b S (List.filter (has_header hm) trans) = incl_b S trans) as ->; [|done].
  apply eq_true_iff_eq. rewrite !incl_b_spec.
  split; intros H x Hx.
  - specialize (H x Hx). apply list_elem_of_In, filter_In in H as [H _].
    by apply list_elem_of_In.
  - apply list_elem_of_In, filter_In. split; [apply list_elem_of_In|]; auto.
Qed.

(** ** part_001: the first tree is a level for the database *)

Lemma has_header_spec hm id :
  has_header hm id = true <-> exists h, hm !! Z.to_nat id = Some (Some h).
Proof.
  unfold has_header. rewrite list_lookup_total_alt.
  destruct (hm !! Z.to_nat id) as [[h|]|]; simpl; split; eauto; try done.
  - by intros [? ?].
  - by intros [? ?].
Qed.

Lemma NoDup_map_filter {A B} (f : A -> B) (P : A -> bool) l :
  NoDup (map f l) -> NoDup (map f (List.filter P l)).
Proof.
  induction l as [|a l IH]; [done|]. cbn [map List.filter].
  intros [Ha Hl]%NoDup_cons. destruct (P a); [|auto].
  cbn [map]. apply NoDup_cons. split; [|auto].
  intros Hin. apply Ha. apply list_elem_of_fmap in Hin as (b & -> & Hb).
  apply list_elem_of_fmap. exists b. split; [done|].
  apply list_elem_of_In, filter_In in Hb as [Hb _]. by apply list_elem_of_In.
Qed.

Lemma build_items hs hm0 cps (t : Tree) hm :
  table_of hs hm0 ->
  Forall (fun pc => Forall (fun x => in_cap x = true) (fst pc)) cps ->
  insert_paths cps [new_Node] hm0 = Done (t, hm) ->
  map h_item (reload hm hs) = map h_item hs.
Proof.
  intros Htab Hcap Hins.
  destruct (insert_paths_spec cps [new_Node] hm0 [] wf_tree_init (wf_table_init _ _ Htab)
              tree_counts_init Hcap) as (t' & hm' & Hins' & _ & _ & Hs & _).
  rewrite Hins in Hins'. inversion Hins'; subst t' hm'.
  by apply (reload_items t hs hm0).
Qed.

Section Database.
Variable ms : Z.
Variable D : list (list Z).
Hypothesis Hms : 1 <= ms.
Hypothesis Hwf : wf_db D.

Lemma db_item y : 0 < support D [y] -> y ∈ concat D /\ in_cap y = true.
Proof.
  intros Hpos.
  destruct (support_pos_elem D [y] y Hpos) as (trans & Ht & Hy); [by left|].
  split.
  - apply list_elem_of_In, in_concat. exists trans. by rewrite <- !list_elem_of_In.
  - unfold wf_db in Hwf. rewrite Forall_forall in Hwf.
    destruct (Hwf trans Ht) as [_ Hc]. rewrite Forall_forall in Hc. auto.
Qed.

Lemma db_in_cap y : y ∈ concat D -> in_cap y = true.
Proof.
  intros Hy. pose proof (wf_db_concat D Hwf) as H. rewrite Forall_forall in H. auto.
Qed.

Local Abbreviation tc := (foldl (fun m id => Opt.map_incr id m) [] (concat D)).
Local Abbreviation mx := (foldl Z.max 0 (concat D)).
Local Abbreviation hs0 := (headers_of_counts ms tc).
Local Abbreviation hm1 :=
  (foldl (fun hm h => <[Z.to_nat (h_item h) := Some (set_chain None None h)]> hm)
         (replicate (Z.to_nat (mx + 1)) None) hs0).

Lemma Opt_tc_elem id f : (id, f) ∈ tc <-> id ∈ concat D /\ f = support D [id].
Proof.
  destruct (counts_spec (concat D)) as (Hs & Hp & Hg & Hk). cbv zeta in *.
  split.
  - intros Hin. split.
    + apply Hk, list_elem_of_fmap. by exists (id, f).
    + rewrite <- cnt_concat, <- Hg by done. symmetry. by apply mget_elem.
  - intros [Hid ->]. apply Hk, list_elem_of_fmap in Hid as ([k v] & Heq & Hin).
    simpl in Heq. subst k.
    rewrite <- cnt_concat, <- Hg, (mget_elem _ _ _ Hs Hin) by done. done.
Qed.

Lemma Opt_hs0_elem h :
  h ∈ hs0 <-> exists id, h = mkHeader id (support D [id]) None None /\ ms <= support D [id].
Proof.
  unfold headers_of_counts. rewrite list_elem_of_fmap. split.
  - intros ([id f] & -> & Hin). apply list_elem_of_In, filter_In in Hin as [Hin Hf].
    apply list_elem_of_In, Opt_tc_elem in Hin as [_ ->]. simpl in *.
    apply Z.leb_le in Hf. eauto.
  - intros (id & -> & Hle). exists (id, support D [id]). split; [done|].
    apply list_elem_of_In, filter_In. split; [|by apply Z.leb_le].
    apply list_elem_of_In, Opt_tc_elem. split; [|done]. apply db_item. lia.
Qed.

Lemma Opt_hs0_NoDup : NoDup (map h_item hs0).
Proof.
  unfold headers_of_counts. rewrite map_map. simpl.
  apply (NoDup_map_filter fst). destruct (counts_spec (concat D)) as (Hs & _).
  eapply StronglySorted_NoDup; [|exact Hs]. intros x. lia.
Qed.

Lemma Opt_mx y : y ∈ concat D -> 0 <= y < Z.of_nat (Z.to_nat (mx + 1)).
Proof.
  intros Hy. destruct (foldl_max_ge (concat D) 0) as [H0 Hx].
  specialize (Hx y Hy). apply db_in_cap, in_cap_spec in Hy. lia.
Qed.

Lemma Opt_size : Opt.header_map_size mx = Done (Z.to_nat (mx + 1)).
Proof.
  apply header_map_size_Done.
  assert (Hm : mx <= 999) by (apply foldl_max_le; [lia|];
    apply Forall_forall; intros y Hy%db_in_cap%in_cap_spec; unfold CAP in Hy; lia).
  lia.
Qed.

Lemma Opt_hm1_length : length hm1 = Z.to_nat (mx + 1).
Proof. by rewrite foldl_insert_length, length_replicate. Qed.

Lemma Opt_has_header id : 0 <= id -> has_header hm1 id = true <-> ms <= support D [id].
Proof.
  intros Hid. rewrite has_header_spec.
  assert (Hb : forall h, h ∈ hs0 ->
            (Z.to_nat (h_item h) < length (replicate (Z.to_nat (mx + 1)) (@None Header)))%nat).
  { intros h (id' & -> & Hle)%Opt_hs0_elem. rewrite length_replicate. simpl.
    destruct (db_item id') as [Hin _]; [lia|]. apply Opt_mx in Hin. lia. }
  rewrite (foldl_insert_lookup hs0 _ (Z.to_nat id) Hb).
  destruct (last (List.filter _ hs0)) as [h|] eqn:E.
  - apply last_Some_elem_of, list_elem_of_In, filter_In in E as [Hh Hk].
    apply list_elem_of_In, Opt_hs0_elem in Hh as (id' & -> & Hle). simpl in Hk.
    apply Nat.eqb_eq in Hk. destruct (db_item id') as [_ Hc%in_cap_spec]; [lia|].
    assert (id' = id) as -> by lia. split; [done|eauto].
  - apply last_None in E. split.
    + intros [h Hh]. apply lookup_replicate in Hh as [Hh _]. done.
    + intros Hle. exfalso.
      assert (Hin : mkHeader id (support D [id]) None None ∈
                    List.filter (fun h => Nat.eqb (Z.to_nat (h_item h)) (Z.to_nat id)) hs0).
      { apply list_elem_of_In, filter_In. split; [|by apply Nat.eqb_eq].
        apply list_elem_of_In, Opt_hs0_elem. eauto. }
      rewrite E in Hin. by apply elem_of_nil in Hin.
Qed.

Lemma Opt_restrict_wf :
  Forall (fun pc => NoDup (fst pc) /\ Forall (fun x => in_cap x = true) (fst pc) /\ 0 < snd pc)
         (nonempty_paths (restrict hm1 D)).
Proof.
  apply Forall_forall. intros pc Hpc. unfold nonempty_paths in Hpc.
  apply list_elem_of_In, filter_In in Hpc as [Hpc _].
  apply list_elem_of_In, list_elem_of_fmap in Hpc as (trans & -> & Ht). simpl.
  unfold wf_db in Hwf. rewrite Forall_forall in Hwf. destruct (Hwf trans Ht) as [Hnd Hc].
  split_and!; [|apply Forall_forall|lia].
  - by apply NoDup_ListNoDup, List.NoDup_filter, NoDup_ListNoDup.
  - intros x Hx. apply list_elem_of_In, filter_In in Hx as [Hx _].
    rewrite Forall_forall in Hc. by apply Hc, list_elem_of_In.
Qed.

Lemma Opt_first_pass_level :
  exists (t : Tree) hs ps,
    Opt_first_pass ms D = Done (t, hs) /\
    level ms ps t hs /\
    (forall y, ms <= support D [y] -> y ∈ map h_item hs) /\
    (forall S, S <> [] -> (forall y, y ∈ S -> y ∈ map h_item hs) ->
       wsupp ps S = support D S).
Proof.
  pose (headers := sort cmp_headers hs0).
  assert (Hperm : forall h : Header, h ∈ headers <-> h ∈ hs0).
  { intros h. unfold headers. by rewrite (sort_perm cmp_headers hs0). }
  assert (Hitems : forall y : Z, y ∈ map h_item headers <-> ms <= support D [y]).
  { intros y. rewrite list_elem_of_fmap. split.
    - intros (h & -> & Hh). apply Hperm, Opt_hs0_elem in Hh as (id & -> & Hle). done.
    - intros Hle. exists (mkHeader y (support D [y]) None None). split; [done|].
      apply Hperm, Opt_hs0_elem. eauto. }
  assert (Hkept : forall S : list Z, (forall y, y ∈ S -> y ∈ map h_item headers) ->
            forall y, y ∈ S -> has_header hm1 y = true).
  { intros S HS y Hy. apply HS, Hitems in Hy.
    apply Opt_has_header; [|done]. destruct (db_item y) as [_ Hc%in_cap_spec]; lia. }
  assert (Hraw : forall S : list Z, S <> [] -> (forall y, y ∈ S -> y ∈ map h_item headers) ->
            wsupp (nonempty_paths (restrict hm1 D)) S = support D S).
  { intros S Hne HS. rewrite wsupp_nonempty by done. apply wsupp_restrict. eauto. }
  destruct (register_table headers) as (hm0 & Hreg & Htab).
  { unfold headers. rewrite (sort_perm cmp_headers hs0). apply Opt_hs0_NoDup. }
  { apply Forall_forall. intros h Hh. apply Hperm, Opt_hs0_elem in Hh as (id & -> & Hle).
    simpl. split; [|done]. apply db_item. lia. }
  destruct (build_level ms (nonempty_paths (restrict hm1 D)) headers hm0 Htab)
    as (t & hm & Hins & Hlv).
  { unfold headers. rewrite (sort_perm cmp_headers hs0). apply Opt_hs0_NoDup. }
  { intros h Hh. pose proof Hh as Hh'.
    apply Hperm, Opt_hs0_elem in Hh as (id & -> & Hle). simpl. split; [|done].
    symmetry. apply Hraw; [done|]. intros y ->%list_elem_of_singleton.
    apply list_elem_of_fmap. by exists (mkHeader id (support D [id]) None None). }
  { apply Opt_restrict_wf. }
  assert (Hcap : Forall (fun pc => Forall (fun x => in_cap x = true) (fst pc))
                        (nonempty_paths (restrict hm1 D))).
  { eapply Forall_impl; [apply Opt_restrict_wf|]. by intros ? (_ & ? & _). }
  pose proof (build_items headers hm0 _ t hm Htab Hcap Hins) as Hri.
  exists t, (reload hm headers), (ps_of hm0 (nonempty_paths (restrict hm1 D))).
  split_and!; [|done| |].
  - unfold Opt_first_pass. cbv zeta.
    rewrite (bind_Done_l _ _ _ Opt_size). cbv beta.
    rewrite frequent_headers_spec.
    2:{ apply Forall_forall. intros [id f] [Hin _]%Opt_tc_elem. simpl.
        rewrite length_replicate. by apply Opt_mx. }
    rewrite (bind_Done_l _ _ _ eq_refl). cbv beta iota. rewrite app_nil_l.
    rewrite remove_infrequent_all.
    2:{ apply Forall_forall. intros h Hh. apply Hperm, Opt_hs0_elem in Hh as (id & -> & Hle).
        done. }
    rewrite initial_paths_spec.
    2:{ apply Forall_forall. intros trans Ht. apply Forall_forall. intros id Hid.
        rewrite Opt_hm1_length. apply Opt_mx.
        apply list_elem_of_In, in_concat. exists trans. by rewrite <- !list_elem_of_In. }
    rewrite (bind_Done_l _ _ _ eq_refl). cbv beta.
    unfold Opt.construct_tree. fold headers. rewrite Hreg.
    rewrite (bind_Done_l _ _ _ eq_refl). cbv beta. rewrite Hins.
    rewrite (bind_Done_l _ _ _ eq_refl). cbv beta iota. reflexivity.
  - intros y Hle. rewrite Hri. by apply Hitems.
  - intros S Hne HS. rewrite Hri in HS.
    rewrite (wsupp_ps_of headers hm0 Htab) by done. by apply Hraw.
Qed.
End Database.

Lemma Opt_mine_first_pass fuel ms D :
  Opt.mine fuel ms D =
  ('(t, hs) ← Opt_first_pass ms D; Opt.FP_Growth fuel t hs [] ms).
Proof.
  unfold Opt.mine, Opt_first_pass. cbv zeta.
  destruct (Opt.header_map_size _) as [size| | |]; try reflexivity.
  rewrite !(bind_Done_l _ _ _ eq_refl). cbv beta.
  destruct (Opt.frequent_headers _ ms [] _) as [[headers0 header_map]| | |]; try reflexivity.
  rewrite !(bind_Done_l _ _ _ eq_refl). cbv beta iota.
  destruct (Opt.initial_paths header_map D) as [initialPaths| | |]; reflexivity.
Qed.

Lemma Opt_mine_level ms D :
  1 <= ms -> wf_db D ->
  exists (t : Tree) hs ps,
    (forall fuel, Opt.mine fuel ms D = Opt.FP_Growth fuel t hs [] ms) /\
    level ms ps t hs /\
    (forall y, ms <= support D [y] -> y ∈ map h_item hs) /\
    (forall S, S <> [] -> (forall y, y ∈ S -> y ∈ map h_item hs) ->
       wsupp ps S = support D S).
Proof.
  intros Hms Hwf.
  destruct (Opt_first_pass_level ms D Hms Hwf) as (t & hs & ps & Hfp & Hlv & Hk & Hsc).
  exists t, hs, ps. split_and!; auto.
  intros fuel. rewrite Opt_mine_first_pass, Hfp. reflexivity.
Qed.

(** ** Hamm.cpp: the table of the reading loop *)

Lemma table_freq_insert tb (k j : nat) h :
  (k < length tb)%nat ->
  table_freq (<[k := Some h]> tb) j = if Nat.eqb j k then h_freq h else table_freq tb j.
Proof.
  intros Hk. unfold table_freq. destruct (Nat.eqb_spec j k) as [->|Hne].
  - by rewrite (list_lookup_total_correct _ _ _ (list_lookup_insert_eq tb k (Some h) Hk)).
  - rewrite !list_lookup_total_alt, list_lookup_insert_ne by done. done.
Qed.

Lemma count_items_spec L : forall tb,
  length tb = CAP -> Forall (fun x => in_cap x = true) L -> counted tb ->
  exists tb', Hamm.count_items L tb = Done tb' /\ length tb' = CAP /\ counted tb' /\
    forall k : nat, table_freq tb' k = table_freq tb k + cnt (Z.of_nat k) L.
Proof.
  induction L as [|x L IH]; intros tb Hlen Hcap Hc.
  { exists tb. split_and!; auto. intros k. unfold cnt. simpl. lia. }
  apply Forall_cons in Hcap as [Hx Hcap]. apply in_cap_spec in Hx.
  cbn [Hamm.count_items]. unfold Hamm.count_item. rewrite vec_get_Done by lia.
  rewrite (bind_Done_l _ _ _ eq_refl). cbv beta. rewrite vec_set_Done by lia.
  rewrite (bind_Done_l _ _ _ eq_refl). cbv beta.
  set (h1 := match tb !!! Z.to_nat x with
             | Some h => mkHeader (h_item h) (h_freq h + 1) (h_next h) (h_tail h)
             | None => mkHeader x 1 None None
             end).
  assert (Hk : (Z.to_nat x < length tb)%nat) by lia.
  assert (Hh1 : h1 = mkHeader x (table_freq tb (Z.to_nat x) + 1) None None /\
                0 < h_freq h1).
  { unfold h1, table_freq. destruct (lookup_lt_is_Some_2 tb _ Hk) as [oh Hoh].
    rewrite (list_lookup_total_correct _ _ _ Hoh). destruct oh as [h|]; [|split; [done|simpl; lia]].
    destruct (Hc _ _ Hoh) as [-> Hpos]. simpl in *. rewrite Z2Nat.id by lia.
    split; [done|lia]. }
  destruct (IH (<[Z.to_nat x := Some h1]> tb)) as (tb' & Hrun & Hlen' & Hc' & Hfr); auto.
  { by rewrite length_insert. }
  { intros k h Hkh. destruct (decide (k = Z.to_nat x)) as [->|Hne].
    - rewrite list_lookup_insert_eq in Hkh by done. inversion Hkh; subst h.
      destruct Hh1 as [Heq Hpos]. split; [|done]. rewrite Heq at 1. simpl.
      rewrite Z2Nat.id by lia. f_equal. rewrite Heq. done.
    - rewrite list_lookup_insert_ne in Hkh by done. by apply Hc. }
  exists tb'. split_and!; auto. intros k. rewrite Hfr, table_freq_insert by done.
  unfold cnt. cbn [List.filter]. destruct Hh1 as [Heq _].
  destruct (Nat.eqb_spec k (Z.to_nat x)) as [->|Hne].
  - rewrite Z2Nat.id by lia. rewrite Z.eqb_refl. cbn [length]. rewrite Heq. simpl. lia.
  - destruct (Z.eqb_spec (Z.of_nat k) x) as [<-|_]; [by rewrite Nat2Z.id in Hne|]. lia.
Qed.

Lemma count_items_table D :
  wf_db D ->
  exists tb, Hamm.count_items (concat D) (replicate CAP None) = Done tb /\ counts_table D tb.
Proof.
  intros Hwf.
  destruct (count_items_spec (concat D) (replicate CAP None)) as (tb & Hrun & Hlen & Hc & Hfr).
  { apply length_replicate. }
  { by apply wf_db_concat. }
  { intros k h Hk. apply lookup_replicate in Hk as [Hk _]. done. }
  exists tb. split; [done|]. split; [done|]. intros k Hk.
  specialize (Hfr k). rewrite cnt_concat in Hfr by done.
  assert (H0 : table_freq (replicate CAP None) k = 0).
  { unfold table_freq. by rewrite lookup_total_replicate_2. }
  rewrite H0, Z.add_0_l in Hfr. unfold table_freq in Hfr.
  destruct (lookup_lt_is_Some_2 tb k) as [oh Hoh]; [lia|].
  rewrite (list_lookup_total_correct _ _ _ Hoh) in Hfr. rewrite Hoh. f_equal.
  destruct oh as [h|].
  - destruct (Hc _ _ Hoh) as [Heq Hpos]. unfold header_of. rewrite <- Hfr.
    destruct (Z.ltb_spec 0 (h_freq h)); [|lia]. exact (f_equal Some Heq).
  - rewrite <- Hfr. done.
Qed.

Lemma build_tree_spec txs : forall (t : Tree) hm ps,
  wf_tree t -> wf_table t hm -> tree_counts t ps -> Forall (Forall (registered hm)) txs ->
  exists t' hm',
    Hamm.build_tree txs t hm = Done (t', hm') /\
    wf_tree t' /\ wf_table t' hm' /\ strip hm' = strip hm /\
    tree_counts t' (ps ++ paths_of txs).
Proof.
  induction txs as [|tx txs IH]; intros t hm ps Hwf Hwt Htc Hreg.
  { exists t, hm. simpl. rewrite app_nil_r. auto. }
  apply Forall_cons in Hreg as [Htx Hreg].
  destruct (insert_path_counts tx 1 t hm ps) as (t1 & hm1 & Hins & Hwf1 & Hwt1 & Hs1 & Htc1); auto.
  cbn [Hamm.build_tree]. rewrite Hins. rewrite (bind_Done_l _ _ _ eq_refl). cbv beta iota.
  destruct (IH t1 hm1 _ Hwf1 Hwt1 Htc1) as (t' & hm' & Hins' & Hwf' & Hwt' & Hs' & Htc').
  { eapply Forall_impl; [exact Hreg|]. intros l Hl.
    eapply Forall_impl; [exact Hl|]. intros h. by apply registered_strip. }
  exists t', hm'. split_and!; auto; [congruence|].
  by rewrite <- app_assoc in Htc'.
Qed.

(** ** Hamm.cpp: the reading loop *)

Lemma count_items_app l1 : forall l2 tb,
  Hamm.count_items (l1 ++ l2) tb = (tb1 ← Hamm.count_items l1 tb; Hamm.count_items l2 tb1).
Proof.
  induction l1 as [|x l1 IH]; intros l2 tb; [reflexivity|].
  cbn [app Hamm.count_items]. destruct (Hamm.count_item x tb) as [tb1| | |]; try reflexivity.
  rewrite !(bind_Done_l _ _ _ eq_refl). apply IH.
Qed.

Lemma read_line_count tokens : forall tb tr tb' tr',
  Hamm.read_line tokens tb tr = Done (tb', tr') ->
  exists items, tr' = tr ++ items /\ Hamm.count_items items tb = Done tb'.
Proof.
  induction tokens as [|item tokens IH]; intros tb tr tb' tr' Hrun.
  { inversion Hrun; subst. exists []. by rewrite app_nil_r. }
  cbn [Hamm.read_line] in Hrun.
  apply bind_Done in Hrun as (itemVal & _ & Hrun).
  apply bind_Done in Hrun as (tb1 & Htb1 & Hrun).
  destruct (IH _ _ _ _ Hrun) as (items & -> & Hitems).
  exists (itemVal :: items). split; [by rewrite <- app_assoc|].
  cbn [Hamm.count_items]. rewrite Htb1. exact Hitems.
Qed.

Lemma read_lines_count lines : forall tb txs tb' D,
  Hamm.read_lines lines tb txs = Done (tb', D) ->
  exists D', D = txs ++ D' /\ Hamm.count_items (concat D') tb = Done tb'.
Proof.
  induction lines as [|line lines IH]; intros tb txs tb' D Hrun.
  { inversion Hrun; subst. exists []. by rewrite app_nil_r. }
  cbn [Hamm.read_lines] in Hrun.
  apply bind_Done in Hrun as ([tb1 tr] & Hline & Hrun).
  destruct (read_line_count _ _ _ _ _ Hline) as (items & -> & Hitems).
  destruct (IH _ _ _ _ Hrun) as (D' & -> & HD').
  exists (items :: D'). split; [by rewrite <- app_assoc|].
  cbn [concat]. rewrite count_items_app, Hitems. exact HD'.
Qed.

(** [main] is [mine] on the transactions of the lines. *)
Lemma Hamm_main_mine fuel rate lines tb D :
  Hamm.read_lines lines (replicate CAP None) [] = Done (tb, D) ->
  Hamm.main fuel rate lines = (ms ← threshold rate (length D); Hamm.mine fuel ms D).
Proof.
  intros Hread. unfold Hamm.main, Hamm.mine. rewrite Hread.
  destruct (read_lines_count _ _ _ _ _ Hread) as (D' & HD & Hcount).
  rewrite app_nil_l in HD. subst D'. rewrite Hcount. reflexivity.
Qed.

(** ** Hamm.cpp: the first tree is a level for the database *)

Lemma remove_infrequent_elem ms l h :
  h ∈ remove_infrequent_items l ms <-> Some h ∈ l /\ ms <= h_freq h.
Proof.
  unfold remove_infrequent_items. rewrite list_elem_of_omap. split.
  - intros ([h'|] & Hin & Hf); [|done].
    destruct (Z.ltb_spec (h_freq h') ms); [done|]. inversion Hf; subst. done.
  - intros [Hin Hle]. exists (Some h). split; [done|].
    destruct (Z.ltb_spec (h_freq h) ms); [lia|done].
Qed.

Lemma remove_infrequent_sorted (R : Header -> Header -> Prop) ms l :
  StronglySorted R l -> StronglySorted R (remove_infrequent_items (map Some l) ms).
Proof.
  induction 1 as [|a l Hs IH Ha]; [constructor|].
  change (remove_infrequent_items (map Some (a :: l)) ms) with
    (match (if h_freq a <? ms then None else Some a) with
     | Some h => h :: remove_infrequent_items (map Some l) ms
     | None => remove_infrequent_items (map Some l) ms
     end).
  destruct (h_freq a <? ms); [exact IH|]. constructor; [exact IH|].
  apply Forall_forall. intros h [Hh _]%remove_infrequent_elem.
  apply list_elem_of_fmap in Hh as (h' & Heq & Hh'). inversion Heq; subst h'.
  rewrite Forall_forall in Ha. by apply Ha.
Qed.

Lemma table_items_NoDup (g : option Header -> option Header) tb :
  (forall (k : nat) h, tb !! k = Some (Some h) -> h_item h = Z.of_nat k) ->
  (forall oh h, g oh = Some h -> oh = Some h) ->
  NoDup (map h_item (omap g tb)).
Proof.
  intros Hk Hg. induction tb as [|oh tb IH] using rev_ind; [constructor|].
  rewrite omap_app, map_app. apply NoDup_app. split_and!.
  - apply IH. intros k h Hkh. apply Hk. by apply lookup_app_l_Some.
  - intros x Hx Hx'. apply list_elem_of_fmap in Hx as (h & -> & Hh).
    apply list_elem_of_omap in Hh as (oh1 & Hin & Hg1). apply Hg in Hg1. subst oh1.
    apply list_elem_of_lookup in Hin as [k Hkh].
    pose proof (lookup_lt_Some _ _ _ Hkh) as Hlt.
    pose proof (Hk k h (lookup_app_l_Some _ _ _ _ Hkh)) as Hik.
    apply list_elem_of_fmap in Hx' as (h' & Heq & Hh').
    apply list_elem_of_omap in Hh' as (oh2 & Hin2 & Hg2). apply Hg in Hg2. subst oh2.
    apply list_elem_of_singleton in Hin2. subst oh.
    assert (Hl : (tb ++ [Some h']) !! length tb = Some (Some h')).
    { by rewrite list_lookup_middle. }
    apply Hk in Hl. lia.
  - simpl. destruct (g oh); simpl; [|constructor].
    apply NoDup_singleton.
Qed.

Section HammTop.
Variable ms : Z.
Variable D : list (list Z).
Hypothesis Hms : 1 <= ms.
Hypothesis Hwf : wf_db D.
Variable tb : list (option Header).
Hypothesis Htb : counts_table D tb.

Lemma tb_lookup x :
  in_cap x = true ->
  tb !! Z.to_nat x = Some (if 0 <? support D [x] then Some (header_of D x) else None).
Proof.
  intros Hx%in_cap_spec. destruct Htb as [_ H].
  rewrite (H (Z.to_nat x)) by lia. by rewrite Z2Nat.id by lia.
Qed.

Lemma tb_Some (k : nat) h :
  tb !! k = Some (Some h) ->
  h = header_of D (Z.of_nat k) /\ 0 < support D [Z.of_nat k] /\ (k < CAP)%nat.
Proof.
  intros Hk. destruct Htb as [Hlen H]. pose proof (lookup_lt_Some _ _ _ Hk) as Hlt.
  rewrite H in Hk by lia.
  destruct (Z.ltb_spec 0 (support D [Z.of_nat k])); [|done].
  inversion Hk. split_and!; [done|done|lia].
Qed.

Lemma tb_header x : 0 < support D [x] -> tb !! Z.to_nat x = Some (Some (header_of D x)).
Proof.
  intros Hpos. destruct (db_item D Hwf x Hpos) as [_ Hc]. rewrite tb_lookup by done.
  by destruct (Z.ltb_spec 0 (support D [x])); [|lia].
Qed.

Lemma Hamm_table_of : table_of (omap id tb) tb.
Proof.
  constructor.
  - apply Htb.
  - intros k h Hk. destruct (tb_Some k h Hk) as (-> & _ & _). split_and!; try done.
    apply list_elem_of_omap. exists (Some (header_of D (Z.of_nat k))). split; [|done].
    by apply list_elem_of_lookup_2 in Hk.
  - intros h Hh. apply list_elem_of_omap in Hh as (oh & Hin & Heq). simpl in Heq. subst oh.
    apply list_elem_of_lookup in Hin as [k Hk].
    destruct (tb_Some k h Hk) as (-> & _ & Hlt). simpl. rewrite Nat2Z.id.
    split; [apply in_cap_spec; lia|done].
Qed.

Lemma Hamm_headers_elem h :
  h ∈ remove_infrequent_items (sort Hamm.cmp_main tb) ms <->
  exists x, h = header_of D x /\ ms <= support D [x].
Proof.
  rewrite remove_infrequent_elem, (sort_perm Hamm.cmp_main tb). split.
  - intros [Hin Hle]. apply list_elem_of_lookup in Hin as [k Hk].
    destruct (tb_Some k h Hk) as (-> & _ & _). eauto.
  - intros (x & -> & Hle). split; [|done].
    eapply list_elem_of_lookup_2. apply tb_header. lia.
Qed.

Lemma Hamm_headers_NoDup : NoDup (map h_item (remove_infrequent_items (sort Hamm.cmp_main tb) ms)).
Proof.
  unfold remove_infrequent_items. rewrite (sort_perm Hamm.cmp_main tb).
  apply table_items_NoDup.
  - intros k h Hk. by destruct (tb_Some k h Hk) as (-> & _ & _).
  - intros [h'|] h Hf; [|done]. destruct (h_freq h' <? ms); [done|]. by inversion Hf.
Qed.

Lemma Hamm_transaction trans :
  trans ∈ D ->
  omap (fun x => tb !!! Z.to_nat x) trans = map (header_of D) trans.
Proof.
  intros Ht.
  assert (Hall : forall x, x ∈ trans -> 0 < support D [x]).
  { intros x Hx. rewrite <- cnt_concat by done. apply cnt_pos.
    apply list_elem_of_In, in_concat. exists trans. by rewrite <- !list_elem_of_In. }
  clear Ht. induction trans as [|x trans IH]; [done|].
  assert (Hx : x ∈ x :: trans) by left.
  pose proof (tb_header x (Hall x Hx)) as Hl.
  change (omap (fun x => tb !!! Z.to_nat x) (x :: trans)) with
    (match tb !!! Z.to_nat x with
     | Some h => h :: omap (fun x => tb !!! Z.to_nat x) trans
     | None => omap (fun x => tb !!! Z.to_nat x) trans
     end).
  rewrite (list_lookup_total_correct _ _ _ Hl). cbn [map]. f_equal. apply IH. intros y Hy. apply Hall. by right.
Qed.

Lemma pruned_elem trans h :
  h ∈ remove_infrequent_items (map Some (sort cmp_path (map (header_of D) trans))) ms <->
  exists x, x ∈ trans /\ h = header_of D x /\ ms <= support D [x].
Proof.
  rewrite remove_infrequent_elem, list_elem_of_fmap. split.
  - intros [(h' & Heq & Hin) Hle]. inversion Heq; subst h'.
    rewrite (sort_perm cmp_path) in Hin. apply list_elem_of_fmap in Hin as (x & -> & Hx).
    eauto.
  - intros (x & Hx & -> & Hle). split; [|done]. exists (header_of D x). split; [done|].
    rewrite (sort_perm cmp_path). apply list_elem_of_fmap. eauto.
Qed.

Lemma pruned_items trans y :
  y ∈ map h_item
        (remove_infrequent_items (map Some (sort cmp_path (map (header_of D) trans))) ms) <->
  y ∈ trans /\ ms <= support D [y].
Proof.
  rewrite list_elem_of_fmap. split.
  - intros (h & -> & (x & Hx & -> & Hle)%pruned_elem). done.
  - intros [Hy Hle]. exists (header_of D y). split; [done|]. apply pruned_elem. eauto.
Qed.

Lemma Hamm_scope S :
  (forall y, y ∈ S -> ms <= support D [y]) ->
  wsupp (paths_of (pruned ms D)) S = support D S.
Proof.
  intros HS. rewrite support_wsupp. unfold paths_of, pruned. rewrite map_map.
  generalize D at 2 3. intros D'. induction D' as [|trans D' IH]; [done|].
  cbn [map]. rewrite !wsupp_cons, IH. f_equal.
  match goal with |- (if ?a then _ else _) = (if ?b then _ else _) =>
    assert (a = b) as ->; [|done] end.
  apply eq_true_iff_eq. rewrite !incl_b_spec. split; intros H x Hx.
  - specialize (H x Hx). by apply pruned_items in H as [? _].
  - apply pruned_items. auto.
Qed.

Lemma pruned_sorted trans :
  NoDup trans ->
  StronglySorted (fun a b => cmp_path a b = true)
    (remove_infrequent_items (map Some (sort cmp_path (map (header_of D) trans))) ms).
Proof.
  intros Hnd. apply remove_infrequent_sorted.
  apply (sort_strict cmp_path (fun h => h = header_of D (h_item h))).
  - intros a b c _ _ _. apply cmp_path_trans.
  - intros a b _ _. apply cmp_path_asym.
  - intros a b Ha Hb H1 H2. destruct (cmp_path_total a b H1 H2) as [Hi _].
    rewrite Ha, Hb, Hi. done.
  - apply Forall_forall. intros h Hh. by apply list_elem_of_fmap in Hh as (x & -> & _).
  - apply NoDup_fmap_2; [|done]. intros x y Hxy. by inversion Hxy.
Qed.

Lemma Hamm_first_pass_level :
  exists (t : Tree) hs ps,
    Hamm_first_pass ms tb D = Done (t, hs) /\
    level ms ps t hs /\
    (forall y, ms <= support D [y] -> y ∈ map h_item hs) /\
    (forall S, S <> [] -> (forall y, y ∈ S -> y ∈ map h_item hs) ->
       wsupp ps S = support D S).
Proof.
  pose (headers := remove_infrequent_items (sort Hamm.cmp_main tb) ms).
  destruct (build_tree_spec (pruned ms D) [new_Node] tb [] wf_tree_init
              (wf_table_init _ _ Hamm_table_of) tree_counts_init)
    as (t & hm & Hbuild & Hwft & Hwt & Hs & Htc).
  { apply Forall_forall. intros tx Htx. apply list_elem_of_fmap in Htx as (trans & -> & Ht).
    apply Forall_forall. intros h (x & Hx & -> & Hle)%pruned_elem.
    destruct (db_item D Hwf x) as [_ Hc]; [lia|]. split; [done|].
    exists (header_of D x). apply tb_header. lia. }
  rewrite app_nil_l in Htc.
  assert (Hrel : forall h : Header, h ∈ headers ->
            exists h', match hm !!! Z.to_nat (h_item h) with Some h' => h' | None => h end = h' /\
                       hm !! Z.to_nat (h_item h) = Some (Some h') /\
                       h_item h' = h_item h /\ h_freq h' = h_freq h).
  { intros h Hh. apply (reload_spec t (omap id tb) tb hm h Hamm_table_of Hs).
    apply Hamm_headers_elem in Hh as (x & -> & Hle).
    apply list_elem_of_omap. exists (Some (header_of D x)). split; [|done].
    eapply list_elem_of_lookup_2. apply tb_header. lia. }
  assert (Hri : map h_item (reload hm headers) = map h_item headers).
  { unfold reload. rewrite map_map. apply map_ext_in. intros h Hh%list_elem_of_In.
    destruct (Hrel h Hh) as (h' & -> & _ & Hi & _). done. }
  assert (Hitems : forall y : Z, y ∈ map h_item headers <-> ms <= support D [y]).
  { intros y. rewrite list_elem_of_fmap. split.
    - intros (h & -> & (x & -> & Hle)%Hamm_headers_elem). done.
    - intros Hle. exists (header_of D y). split; [done|]. apply Hamm_headers_elem. eauto. }
  exists t, (reload hm headers), (paths_of (pruned ms D)).
  split_and!.
  - unfold Hamm_first_pass. cbv beta zeta.
    assert (map (fun trans => remove_infrequent_items
                   (map Some (sort cmp_path (omap (fun x => tb !!! Z.to_nat x) trans))) ms) D
            = pruned ms D) as ->.
    { unfold pruned. apply map_ext_in. intros trans Ht%list_elem_of_In.
      by rewrite Hamm_transaction. }
    rewrite Hbuild. rewrite (bind_Done_l _ _ _ eq_refl). reflexivity.
  - constructor; auto.
    + rewrite Hri. apply Hamm_headers_NoDup.
    + intros h' Hh'. unfold reload in Hh'. apply list_elem_of_fmap in Hh' as (h & Heq & Hh).
      destruct (Hrel h Hh) as (h'' & E & Hl & Hi & Hf).
      rewrite E in Heq. subst h''.
      apply Hamm_headers_elem in Hh as (x & -> & Hle).
      destruct (db_item D Hwf x) as [_ Hc]; [lia|].
      destruct (wt_chain _ _ Hwt _ _ Hl) as (_ & Hch & _).
      apply in_cap_spec in Hc as Hc'. simpl in *. rewrite Z2Nat.id in Hch by lia.
      rewrite Hi, Hf. split_and!; [done|done| |done].
      symmetry. apply Hamm_scope. by intros y ->%list_elem_of_singleton.
    + intros q c Hq. unfold paths_of, pruned in Hq. rewrite map_map in Hq.
      apply list_elem_of_fmap in Hq as (trans & Heq & Ht). inversion Heq; subst q c.
      unfold wf_db in Hwf. rewrite Forall_forall in Hwf. destruct (Hwf trans Ht) as [Hnd _].
      split_and!; [done| |].
      * apply (StronglySorted_map h_item (fun a b => cmp_path a b = true));
          [|by apply pruned_sorted].
        intros a b (x & _ & -> & Hx)%pruned_elem (y & _ & -> & Hy)%pruned_elem Hab.
        unfold lt_fr. simpl.
        rewrite !Hamm_scope by (by intros ? ->%list_elem_of_singleton). exact Hab.
      * intros x [_ Hx]%pruned_items. rewrite Hri. by apply Hitems.
  - intros y Hle. rewrite Hri. by apply Hitems.
  - intros S _ HS. apply Hamm_scope. intros y Hy. apply Hitems. rewrite <- Hri. auto.
Qed.

Lemma Hamm_mine_level :
  Hamm.count_items (concat D) (replicate CAP None) = Done tb ->
  exists (t : Tree) hs ps,
    (forall fuel, Hamm.mine fuel ms D = Hamm.FP_Growth fuel t hs [] ms) /\
    level ms ps t hs /\
    (forall y, ms <= support D [y] -> y ∈ map h_item hs) /\
    (forall S, S <> [] -> (forall y, y ∈ S -> y ∈ map h_item hs) ->
       wsupp ps S = support D S).
Proof.
  intros Hrun. destruct Hamm_first_pass_level as (t & hs & ps & Hfp & Hlv & Hk & Hsc).
  exists t, hs, ps. split_and!; auto.
  intros fuel. unfold Hamm.mine. rewrite Hrun.
  rewrite (bind_Done_l _ _ _ eq_refl). unfold Hamm.mine_from.
  unfold Hamm_first_pass in Hfp. cbv beta zeta in *.
  destruct (Hamm.build_tree _ [new_Node] tb) as [[root tb']| | |]; try done.
  rewrite (bind_Done_l _ _ _ eq_refl) in Hfp. cbv beta iota in Hfp.
  rewrite (bind_Done_l _ _ _ eq_refl). cbv beta iota. by inversion Hfp.
Qed.
End HammTop.

(** ** Both programs on a database of item sets *)

Lemma in_cap_length (q : list Z) :
  NoDup q -> Forall (fun x => in_cap x = true) q -> (length q <= CAP)%nat.
Proof.
  intros Hnd Hc.
  pose proof (NoDup_incl_len q (map Z.of_nat (seq 0 CAP)) Hnd) as H.
  rewrite length_map, length_seq in H. apply H.
  intros y Hy. rewrite Forall_forall in Hc. apply Hc, in_cap_spec in Hy.
  apply list_elem_of_fmap. exists (Z.to_nat y). split; [lia|].
  apply list_elem_of_In, in_seq. lia.
Qed.

Lemma level_depth ms ps (t : Tree) hs :
  level ms ps t hs -> Forall (fun qc => (length (fst qc) <= CAP)%nat) ps.
Proof.
  intros Hlv. apply Forall_forall. intros [q c] Hq. simpl.
  destruct (lv_paths _ _ _ _ Hlv q c Hq) as (_ & Hs & Hin).
  apply in_cap_length.
  - eapply StronglySorted_NoDup; [|exact Hs]. intros x. simpl. by rewrite lt_fr_irrefl.
  - apply Forall_forall. intros x Hx. apply Hin, list_elem_of_fmap in Hx as (h & -> & Hh).
    by destruct (lv_header _ _ _ _ Hlv h Hh) as (? & _).
Qed.

Lemma Forall_length_le (ps : list (list Z * Z)) (n m : nat) :
  (n <= m)%nat -> Forall (fun qc => (length (fst qc) <= n)%nat) ps ->
  Forall (fun qc => (length (fst qc) <= m)%nat) ps.
Proof. intros Hnm H. eapply Forall_impl; [exact H|]. simpl. intros. lia. Qed.

Lemma Hamm_mine_total D ms fuel :
  wf_db D -> 1 <= ms -> (CAP < fuel)%nat -> exists out, Hamm.mine fuel ms D = Done out.
Proof.
  intros Hwf Hms Hfuel. destruct (count_items_table D Hwf) as (tb & Hrun & Htb).
  destruct (Hamm_mine_level ms D Hms Hwf tb Htb Hrun) as (t & hs & ps & Heq & Hlv & _).
  rewrite Heq. destruct fuel as [|n]; [lia|].
  apply (Hamm_FP_total ms Hms n ps t hs []); [done|].
  apply (Forall_length_le ps CAP n); [lia|]. by apply (level_depth ms ps t hs).
Qed.

Lemma Hamm_mine_char D ms fuel out :
  wf_db D -> 1 <= ms -> Hamm.mine fuel ms D = Done out ->
  forall e, e ∈ out <-> frequent ms D e.
Proof.
  intros Hwf Hms Hout. destruct (count_items_table D Hwf) as (tb & Hrun & Htb).
  destruct (Hamm_mine_level ms D Hms Hwf tb Htb Hrun) as (t & hs & ps & Heq & Hlv & Hk & Hsc).
  rewrite Heq in Hout. apply (top_frequent ms D ps t hs out Hms Hlv Hk Hsc).
  by apply (Hamm_FP_char ms Hms fuel ps t hs [] out).
Qed.

Lemma Opt_mine_total D ms fuel :
  wf_db D -> 1 <= ms -> (CAP < fuel)%nat -> exists out, Opt.mine fuel ms D = Done out.
Proof.
  intros Hwf Hms Hfuel.
  destruct (Opt_mine_level ms D Hms Hwf) as (t & hs & ps & Heq & Hlv & _).
  rewrite Heq. destruct fuel as [|n]; [lia|].
  apply (Opt_FP_total ms Hms n ps t hs []); [done|].
  apply (Forall_length_le ps CAP n); [lia|]. by apply (level_depth ms ps t hs).
Qed.

Lemma Opt_mine_char D ms fuel out :
  wf_db D -> 1 <= ms -> Opt.mine fuel ms D = Done out ->
  forall e, e ∈ out <-> frequent ms D e.
Proof.
  intros Hwf Hms Hout.
  destruct (Opt_mine_level ms D Hms Hwf) as (t & hs & ps & Heq & Hlv & Hk & Hsc).
  rewrite Heq in Hout. apply (top_frequent ms D ps t hs out Hms Hlv Hk Hsc).
  by apply (Opt_FP_char ms Hms fuel ps t hs [] out).
Qed.

Lemma frequent_support ms D I s :
  frequent ms D (I, s) -> s = support D I /\ ms <= s.
Proof.
  intros (S & _ & _ & Hs & Hle & HI). simpl in *. subst I. split; [|done].
  rewrite Hs. apply support_perm. symmetry. apply sort_perm.
Qed.

(** ** Hamm.cpp writes no itemset twice *)

Lemma for_each_NoDup {A B K} (key : B -> K) (body : A -> outcome (list B)) l out :
  NoDup l -> for_each body l = Done out ->
  (forall x o, x ∈ l -> body x = Done o -> NoDup (map key o)) ->
  (forall x y o o' e e', x ∈ l -> y ∈ l -> x <> y ->
     body x = Done o -> body y = Done o' -> e ∈ o -> e' ∈ o' -> key e <> key e') ->
  NoDup (map key out).
Proof.
  revert out. induction l as [|a l IH]; intros out Hnd Hrun Hone Htwo.
  { inversion Hrun. constructor. }
  apply NoDup_cons in Hnd as [Ha Hnd]. cbn [for_each] in Hrun.
  apply bind_Done in Hrun as (o & Ho & Hrun). apply bind_Done in Hrun as (os & Hos & Hrun).
  inversion Hrun; subst out. rewrite map_app. apply NoDup_app. split_and!.
  - apply (Hone a o); [by left|done].
  - intros k Hk Hk'. apply list_elem_of_fmap in Hk as (e & -> & He).
    apply list_elem_of_fmap in Hk' as (e' & Heq & He').
    apply (for_each_Done _ _ _ Hos) in He' as (y & o' & Hy & Hbody & He').
    apply (Htwo a y o o' e e'); auto; [by left|by right|].
    intros ->. done.
  - apply IH; auto.
    + intros x o' Hx. apply Hone. by right.
    + intros x y o1 o2 e e' Hx Hy. apply Htwo; by right.
Qed.

Lemma NoDup_map_eq {A B} (f : A -> B) l x y :
  NoDup (map f l) -> x ∈ l -> y ∈ l -> f x = f y -> x = y.
Proof.
  induction l as [|a l IH]; [by intros _ ?%elem_of_nil|].
  cbn [map]. intros [Ha Hnd]%NoDup_cons Hx Hy Heq.
  apply elem_of_cons in Hx as [->|Hx]; apply elem_of_cons in Hy as [->|Hy]; auto.
  - exfalso. apply Ha. rewrite Heq. apply list_elem_of_fmap. eauto.
  - exfalso. apply Ha. rewrite <- Heq. apply list_elem_of_fmap. eauto.
Qed.

Lemma sort_length (l : list Z) : length (sort Z.ltb l) = length l.
Proof. apply Permutation_length, sort_perm. Qed.

Lemma mined_at_apart ms ps x y prefix e e' :
  x <> y -> mined_at ms ps x prefix e -> mined_at ms ps y prefix e' -> fst e <> fst e'.
Proof.
  intros Hxy (S & Hnd & Hmax & _ & _ & HI) (S' & Hnd' & Hmax' & _ & _ & HI') Heq.
  rewrite HI, HI' in Heq.
  assert (Hp : Permutation (x :: S) (y :: S')).
  { apply (Permutation_app_inv_l prefix).
    rewrite <- (sort_perm Z.ltb (prefix ++ x :: S)), Heq. apply sort_perm. }
  assert (Hx : x ∈ S').
  { assert (H : x ∈ y :: S') by (rewrite <- Hp; left).
    apply elem_of_cons in H as [?|?]; [done|done]. }
  assert (Hy : y ∈ S).
  { assert (H : y ∈ x :: S) by (rewrite Hp; left).
    apply elem_of_cons in H as [?|?]; [congruence|done]. }
  pose proof (Hmax y Hy) as H1. pose proof (Hmax' x Hx) as H2.
  apply lt_fr_asym in H1. congruence.
Qed.

Lemma mined_longer ms ps prefix e : mined ms ps prefix e -> (length prefix < length (fst e))%nat.
Proof.
  intros (S & Hne & _ & _ & _ & ->). rewrite sort_length, length_app.
  destruct S; [done|simpl; lia].
Qed.

Lemma Hamm_FP_NoDup ms : 1 <= ms -> forall fuel ps (t : Tree) hs prefix out,
  level ms ps t hs -> Hamm.FP_Growth fuel t hs prefix ms = Done out ->
  NoDup (map fst out).
Proof.
  intros Hms. induction fuel as [|k IH]; intros ps t hs prefix out Hlv Hrun; [done|].
  rewrite Hamm_FP_Growth_S in Hrun.
  assert (Hrec : forall ps' (t' : Tree) hs' prefix' out', level ms ps' t' hs' ->
            Hamm.FP_Growth k t' hs' prefix' ms = Done out' ->
            forall e, e ∈ out' <-> mined ms ps' prefix' e).
  { intros ps' t' hs' prefix' out'. apply (Hamm_FP_char ms Hms k). }
  eapply (for_each_NoDup fst); [|exact Hrun| |].
  - eapply NoDup_fmap_1. apply (lv_nodup _ _ _ _ Hlv).
  - intros h o Hh Hbody. rewrite (Hamm_body_unfold ms ps t hs Hlv h Hh) in Hbody.
    destruct (make_headers _ ms) as [|h1 l1] eqn:E.
    + inversion Hbody. simpl. apply NoDup_singleton.
    + rewrite <- E in Hbody.
      destruct (Hamm_cond_level ms ps t hs Hms Hlv h Hh) as (t' & hm' & Hins & Hlv' & _).
      rewrite Hins in Hbody. rewrite (bind_Done_l _ _ _ eq_refl) in Hbody.
      cbv beta iota in Hbody. apply bind_Done in Hbody as (sub & Hsub & Hbody).
      inversion Hbody; subst o. cbn [map fst]. apply NoDup_cons. split.
      * intros Hin. apply list_elem_of_fmap in Hin as (e' & Heq & He').
        apply (Hrec _ _ _ _ _ Hlv' Hsub), mined_longer in He'.
        rewrite <- Heq in He'. lia.
      * by apply (IH _ _ _ _ _ Hlv' Hsub).
  - intros h h' o o' e e' Hh Hh' Hne Ho Ho' He He'.
    apply (Hamm_body_char ms ps t hs Hms Hlv h Hh _ prefix o Hrec Ho) in He.
    apply (Hamm_body_char ms ps t hs Hms Hlv h' Hh' _ prefix o' Hrec Ho') in He'.
    apply (mined_at_apart ms ps (h_item h) (h_item h') prefix); auto.
    intros Heq. apply Hne.
    by apply (NoDup_map_eq h_item hs h h' (lv_nodup _ _ _ _ Hlv)).
Qed.

(** ** A header with one node, within a level and within a run *)

Lemma level_single_exact ms ps (t : Tree) hs h n par IL S :
  level ms ps t hs -> h ∈ hs -> Opt.is_single_node t h = true ->
  h_next h = Some n -> n_parent (deref t n) = Some par ->
  Opt.collect_IL (length t) t par [] = Done IL ->
  (forall y, y ∈ S -> y ∈ IL) ->
  wsupp ps (h_item h :: S) = h_freq h /\ (forall y, y ∈ S -> y ∈ map h_item hs).
Proof.
  intros Hlv Hh Hsingle Hnext Hpar HIL HS.
  pose proof (lv_wf _ _ _ _ Hlv) as Hwf.
  destruct (lv_header _ _ _ _ Hlv h Hh) as (Hc & Hch & _).
  apply (is_single_node_spec t h _ Hch) in Hsingle as [n' Hn'].
  rewrite Hn', Hnext in Hch. destruct Hch as [Heq _]. inversion Heq; subst n'.
  assert (Hin : n ∈ nodes_with (h_item h) t) by (rewrite Hn'; left).
  apply nodes_with_bound in Hin as [Hn Hitem].
  destruct (parent_path_eq t n Hwf Hn) as (j & Hj & Hlt & Hpp & _).
  rewrite Hpar in Hj. inversion Hj; subst j.
  rewrite collect_IL_spec in HIL by (auto; lia). inversion HIL; subst IL.
  rewrite ?app_nil_l in HS. rewrite <- Hpp in HS.
  assert (Hproj : proj t (h_item h) = [(parent_path t n, n_freq (deref t n))]).
  { unfold proj. by rewrite Hn'. }
  assert (Hbefore : forall y, y ∈ S ->
            lt_fr (fun z => wsupp ps [z]) y (h_item h) = true /\ y ∈ map h_item hs).
  { intros y Hy.
    destruct (level_proj_before _ _ _ _ Hlv (h_item h) (parent_path t n)
                (n_freq (deref t n)) y) as (? & ? & _); auto.
    rewrite Hproj. left. }
  split; [|intros y Hy; by apply Hbefore].
  rewrite <- (level_proj_supp _ _ _ _ Hlv) by (intros y Hy; by apply Hbefore).
  rewrite (level_header_freq _ _ _ _ Hlv h Hh), Hproj, !wsupp_cons, !wsupp_nil.
  assert (incl_b S (parent_path t n) = true) as -> by (by apply incl_b_spec).
  by rewrite incl_b_nil.
Qed.

(** Every call of [FP_Growth] works on a level whose supports are those of
    the database, for the itemsets that extend the prefix. *)
Lemma Opt_reach_level ms D (t : Tree) hs prefix :
  wf_db D -> 1 <= ms -> Opt_reach ms D t hs prefix ->
  exists ps, level ms ps t hs /\
    forall S, S <> [] -> (forall y, y ∈ S -> y ∈ map h_item hs) ->
      wsupp ps S = support D (prefix ++ S).
Proof.
  intros Hwf Hms Hreach.
  induction Hreach as [t hs Hfp|t hs prefix h cc cps newRoot hs' Hreach IH Hh Hsingle
                                Hwalk Hnh Hct].
  - destruct (Opt_first_pass_level ms D Hms Hwf) as (t' & hs0 & ps & Hfp' & Hlv & _ & Hsc).
    rewrite Hfp in Hfp'. inversion Hfp'; subst t' hs0. exists ps. split; [done|].
    intros S Hne HS. by apply Hsc.
  - destruct IH as (ps & Hlv & Hsc).
    destruct (lv_header _ _ _ _ Hlv h Hh) as (Hc & Hch & _).
    pose proof (lv_wf _ _ _ _ Hlv) as Hwft.
    rewrite (Opt_walk_chain_spec t (nodes_with (h_item h) t)) in Hwalk;
      [|done|done|intros i Hi; by apply nodes_with_bound in Hi as [? _]
       |apply nodes_with_length|apply length_replicate].
    cbv zeta in Hwalk. rewrite app_nil_l in Hwalk.
    fold (proj t (h_item h)) in Hwalk. fold (base_Opt t (h_item h)) in Hwalk.
    assert (Ecc : cc = add_base (proj t (h_item h)) (replicate CAP 0)) by congruence.
    assert (Ecps : cps = base_Opt t (h_item h)) by congruence.
    subst cc cps. clear Hwalk.
    remember (make_headers (add_base (proj t (h_item h)) (replicate CAP 0)) ms) as nh eqn:Enh.
    destruct (register_table (sort cmp_headers nh)) as (hm0 & Hreg & Htab).
    { rewrite (sort_perm cmp_headers nh), Enh. apply make_headers_NoDup. }
    { apply Forall_forall. intros h' Hh'. rewrite (sort_perm cmp_headers nh), Enh in Hh'.
      apply make_headers_elem in Hh' as (i & Hi & _ & ->). simpl.
      split; [apply in_cap_spec; lia|done]. }
    assert (Hx : h_item h ∈ map h_item hs) by (apply list_elem_of_fmap; eauto).
    assert (Hanc : forall y, y ∈ map h_item nh ->
              lt_fr (fun z => wsupp ps [z]) y (h_item h) = true /\ y ∈ map h_item hs).
    { intros y Hy. rewrite Enh in Hy.
      by destruct (cond_header_anc ms ps t hs Hms Hlv (h_item h) y Hy) as (? & ? & _). }
    pose proof Htab as Htab'. rewrite Enh in Htab'.
    destruct (cond_level ms ps t hs Hms Hlv (h_item h) Hx (base_Opt t (h_item h)) hm0 Htab')
      as (t' & hm' & Hins & Hlv' & Hitems & Hscope & _).
    { apply (base_Opt_wf ms ps t hs Hlv). }
    { intros S HS _. by apply base_Opt_supp. }
    { apply base_Opt_anc. }
    rewrite <- Enh in Hlv', Hitems, Hscope.
    unfold Opt.construct_tree in Hct. rewrite Hreg in Hct.
    rewrite (bind_Done_l _ _ _ eq_refl), Hins in Hct.
    rewrite (bind_Done_l _ _ _ eq_refl) in Hct.
    assert (Et : newRoot = t') by congruence.
    assert (Ehs : hs' = reload hm' (sort cmp_headers nh)) by congruence.
    subst newRoot hs'. clear Hct.
    exists (ps_of hm0 (base_Opt t (h_item h))). split; [done|].
    intros S Hne HS. rewrite Hitems in HS.
    assert (HS' : forall y, y ∈ S -> y ∈ map h_item nh).
    { intros y Hy. rewrite <- (sort_perm cmp_headers nh). by apply HS. }
    rewrite Hscope by done.
    rewrite (level_proj_supp _ _ _ _ Hlv) by (intros y Hy; by apply Hanc, HS').
    rewrite Hsc; [by rewrite <- app_assoc|done|].
    intros y [->|Hy]%elem_of_cons; [done|]. by apply Hanc, HS'.
Qed.

(** ** part_001 writes the pair of a header with one node twice *)

Lemma hamm_search_first (IL : list Z) (f : Z) (pat : list Z) (ms : Z) :
  ms <= f -> pat <> [] ->
  exists rest, Opt.hamm_search_optimized IL f pat ms = (sort Z.ltb pat, f) :: rest.
Proof.
  intros Hle Hpat. induction IL as [|x IL IH]; cbn [Opt.hamm_search_optimized].
  - exists []. by destruct pat.
  - destruct (Z.leb_spec ms f); [|lia]. destruct IH as [rest ->].
    eexists. reflexivity.
Qed.

Lemma min_lt_fr fr (S : list Z) :
  S <> [] -> NoDup S ->
  exists x, x ∈ S /\ forall y, y ∈ S -> y <> x -> lt_fr fr x y = true.
Proof.
  induction S as [|a S IH]; intros Hne Hnd; [done|].
  apply NoDup_cons in Hnd as [Ha Hnd].
  destruct S as [|b S].
  { exists a. split; [by left|]. intros y ->%list_elem_of_singleton. done. }
  destruct (IH ltac:(done) Hnd) as (x & Hx & Hmin).
  destruct (lt_fr fr a x) eqn:E.
  - exists a. split; [by left|]. intros y [->|Hy]%elem_of_cons Hya; [done|].
    destruct (decide (y = x)) as [->|Hyx]; [done|].
    apply (lt_fr_trans fr a x y); auto.
  - exists x. split; [by right|]. intros y [->|Hy]%elem_of_cons Hyx; [|auto].
    destruct (lt_fr fr x a) eqn:E'; [done|].
    exfalso. apply Hyx. by apply (lt_fr_total fr).
Qed.

Lemma for_each_segment {A B} (body : A -> outcome (list B)) l out x o :
  for_each body l = Done out -> x ∈ l -> body x = Done o ->
  exists l1 l2, out = l1 ++ o ++ l2.
Proof.
  revert out. induction l as [|a l IH]; intros out Hrun Hx Hbody;
    [by apply elem_of_nil in Hx|].
  cbn [for_each] in Hrun.
  apply bind_Done in Hrun as (o' & Ho' & Hrun). apply bind_Done in Hrun as (os & Hos & Hrun).
  inversion Hrun; subst out.
  apply elem_of_cons in Hx as [->|Hx].
  - rewrite Hbody in Ho'. inversion Ho'; subst o'. exists [], os. done.
  - destruct (IH os Hos Hx Hbody) as (l1 & l2 & ->).
    exists (o' ++ l1), l2. by rewrite <- app_assoc.
Qed.

(** The first item of the order of a level has one node, a child of the
    root. *)
Lemma level_first_single ms ps (t : Tree) hs h0 :
  1 <= ms -> level ms ps t hs -> h0 ∈ hs ->
  (forall y, y ∈ map h_item hs -> y <> h_item h0 ->
     lt_fr (fun z => wsupp ps [z]) (h_item h0) y = true) ->
  exists n, nodes_with (h_item h0) t = [n].
Proof.
  intros Hms Hlv Hh Hmin.
  pose proof (lv_wf _ _ _ _ Hlv) as Hwf.
  assert (Hpath : forall i, i ∈ nodes_with (h_item h0) t ->
            (i < length t)%nat /\ npath t i = [h_item h0]).
  { intros i Hi. pose proof Hi as Hi'. apply nodes_with_bound in Hi' as [Hb Hitem].
    split; [lia|].
    destruct (level_node ms ps t hs Hlv i Hb) as (_ & _ & _ & _ & _ & _ & ->).
    rewrite Hitem. destruct (parent_path t i) as [|y p] eqn:E; [done|]. exfalso.
    destruct (level_proj_before ms ps t hs Hlv (h_item h0) (parent_path t i)
                (n_freq (deref t i)) y) as (Hlt & Hin & Hne).
    - unfold proj. apply list_elem_of_fmap. eauto.
    - rewrite E. left.
    - apply lt_fr_asym in Hlt. rewrite (Hmin y Hin Hne) in Hlt. done. }
  destruct (nodes_with (h_item h0) t) as [|n [|m l]] eqn:En.
  - exfalso. destruct (lv_header _ _ _ _ Hlv h0 Hh) as (_ & _ & _ & Hle).
    rewrite (level_header_freq ms ps t hs Hlv h0 Hh) in Hle.
    unfold proj in Hle. rewrite En in Hle. cbn in Hle. lia.
  - eauto.
  - exfalso. pose proof (nodes_with_NoDup (h_item h0) t) as Hnd. rewrite En in Hnd.
    destruct (Hpath n) as [Hn Hpn]; [left|].
    destruct (Hpath m) as [Hm Hpm]; [right; left|].
    assert (n = m) by (apply (npath_inj t); auto; congruence). subst m.
    apply NoDup_cons in Hnd as [Hnotin _]. apply Hnotin. left.
Qed.

Lemma Opt_level_repeats ms ps (t : Tree) hs prefix k (out : output) :
  1 <= ms -> level ms ps t hs -> hs <> [] ->
  Opt.FP_Growth (S k) t hs prefix ms = Done out ->
  exists e l1 l2, out = l1 ++ e :: e :: l2.
Proof.
  intros Hms Hlv Hne Hrun. rewrite Opt_FP_Growth_S in Hrun.
  destruct (min_lt_fr (fun z => wsupp ps [z]) (map h_item hs)) as (x & Hx & Hmin).
  { by destruct hs. }
  { apply Hlv. }
  apply list_elem_of_fmap in Hx as (h0 & -> & Hh).
  destruct (level_first_single ms ps t hs h0 Hms Hlv Hh Hmin) as [n Hn].
  destruct (for_each_Done_each _ _ _ h0 Hrun Hh) as [o Ho].
  pose proof Ho as Ho'.
  rewrite (Opt_body_single ms ps t hs Hlv h0 Hh _ prefix n Hn) in Ho'.
  destruct (lv_header _ _ _ _ Hlv h0 Hh) as (_ & _ & _ & Hle).
  destruct (hamm_search_first (parent_path t n) (h_freq h0) (prefix ++ [h_item h0]) ms Hle)
    as [rest Hrest]; [by destruct prefix|].
  rewrite Hrest in Ho'. inversion Ho'; subst o.
  destruct (for_each_segment _ _ _ h0 _ Hrun Hh Ho) as (l1 & l2 & ->).
  exists (sort Z.ltb (prefix ++ [h_item h0]), h_freq h0), l1, (rest ++ l2). done.
Qed.

Lemma Opt_mine_repeats D ms fuel (out : output) :
  wf_db D -> 1 <= ms -> Opt.mine fuel ms D = Done out -> out <> [] ->
  exists e l1 l2, out = l1 ++ e :: e :: l2.
Proof.
  intros Hwf Hms Hrun Hout.
  destruct (Opt_mine_level ms D Hms Hwf) as (t & hs & ps & Heq & Hlv & _).
  rewrite Heq in Hrun. destruct fuel as [|k]; [done|].
  apply (Opt_level_repeats ms ps t hs [] k out Hms Hlv); [|done].
  intros ->. cbn in Hrun. inversion Hrun. by subst out.
Qed.

(** * The statements of the specification *)

(** ** Soundness, completeness and the comparison of the two miners *)

(** C1. Soundness of both miners.  On a database whose transactions are
    sets of items below the capacity, with a threshold of at least one,
    every pair [(I, s)] written by Hamm.cpp or by part_001 carries the number
    [s] of transactions that include [I], and [s] reaches the threshold. *)
Theorem mined_pairs_sound (D : list (list Z)) (ms : Z) (fuel : nat) (out : output)
    (I : list Z) (s : Z) :
  wf_db D -> 1 <= ms ->
  Hamm.mine fuel ms D = Done out \/ Opt.mine fuel ms D = Done out ->
  (I, s) ∈ out ->
  s = support D I /\ ms <= s.
Proof.
  intros Hwf Hms [Hrun|Hrun] Hin.
  - apply (frequent_support ms D I s), (Hamm_mine_char D ms fuel out Hwf Hms Hrun), Hin.
  - apply (frequent_support ms D I s), (Opt_mine_char D ms fuel out Hwf Hms Hrun), Hin.
Qed.

Lemma mined_pairs_sound_witness : 2 = support db_small [2; 3] /\ 2 <= 2.
Proof.
  eapply (mined_pairs_sound db_small 2 4%nat _ [2; 3] 2).
  - unfold wf_db. compute_done.
  - lia.
  - left. vm_compute. reflexivity.
  - compute_done.
Defined.

(** X3. Hamm.cpp writes every frequent itemset of a database of item sets,
    in increasing order of its items and with its support. *)
Lemma Hamm_complete D ms fuel out S :
  wf_db D -> 1 <= ms -> Hamm.mine fuel ms D = Done out ->
  S <> [] -> NoDup S -> ms <= support D S ->
  (sort Z.ltb S, support D S) ∈ out.
Proof.
  intros Hwf Hms Hrun Hne Hnd Hle.
  apply (Hamm_mine_char D ms fuel out Hwf Hms Hrun). exists S. simpl. done.
Qed.

(** X4. part_001 writes every frequent itemset of a database of item sets,
    in increasing order of its items and with its support. *)
Lemma Opt_complete D ms fuel out S :
  wf_db D -> 1 <= ms -> Opt.mine fuel ms D = Done out ->
  S <> [] -> NoDup S -> ms <= support D S ->
  (sort Z.ltb S, support D S) ∈ out.
Proof.
  intros Hwf Hms Hrun Hne Hnd Hle.
  apply (Opt_mine_char D ms fuel out Hwf Hms Hrun). exists S. simpl. done.
Qed.

(** C2. part_001 writes an itemset more than once, whenever it writes
    anything: on a database of item sets its output holds a pair that is
    followed by the same pair.  (Hamm.cpp writes every frequent itemset
    once, see [Hamm_complete] and [Hamm_output_unique].) *)
Theorem Opt_output_repeats (D : list (list Z)) (ms : Z) (fuel : nat) (out : output) :
  wf_db D -> 1 <= ms -> Opt.mine fuel ms D = Done out -> out <> [] ->
  exists e l1 l2, out = l1 ++ e :: e :: l2.
Proof. apply Opt_mine_repeats. Qed.

Lemma Opt_output_repeats_witness :
  exists e l1 l2,
    [([3], 2); ([2; 3], 2); ([2; 3], 2); ([1], 3); ([1], 3); ([2], 3);
     ([1; 2], 2); ([1; 2], 2)] = l1 ++ e :: e :: l2.
Proof.
  apply (Opt_output_repeats db_small 2 4%nat).
  - unfold wf_db. compute_done.
  - lia.
  - vm_compute. reflexivity.
  - discriminate.
Defined.

(** The run of part_001 on the four transactions [1 2 3], [1 2], [1],
    [2 3] with the ratio one half: the itemsets [{2,3}], [{1}] and [{1,2}]
    are written twice each. *)
Lemma Opt_writes_itemsets_twice :
  Opt.main 4 half ["1 2 3"; "1 2"; "1"; "2 3"]%string =
    Done [([3], 2); ([2; 3], 2); ([2; 3], 2); ([1], 3); ([1], 3); ([2], 3);
          ([1; 2], 2); ([1; 2], 2)].
Proof. vm_compute. reflexivity. Qed.

(** C3. The miner without the enumerator of linear paths (Hamm.cpp) and the
    miner with it (part_001) both come to an end and write the same set of
    pairs, for a database of item sets and a threshold of at least one. *)
Theorem enumerator_same_output (D : list (list Z)) (ms : Z) (fuel : nat) :
  wf_db D -> 1 <= ms -> (CAP < fuel)%nat ->
  exists outH outO,
    Hamm.mine fuel ms D = Done outH /\ Opt.mine fuel ms D = Done outO /\
    forall e, e ∈ outH <-> e ∈ outO.
Proof.
  intros Hwf Hms Hfuel.
  destruct (Hamm_mine_total D ms fuel Hwf Hms Hfuel) as [outH HH].
  destruct (Opt_mine_total D ms fuel Hwf Hms Hfuel) as [outO HO].
  exists outH, outO. split_and!; [done|done|]. intros e.
  rewrite (Hamm_mine_char D ms fuel outH Hwf Hms HH e).
  by rewrite (Opt_mine_char D ms fuel outO Hwf Hms HO e).
Qed.

Lemma enumerator_same_output_witness :
  exists outH outO,
    Hamm.mine 1001 2 db_small = Done outH /\ Opt.mine 1001 2 db_small = Done outO /\
    forall e, e ∈ outH <-> e ∈ outO.
Proof.
  apply (enumerator_same_output db_small 2 1001).
  - unfold wf_db. compute_done.
  - lia.
  - unfold CAP. lia.
Defined.

(** The same, for any two runs that ended. *)
Lemma same_output_any_fuel D ms fuel fuel' outH outO :
  wf_db D -> 1 <= ms ->
  Hamm.mine fuel ms D = Done outH -> Opt.mine fuel' ms D = Done outO ->
  forall e, e ∈ outH <-> e ∈ outO.
Proof.
  intros Hwf Hms HH HO e.
  rewrite (Hamm_mine_char D ms fuel outH Hwf Hms HH e).
  by rewrite (Opt_mine_char D ms fuel' outO Hwf Hms HO e).
Qed.

(** ** The enumerator of linear paths *)

Lemma min_freq_le (l : list Header) h :
  h ∈ l -> foldr Z.min 0 (map h_freq l) <= h_freq h.
Proof.
  induction l as [|a l IH]; [by intros ?%elem_of_nil|].
  intros [->|Hh]%elem_of_cons; simpl; [lia|]. specialize (IH Hh). lia.
Qed.



(** X9. The same within one scope: the tree [construct_tree] builds from the
    weighted paths [cps] and from headers that carry the support of their
    item in [cps]. *)
Theorem single_node_exact_in_scope (cps : list (list Z * Z)) (newHeaders : list Header)
    (t : Tree) (hs : list Header) (h : Header) (n par : nat) (IL S : list Z) :
  Forall (fun pc => NoDup (fst pc) /\ Forall (fun x => in_cap x = true) (fst pc) /\ 0 < snd pc)
         cps ->
  NoDup (map h_item newHeaders) ->
  Forall (fun h => in_cap (h_item h) = true /\ h_next h = None /\ h_tail h = None /\
                   h_freq h = wsupp cps [h_item h]) newHeaders ->
  Opt.construct_tree cps newHeaders = Done (t, hs) ->
  h ∈ hs -> Opt.is_single_node t h = true ->
  h_next h = Some n -> n_parent (deref t n) = Some par ->
  Opt.collect_IL (length t) t par [] = Done IL ->
  (forall y, y ∈ S -> y ∈ IL) ->
  wsupp cps (h_item h :: S) = h_freq h.
Proof.
  intros Hcps Hnd Hhs Hct Hh Hsingle Hnext Hpar HIL HS.
  rewrite Forall_forall in Hhs.
  destruct (register_table newHeaders Hnd) as (hm0 & Hreg & Htab).
  { apply Forall_forall. intros h' Hh'. destruct (Hhs h' Hh') as (? & ? & ? & _). done. }
  destruct (build_level (foldr Z.min 0 (map h_freq newHeaders)) cps newHeaders hm0 Htab Hnd)
    as (t' & hm' & Hins & Hlv); [|done|].
  { intros h' Hh'. split; [by apply Hhs|by apply min_freq_le]. }
  assert (Hcap : Forall (fun pc => Forall (fun x => in_cap x = true) (fst pc)) cps).
  { eapply Forall_impl; [exact Hcps|]. by intros ? (_ & ? & _). }
  pose proof (build_items newHeaders hm0 cps t' hm' Htab Hcap Hins) as Hri.
  unfold Opt.construct_tree in Hct. rewrite Hreg in Hct.
  rewrite (bind_Done_l _ _ _ eq_refl), Hins in Hct.
  rewrite (bind_Done_l _ _ _ eq_refl) in Hct.
  assert (Et : t = t') by congruence.
  assert (Ehs : hs = reload hm' newHeaders) by congruence.
  subst t hs. clear Hct.
  destruct (level_single_exact _ _ _ _ h n par IL S Hlv Hh Hsingle Hnext Hpar HIL HS)
    as [Hf Hin].
  rewrite <- Hf. symmetry. apply (wsupp_ps_of newHeaders hm0 Htab cps _ Hcap).
  intros y [->|Hy]%elem_of_cons; rewrite <- Hri.
  - apply list_elem_of_fmap. eauto.
  - by apply Hin.
Qed.

Lemma single_node_exact_in_scope_witness : wsupp [([1; 2], 1)] [2; 1] = 1.
Proof.
  eapply (single_node_exact_in_scope [([1; 2], 1)]
            [mkHeader 1 1 None None; mkHeader 2 1 None None]
            _ _ (mkHeader 2 1 (Some 2%nat) (Some 2%nat)) 2%nat 1%nat [1] [1]).
  - compute_done.
  - compute_done.
  - compute_done.
  - vm_compute. reflexivity.
  - right. left.
  - reflexivity.
  - reflexivity.
  - reflexivity.
  - reflexivity.
  - done.
Defined.

(** C5. The enumerator does not skip the empty subset: whenever the support
    reaches the threshold, the first pair it writes is the pattern it was
    started with, which [FP_Growth] has written just before the call. *)
Theorem enumerator_repeats_base (IL : list Z) (f : Z) (pat : list Z) (ms : Z) :
  ms <= f -> pat <> [] ->
  exists rest, Opt.hamm_search_optimized IL f pat ms = (sort Z.ltb pat, f) :: rest.
Proof. apply hamm_search_first. Qed.

Lemma enumerator_repeats_base_witness :
  exists rest, Opt.hamm_search_optimized [1] 1 [2] 1 = (sort Z.ltb [2], 1) :: rest.
Proof.
  apply (enumerator_repeats_base [1] 1 [2] 1); [lia|done].
Defined.

(** The pairs of a header with one node, as [FP_Growth] of part_001 writes
    them for the transaction [1 2]: [{2}] comes twice. *)
Lemma enumerator_repeats_base_run :
  Opt.main 2 one ["1 2"]%string =
    Done [([1], 1); ([1], 1); ([2], 1); ([2], 1); ([1; 2], 1)].
Proof. vm_compute. reflexivity. Qed.

(** ** The threshold *)

(** [ratio_06] is the binary32 value nearest to [6/10]: the values between
    one half and one are the multiples of [2^-24]. *)
Lemma ratio_06_nearest (m : Z) :
  m <> mantissa ratio_06 ->
  Z.abs (mantissa ratio_06 * 10 - 6 * 2 ^ 24) < Z.abs (m * 10 - 6 * 2 ^ 24).
Proof. unfold ratio_06, mantissa. change (2 ^ 24) with 16777216. lia. Qed.

(** The binary32 values behind the two thresholds below: 25 and 10 are
    exact, the product with [ratio_06] is rounded up to [15 + 2^-20], the
    product with [ratio_03] is rounded down to 3. *)
Lemma threshold_products :
  float_of_count 25 = S754_finite false 13107200 (-19) /\
  SFmul 24 128 ratio_06 (float_of_count 25) = S754_finite false 15728641 (-20) /\
  float_of_count 10 = S754_finite false 10485760 (-20) /\
  SFmul 24 128 ratio_03 (float_of_count 10) = S754_finite false 12582912 (-22).
Proof. split_and!; vm_compute; reflexivity. Qed.

(** C6. The threshold is the ceiling of a binary32 product, not of the
    exact one.  With the ratio [0.6] and 25 transactions the program uses 16
    where the ceiling of [0.6 * 25] is 15, so that an item held by 15 of the
    25 transactions is dropped; with the binary32 value nearest to [0.3] and
    10 transactions it uses 3, where the exact product of that value and 10
    lies above 3. *)
Theorem threshold_not_exact :
  threshold ratio_06 25 = Done 16 /\ ceil_ratio 6 10 25 = 15 /\
  threshold ratio_03 10 = Done 3 /\ threshold_exact ratio_03 10 = Some 4 /\
  Opt.main 3 ratio_06 (replicate 15 "1"%string ++ replicate 10 "2"%string) = Done [] /\
  Hamm.main 3 ratio_06 (replicate 15 "1"%string ++ replicate 10 "2"%string) = Done [].
Proof. split_and!; vm_compute; reflexivity. Qed.

(** ** Capacity *)

Lemma count_items_out_of_capacity L : forall tb,
  length tb = CAP -> Exists (fun x => in_cap x = false) L ->
  Hamm.count_items L tb = Undefined.
Proof.
  induction L as [|x L IH]; intros tb Hlen Hex; [by apply Exists_nil in Hex|].
  cbn [Hamm.count_items]. unfold Hamm.count_item. destruct (in_cap x) eqn:E.
  - apply in_cap_spec in E. rewrite vec_get_Done by lia.
    rewrite (bind_Done_l _ _ _ eq_refl). cbv beta. rewrite vec_set_Done by lia.
    rewrite (bind_Done_l _ _ _ eq_refl). cbv beta.
    apply IH; [by rewrite length_insert|].
    apply Exists_cons in Hex as [Hx|Hex]; [|done]. simpl in Hx.
    apply in_cap_spec in E. congruence.
  - unfold vec_get. rewrite Hlen. unfold in_cap in E. rewrite E. reflexivity.
Qed.

(** X6. Hamm.cpp indexes its table of 1000 headers with every item it reads:
    an item outside the table is an access out of bounds. *)
Lemma Hamm_out_of_capacity D ms fuel :
  Exists (fun x => in_cap x = false) (concat D) -> Hamm.mine fuel ms D = Undefined.
Proof.
  intros Hex. unfold Hamm.mine.
  rewrite count_items_out_of_capacity; [reflexivity|apply length_replicate|done].
Qed.

(** C7. No program checks an item against the capacity.  Hamm.cpp indexes
    its table of 1000 headers with the item 1000; part_001 does the same
    with a frequent item in [construct_tree], and it writes its output as
    usual when the item beyond the capacity is not frequent. *)
Theorem capacity_not_checked :
  Hamm.main 1 one ["1000"]%string = Undefined /\
  Opt.main 1 one ["1000"]%string = Undefined /\
  Opt.main 2 one ["1 2000"; "1"]%string = Done [([1], 2); ([1], 2)].
Proof. split_and!; vm_compute; reflexivity. Qed.

(** ** The lines of the input *)

Lemma support_reorder D D' S :
  Forall2 Permutation D D' -> support D S = support D' S.
Proof.
  unfold support. induction 1 as [|trans trans' D D' Hp HD IH]; [done|].
  cbn [List.filter]. rewrite (incl_b_ext S S trans trans'); [|done|by intros x; rewrite Hp].
  destruct (incl_b S trans'); cbn [length]; lia.
Qed.

(** X5. The order of the items within the lines of a database of item sets
    does not matter for the set of pairs a program writes. *)
Lemma reorder_same_output D D' ms fuel fuel' out out' :
  wf_db D -> wf_db D' -> Forall2 Permutation D D' -> 1 <= ms ->
  (Hamm.mine fuel ms D = Done out /\ Hamm.mine fuel' ms D' = Done out') \/
  (Opt.mine fuel ms D = Done out /\ Opt.mine fuel' ms D' = Done out') ->
  forall e, e ∈ out <-> e ∈ out'.
Proof.
  intros Hwf Hwf' Hp Hms Hrun e.
  assert (Hfr : frequent ms D e <-> frequent ms D' e).
  { unfold frequent. by setoid_rewrite (support_reorder D D' _ Hp). }
  destruct Hrun as [[H1 H2]|[H1 H2]].
  - by rewrite (Hamm_mine_char D ms fuel out Hwf Hms H1 e),
               (Hamm_mine_char D' ms fuel' out' Hwf' Hms H2 e).
  - by rewrite (Opt_mine_char D ms fuel out Hwf Hms H1 e),
               (Opt_mine_char D' ms fuel' out' Hwf' Hms H2 e).
Qed.

(** C8. An item that is repeated within a line is not collapsed.  part_001
    counts the item 1 twice for the line [1 1] and writes the pair of the
    list [1 1]; Hamm.cpp counts 4 occurrences of the item 1 in the three
    lines [1,1], [1], [1]. *)
Theorem repeated_item_changes_output :
  Opt.main 2 one ["1 1"]%string = Done [([1], 2); ([1; 1], 1); ([1; 1], 1)] /\
  Opt.main 2 one ["1"]%string = Done [([1], 1); ([1], 1)] /\
  Hamm.main 2 one ["1,1"; "1"; "1"]%string = Done [([1], 4)] /\
  Hamm.main 2 one ["1"; "1"; "1"]%string = Done [([1], 3)].
Proof. split_and!; vm_compute; reflexivity. Qed.

Lemma read_lines_shift lines : forall tb txs,
  Hamm.read_lines lines tb txs =
  ('(tb', D') ← Hamm.read_lines lines tb []; Done (tb', txs ++ D')).
Proof.
  induction lines as [|line lines IH]; intros tb txs.
  { cbn. by rewrite app_nil_r. }
  cbn [Hamm.read_lines].
  destruct (Hamm.read_line _ tb []) as [[hs tr]| | |]; try reflexivity.
  rewrite !(bind_Done_l _ _ _ eq_refl). cbv beta iota.
  rewrite (IH hs (txs ++ [tr])), (IH hs ([] ++ [tr])).
  destruct (Hamm.read_lines lines hs []) as [[tb' D']| | |]; try reflexivity.
  rewrite !(bind_Done_l _ _ _ eq_refl). cbv beta iota.
  by rewrite <- !app_assoc.
Qed.

(** X7. A line without a character, anywhere in the input of Hamm.cpp,
    leaves the table of headers as it is and adds a transaction without an
    item at its place: it counts in the number of transactions. *)
Theorem Hamm_blank_line (l1 l2 : list string) (tb tb' : list (option Header))
    (D : list (list Z)) :
  Hamm.read_lines (l1 ++ l2) tb [] = Done (tb', D) ->
  exists D1 D2, D = D1 ++ D2 /\ length D1 = length l1 /\
    Hamm.read_lines (l1 ++ EmptyString :: l2) tb [] = Done (tb', D1 ++ [] :: D2).
Proof.
  revert tb D. induction l1 as [|line l1 IH]; intros tb D Hrun.
  - exists [], D. split_and!; [done|done|].
    cbn [app Hamm.read_lines Hamm.read_line split_comma list_ascii_of_string].
    rewrite (bind_Done_l _ _ _ eq_refl). cbv beta iota.
    rewrite read_lines_shift. cbn [app] in Hrun. rewrite Hrun. reflexivity.
  - cbn [app Hamm.read_lines] in Hrun |- *.
    destruct (Hamm.read_line _ tb []) as [[hs tr]| | |]; try discriminate.
    rewrite (bind_Done_l _ _ _ eq_refl) in Hrun. cbv beta iota in Hrun.
    rewrite read_lines_shift in Hrun.
    destruct (Hamm.read_lines (l1 ++ l2) hs []) as [[tb1 D0]| | |] eqn:E; try discriminate.
    rewrite (bind_Done_l _ _ _ eq_refl) in Hrun. cbv beta iota in Hrun.
    assert (Etb : tb1 = tb') by congruence.
    assert (ED : D = [tr] ++ D0) by congruence. subst tb1 D.
    destruct (IH hs D0 E) as (D1 & D2 & -> & Hlen & Hblank).
    exists (tr :: D1), D2. split_and!; [done|simpl; lia|].
    rewrite (bind_Done_l _ _ _ eq_refl). cbv beta iota.
    rewrite read_lines_shift, Hblank. reflexivity.
Qed.

(** C9. A blank line is a transaction.  With the ratio 1 the item 1 of the
    lines [1], [], [1] is held by 2 of 3 transactions for Hamm.cpp and
    nothing is written; part_001 skips the line without a character, but not
    the line that holds a space. *)
Theorem blank_line_counts :
  Hamm.main 2 one ["1"; EmptyString; "1"]%string = Done [] /\
  Hamm.main 2 one ["1"; "1"]%string = Done [([1], 2)] /\
  Opt.main 2 one ["1"; " "; "1"]%string = Done [] /\
  Opt.main 2 one ["1"; "1"]%string = Done [([1], 2); ([1], 2)].
Proof. split_and!; vm_compute; reflexivity. Qed.

(** ** Termination *)

Lemma Hamm_main_setup fuel rate lines :
  Hamm.main fuel rate lines =
  ('(ms, th) ← Hamm_setup rate lines; Hamm.FP_Growth fuel (fst th) (snd th) [] ms).
Proof.
  unfold Hamm.main, Hamm_setup.
  destruct (Hamm.read_lines lines (replicate CAP None) []) as [[tb D]| | |]; try reflexivity.
  rewrite !(bind_Done_l _ _ _ eq_refl). cbv beta iota.
  destruct (threshold rate (length D)) as [ms| | |]; try reflexivity.
  rewrite !(bind_Done_l _ _ _ eq_refl). cbv beta.
  unfold Hamm.mine_from, Hamm_first_pass. cbv zeta.
  destruct (Hamm.build_tree _ [new_Node] tb) as [[t hm]| | |]; reflexivity.
Qed.

(** One step of the recursion on the tree of the line [1,1]. *)
Lemma loop_step rec a f prefix :
  Hamm.FP_Growth_body rec (loop_tree a) prefix 1 (loop_header f) =
  (sub ← rec (loop_tree (a + 1)) [loop_header 1] (sort Z.ltb (prefix ++ [1]));
   Done (Hamm.write_output (prefix ++ [1]) f ++ sub)).
Proof. vm_compute. reflexivity. Qed.

Lemma loop_diverges fuel : forall a f prefix,
  Hamm.FP_Growth fuel (loop_tree a) [loop_header f] prefix 1 = OutOfFuel.
Proof.
  induction fuel as [|k IH]; intros a f prefix; [reflexivity|].
  cbn [Hamm.FP_Growth for_each]. rewrite loop_step, IH. reflexivity.
Qed.

(** X1. The recursion of Hamm.cpp does not end on the line [1,1], whose
    repeated item is not collapsed: the item 1 is an ancestor of its own
    node, every level builds the tree of the level above again, and no
    number of nested calls is enough. *)
Theorem Hamm_repeated_item_loops (fuel : nat) :
  Hamm.main fuel one ["1,1"]%string = OutOfFuel.
Proof.
  rewrite Hamm_main_setup.
  assert (E : Hamm_setup one ["1,1"%string] = Done (1, (loop_tree 1, [loop_header 2])))
    by (vm_compute; reflexivity).
  rewrite E. rewrite (bind_Done_l _ _ _ eq_refl). cbv beta iota.
  apply loop_diverges.
Qed.

(** C10. On a database of item sets, with a threshold of at least one,
    the recursion of both programs ends: the paths of a conditional tree
    are shorter than those of the tree of the caller, and no path holds
    more than 1000 items, so that 1000 nested calls of [FP_Growth] are
    never exceeded. *)
Theorem mining_terminates (D : list (list Z)) (ms : Z) (fuel : nat) :
  wf_db D -> 1 <= ms -> (CAP < fuel)%nat ->
  (exists out, Hamm.mine fuel ms D = Done out) /\ (exists out, Opt.mine fuel ms D = Done out).
Proof.
  intros Hwf Hms Hfuel. split.
  - by apply Hamm_mine_total.
  - by apply Opt_mine_total.
Qed.

(** X11. The header table of a recursive call of part_001 holds only items
    of the caller's table other than the item of the header it is made
    for, each of them an ancestor of a node of that header's chain. *)
Theorem conditional_headers_shrink (D : list (list Z)) (ms : Z) (t : Tree)
    (hs : list Header) (prefix : list Z) (header : Header) (condCounts : list Z)
    (condPaths : list (list Z * Z)) (newRoot : Tree) (hs' : list Header) (y : Z) :
  wf_db D -> 1 <= ms -> Opt_reach ms D t hs prefix -> header ∈ hs ->
  Opt.walk_chain (length t) t (h_next header) (replicate CAP 0) [] =
    Done (condCounts, condPaths) ->
  Opt.construct_tree condPaths (sort cmp_headers (make_headers condCounts ms)) =
    Done (newRoot, hs') ->
  y ∈ map h_item hs' ->
  y ∈ map h_item hs /\ y <> h_item header /\
  exists n, n ∈ nodes_with (h_item header) t /\ y ∈ parent_path t n.
Proof.
  intros Hwf Hms Hreach Hh Hwalk Hct Hy.
  destruct (Opt_reach_level ms D t hs prefix Hwf Hms Hreach) as (ps & Hlv & _).
  destruct (lv_header _ _ _ _ Hlv header Hh) as (Hc & Hch & _).
  pose proof (lv_wf _ _ _ _ Hlv) as Hwft.
  rewrite (Opt_walk_chain_spec t (nodes_with (h_item header) t)) in Hwalk;
    [|done|done|intros i Hi; by apply nodes_with_bound in Hi as [? _]
     |apply nodes_with_length|apply length_replicate].
  cbv zeta in Hwalk. rewrite app_nil_l in Hwalk.
  fold (proj t (h_item header)) in Hwalk. fold (base_Opt t (h_item header)) in Hwalk.
  assert (Ecc : condCounts = add_base (proj t (h_item header)) (replicate CAP 0))
    by congruence.
  assert (Ecps : condPaths = base_Opt t (h_item header)) by congruence.
  subst condCounts condPaths. clear Hwalk.
  remember (make_headers (add_base (proj t (h_item header)) (replicate CAP 0)) ms)
    as nh eqn:Enh.
  destruct (register_table (sort cmp_headers nh)) as (hm0 & Hreg & Htab).
  { rewrite (sort_perm cmp_headers nh), Enh. apply make_headers_NoDup. }
  { apply Forall_forall. intros h' Hh'. rewrite (sort_perm cmp_headers nh), Enh in Hh'.
    apply make_headers_elem in Hh' as (i & Hi & _ & ->). simpl.
    split; [apply in_cap_spec; lia|done]. }
  assert (Hx : h_item header ∈ map h_item hs) by (apply list_elem_of_fmap; eauto).
  pose proof Htab as Htab'. rewrite Enh in Htab'.
  destruct (cond_level ms ps t hs Hms Hlv (h_item header) Hx (base_Opt t (h_item header))
              hm0 Htab') as (t' & hm' & Hins & _ & Hitems & _).
  { apply (base_Opt_wf ms ps t hs Hlv). }
  { intros S HS _. by apply base_Opt_supp. }
  { apply base_Opt_anc. }
  rewrite <- Enh in Hitems.
  unfold Opt.construct_tree in Hct. rewrite Hreg in Hct.
  rewrite (bind_Done_l _ _ _ eq_refl), Hins in Hct.
  rewrite (bind_Done_l _ _ _ eq_refl) in Hct.
  assert (Ehs : hs' = reload hm' (sort cmp_headers nh)) by congruence.
  subst hs'. clear Hct.
  rewrite Hitems, (sort_perm cmp_headers nh), Enh in Hy.
  destruct (cond_header_anc ms ps t hs Hms Hlv (h_item header) y Hy) as (_ & Hin & Hne).
  split_and!; [done|done|].
  apply (cond_header_elem ms ps t hs Hlv) in Hy as [_ Hy].
  destruct (wsupp_pos_elem (proj t (h_item header)) [y]) as (p & c & Hp & Hi); [lia|].
  unfold proj in Hp. apply list_elem_of_fmap in Hp as (n & Heq & Hn).
  inversion Heq; subst p c. exists n. split; [done|].
  rewrite incl_b_spec in Hi. apply Hi. left.
Qed.

(** * Further properties of the two programs *)

(** X2. Hamm.cpp writes every frequent itemset once: no two pairs of its output
    hold the same itemset. *)
Theorem Hamm_output_unique (D : list (list Z)) (ms : Z) (fuel : nat) (out : output) :
  wf_db D -> 1 <= ms -> Hamm.mine fuel ms D = Done out -> NoDup (map fst out).
Proof.
  intros Hwf Hms Hout. destruct (count_items_table D Hwf) as (tb & Hrun & Htb).
  destruct (Hamm_mine_level ms D Hms Hwf tb Htb Hrun) as (t & hs & ps & Heq & Hlv & _).
  rewrite Heq in Hout. by apply (Hamm_FP_NoDup ms Hms fuel ps t hs [] out).
Qed.

Lemma Hamm_output_unique_witness :
  NoDup (map fst [([3], 2); ([2; 3], 2); ([2], 3); ([1; 2], 2); ([1], 3)]).
Proof.
  apply (Hamm_output_unique db_small 2 4%nat).
  - unfold wf_db. compute_done.
  - lia.
  - vm_compute. reflexivity.
Defined.

Lemma Hamm_complete_witness : (sort Z.ltb [3; 2], support db_small [3; 2]) ∈
  [([3], 2); ([2; 3], 2); ([2], 3); ([1; 2], 2); ([1], 3)].
Proof.
  apply (Hamm_complete db_small 2 4%nat).
  - unfold wf_db. compute_done.
  - lia.
  - vm_compute. reflexivity.
  - done.
  - compute_done.
  - vm_compute. discriminate.
Defined.

Lemma Opt_complete_witness : (sort Z.ltb [3; 2], support db_small [3; 2]) ∈
  [([3], 2); ([2; 3], 2); ([2; 3], 2); ([1], 3); ([1], 3); ([2], 3); ([1; 2], 2); ([1; 2], 2)].
Proof.
  apply (Opt_complete db_small 2 4%nat).
  - unfold wf_db. compute_done.
  - lia.
  - vm_compute. reflexivity.
  - done.
  - compute_done.
  - vm_compute. discriminate.
Defined.

Lemma mining_terminates_witness :
  (exists out, Hamm.mine 1001 2 db_small = Done out) /\
  (exists out, Opt.mine 1001 2 db_small = Done out).
Proof.
  apply (mining_terminates db_small 2 1001).
  - unfold wf_db. compute_done.
  - lia.
  - unfold CAP. lia.
Defined.

Lemma reorder_same_output_witness :
  ([1; 2], 1) ∈ [([2], 1); ([1; 2], 1); ([1], 1)] <->
  ([1; 2], 1) ∈ [([2], 1); ([1; 2], 1); ([1], 1)].
Proof.
  apply (reorder_same_output [[1; 2]] [[2; 1]] 1 3%nat 3%nat).
  - unfold wf_db. compute_done.
  - unfold wf_db. compute_done.
  - constructor; [apply perm_swap|constructor].
  - lia.
  - left. split; vm_compute; reflexivity.
Defined.

Lemma Hamm_out_of_capacity_witness : Hamm.mine 1 1 [[1000]] = Undefined.
Proof. apply (Hamm_out_of_capacity [[1000]] 1 1%nat). compute_done. Defined.

Lemma Hamm_blank_line_witness :
  exists D1 D2, [[1]; [2]] = D1 ++ D2 /\ length D1 = length ["1"%string] /\
    exists tb, Hamm.read_lines (["1"%string] ++ EmptyString :: ["2"%string])
                 (replicate CAP None) [] = Done (tb, D1 ++ [] :: D2).
Proof.
  destruct (Hamm_blank_line ["1"%string] ["2"%string] (replicate CAP None)
              (<[2%nat := Some (mkHeader 2 1 None None)]>
                 (<[1%nat := Some (mkHeader 1 1 None None)]> (replicate CAP None)))
              [[1]; [2]]) as (D1 & D2 & H1 & H2 & H3).
  - vm_compute. reflexivity.
  - exists D1, D2. split_and!; [done|done|]. eexists. exact H3.
Defined.

(** X10. The lines of a run of Hamm.cpp that ends hold the transactions the
    run works on: [main] is then [mine] on these transactions. *)
Theorem Hamm_main_is_mine (fuel : nat) (rate : spec_float) (lines : list string)
    (tb : list (option Header)) (D : list (list Z)) :
  Hamm.read_lines lines (replicate CAP None) [] = Done (tb, D) ->
  Hamm.main fuel rate lines = (ms ← threshold rate (length D); Hamm.mine fuel ms D).
Proof. apply Hamm_main_mine. Qed.

Lemma Hamm_main_is_mine_witness :
  Hamm.main 3 one ["1,2"; "2"]%string =
  (ms ← threshold one (length [[1; 2]; [2]]); Hamm.mine 3 ms [[1; 2]; [2]]).
Proof.
  eapply (Hamm_main_is_mine 3 one ["1,2"; "2"]%string _ [[1; 2]; [2]]).
  vm_compute. reflexivity.
Defined.

(** X8. What the enumerator of part_001 writes: the pattern it is called with,
    extended by every sublist of the ancestors, each with the support it is
    given. *)
Theorem enumerator_writes_sublists (IL : list Z) (f : Z) (pat : list Z) (ms : Z)
    (e : list Z * Z) :
  ms <= f -> pat <> [] ->
  e ∈ Opt.hamm_search_optimized IL f pat ms <->
  exists sub, sub `sublist_of` IL /\ e = (sort Z.ltb (pat ++ sub), f).
Proof. intros Hle Hpat. by apply hamm_search_spec. Qed.

Lemma enumerator_writes_sublists_witness :
  ([1; 2], 1) ∈ Opt.hamm_search_optimized [1] 1 [2] 1 <->
  exists sub, sub `sublist_of` [1] /\ ([1; 2], 1) = (sort Z.ltb ([2] ++ sub), 1).
Proof. apply (enumerator_writes_sublists [1] 1 [2] 1 ([1; 2], 1)); [lia|done]. Defined.

Lemma conditional_headers_shrink_witness :
  exists (t : Tree) hs,
    Opt_first_pass 2 db_deep = Done (t, hs) /\
    (1 ∈ map h_item hs /\ 1 <> h_item (mkHeader 3 3 (Some 3%nat) (Some 4%nat)) /\
     exists n, n ∈ nodes_with (h_item (mkHeader 3 3 (Some 3%nat) (Some 4%nat))) t /\
               1 ∈ parent_path t n).
Proof.
  eexists _, _. split; [vm_compute; reflexivity|].
  eapply (conditional_headers_shrink db_deep 2 _ _ []
            (mkHeader 3 3 (Some 3%nat) (Some 4%nat)) _ _ _ _ 1).
  - unfold wf_db. compute_done.
  - lia.
  - apply reach_main. vm_compute. reflexivity.
  - right. right. left.
  - vm_compute. reflexivity.
  - vm_compute. reflexivity.
  - left.
Defined.
(** * Runs without an access out of bounds *)

Lemma for_each_faultless {A B} (body : A -> outcome (list B)) l :
  (forall x, x ∈ l -> faultless (body x)) -> faultless (for_each body l).
Proof.
  induction l as [|x l IH]; intros Hb; [exact I|].
  cbn [for_each].
  assert (Hx : x ∈ x :: l) by left.
  pose proof (Hb x Hx) as H1.
  assert (H2 : faultless (for_each body l)).
  { apply IH. intros y Hy. apply Hb. by right. }
  destruct (body x); try done.
  cbn. destruct (for_each body l); done.
Qed.

Lemma for_each_diverges {A B} (body : A -> outcome (list B)) l x :
  (forall y, y ∈ l -> faultless (body y)) -> x ∈ l -> body x = OutOfFuel ->
  for_each body l = OutOfFuel.
Proof.
  induction l as [|y l IH]; intros Hb Hx Hd; [by apply elem_of_nil in Hx|].
  cbn [for_each].
  assert (Hy : y ∈ y :: l) by left.
  pose proof (Hb y Hy) as H1.
  destruct (body y) eqn:E; try done.
  apply elem_of_cons in Hx as [->|Hx]; [congruence|].
  cbn. rewrite IH; [done| |done|done].
  intros z Hz. apply Hb. by right.
Qed.

Lemma sumZ_nonneg l : Forall (fun x => 0 <= x) l -> 0 <= sumZ l.
Proof. unfold sumZ. induction 1; simpl; lia. Qed.

Lemma tree_counts_nonneg (t : Tree) ps :
  tree_counts t ps -> Forall (fun qc => 0 <= snd qc) ps ->
  forall i, (0 < i < length t)%nat -> 0 <= n_freq (deref t i).
Proof.
  intros Htc Hps i Hi. rewrite (tc_freq _ _ Htc i Hi).
  apply sumZ_nonneg. apply Forall_map. eapply Forall_impl; [exact Hps|].
  intros qc Hq. cbn in *. destruct (is_prefix_b _ _); lia.
Qed.

Lemma npath_in_cap (t : Tree) i x :
  wf_tree t -> (i < length t)%nat -> x ∈ npath t i -> in_cap x = true.
Proof.
  intros Hwf Hi Hx. unfold npath in Hx. apply (proj1 (elem_of_rev _ _)) in Hx.
  by apply (pathup_in_cap t i x).
Qed.

(** The tree of the next level, for any table of fresh headers. *)
Lemma next_level_walkable (t : Tree) cps hs0 hm0 :
  table_of hs0 hm0 ->
  Forall (fun pc => Forall (fun x => in_cap x = true) (fst pc) /\ 0 <= snd pc) cps ->
  exists t' hm',
    insert_paths cps [new_Node] hm0 = Done (t', hm') /\
    walkable t' (reload hm' hs0) /\ length (reload hm' hs0) = length hs0.
Proof.
  intros Htab Hcps.
  destruct (insert_paths_spec cps [new_Node] hm0 [] wf_tree_init (wf_table_init _ _ Htab)
              tree_counts_init) as (t' & hm' & Hrun & Hwf' & Hwt' & Hstrip & Htc').
  { eapply Forall_impl; [exact Hcps|]. by intros pc [? _]. }
  exists t', hm'. split; [done|]. split; [|by unfold reload; rewrite length_map].
  split; [done| |].
  - intros h' Hh'. unfold reload in Hh'. apply list_elem_of_fmap in Hh' as (h & -> & Hh).
    destruct (reload_spec t' hs0 hm0 hm' h Htab Hstrip Hh) as (h' & -> & Hlk & Hit & _).
    destruct (to_complete _ _ Htab h Hh) as [Hcap _].
    destruct (wt_chain _ _ Hwt' _ _ Hlk) as (Hi & Hch & _).
    rewrite Hit. split; [done|].
    apply in_cap_spec in Hcap. rewrite Z2Nat.id in Hch by lia. exact Hch.
  - apply (tree_counts_nonneg t' _ Htc'). cbn [app]. unfold ps_of. apply Forall_map.
    eapply Forall_impl; [exact Hcps|]. by intros pc [_ ?].
Qed.

Section HammSafe.
Variables (ms : Z) (t : Tree) (hs : list Header).
Hypothesis Hwk : walkable t hs.
Variable h : Header.
Hypothesis Hh : h ∈ hs.
Variable rec : Tree -> list Header -> list Z -> outcome output.
Variable prefix : list Z.

Let x := h_item h.
Let base := proj t x.
Let cc := add_base base (replicate CAP 0).
Let cps := base_Hamm t x.
Let nh := make_headers cc ms.

Lemma Hamm_walk_safe :
  Hamm.walk_chain (length t) t (h_next h) (replicate CAP 0) [] = Done (cc, cps).
Proof.
  destruct (wk_header _ _ Hwk h Hh) as [Hcap Hch].
  rewrite (Hamm_walk_chain_spec t (nodes_with x t) (length t) (h_next h) (replicate CAP 0) []
             (wk_wf _ _ Hwk) Hch).
  - reflexivity.
  - intros i Hi. by apply nodes_with_bound in Hi as [? _].
  - apply nodes_with_length.
  - apply length_replicate.
Qed.

Lemma Hamm_cps_safe :
  Forall (fun pc => Forall (fun y => in_cap y = true) (fst pc) /\ 0 <= snd pc) cps.
Proof.
  unfold cps, base_Hamm. apply Forall_map, Forall_forall. intros i Hi.
  apply nodes_with_bound in Hi as [Hi _]. cbn. split.
  - apply Forall_forall. intros y Hy.
    apply (npath_in_cap t i y (wk_wf _ _ Hwk)); [lia|done].
  - by apply (wk_freq _ _ Hwk).
Qed.

Lemma Hamm_body_safe_unfold :
  Hamm.FP_Growth_body rec t prefix ms h =
  match nh with
  | [] => Done (Hamm.write_output (prefix ++ [x]) (h_freq h))
  | _ =>
    '(t', hm') ← insert_paths cps [new_Node] (Hamm.make_headerMap cc ms);
    sub ← rec t' (reload hm' (sort cmp_headers nh)) (sort Z.ltb (prefix ++ [x]));
    Done (Hamm.write_output (prefix ++ [x]) (h_freq h) ++ sub)
  end.
Proof.
  unfold Hamm.FP_Growth_body. rewrite Hamm_walk_safe.
  rewrite (bind_Done_l _ _ _ eq_refl). cbv beta iota.
  unfold nh. destruct (make_headers cc ms); reflexivity.
Qed.

Lemma Hamm_next_walkable :
  exists t' hm',
    insert_paths cps [new_Node] (Hamm.make_headerMap cc ms) = Done (t', hm') /\
    walkable t' (reload hm' (sort cmp_headers nh)) /\
    length (reload hm' (sort cmp_headers nh)) = length nh.
Proof.
  destruct (next_level_walkable t cps (sort cmp_headers nh) (Hamm.make_headerMap cc ms))
    as (t' & hm' & Hrun & Hwk' & Hlen).
  - apply make_headerMap_table, sort_perm.
  - apply Hamm_cps_safe.
  - exists t', hm'. split_and!; [done|done|].
    rewrite Hlen. apply Permutation_length, sort_perm.
Qed.

Lemma Hamm_body_faultless :
  (forall t' hs' p, walkable t' hs' -> faultless (rec t' hs' p)) ->
  faultless (Hamm.FP_Growth_body rec t prefix ms h).
Proof.
  intros Hrec. rewrite Hamm_body_safe_unfold.
  destruct nh eqn:Enh; [exact I|]. rewrite <- Enh.
  destruct Hamm_next_walkable as (t' & hm' & -> & Hwk' & _).
  rewrite (bind_Done_l _ _ _ eq_refl). cbv beta iota.
  pose proof (Hrec t' _ (sort Z.ltb (prefix ++ [x])) Hwk') as Hr.
  destruct (rec t' _ _); done.
Qed.

Lemma Hamm_body_diverges :
  nh <> [] ->
  (forall t' hs' p, walkable t' hs' -> hs' <> [] -> rec t' hs' p = OutOfFuel) ->
  Hamm.FP_Growth_body rec t prefix ms h = OutOfFuel.
Proof.
  intros Hne Hrec. rewrite Hamm_body_safe_unfold.
  destruct nh eqn:Enh; [done|]. rewrite <- Enh.
  destruct Hamm_next_walkable as (t' & hm' & -> & Hwk' & Hlen).
  rewrite (bind_Done_l _ _ _ eq_refl). cbv beta iota.
  rewrite Hrec; [done|done|].
  intros E. rewrite E, Enh in Hlen. discriminate.
Qed.

End HammSafe.

Lemma Hamm_FP_faultless ms : forall fuel (t : Tree) hs prefix,
  walkable t hs -> faultless (Hamm.FP_Growth fuel t hs prefix ms).
Proof.
  induction fuel as [|k IH]; intros t hs prefix Hwk; [exact I|].
  rewrite Hamm_FP_Growth_S. apply for_each_faultless. intros h Hh.
  apply (Hamm_body_faultless ms t hs Hwk h Hh).
  intros t' hs' p Hwk'. by apply IH.
Qed.

(** ** Hamm.cpp: the first tree, for any items within the capacity *)

Lemma counted_table_of tb :
  length tb = CAP -> counted tb -> table_of (omap id tb) tb.
Proof.
  intros Hlen Hc. split; [done| |].
  - intros k h Hk. destruct (Hc k h Hk) as [Heq _]. split_and!.
    + apply list_elem_of_omap. exists (Some h). split; [|done].
      by apply list_elem_of_lookup_2 in Hk.
    + by rewrite Heq.
    + by rewrite Heq.
    + by rewrite Heq.
  - intros h Hh. apply list_elem_of_omap in Hh as (oh & Hin & Hoh).
    cbn in Hoh. subst oh. apply list_elem_of_lookup in Hin as [k Hk].
    destruct (Hc k h Hk) as [Heq _].
    pose proof (lookup_lt_Some _ _ _ Hk) as Hlt. rewrite Hlen in Hlt.
    assert (Hi : h_item h = Z.of_nat k) by (by rewrite Heq).
    rewrite Hi, Nat2Z.id. split; [|done]. apply in_cap_spec. lia.
Qed.

Lemma registered_pruned (t : Tree) tb ms trans :
  wf_table t tb -> Forall (fun x => in_cap x = true) trans ->
  Forall (registered tb)
    (remove_infrequent_items
       (map Some (sort cmp_path (omap (fun x => tb !!! Z.to_nat x) trans))) ms).
Proof.
  intros Hwt Hcap. apply Forall_forall. intros h [Hh _]%remove_infrequent_elem.
  apply list_elem_of_fmap in Hh as (h' & Heq & Hh'). inversion Heq; subst h'.
  rewrite (sort_perm cmp_path _) in Hh'.
  pose proof (registered_lookup t tb trans Hwt Hcap) as Hreg.
  rewrite Forall_forall in Hreg. by apply Hreg.
Qed.

Lemma Hamm_mine_walkable ms D :
  Forall (fun x => in_cap x = true) (concat D) ->
  exists (t : Tree) hs,
    (forall fuel, Hamm.mine fuel ms D = Hamm.FP_Growth fuel t hs [] ms) /\
    walkable t hs /\
    (forall x, x ∈ concat D -> ms <= cnt x (concat D) -> x ∈ map h_item hs) /\
    exists tb,
      length tb = CAP /\ counted tb /\
      (forall k : nat, table_freq tb k = cnt (Z.of_nat k) (concat D)) /\
      tree_counts t (paths_of (map (fun trans =>
        remove_infrequent_items
          (map Some (sort cmp_path (omap (fun x => tb !!! Z.to_nat x) trans))) ms) D)).
Proof.
  intros Hcap.
  destruct (count_items_spec (concat D) (replicate CAP None)) as (tb & Hrun & Hlen & Hc & Hfr).
  { apply length_replicate. }
  { done. }
  { intros k h Hk. apply lookup_replicate in Hk as [Hk _]. done. }
  pose proof (counted_table_of tb Hlen Hc) as Htab.
  pose proof (wf_table_init _ _ Htab) as Hwt.
  set (txs := map (fun trans =>
           remove_infrequent_items
             (map Some (sort cmp_path (omap (fun x => tb !!! Z.to_nat x) trans))) ms) D).
  destruct (build_tree_spec txs [new_Node] tb [] wf_tree_init Hwt tree_counts_init)
    as (t & hm & Hbuild & Hwf' & Hwt' & Hstrip & Htc).
  { unfold txs. apply Forall_map, Forall_forall. intros trans Htr.
    apply (registered_pruned [new_Node]); [done|].
    apply Forall_forall. intros x Hx. rewrite Forall_forall in Hcap. apply Hcap.
    apply list_elem_of_In, in_concat. exists trans. split; by apply list_elem_of_In. }
  set (headers := remove_infrequent_items (sort Hamm.cmp_main tb) ms).
  assert (Hhd : forall h, h ∈ headers <-> Some h ∈ tb /\ ms <= h_freq h).
  { intros h. unfold headers. rewrite remove_infrequent_elem.
    by rewrite (sort_perm Hamm.cmp_main tb). }
  exists t, (reload hm headers). split_and!.
  - intros fuel. unfold Hamm.mine. rewrite Hrun.
    rewrite (bind_Done_l _ _ _ eq_refl). unfold Hamm.mine_from. cbv zeta.
    fold txs. rewrite Hbuild. rewrite (bind_Done_l _ _ _ eq_refl). reflexivity.
  - split; [done| |].
    + intros h' Hh'. unfold reload in Hh'. apply list_elem_of_fmap in Hh' as (h & -> & Hh).
      apply Hhd in Hh as [Hin _].
      assert (Hh0 : h ∈ omap id tb).
      { apply list_elem_of_omap. by exists (Some h). }
      destruct (reload_spec t _ tb hm h Htab Hstrip Hh0) as (h' & -> & Hlk & Hit & _).
      destruct (to_complete _ _ Htab h Hh0) as [Hcp _].
      destruct (wt_chain _ _ Hwt' _ _ Hlk) as (Hi & Hch & _).
      rewrite Hit. split; [done|].
      apply in_cap_spec in Hcp. rewrite Z2Nat.id in Hch by lia. exact Hch.
    + apply (tree_counts_nonneg t _ Htc). cbn [app]. unfold paths_of.
      apply Forall_map, Forall_forall. intros tx _. cbn. lia.
  - intros x Hx Hms.
    rewrite Forall_forall in Hcap. pose proof (Hcap x Hx) as Hcx. apply in_cap_spec in Hcx.
    pose proof (Hfr (Z.to_nat x)) as Hf. rewrite Z2Nat.id in Hf by lia.
    assert (H0 : table_freq (replicate CAP None) (Z.to_nat x) = 0).
    { unfold table_freq. rewrite replicate_total by lia. done. }
    rewrite H0 in Hf. apply cnt_pos in Hx.
    unfold table_freq in Hf.
    destruct (tb !!! Z.to_nat x) as [h|] eqn:E; [|lia].
    assert (Hl : tb !! Z.to_nat x = Some (Some h)).
    { rewrite <- E. apply list_lookup_lookup_total_lt. lia. }
    destruct (Hc _ _ Hl) as [Heq _].
    assert (Hh0 : h ∈ omap id tb).
    { apply list_elem_of_omap. exists (Some h). split; [|done].
      by apply list_elem_of_lookup_2 in Hl. }
    assert (Hh : h ∈ headers).
    { apply Hhd. split; [by apply list_elem_of_lookup_2 in Hl|lia]. }
    destruct (reload_spec t _ tb hm h Htab Hstrip Hh0) as (h' & Hh' & _ & Hit & _).
    apply list_elem_of_fmap. exists h'. split.
    + rewrite Hit, Heq. cbn. by rewrite Z2Nat.id by lia.
    + unfold reload. apply list_elem_of_fmap. exists h. by split.
  - exists tb. split_and!; [done|done| |done].
    intros k. rewrite Hfr. unfold table_freq at 1. rewrite list_lookup_total_alt.
    destruct (replicate CAP (@None Header) !! k) as [oh|] eqn:E; [|cbn; lia].
    apply lookup_replicate in E as [-> _]. cbn. lia.
Qed.

(** ** A threshold that is not positive *)

Lemma lookup_total_nonneg (cc : list Z) (k : nat) :
  Forall (fun c => 0 <= c) cc -> 0 <= cc !!! k.
Proof.
  intros Hcc. destruct (cc !! k) as [c|] eqn:E.
  - rewrite (list_lookup_total_correct _ _ _ E).
    rewrite Forall_forall in Hcc. apply Hcc. by apply list_elem_of_lookup_2 in E.
  - rewrite list_lookup_total_alt, E. done.
Qed.

Lemma add_all_nonneg p f : forall cc,
  0 <= f -> Forall (fun c => 0 <= c) cc -> Forall (fun c => 0 <= c) (add_all p f cc).
Proof.
  unfold add_all. induction p as [|x p IH]; intros cc Hf Hcc; [done|].
  cbn [foldl]. apply IH; [done|]. apply Forall_insert; [done|].
  pose proof (lookup_total_nonneg cc (Z.to_nat x) Hcc). lia.
Qed.

Lemma add_base_nonneg base : forall cc,
  Forall (fun e => 0 <= snd e) base -> Forall (fun c => 0 <= c) cc ->
  Forall (fun c => 0 <= c) (add_base base cc).
Proof.
  unfold add_base. induction base as [|e base IH]; intros cc Hb Hcc; [done|].
  apply Forall_cons in Hb as [He Hb]. cbn [foldl]. apply IH; [done|].
  by apply add_all_nonneg.
Qed.

Lemma make_headers_all cc ms :
  ms <= 0 -> Forall (fun c => 0 <= c) cc -> make_headers cc ms <> [].
Proof.
  intros Hms Hcc E.
  assert (Hin : mkHeader (Z.of_nat 0) (cc !!! 0%nat) None None ∈ make_headers cc ms).
  { apply make_headers_elem. exists 0%nat. split_and!; [unfold CAP; lia| |done].
    pose proof (lookup_total_nonneg cc 0 Hcc). lia. }
  rewrite E in Hin. by apply elem_of_nil in Hin.
Qed.

Lemma proj_nonneg (t : Tree) hs x :
  walkable t hs -> Forall (fun e => 0 <= snd e) (proj t x).
Proof.
  intros Hwk. unfold proj. apply Forall_map, Forall_forall. intros i Hi. cbn.
  apply nodes_with_bound in Hi as [Hi _]. by apply (wk_freq _ _ Hwk).
Qed.

Lemma Hamm_FP_diverges ms : ms <= 0 -> forall fuel (t : Tree) hs prefix,
  walkable t hs -> hs <> [] -> Hamm.FP_Growth fuel t hs prefix ms = OutOfFuel.
Proof.
  intros Hms. induction fuel as [|k IH]; intros t hs prefix Hwk Hne; [done|].
  rewrite Hamm_FP_Growth_S. destruct hs as [|h hs]; [done|].
  assert (Hh : h ∈ h :: hs) by left.
  apply (for_each_diverges _ _ h); [|done|].
  - intros y Hy. apply (Hamm_body_faultless ms t _ Hwk y Hy).
    intros t' hs' p Hwk'. by apply Hamm_FP_faultless.
  - apply (Hamm_body_diverges ms t _ Hwk h Hh).
    + apply make_headers_all; [done|]. apply add_base_nonneg.
      * by apply (proj_nonneg t (h :: hs)).
      * apply Forall_forall. intros c Hc. apply elem_of_replicate in Hc as [-> _]. lia.
    + intros t' hs' p Hwk' Hne'. by apply IH.
Qed.
(** ** part_001: runs without an access out of bounds *)

Section OptSafe.
Variables (ms : Z) (t : Tree) (hs : list Header).
Hypothesis Hwk : walkable t hs.
Variable h : Header.
Hypothesis Hh : h ∈ hs.
Variable rec : Tree -> list Header -> list Z -> outcome output.
Variable prefix : list Z.

Let x := h_item h.
Let base := proj t x.
Let cc := add_base base (replicate CAP 0).
Let cps := base_Opt t x.
Let nh := make_headers cc ms.






End OptSafe.


(** ** part_001: the first tree, for any database it can hold *)

Section OptTopSafe.
Variable ms : Z.
Variable D : list (list Z).
Hypothesis Hnn : forall x, x ∈ concat D -> 0 <= x.
Hypothesis Hfq : forall x, x ∈ concat D -> ms <= cnt x (concat D) -> in_cap x = true.
Hypothesis Hmx : forall x, x ∈ concat D -> x < 2 ^ 31 - 1.

Local Abbreviation L := (concat D).
Local Abbreviation tc := (foldl (fun m id => Opt.map_incr id m) [] (concat D)).
Local Abbreviation mx := (foldl Z.max 0 (concat D)).
Local Abbreviation hs0 := (headers_of_counts ms tc).
Local Abbreviation hm1 :=
  (foldl (fun hm h => <[Z.to_nat (h_item h) := Some (set_chain None None h)]> hm)
         (replicate (Z.to_nat (mx + 1)) None) hs0).










End OptTopSafe.

(** ** part_001: what it cannot hold *)









(** * Outside the databases of item sets

    The statements of the specification are proved for transactions without
    a repeated item, items below the capacity and a threshold of at least
    one.  The programs read other inputs as well: a line that repeats an
    item, an item of 1000 or more, a ratio of 0.  What they do there. *)

Lemma Hamm_mine_setup fuel ms D :
  Hamm.mine fuel ms D =
  ('(t, hs) ← (tb ← Hamm.count_items (concat D) (replicate CAP None);
               Hamm_first_pass ms tb D);
   Hamm.FP_Growth fuel t hs [] ms).
Proof.
  unfold Hamm.mine, Hamm.mine_from, Hamm_first_pass. cbv zeta.
  destruct (Hamm.count_items (concat D) (replicate CAP None)) as [tb| | |]; try reflexivity.
  rewrite !(bind_Done_l _ _ _ eq_refl). cbv beta.
  destruct (Hamm.build_tree _ [new_Node] tb) as [[t hm]| | |]; reflexivity.
Qed.

(** The line [1,1] under the threshold 1. *)
Lemma Hamm_line_11 fuel : Hamm.mine fuel 1 [[1; 1]] = OutOfFuel.
Proof.
  rewrite Hamm_mine_setup.
  assert (E : (tb ← Hamm.count_items (concat [[1; 1]]) (replicate CAP None);
               Hamm_first_pass 1 tb [[1; 1]]) = Done (loop_tree 1, [loop_header 2]))
    by (vm_compute; reflexivity).
  rewrite E. rewrite (bind_Done_l _ _ _ eq_refl). cbv beta iota.
  apply loop_diverges.
Qed.

(** An item of 1000 or more. *)
Lemma Hamm_item_beyond fuel ms D :
  Exists (fun x => in_cap x = false) (concat D) -> Hamm.mine fuel ms D = Undefined.
Proof.
  intros Hex. unfold Hamm.mine.
  rewrite count_items_out_of_capacity; [done|apply length_replicate|done].
Qed.

(** A threshold of 0, on the one line [1]. *)
Lemma Hamm_threshold_0 fuel : Hamm.mine fuel 0 [[1]] = OutOfFuel.
Proof.
  destruct (Hamm_mine_walkable 0 [[1]]) as (t & hs & Hrun & Hwk & Hitems & _).
  { repeat constructor. }
  rewrite Hrun. apply Hamm_FP_diverges; [lia|done|].
  assert (Hin : 1 ∈ map h_item hs).
  { apply Hitems; [by left|]. vm_compute. discriminate. }
  intros ->. by apply elem_of_nil in Hin.
Qed.

(** Against C1 as it is written, for every input: a pair whose number is
    not the number of transactions that include the itemset.  part_001
    counts the item 1 twice for the one transaction [1 1], and Hamm.cpp
    counts 4 for the three transactions [1,1], [1], [1]; with an item of
    1000 Hamm.cpp indexes its table out of bounds, and what it writes is
    not defined. *)
Lemma unsound_pair_on_repeated_item :
  Opt.mine 2 1 [[1; 1]] = Done [([1], 2); ([1; 1], 1); ([1; 1], 1)] /\
  support [[1; 1]] [1] = 1 /\
  Hamm.mine 2 3 [[1; 1]; [1]; [1]] = Done [([1], 4)] /\
  support [[1; 1]; [1]; [1]] [1] = 3 /\
  (forall fuel, Hamm.mine fuel 1 [[1000]] = Undefined).
Proof.
  split_and!; [vm_compute; reflexivity..|].
  intros fuel. apply Hamm_item_beyond. by left.
Qed.

(** Against C3 as it is written, for every input and threshold: the two
    miners differ.  On the line [1 1] Hamm.cpp recurses without end and
    part_001 returns; with the item 1000 Hamm.cpp indexes out of bounds
    and part_001, for which the item is not frequent, returns; with the
    threshold 0 Hamm.cpp recurses without end and part_001 returns. *)
Lemma miners_differ_outside_item_sets :
  ((forall fuel, Hamm.mine fuel 1 [[1; 1]] = OutOfFuel) /\
   Opt.mine 2 1 [[1; 1]] = Done [([1], 2); ([1; 1], 1); ([1; 1], 1)]) /\
  ((forall fuel, Hamm.mine fuel 2 [[1000; 1]; [1]] = Undefined) /\
   Opt.mine 2 2 [[1000; 1]; [1]] = Done [([1], 2); ([1], 2)]) /\
  ((forall fuel, Hamm.mine fuel 0 [[1]] = OutOfFuel) /\
   Opt.mine 2 0 [[1]] = Done [([1], 1); ([1], 1)]).
Proof.
  split_and!.
  - apply Hamm_line_11.
  - vm_compute. reflexivity.
  - intros fuel. apply Hamm_item_beyond. by left.
  - vm_compute. reflexivity.
  - apply Hamm_threshold_0.
  - vm_compute. reflexivity.
Qed.


(** Against C10 as it is written, for every finite input: [FP_Growth] of
    Hamm.cpp does not end on the line [1,1], where the item 1 is an
    ancestor of its own node and stays in its own conditional table, nor
    under the threshold 0, which every one of the 1000 candidates reaches;
    with an item of 1000 it indexes out of bounds. *)
Lemma recursion_without_end :
  (forall fuel, Hamm.mine fuel 1 [[1; 1]] = OutOfFuel) /\
  (forall fuel, Hamm.mine fuel 0 [[1]] = OutOfFuel) /\
  (forall fuel, Hamm.mine fuel 1 [[1000]] = Undefined).
Proof.
  split_and!.
  - apply Hamm_line_11.
  - apply Hamm_threshold_0.
  - intros fuel. apply Hamm_item_beyond. by left.
Qed.
(** * Further properties of the code *)

(** ** Accesses out of bounds *)



(** ** A threshold that is not positive *)

(** X14. With a threshold of zero or less, as the ratio 0 gives, Hamm.cpp
    does not terminate on any input that holds an item: every candidate of
    the 1000 reaches the threshold, so every call of [FP_Growth] builds a
    next table that is not empty and calls itself again. *)
Theorem Hamm_nonpositive_threshold_diverges (D : list (list Z)) (ms : Z) (fuel : nat) :
  ms <= 0 -> Forall (fun x => in_cap x = true) (concat D) -> concat D <> [] ->
  Hamm.mine fuel ms D = OutOfFuel.
Proof.
  intros Hms Hcap Hne.
  destruct (Hamm_mine_walkable ms D Hcap) as (t & hs & Hrun & Hwk & Hitems & _).
  rewrite Hrun. apply Hamm_FP_diverges; [done|done|].
  destruct (concat D) as [|x L] eqn:E; [done|].
  assert (Hx : x ∈ x :: L) by left.
  assert (Hin : x ∈ map h_item hs).
  { apply Hitems; [done|]. pose proof (cnt_nonneg x (x :: L)). lia. }
  intros ->. by apply elem_of_nil in Hin.
Qed.

Lemma Hamm_nonpositive_threshold_diverges_witness :
  Hamm.mine 5 0 [[1; 2]; [2]] = OutOfFuel.
Proof.
  apply (Hamm_nonpositive_threshold_diverges [[1; 2]; [2]] 0 5%nat).
  - lia.
  - repeat constructor.
  - discriminate.
Defined.
(** * The text of the input and of the output *)

Lemma digit_char_spec d :
  0 <= d < 10 ->
  is_digit (digit_char d) = true /\ Z.of_nat (nat_of_ascii (digit_char d)) - 48 = d /\
  is_space (digit_char d) = false /\ Ascii.eqb (digit_char d) "-" = false /\
  Ascii.eqb (digit_char d) "+" = false /\ Ascii.eqb (digit_char d) "," = false.
Proof.
  intros Hd. unfold digit_char.
  remember (Z.to_nat d) as m eqn:Em.
  assert (Hn : (m < 10)%nat) by lia.
  assert (d = Z.of_nat m) as -> by lia. clear Em Hd.
  destruct m as [|[|[|[|[|[|[|[|[|[|n]]]]]]]]]]; try lia;
    vm_compute; repeat split; reflexivity.
Qed.

Lemma read_show_digits rest :
  match rest with c :: _ => is_digit c = false | [] => True end ->
  forall fuel n acc seen, 0 <= n -> n < 10 ^ Z.of_nat (S fuel) ->
  read_digits 0 seen (show_digits (S fuel) n acc ++ rest) = read_digits n true (acc ++ rest).
Proof.
  intros Hrest. induction fuel as [|k IH]; intros n acc seen Hn Hlt.
  - change (10 ^ Z.of_nat 1) with 10 in Hlt. cbn [show_digits].
    destruct (Z.ltb_spec n 10) as [Hs|Hs]; [|lia].
    destruct (digit_char_spec n) as (Hd & Hv & _); [lia|].
    cbn [app read_digits]. rewrite Hd. f_equal. lia.
  - change (show_digits (S (S k)) n acc) with
      (if n <? 10 then digit_char n :: acc
       else show_digits (S k) (n / 10) (digit_char (n mod 10) :: acc)).
    destruct (Z.ltb_spec n 10) as [Hs|Hs].
    + destruct (digit_char_spec n) as (Hd & Hv & _); [lia|].
      cbn [app read_digits]. rewrite Hd. f_equal. lia.
    + rewrite IH; [|apply Z.div_pos; lia|].
      * destruct (digit_char_spec (n mod 10)) as (Hd & Hv & _).
        { apply Z.mod_pos_bound. lia. }
        cbn [app read_digits]. rewrite Hd. f_equal. rewrite Hv.
        rewrite (Z.div_mod n 10) at 3 by lia. lia.
      * apply Z.div_lt_upper_bound; [lia|].
        rewrite (Nat2Z.inj_succ (S k)), Z.pow_succ_r in Hlt by lia. lia.
Qed.

Lemma show_digits_head fuel : forall n acc, 0 <= n ->
  exists c r, show_digits (S fuel) n acc = c :: r /\ is_digit c = true.
Proof.
  induction fuel as [|k IH]; intros n acc Hn.
  - cbn [show_digits]. destruct (Z.ltb_spec n 10) as [Hs|Hs].
    + destruct (digit_char_spec n) as (Hd & _); [lia|]. eauto.
    + destruct (digit_char_spec (n mod 10)) as (Hd & _); [apply Z.mod_pos_bound; lia|]. eauto.
  - change (show_digits (S (S k)) n acc) with
      (if n <? 10 then digit_char n :: acc
       else show_digits (S k) (n / 10) (digit_char (n mod 10) :: acc)).
    destruct (Z.ltb_spec n 10) as [Hs|Hs].
    + destruct (digit_char_spec n) as (Hd & _); [lia|]. eauto.
    + apply IH. apply Z.div_pos; lia.
Qed.

Lemma log2_fuel n : 0 <= n -> n < 10 ^ Z.of_nat (S (Z.to_nat (Z.log2 n))).
Proof.
  intros Hn. destruct (Z.eq_dec n 0) as [->|Hne].
  { vm_compute. reflexivity. }
  pose proof (Z.log2_nonneg n) as Hl.
  destruct (Z.log2_spec n) as [_ Hup]; [lia|].
  rewrite Nat2Z.inj_succ, Z2Nat.id by lia.
  eapply Z.lt_le_trans; [exact Hup|].
  apply Z.pow_le_mono_l. lia.
Qed.

Lemma is_digit_not_space c : is_digit c = true ->
  is_space c = false /\ Ascii.eqb c "-" = false /\ Ascii.eqb c "+" = false.
Proof.
  unfold is_digit, is_space. intros H.
  apply andb_true_iff in H as [H1 H2]. apply Nat.leb_le in H1, H2.
  split_and!.
  - apply orb_false_iff. split.
    + apply Nat.eqb_neq. lia.
    + apply andb_false_iff. right. apply Nat.leb_gt. lia.
  - apply Ascii.eqb_neq. intros ->. vm_compute in H1. lia.
  - apply Ascii.eqb_neq. intros ->. vm_compute in H1. lia.
Qed.

(** Reading back a number that [operator<<] wrote. *)
Lemma read_int_show n rest :
  - 2 ^ 31 <= n < 2 ^ 31 ->
  match rest with c :: _ => is_digit c = false | [] => True end ->
  read_int (show_int n ++ rest) = (Some n, rest).
Proof.
  intros Hn Hrest. unfold read_int, show_int, show_nat.
  destruct (Z.ltb_spec n 0) as [Hneg|Hpos].
  - cbn [app skip_space]. change (is_space "-") with false. cbv iota.
    change (Ascii.eqb "-" "-") with true. cbv iota.
    rewrite (read_show_digits rest Hrest) by (try apply log2_fuel; lia).
    cbn [app]. assert (Hr : read_digits (- n) true rest = (Some (- n), rest)).
    { destruct rest as [|c r]; [done|]. cbn [read_digits]. by rewrite Hrest. }
    rewrite Hr. replace (- - n) with n by lia.
    destruct (Z.leb_spec (- 2 ^ 31) n); [|lia]. destruct (Z.ltb_spec n (2 ^ 31)); [|lia]. done.
  - destruct (show_digits_head (Z.to_nat (Z.log2 n)) n [] Hpos) as (c & r & Hc & Hd).
    destruct (is_digit_not_space c Hd) as (Hsp & Hm & Hp).
    assert (Hsk : skip_space (show_digits (S (Z.to_nat (Z.log2 n))) n [] ++ rest) =
                  show_digits (S (Z.to_nat (Z.log2 n))) n [] ++ rest).
    { rewrite Hc. cbn [app skip_space]. by rewrite Hsp. }
    rewrite Hsk. rewrite Hc at 1. cbn [app]. rewrite Hm, Hp.
    rewrite (read_show_digits rest Hrest) by (try apply log2_fuel; lia).
    cbn [app]. assert (Hr : read_digits n true rest = (Some n, rest)).
    { destruct rest as [|c' r']; [done|]. cbn [read_digits]. by rewrite Hrest. }
    rewrite Hr.
    destruct (Z.leb_spec (- 2 ^ 31) n); [|lia]. destruct (Z.ltb_spec n (2 ^ 31)); [|lia]. done.
Qed.

Lemma show_digits_no_comma fuel : forall n acc, 0 <= n ->
  Forall (fun c => Ascii.eqb c "," = false) acc ->
  Forall (fun c => Ascii.eqb c "," = false) (show_digits fuel n acc).
Proof.
  induction fuel as [|k IH]; intros n acc Hn Hacc; [done|].
  cbn [show_digits]. destruct (Z.ltb_spec n 10) as [Hs|Hs].
  - constructor; [|done]. by destruct (digit_char_spec n) as (_ & _ & _ & _ & _ & ?); [lia|].
  - apply IH; [apply Z.div_pos; lia|]. constructor; [|done].
    by destruct (digit_char_spec (n mod 10)) as (_ & _ & _ & _ & _ & ?);
      [apply Z.mod_pos_bound; lia|].
Qed.

Lemma show_int_no_comma n : Forall (fun c => Ascii.eqb c "," = false) (show_int n).
Proof.
  unfold show_int, show_nat. destruct (Z.ltb_spec n 0).
  - constructor; [done|]. apply show_digits_no_comma; [lia|constructor].
  - apply show_digits_no_comma; [lia|constructor].
Qed.

Lemma show_int_head n :
  exists c r, show_int n = c :: r /\ is_space c = false.
Proof.
  unfold show_int, show_nat. destruct (Z.ltb_spec n 0).
  - eauto.
  - destruct (show_digits_head (Z.to_nat (Z.log2 n)) n []) as (c & r & -> & Hd); [lia|].
    exists c, r. split; [done|]. by apply is_digit_not_space.
Qed.

(** *** The lines of Hamm.cpp *)

Lemma split_comma_token tok : forall cur rest,
  Forall (fun c => Ascii.eqb c "," = false) tok ->
  split_comma cur (tok ++ rest) = split_comma (cur ++ tok) rest.
Proof.
  induction tok as [|c tok IH]; intros cur rest Htok; cbn [app].
  - by rewrite app_nil_r.
  - apply Forall_cons in Htok as [Hc Htok]. cbn [split_comma]. rewrite Hc.
    rewrite IH by done. by rewrite <- app_assoc.
Qed.

Lemma split_comma_join tr :
  split_comma [] (join_items [","%char] tr) = map show_int tr.
Proof.
  induction tr as [|x tr IH]; [done|].
  destruct (show_int_head x) as (c & r & Hx & _).
  destruct tr as [|y tr].
  - cbn [join_items map]. rewrite <- (app_nil_r (show_int x)) at 1.
    rewrite split_comma_token by apply show_int_no_comma.
    cbn [app split_comma]. by rewrite Hx.
  - change (join_items [","%char] (x :: y :: tr)) with
      (show_int x ++ [","%char] ++ join_items [","%char] (y :: tr)).
    rewrite split_comma_token by apply show_int_no_comma.
    cbn [app split_comma]. change (Ascii.eqb "," ",") with true. cbv iota.
    by rewrite IH.
Qed.

Lemma stoi_show n : - 2 ^ 31 <= n < 2 ^ 31 -> stoi (show_int n) = Done n.
Proof.
  intros Hn. unfold stoi. rewrite <- (app_nil_r (show_int n)).
  by rewrite read_int_show.
Qed.

Lemma read_line_shown tr : forall tb acc,
  Forall (fun x => - 2 ^ 31 <= x < 2 ^ 31) tr ->
  Hamm.read_line (map show_int tr) tb acc =
  (tb' ← Hamm.count_items tr tb; Done (tb', acc ++ tr)).
Proof.
  induction tr as [|x tr IH]; intros tb acc Hr.
  { cbn. by rewrite app_nil_r. }
  apply Forall_cons in Hr as [Hx Hr]. cbn [map Hamm.read_line Hamm.count_items].
  rewrite stoi_show by done. rewrite (bind_Done_l _ _ _ eq_refl). cbv beta.
  destruct (Hamm.count_item x tb) as [tb1| | |]; try reflexivity.
  rewrite !(bind_Done_l _ _ _ eq_refl). cbv beta.
  rewrite IH by done. by rewrite <- app_assoc.
Qed.

(** The line of a transaction, as Hamm.cpp reads it. *)
Lemma read_lines_shown D : forall tb txs,
  Forall (Forall (fun x => - 2 ^ 31 <= x < 2 ^ 31)) D ->
  Hamm.read_lines (map (fun tr => string_of_list_ascii (join_items [","%char] tr)) D) tb txs =
  (tb' ← Hamm.count_items (concat D) tb; Done (tb', txs ++ D)).
Proof.
  induction D as [|tr D IH]; intros tb txs Hr.
  { cbn. by rewrite app_nil_r. }
  apply Forall_cons in Hr as [Htr Hr]. cbn [map Hamm.read_lines concat].
  rewrite list_ascii_of_string_of_list_ascii, split_comma_join, read_line_shown by done.
  rewrite count_items_app.
  destruct (Hamm.count_items tr tb) as [tb1| | |]; try reflexivity.
  rewrite !(bind_Done_l _ _ _ eq_refl). cbv beta iota.
  rewrite IH by done. cbn [app].
  destruct (Hamm.count_items (concat D) tb1) as [tb2| | |]; try reflexivity.
  rewrite !(bind_Done_l _ _ _ eq_refl). by rewrite <- app_assoc.
Qed.

(** *** The lines of part_001 *)

Lemma read_int_space c cs : is_space c = true -> read_int (c :: cs) = read_int cs.
Proof. intros Hc. unfold read_int. cbn [skip_space]. by rewrite Hc. Qed.

Lemma read_ints_join tr : forall fuel rest,
  Forall (fun x => - 2 ^ 31 <= x < 2 ^ 31) tr -> (length tr < fuel)%nat ->
  match rest with c :: _ => is_digit c = false | [] => True end ->
  fst (read_int rest) = None ->
  read_ints fuel (join_items [" "%char] tr ++ rest) = tr.
Proof.
  induction tr as [|x tr IH]; intros fuel rest Hr Hf Hrest Hstop.
  { destruct fuel as [|k]; [done|]. cbn [join_items app read_ints].
    destruct (read_int rest) as [[v|] r]; [done|done]. }
  apply Forall_cons in Hr as [Hx Hr]. destruct fuel as [|k]; [cbn in Hf; lia|].
  cbn [length] in Hf. destruct tr as [|y tr].
  - cbn [join_items read_ints]. rewrite read_int_show by done.
    f_equal. destruct k as [|k]; [done|]. cbn [read_ints].
    destruct (read_int rest) as [[v|] r]; [done|done].
  - change (join_items [" "%char] (x :: y :: tr)) with
      (show_int x ++ [" "%char] ++ join_items [" "%char] (y :: tr)).
    cbn [read_ints]. rewrite <- !app_assoc. rewrite read_int_show by done.
    f_equal. cbn [app].
    destruct k as [|k]; [cbn in Hf; lia|].
    specialize (IH (S k) rest Hr ltac:(cbn [length] in *; lia) Hrest Hstop).
    cbn [read_ints] in *. rewrite read_int_space by done. exact IH.
Qed.

Lemma join_items_length sep tr : (length tr <= length (join_items sep tr))%nat.
Proof.
  induction tr as [|x tr IH]; [done|].
  destruct (show_int_head x) as (c & r & Hx & _).
  destruct tr as [|y tr].
  - cbn [join_items]. rewrite Hx. cbn. lia.
  - change (join_items sep (x :: y :: tr)) with
      (show_int x ++ sep ++ join_items sep (y :: tr)).
    rewrite !length_app, Hx. cbn [length] in *. lia.
Qed.

Lemma join_items_nonempty sep x tr : join_items sep (x :: tr) <> [].
Proof.
  destruct (show_int_head x) as (c & r & Hx & _).
  destruct tr; cbn [join_items]; rewrite Hx; done.
Qed.

Lemma string_length_of_list l : String.length (string_of_list_ascii l) = length l.
Proof. induction l; cbn; auto. Qed.

Lemma Opt_read_shown D :
  Forall (Forall (fun x => - 2 ^ 31 <= x < 2 ^ 31)) D ->
  Opt.read_transactions
    (map (fun tr => string_of_list_ascii (join_items [" "%char] tr)) D) =
  List.filter (fun tr => match tr with [] => false | _ => true end) D.
Proof.
  unfold Opt.read_transactions. induction 1 as [|tr D Htr HD IH]; [done|].
  cbn [map flat_map List.filter]. rewrite IH. destruct tr as [|x tr]; [done|].
  destruct (string_of_list_ascii (join_items [" "%char] (x :: tr))) eqn:E.
  { exfalso. apply (join_items_nonempty [" "%char] x tr).
    rewrite <- (list_ascii_of_string_of_list_ascii (join_items _ (x :: tr))), E. done. }
  rewrite <- E. rewrite list_ascii_of_string_of_list_ascii, string_length_of_list.
  cbn [app]. f_equal.
  rewrite <- (app_nil_r (join_items _ _)). apply read_ints_join; [done| |done|done].
  pose proof (join_items_length [" "%char] (x :: tr)). rewrite app_nil_r. lia.
Qed.

Lemma join_items_no_comma sep tr :
  Forall (fun c => Ascii.eqb c "," = false) sep ->
  Forall (fun c => Ascii.eqb c "," = false) (join_items sep tr).
Proof.
  intros Hsep. induction tr as [|x tr IH]; [constructor|].
  destruct tr as [|y tr]; [apply show_int_no_comma|].
  change (join_items sep (x :: y :: tr)) with
    (show_int x ++ sep ++ join_items sep (y :: tr)).
  apply Forall_app. split; [apply show_int_no_comma|]. apply Forall_app. by split.
Qed.

Lemma join_items_cons sep x tr :
  exists rest, join_items sep (x :: tr) = show_int x ++ rest /\
    (rest = [] \/ exists r, rest = sep ++ r).
Proof.
  destruct tr as [|y tr].
  - exists []. split; [by rewrite app_nil_r|by left].
  - exists (sep ++ join_items sep (y :: tr)). split; [done|right; eauto].
Qed.

Lemma split_comma_single tok :
  tok <> [] -> Forall (fun c => Ascii.eqb c "," = false) tok ->
  split_comma [] tok = [tok].
Proof.
  intros Hne Htok. rewrite <- (app_nil_r tok) at 1.
  rewrite split_comma_token by done. cbn [app split_comma]. by destruct tok.
Qed.

Lemma read_lines_app l1 : forall l2 tb txs,
  Hamm.read_lines (l1 ++ l2) tb txs =
  ('(tb1, D1) ← Hamm.read_lines l1 tb txs; Hamm.read_lines l2 tb1 D1).
Proof.
  induction l1 as [|line l1 IH]; intros l2 tb txs; [done|].
  cbn [app Hamm.read_lines].
  destruct (Hamm.read_line _ tb []) as [[hs tr]| | |]; try reflexivity.
  rewrite !(bind_Done_l _ _ _ eq_refl). cbv beta iota. apply IH.
Qed.

Lemma count_item_length x tb tb' :
  Hamm.count_item x tb = Done tb' -> length tb' = length tb.
Proof.
  unfold Hamm.count_item, vec_get, vec_set.
  destruct ((0 <=? x) && (x <? Z.of_nat (length tb))); [|done].
  rewrite (bind_Done_l _ _ _ eq_refl). intros E. inversion E. by rewrite length_insert.
Qed.

Lemma count_items_length L : forall tb tb',
  Hamm.count_items L tb = Done tb' -> length tb' = length tb.
Proof.
  induction L as [|x L IH]; intros tb tb' E; cbn [Hamm.count_items] in E.
  - by inversion E.
  - apply bind_Done in E as (tb1 & E1 & E2).
    rewrite (IH _ _ E2). by apply count_item_length in E1.
Qed.

Lemma read_lines_length lines tb D :
  Hamm.read_lines lines (replicate CAP None) [] = Done (tb, D) -> length tb = CAP.
Proof.
  intros E. apply read_lines_count in E as (D' & _ & E).
  apply count_items_length in E. by rewrite E, length_replicate.
Qed.

Lemma read_line_bad pre : forall bad post tb acc,
  length tb = CAP ->
  Forall (fun tok => exists v, stoi tok = Done v /\ in_cap v = true) pre ->
  stoi bad = Thrown ->
  Hamm.read_line (pre ++ bad :: post) tb acc = Thrown.
Proof.
  induction pre as [|tok pre IH]; intros bad post tb acc Hlen Hpre Hbad.
  { cbn [app Hamm.read_line]. by rewrite Hbad. }
  apply Forall_cons in Hpre as [(v & Hv & Hcap) Hpre].
  cbn [app Hamm.read_line]. rewrite Hv. rewrite (bind_Done_l _ _ _ eq_refl). cbv beta.
  apply in_cap_spec in Hcap.
  unfold Hamm.count_item. rewrite vec_get_Done by lia.
  rewrite (bind_Done_l _ _ _ eq_refl). cbv beta. rewrite vec_set_Done by lia.
  rewrite (bind_Done_l _ _ _ eq_refl). cbv beta.
  apply IH; [by rewrite length_insert|done|done].
Qed.

Lemma read_lines_ext lines lines' :
  Forall2 (fun l l' => split_comma [] (list_ascii_of_string l) = [] /\
                       split_comma [] (list_ascii_of_string l') = [] \/
                       exists tok tok', split_comma [] (list_ascii_of_string l) = [tok] /\
                                        split_comma [] (list_ascii_of_string l') = [tok'] /\
                                        stoi tok = stoi tok') lines lines' ->
  forall tb txs, Hamm.read_lines lines tb txs = Hamm.read_lines lines' tb txs.
Proof.
  induction 1 as [|l l' lines lines' Hl _ IH]; intros tb txs; [done|].
  cbn [Hamm.read_lines].
  destruct Hl as [[-> ->]|(tok & tok' & -> & -> & Hs)].
  - cbn [Hamm.read_line]. rewrite !(bind_Done_l _ _ _ eq_refl). apply IH.
  - cbn [Hamm.read_line]. rewrite Hs.
    destruct (stoi tok') as [v| | |]; try reflexivity.
    rewrite !(bind_Done_l _ _ _ eq_refl). cbv beta.
    destruct (Hamm.count_item v tb) as [hs| | |]; try reflexivity.
    rewrite !(bind_Done_l _ _ _ eq_refl). cbv beta iota. apply IH.
Qed.

Lemma stoi_join_blank x tr :
  - 2 ^ 31 <= x < 2 ^ 31 -> stoi (join_items [" "%char] (x :: tr)) = Done x.
Proof.
  intros Hx. destruct (join_items_cons [" "%char] x tr) as (rest & -> & Hrest).
  unfold stoi. rewrite read_int_show; [done|done|].
  destruct Hrest as [->|[r ->]]; done.
Qed.

Lemma read_ints_first fuel x tr :
  - 2 ^ 31 <= x < 2 ^ 31 ->
  read_ints (S fuel) (join_items [","%char] (x :: tr)) = [x].
Proof.
  intros Hx. destruct (join_items_cons [","%char] x tr) as (rest & -> & Hrest).
  cbn [read_ints]. rewrite read_int_show; [|done|by destruct Hrest as [->|[r ->]]].
  f_equal. destruct fuel as [|k]; [done|]. cbn [read_ints].
  destruct Hrest as [->|[r ->]]; reflexivity.
Qed.

Lemma read_ints_single fuel x :
  - 2 ^ 31 <= x < 2 ^ 31 -> read_ints (S fuel) (show_int x) = [x].
Proof. intros Hx. by apply (read_ints_first fuel x []). Qed.

Lemma string_of_list_nonempty l :
  l <> [] -> exists a s, string_of_list_ascii l = String a s.
Proof. destruct l as [|a l]; [done|]. intros _. cbn. eauto. Qed.

Lemma Opt_read_comma D :
  Forall (Forall (fun x => - 2 ^ 31 <= x < 2 ^ 31)) D ->
  Opt.read_transactions (map (fun tr => string_of_list_ascii (join_items [","%char] tr)) D) =
  Opt.read_transactions
    (map (fun tr => string_of_list_ascii (join_items [" "%char] tr)) (map (take 1) D)).
Proof.
  unfold Opt.read_transactions. induction 1 as [|tr D Htr _ IH]; [done|].
  cbn [map flat_map]. rewrite IH. f_equal.
  destruct tr as [|x tr]; [done|].
  apply Forall_cons in Htr as [Hx _].
  destruct (string_of_list_nonempty (join_items [","%char] (x :: tr)))
    as (a & s & Ea); [apply join_items_nonempty|].
  destruct (string_of_list_nonempty (join_items [" "%char] (take 1 (x :: tr))))
    as (b & s' & Eb); [apply join_items_nonempty|].
  rewrite Ea, Eb, <- Ea, <- Eb, !list_ascii_of_string_of_list_ascii.
  by rewrite read_ints_first, (read_ints_single _ x).
Qed.
(** ** The format of the input *)

Lemma threshold_outcome rate n :
  threshold rate n = Undefined \/ exists ms, threshold rate n = Done ms.
Proof.
  unfold threshold. destruct (ceil_float _) as [c|]; [|by left].
  destruct ((- 2 ^ 31 <=? c) && (c <? 2 ^ 31)); eauto.
Qed.

(** X15. Hamm.cpp reads back the database from its text.  For a database
    [D] of [int] items, written one transaction per line with commas
    between the items, [main] is the mining part on [D] under the threshold
    for the number of transactions of [D]; a transaction without items is
    an empty line and counts. *)
Theorem Hamm_reads_transactions (D : list (list Z)) (rate : spec_float) (fuel : nat) :
  Forall (Forall (fun x => - 2 ^ 31 <= x < 2 ^ 31)) D ->
  Hamm.main fuel rate
    (map (fun tr => string_of_list_ascii (join_items [","%char] tr)) D) =
  (ms ← threshold rate (length D); Hamm.mine fuel ms D).
Proof.
  intros Hr. unfold Hamm.main, Hamm.mine. rewrite read_lines_shown by done.
  cbn [app].
  destruct (Hamm.count_items (concat D) (replicate CAP None)) as [tb| | |] eqn:E.
  - rewrite !(bind_Done_l _ _ _ eq_refl). cbv beta iota.
    destruct (threshold rate (length D)) as [ms| | |]; reflexivity.
  - destruct (threshold_outcome rate (length D)) as [->|[ms ->]]; reflexivity.
  - exfalso. clear -E. revert E. generalize (replicate CAP (@None Header)).
    induction (concat D) as [|x L IH]; intros tb E; [done|].
    cbn [Hamm.count_items] in E. unfold Hamm.count_item, vec_get, vec_set in E.
    destruct ((0 <=? x) && (x <? Z.of_nat (length tb))); [|done].
    rewrite !(bind_Done_l _ _ _ eq_refl) in E. by apply IH in E.
  - exfalso. clear -E. revert E. generalize (replicate CAP (@None Header)).
    induction (concat D) as [|x L IH]; intros tb E; [done|].
    cbn [Hamm.count_items] in E. unfold Hamm.count_item, vec_get, vec_set in E.
    destruct ((0 <=? x) && (x <? Z.of_nat (length tb))); [|done].
    rewrite !(bind_Done_l _ _ _ eq_refl) in E. by apply IH in E.
Qed.

Lemma Hamm_reads_transactions_witness :
  Hamm.main 3 half ["1,2"; ""; "2"]%string =
  (ms ← threshold half 3; Hamm.mine 3 ms [[1; 2]; []; [2]]).
Proof.
  apply (Hamm_reads_transactions [[1; 2]; []; [2]] half 3%nat).
  repeat constructor; lia.
Defined.

(** X16. part_001 reads back the database from its text.  For a database
    [D] of [int] items, written one transaction per line with a blank
    between the items, [main] is the mining part on the transactions of
    [D] that hold an item: a transaction without items leaves an empty
    line, which is skipped and is not counted. *)
Theorem Opt_reads_transactions (D : list (list Z)) (rate : spec_float) (fuel : nat) :
  Forall (Forall (fun x => - 2 ^ 31 <= x < 2 ^ 31)) D ->
  Opt.main fuel rate
    (map (fun tr => string_of_list_ascii (join_items [" "%char] tr)) D) =
  (let D' := List.filter (fun tr => match tr with [] => false | _ => true end) D in
   ms ← threshold rate (length D'); Opt.mine fuel ms D').
Proof.
  intros Hr. unfold Opt.main. cbv zeta. by rewrite Opt_read_shown.
Qed.

Lemma Opt_reads_transactions_witness :
  Opt.main 3 half ["1 2"; ""; "2"]%string =
  (ms ← threshold half 2; Opt.mine 3 ms [[1; 2]; [2]]).
Proof.
  apply (Opt_reads_transactions [[1; 2]; []; [2]] half 3%nat).
  repeat constructor; lia.
Defined.

(** X17. A token that holds no number ends Hamm.cpp by an exception,
    whatever the ratio and the lines that follow: [std::stoi] throws before
    anything is mined.  The tokens before it on the line are numbers within
    the capacity. *)
Theorem Hamm_bad_token_throws (fuel : nat) (rate : spec_float) (before after : list string)
    (line : string) (tb : list (option Header)) (D : list (list Z))
    (pre post : list (list ascii)) (bad : list ascii) :
  Hamm.read_lines before (replicate CAP None) [] = Done (tb, D) ->
  split_comma [] (list_ascii_of_string line) = pre ++ bad :: post ->
  Forall (fun tok => exists v, stoi tok = Done v /\ in_cap v = true) pre ->
  stoi bad = Thrown ->
  Hamm.main fuel rate (before ++ line :: after) = Thrown.
Proof.
  intros Hbefore Hsplit Hpre Hbad. unfold Hamm.main.
  rewrite read_lines_app, Hbefore. rewrite (bind_Done_l _ _ _ eq_refl). cbv beta iota.
  cbn [Hamm.read_lines]. rewrite Hsplit.
  rewrite read_line_bad; [done| |done|done].
  by apply read_lines_length in Hbefore.
Qed.

Lemma Hamm_bad_token_throws_witness :
  Hamm.main 3 one (["1"%string] ++ "2,,3"%string :: ["4"%string]) = Thrown.
Proof.
  eapply (Hamm_bad_token_throws 3 one ["1"%string] ["4"%string] "2,,3"%string _ _
            [["2"%char]] [["3"%char]] []).
  - vm_compute. reflexivity.
  - reflexivity.
  - repeat constructor. exists 2. split; reflexivity.
  - reflexivity.
Defined.

(** X18. Each program reads the first item only of a line that is written in
    the format of the other, without a complaint: Hamm.cpp on lines with
    blanks between the items and part_001 on lines with commas between them
    run as on the database of the first items of the lines. *)
Theorem first_item_of_foreign_lines (D : list (list Z)) (rate : spec_float) (fuel : nat) :
  Forall (Forall (fun x => - 2 ^ 31 <= x < 2 ^ 31)) D ->
  Hamm.main fuel rate (map (fun tr => string_of_list_ascii (join_items [" "%char] tr)) D) =
  Hamm.main fuel rate
    (map (fun tr => string_of_list_ascii (join_items [","%char] tr)) (map (take 1) D)) /\
  Opt.main fuel rate (map (fun tr => string_of_list_ascii (join_items [","%char] tr)) D) =
  Opt.main fuel rate
    (map (fun tr => string_of_list_ascii (join_items [" "%char] tr)) (map (take 1) D)).
Proof.
  intros Hr. split.
  - unfold Hamm.main. rewrite (read_lines_ext _
      (map (fun tr => string_of_list_ascii (join_items [","%char] tr)) (map (take 1) D)));
      [done|].
    rewrite map_map. apply Forall2_fmap, Forall_Forall2_diag.
    eapply Forall_impl; [exact Hr|]. intros [|x tr] Htr; [left; done|right].
    apply Forall_cons in Htr as [Hx _].
    rewrite !list_ascii_of_string_of_list_ascii.
    exists (join_items [" "%char] (x :: tr)), (show_int x). split_and!.
    + apply split_comma_single; [apply join_items_nonempty|].
      apply join_items_no_comma. by repeat constructor.
    + apply (split_comma_join [x]).
    + by rewrite stoi_join_blank, stoi_show.
  - unfold Opt.main. by rewrite Opt_read_comma.
Qed.

Lemma first_item_of_foreign_lines_witness :
  Hamm.main 3 one ["1 2"; "3"]%string = Hamm.main 3 one ["1"; "3"]%string /\
  Opt.main 3 one ["1,2"; "3"]%string = Opt.main 3 one ["1"; "3"]%string.
Proof.
  apply (first_item_of_foreign_lines [[1; 2]; [3]] one 3%nat).
  repeat constructor; lia.
Defined.

(** ** The format of the output *)

(** X19. part_001 reads its own output: from the line it writes for a pair,
    its reading loop takes the items of the pair and stops at [#SUP:], so
    the output file given as an input is the database of the itemsets
    written. *)
Theorem Opt_reads_its_output (out : output) :
  Forall (fun e => fst e <> [] /\ Forall (fun x => - 2 ^ 31 <= x < 2 ^ 31) (fst e)) out ->
  Opt.read_transactions (map Opt_line out) = map fst out.
Proof.
  unfold Opt.read_transactions. induction 1 as [|[p s] out [Hne Hp] _ IH]; [done|].
  cbn [map flat_map fst]. rewrite IH. cbn [fst snd] in *.
  change (?l = p :: ?r) with (l = [p] ++ r). f_equal.
  unfold Opt_line. cbn [fst snd].
  destruct p as [|x p]; [done|].
  destruct (string_of_list_nonempty
              (join_items [" "%char] (x :: p) ++ list_ascii_of_string " #SUP: " ++ show_int s))
    as (a & s' & Ea).
  { intros E. apply app_eq_nil in E as [E _]. by apply join_items_nonempty in E. }
  rewrite Ea, <- Ea, list_ascii_of_string_of_list_ascii, string_length_of_list.
  f_equal. apply read_ints_join; [done| |done|reflexivity].
  rewrite length_app. pose proof (join_items_length [" "%char] (x :: p)). lia.
Qed.

Lemma Opt_reads_its_output_witness :
  Opt.read_transactions ["3 #SUP: 2"; "2 3 #SUP: 2"]%string = [[3]; [2; 3]].
Proof.
  apply (Opt_reads_its_output [([3], 2); ([2; 3], 2)]).
  repeat constructor; (done || lia).
Defined.
(** * What the output looks like *)

Lemma sortZ_strict (S : list Z) : NoDup S -> StronglySorted Z.lt (sort Z.ltb S).
Proof.
  intros Hnd.
  pose proof (sort_strict Z.ltb (fun _ => True)) as H.
  eapply StronglySorted_map with (f := fun x : Z => x) in H.
  - rewrite map_id in H. exact H.
  - intros a b _ _ Hab. by apply Z.ltb_lt.
  - intros a b c _ _ _. rewrite !Z.ltb_lt. lia.
  - intros a b _ _. rewrite Z.ltb_lt, Z.ltb_ge. lia.
  - intros a b _ _. rewrite !Z.ltb_ge. lia.
  - by apply Forall_forall.
  - done.
Qed.

Lemma sortZ_sorted (l : list Z) : StronglySorted Z.lt l -> sort Z.ltb l = l.
Proof.
  induction 1 as [|x l Hs IH Hx]; [done|].
  unfold sort in *. cbn [foldr]. rewrite IH.
  destruct l as [|y l]; [done|]. cbn [insert_sorted].
  apply Forall_cons in Hx as [Hxy _]. by destruct (Z.ltb_spec x y); [|lia].
Qed.

Lemma StronglySorted_sublist {A} (R : A -> A -> Prop) (l k : list A) :
  l `sublist_of` k -> StronglySorted R k -> StronglySorted R l.
Proof.
  induction 1 as [|x l k Hsub IH|x l k Hsub IH]; intros Hk; [done| |].
  - apply StronglySorted_inv in Hk as [Hk Hx]. constructor; [auto|].
    apply Forall_forall. intros y Hy. rewrite Forall_forall in Hx.
    apply Hx. by apply (elem_of_sublist l k).
  - apply StronglySorted_inv in Hk as [Hk _]. auto.
Qed.

Lemma strict_NoDup (l : list Z) : StronglySorted Z.lt l -> NoDup l.
Proof. apply StronglySorted_NoDup. intros x. lia. Qed.

Lemma support_le_length D S : support D S <= Z.of_nat (length D).
Proof.
  unfold support. apply inj_le. induction D as [|tr D IH]; [done|].
  cbn [List.filter length]. destruct (incl_b S tr); cbn [length]; lia.
Qed.

Lemma support_pos_trans D S :
  0 < support D S -> exists trans, trans ∈ D /\ forall x, x ∈ S -> x ∈ trans.
Proof.
  unfold support. intros Hpos.
  destruct (List.filter (incl_b S) D) as [|tr r] eqn:E; [cbn in Hpos; lia|].
  assert (Hin : tr ∈ List.filter (incl_b S) D) by (rewrite E; left).
  apply list_elem_of_In, filter_In in Hin as [Hin Hb].
  exists tr. split; [by apply list_elem_of_In|]. by apply incl_b_spec.
Qed.

Lemma support_perm_db D D' S : Permutation D D' -> support D S = support D' S.
Proof.
  intros Hp. unfold support. f_equal. apply Permutation_length.
  induction Hp as [|x l l' Hp IH|x y l|l l' l'' Hp1 IH1 Hp2 IH2]; cbn [List.filter].
  - done.
  - destruct (incl_b S x); [by constructor|done].
  - destruct (incl_b S x), (incl_b S y); try done. apply perm_swap.
  - by rewrite IH1.
Qed.

Lemma frequent_mono ms ms' D e : ms <= ms' -> frequent ms' D e -> frequent ms D e.
Proof.
  intros Hle (S & Hne & Hnd & Hs & Hms & Hf). exists S. split_and!; auto. lia.
Qed.

Lemma frequent_shape ms D I s :
  1 <= ms -> frequent ms D (I, s) ->
  I <> [] /\ StronglySorted Z.lt I /\
  (exists trans, trans ∈ D /\ forall x, x ∈ I -> x ∈ trans) /\
  s <= Z.of_nat (length D).
Proof.
  intros Hms (S & Hne & Hnd & Hs & Hle & HI). cbn [fst snd] in *. subst I s.
  split_and!.
  - intros E. apply Hne. apply Permutation_nil. rewrite <- E. apply sort_perm.
  - by apply sortZ_strict.
  - destruct (support_pos_trans D S) as (trans & Ht & Hin); [lia|].
    exists trans. split; [done|]. intros x Hx. apply Hin.
    by rewrite (sort_perm Z.ltb S) in Hx.
  - apply support_le_length.
Qed.

Lemma frequent_sublist ms D I s J :
  frequent ms D (I, s) -> J <> [] -> J `sublist_of` I ->
  exists s', s <= s' /\ frequent ms D (J, s').
Proof.
  intros (S & Hne & Hnd & Hs & Hle & HI) HJ Hsub. cbn [fst snd] in *. subst I s.
  pose proof (StronglySorted_sublist Z.lt J _ Hsub (sortZ_strict S Hnd)) as HsJ.
  assert (Hmono : support D S <= support D J).
  { apply support_mono. intros x Hx.
    rewrite <- (sort_perm Z.ltb S). by apply (elem_of_sublist J). }
  exists (support D J). split; [done|].
  exists J. split_and!; [done|by apply strict_NoDup|done|cbn; lia|].
  cbn. by rewrite sortZ_sorted.
Qed.

Lemma wf_db_perm D D' : Permutation D D' -> wf_db D -> wf_db D'.
Proof. unfold wf_db. intros Hp H. by rewrite <- Hp. Qed.

(** X20. The output is closed under taking subsets: with a written pair
    [(I, s)], every non-empty sublist [J] of [I] is written too, with a
    support that is at least [s]. *)
Theorem output_downward_closed (D : list (list Z)) (ms : Z) (fuel : nat) (out : output)
    (I J : list Z) (s : Z) :
  wf_db D -> 1 <= ms ->
  Hamm.mine fuel ms D = Done out \/ Opt.mine fuel ms D = Done out ->
  (I, s) ∈ out -> J <> [] -> J `sublist_of` I ->
  exists s', s <= s' /\ (J, s') ∈ out.
Proof.
  intros Hwf Hms Hrun Hin HJ Hsub.
  assert (Hch : forall e, e ∈ out <-> frequent ms D e).
  { destruct Hrun as [Hrun|Hrun].
    - by apply (Hamm_mine_char D ms fuel out).
    - by apply (Opt_mine_char D ms fuel out). }
  apply Hch in Hin.
  destruct (frequent_sublist ms D I s J Hin HJ Hsub) as (s' & Hle & Hf).
  exists s'. split; [done|]. by apply Hch.
Qed.

Lemma output_downward_closed_witness :
  exists s', 2 <= s' /\ ([3], s') ∈ [([3], 2); ([2; 3], 2); ([2], 3); ([1; 2], 2); ([1], 3)].
Proof.
  apply (output_downward_closed db_small 2 4%nat _ [2; 3] [3] 2).
  - unfold wf_db. compute_done.
  - lia.
  - left. vm_compute. reflexivity.
  - right. left.
  - done.
  - apply sublist_cons, sublist_skip, sublist_nil.
Defined.

(** X21. A higher threshold only removes pairs: what a program writes under
    [ms'] it writes under every threshold [ms] between 1 and [ms'], with the
    same support. *)
Theorem output_antitone_in_threshold (D : list (list Z)) (ms ms' : Z) (fuel fuel' : nat)
    (out out' : output) (e : list Z * Z) :
  wf_db D -> 1 <= ms -> ms <= ms' ->
  (Hamm.mine fuel ms D = Done out /\ Hamm.mine fuel' ms' D = Done out') \/
  (Opt.mine fuel ms D = Done out /\ Opt.mine fuel' ms' D = Done out') ->
  e ∈ out' -> e ∈ out.
Proof.
  intros Hwf Hms Hle Hrun He.
  assert (Hms' : 1 <= ms') by lia.
  destruct Hrun as [[H1 H2]|[H1 H2]].
  - apply (Hamm_mine_char D ms fuel out Hwf Hms H1).
    apply (frequent_mono ms ms' D e Hle).
    by apply (Hamm_mine_char D ms' fuel' out' Hwf Hms' H2).
  - apply (Opt_mine_char D ms fuel out Hwf Hms H1).
    apply (frequent_mono ms ms' D e Hle).
    by apply (Opt_mine_char D ms' fuel' out' Hwf Hms' H2).
Qed.

Lemma output_antitone_in_threshold_witness :
  ([2], 3) ∈ [([3], 2); ([2; 3], 2); ([2], 3); ([1; 2], 2); ([1], 3)].
Proof.
  apply (output_antitone_in_threshold db_small 2 3 4%nat 4%nat _ [([2], 3); ([1], 3)]).
  - unfold wf_db. compute_done.
  - lia.
  - lia.
  - left. split; vm_compute; reflexivity.
  - left.
Defined.

(** X22. Every itemset written is a non-empty list of items in strictly
    increasing order, all of them held by one transaction of the input, and
    its support does not exceed the number of transactions. *)
Theorem written_itemsets_shape (D : list (list Z)) (ms : Z) (fuel : nat) (out : output)
    (I : list Z) (s : Z) :
  wf_db D -> 1 <= ms ->
  Hamm.mine fuel ms D = Done out \/ Opt.mine fuel ms D = Done out ->
  (I, s) ∈ out ->
  I <> [] /\ StronglySorted Z.lt I /\
  (exists trans, trans ∈ D /\ forall x, x ∈ I -> x ∈ trans) /\
  s <= Z.of_nat (length D).
Proof.
  intros Hwf Hms Hrun Hin. apply (frequent_shape ms D I s Hms).
  destruct Hrun as [Hrun|Hrun].
  - by apply (Hamm_mine_char D ms fuel out).
  - by apply (Opt_mine_char D ms fuel out).
Qed.

Lemma written_itemsets_shape_witness :
  [2; 3] <> [] /\ StronglySorted Z.lt [2; 3] /\
  (exists trans, trans ∈ db_small /\ forall x, x ∈ [2; 3] -> x ∈ trans) /\
  2 <= Z.of_nat (length db_small).
Proof.
  apply (written_itemsets_shape db_small 2 4%nat
           [([3], 2); ([2; 3], 2); ([2], 3); ([1; 2], 2); ([1], 3)]).
  - unfold wf_db. compute_done.
  - lia.
  - left. vm_compute. reflexivity.
  - right. left.
Defined.

(** X23. The order of the lines does not matter for the set of pairs a
    program writes. *)
Theorem line_order_same_output (D D' : list (list Z)) (ms : Z) (fuel fuel' : nat)
    (out out' : output) (e : list Z * Z) :
  wf_db D -> Permutation D D' -> 1 <= ms ->
  (Hamm.mine fuel ms D = Done out /\ Hamm.mine fuel' ms D' = Done out') \/
  (Opt.mine fuel ms D = Done out /\ Opt.mine fuel' ms D' = Done out') ->
  e ∈ out <-> e ∈ out'.
Proof.
  intros Hwf Hp Hms Hrun.
  pose proof (wf_db_perm D D' Hp Hwf) as Hwf'.
  assert (Hfr : frequent ms D e <-> frequent ms D' e).
  { unfold frequent. by setoid_rewrite (support_perm_db D D' _ Hp). }
  destruct Hrun as [[H1 H2]|[H1 H2]].
  - by rewrite (Hamm_mine_char D ms fuel out Hwf Hms H1 e),
               (Hamm_mine_char D' ms fuel' out' Hwf' Hms H2 e).
  - by rewrite (Opt_mine_char D ms fuel out Hwf Hms H1 e),
               (Opt_mine_char D' ms fuel' out' Hwf' Hms H2 e).
Qed.

Lemma line_order_same_output_witness :
  ([1], 2) ∈ [([2], 1); ([1; 2], 1); ([1], 2)] <-> ([1], 2) ∈ [([2], 1); ([1; 2], 1); ([1], 2)].
Proof.
  apply (line_order_same_output [[1; 2]; [1]] [[1]; [1; 2]] 1 3%nat 3%nat).
  - unfold wf_db. compute_done.
  - apply perm_swap.
  - lia.
  - left. split; vm_compute; reflexivity.
Defined.
(** * The functions of the tree and of the enumerator *)

(** X24. Looking up a child after [add_child]: the new child is found by
    its item at the end of the list only, so a child that was there with
    this item stays the one [get_child] returns; the children of the other
    nodes are as before. *)
Theorem get_child_after_add_child (t : Tree) (parent child p : nat) (x : Z) :
  (parent < length t)%nat ->
  get_child (add_child t parent child) p x =
  if decide (p = parent) then
    match get_child t parent x with
    | Some c => Some c
    | None => if n_item (deref t child) =? x then Some child else None
    end
  else get_child t p x.
Proof.
  intros Hp. unfold get_child, add_child.
  destruct (decide (p = parent)) as [->|Hne].
  - rewrite deref_insert_eq by done. cbn [n_children set_children].
    rewrite find_child_app. cbn [find_child]. reflexivity.
  - by rewrite deref_insert_ne.
Qed.

Lemma get_child_after_add_child_witness :
  get_child (add_child [new_Node; mkNode 5 1 (Some 0%nat) [] None] 0 1) 0 5 = Some 1%nat.
Proof.
  apply (get_child_after_add_child [new_Node; mkNode 5 1 (Some 0%nat) [] None] 0 1 0 5).
  cbn. lia.
Defined.

(** X25. The size of what the enumerator writes.  At or above the threshold
    it writes one pair for every sublist of [IL], 2 to the power of the
    length of [IL] pairs in all; below the threshold it still writes one
    pair, since the test of part_001:156 guards the branch without the item
    only.  In both cases the last pair is the pattern with all of [IL]. *)
Theorem enumerator_size (IL : list Z) (f ms : Z) (pat : list Z) :
  pat <> [] ->
  (length (Opt.hamm_search_optimized IL f pat ms) =
     if ms <=? f then (2 ^ length IL)%nat else 1%nat) /\
  (last (Opt.hamm_search_optimized IL f pat ms) = Some (sort Z.ltb (pat ++ IL), f)).
Proof.
  revert pat. induction IL as [|x IL IH]; intros pat Hpat.
  - cbn [Opt.hamm_search_optimized length]. rewrite app_nil_r.
    destruct pat; [done|]. by destruct (ms <=? f).
  - cbn [Opt.hamm_search_optimized length].
    destruct (IH pat Hpat) as [H1 _].
    destruct (IH (pat ++ [x])) as [H3 H4]; [by destruct pat|].
    rewrite <- app_assoc in H4. cbn [app] in H4.
    assert (Hne : Opt.hamm_search_optimized IL f (pat ++ [x]) ms <> []).
    { intros E. by rewrite E in H4. }
    split.
    + rewrite length_app, H3. destruct (ms <=? f); [|done].
      rewrite H1. cbn [Nat.pow]. lia.
    + rewrite last_app. by rewrite H4.
Qed.

Lemma enumerator_size_witness :
  (length (Opt.hamm_search_optimized [1; 2] 2 [3] 1) = 4%nat) /\
  (last (Opt.hamm_search_optimized [1; 2] 2 [3] 1) = Some ([1; 2; 3], 2)).
Proof.
  apply (enumerator_size [1; 2] 2 1 [3]). done.
Defined.
(** * The tree and its header table *)

Lemma chain_nodes_rel (t : Tree) l : forall fuel o,
  chain_rel t o l -> (length l <= fuel)%nat -> chain_nodes fuel t o = l.
Proof.
  induction l as [|i l IH]; intros fuel o Hc Hf; cbn [chain_rel] in Hc.
  - subst o. by destruct fuel.
  - destruct Hc as [-> Hc]. destruct fuel as [|k]; [cbn in Hf; lia|].
    cbn [chain_nodes]. f_equal. apply IH; [done|cbn in Hf; lia].
Qed.

Lemma sumZ_map_le {A} (f g : A -> Z) l :
  (forall a, a ∈ l -> f a <= g a) -> sumZ (map f l) <= sumZ (map g l).
Proof.
  unfold sumZ. induction l as [|a l IH]; intros H; [done|]. cbn [map foldr].
  assert (Ha : a ∈ a :: l) by left.
  pose proof (H a Ha). assert (foldr Z.add 0 (map f l) <= foldr Z.add 0 (map g l)).
  { apply IH. intros b Hb. apply H. by right. }
  lia.
Qed.

Lemma tree_of_run_level ms D (t : Tree) hs prefix :
  wf_db D -> 1 <= ms -> tree_of_run ms D t hs prefix ->
  exists ps, level ms ps t hs /\
    forall S, S <> [] -> (forall y, y ∈ S -> y ∈ map h_item hs) ->
      wsupp ps S = support D (prefix ++ S).
Proof.
  intros Hwf Hms [(-> & tb & Hcount & Hfp)|Hreach].
  - destruct (count_items_table D Hwf) as (tb' & Hrun & Htb).
    rewrite Hcount in Hrun. inversion Hrun; subst tb'.
    destruct (Hamm_first_pass_level ms D Hms Hwf tb Htb)
      as (t' & hs' & ps & Hfp' & Hlv & _ & Hsc).
    rewrite Hfp in Hfp'. inversion Hfp'; subst t' hs'. eauto.
  - by apply Opt_reach_level.
Qed.

(** X26. The header table and the node-link chains.  In the tree that
    [main] of Hamm.cpp builds, and in the tree of every call of [FP_Growth]
    in a run of part_001, the chain of a header holds every node of its item
    once and no other node; the counters of these nodes add up to the
    frequency of the header, which is the support of the prefix of the call
    together with the item. *)
Theorem header_chain_counts (D : list (list Z)) (ms : Z) (t : Tree) (hs : list Header)
    (prefix : list Z) (h : Header) :
  wf_db D -> 1 <= ms -> tree_of_run ms D t hs prefix -> h ∈ hs ->
  NoDup (chain_nodes (length t) t (h_next h)) /\
  (forall i, i ∈ chain_nodes (length t) t (h_next h) <->
             (0 < i < length t)%nat /\ n_item (deref t i) = h_item h) /\
  sumZ (map (fun i => n_freq (deref t i)) (chain_nodes (length t) t (h_next h))) = h_freq h /\
  h_freq h = support D (prefix ++ [h_item h]).
Proof.
  intros Hwf Hms Hrun Hh.
  destruct (tree_of_run_level ms D t hs prefix Hwf Hms Hrun) as (ps & Hlv & Hsc).
  destruct (lv_header _ _ _ _ Hlv h Hh) as (Hcap & Hch & Hfr & _).
  rewrite (chain_nodes_rel t _ _ _ Hch (nodes_with_length _ _)).
  split_and!.
  - apply nodes_with_NoDup.
  - intros i. split.
    + apply nodes_with_bound.
    + intros [Hi Hx]. by apply nodes_with_elem.
  - rewrite (level_header_freq ms ps t hs Hlv h Hh).
    unfold wsupp, proj. rewrite map_map. cbn [fst snd]. f_equal.
  - rewrite Hfr. apply Hsc; [done|].
    intros y ->%list_elem_of_singleton. apply list_elem_of_fmap. eauto.
Qed.

Lemma tree_small_of_run : tree_of_run 2 db_small tree_small headers_small [].
Proof. right. apply reach_main. vm_compute. reflexivity. Qed.

Lemma header_chain_counts_witness :
  sumZ (map (fun i => n_freq (deref tree_small i))
            (chain_nodes (length tree_small) tree_small (Some 3%nat))) = 2 /\
  2 = support db_small ([] ++ [3]).
Proof.
  destruct (header_chain_counts db_small 2 tree_small headers_small []
              (mkHeader 3 2 (Some 3%nat) (Some 5%nat))) as (_ & _ & H3 & H4).
  - unfold wf_db. compute_done.
  - lia.
  - apply tree_small_of_run.
  - left.
  - split; [exact H3|exact H4].
Defined.

(** X27. The nodes.  In the same trees, every node below the root has a
    parent that was created before it and a positive counter that is at most
    the counter of its parent and at most the support of the prefix of the
    call together with the items on the path from the node up to the root;
    no item occurs twice on that path. *)
Theorem tree_node_counts (D : list (list Z)) (ms : Z) (t : Tree) (hs : list Header)
    (prefix : list Z) (i : nat) :
  wf_db D -> 1 <= ms -> tree_of_run ms D t hs prefix -> (0 < i < length t)%nat ->
  exists j, n_parent (deref t i) = Some j /\ (j < i)%nat /\
    0 < n_freq (deref t i) /\
    ((0 < j)%nat -> n_freq (deref t i) <= n_freq (deref t j)) /\
    NoDup (pathup t i) /\
    n_freq (deref t i) <= support D (prefix ++ pathup t i).
Proof.
  intros Hwf Hms Hrun Hi.
  destruct (tree_of_run_level ms D t hs prefix Hwf Hms Hrun) as (ps & Hlv & Hsc).
  pose proof (lv_wf _ _ _ _ Hlv) as Hwt.
  pose proof (lv_counts _ _ _ _ Hlv) as Htc.
  destruct (wf_par _ Hwt i Hi) as (j & Hj & Hlt).
  destruct (level_node ms ps t hs Hlv i Hi) as (q & c & Hq & Hpre & Hnd & Hpos & _).
  assert (Hnn : forall qc, qc ∈ ps -> 0 <= snd qc).
  { intros [q' c'] Hq'. destruct (lv_paths _ _ _ _ Hlv q' c' Hq') as (Hc' & _). cbn. lia. }
  exists j. split_and!; [done|done|done| | |].
  - intros Hj0. rewrite (tc_freq _ _ Htc i Hi), (tc_freq _ _ Htc j) by lia.
    apply sumZ_map_le. intros qc Hqc. pose proof (Hnn qc Hqc).
    rewrite (npath_step t i j Hwt Hi Hj).
    destruct (is_prefix_b (npath t j ++ [n_item (deref t i)]) (fst qc)) eqn:E.
    + apply is_prefix_b_spec in E.
      assert (E' : is_prefix_b (npath t j) (fst qc) = true).
      { apply is_prefix_b_spec. etrans; [|exact E]. by apply prefix_app_r. }
      rewrite E'. lia.
    + destruct (is_prefix_b (npath t j) (fst qc)); lia.
  - unfold npath in Hnd. apply NoDup_ListNoDup in Hnd. apply NoDup_ListNoDup.
    apply NoDup_rev in Hnd. by rewrite rev_involutive in Hnd.
  - assert (Hperm : Permutation (pathup t i) (npath t i)).
    { unfold npath. apply Permutation_rev. }
    rewrite (support_perm D (prefix ++ pathup t i) (prefix ++ npath t i))
      by (by apply Permutation_app_head).
    rewrite <- Hsc.
    + rewrite (tc_freq _ _ Htc i Hi). unfold wsupp. apply sumZ_map_le.
      intros qc Hqc. pose proof (Hnn qc Hqc).
      destruct (is_prefix_b (npath t i) (fst qc)) eqn:E; [|destruct (incl_b _ _); lia].
      apply is_prefix_b_spec in E.
      assert (E' : incl_b (npath t i) (fst qc) = true).
      { apply incl_b_spec. intros x Hx. destruct E as [k ->]. apply elem_of_app. by left. }
      rewrite E'. lia.
    + by apply npath_nonempty.
    + intros y Hy. destruct (lv_paths _ _ _ _ Hlv q c Hq) as (_ & _ & Hin).
      apply Hin. destruct Hpre as [k ->]. apply elem_of_app. by left.
Qed.

Lemma tree_node_counts_witness :
  exists j, n_parent (deref tree_small 3) = Some j /\ (j < 3)%nat /\
    0 < n_freq (deref tree_small 3) /\
    ((0 < j)%nat -> n_freq (deref tree_small 3) <= n_freq (deref tree_small j)) /\
    NoDup (pathup tree_small 3) /\
    n_freq (deref tree_small 3) <= support db_small ([] ++ pathup tree_small 3).
Proof.
  apply (tree_node_counts db_small 2 tree_small headers_small [] 3).
  - unfold wf_db. compute_done.
  - lia.
  - apply tree_small_of_run.
  - cbn. lia.
Defined.
(** * An input without an item *)

Lemma read_lines_empty n : forall tb txs,
  Hamm.read_lines (replicate n EmptyString) tb txs = Done (tb, txs ++ replicate n []).
Proof.
  induction n as [|n IH]; intros tb txs; cbn [replicate Hamm.read_lines].
  - by rewrite app_nil_r.
  - cbn [list_ascii_of_string split_comma Hamm.read_line].
    rewrite (bind_Done_l _ _ _ eq_refl). cbv beta iota. rewrite IH.
    by rewrite <- app_assoc.
Qed.

Lemma remove_infrequent_none ms l :
  Forall (fun oh => oh = None) l -> remove_infrequent_items l ms = [].
Proof.
  unfold remove_infrequent_items. induction 1 as [|oh l -> _ IH]; [done|]. exact IH.
Qed.

Lemma build_tree_empty n : forall (t : Tree) tb,
  Hamm.build_tree (replicate n []) t tb = Done (t, tb).
Proof.
  induction n as [|n IH]; intros t tb; cbn [replicate Hamm.build_tree insert_path]; [done|].
  rewrite (bind_Done_l _ _ _ eq_refl). cbv beta iota. apply IH.
Qed.

Lemma Opt_read_empty n : Opt.read_transactions (replicate n EmptyString) = [].
Proof. unfold Opt.read_transactions. induction n as [|n IH]; [done|]. exact IH. Qed.

Lemma threshold_no_transaction s m e : threshold (S754_finite s m e) 0 = Done 0.
Proof. unfold threshold. by destruct s. Qed.

(** X28. An input without an item gives an output without a pair, when the
    threshold is defined.  Hamm.cpp counts every empty line as a
    transaction, so its threshold is the one for the number of lines;
    part_001 skips the lines, and its threshold is the one for zero
    transactions, which is 0 for every finite ratio. *)
Theorem no_item_no_output (n : nat) (rate : spec_float) (fuel : nat) :
  Hamm.main (S fuel) rate (replicate n EmptyString) = (ms ← threshold rate n; Done []) /\
  Opt.main (S fuel) rate (replicate n EmptyString) = (ms ← threshold rate 0; Done []) /\
  (forall s m e, rate = S754_finite s m e ->
     Opt.main (S fuel) rate (replicate n EmptyString) = Done []).
Proof.
  assert (HO : Opt.main (S fuel) rate (replicate n EmptyString) =
               (ms ← threshold rate 0; Done [])).
  { unfold Opt.main. rewrite Opt_read_empty. cbn [length].
    destruct (threshold rate 0) as [ms| | |]; reflexivity. }
  split_and!; [|exact HO|].
  - unfold Hamm.main. rewrite read_lines_empty.
    rewrite (bind_Done_l _ _ _ eq_refl). cbv beta iota. cbn [app].
    rewrite length_replicate.
    destruct (threshold rate n) as [ms| | |]; try reflexivity.
    rewrite !(bind_Done_l _ _ _ eq_refl).
    unfold Hamm.mine_from. cbv zeta.
    rewrite remove_infrequent_none.
    2:{ apply Forall_forall. intros oh Hoh. rewrite (sort_perm Hamm.cmp_main _) in Hoh.
        by apply elem_of_replicate in Hoh as [-> _]. }
    assert (E : map (fun trans : list Z =>
                  remove_infrequent_items
                    (map Some (sort cmp_path
                       (omap (fun x => replicate CAP (@None Header) !!! Z.to_nat x) trans))) ms)
                  (replicate n []) = replicate n []).
    { clear. induction n as [|n IH]; [done|]. cbn [replicate map]. by rewrite IH. }
    rewrite E, build_tree_empty. reflexivity.
  - intros s m e ->. rewrite HO, threshold_no_transaction. reflexivity.
Qed.
(** * Items repeated within a transaction *)

















Section HammRepeat.
Variables (ms x : Z).
Hypothesis Hx : in_cap x = true.



End HammRepeat.




(** * The orders of the first pass *)

Lemma cmp_main_trans a b c :
  Hamm.cmp_main a b = true -> Hamm.cmp_main b c = true -> Hamm.cmp_main a c = true.
Proof.
  unfold Hamm.cmp_main. destruct a as [a|], b as [b|], c as [c|]; try done.
  destruct (Z.eqb_spec (h_freq a) (h_freq b)), (Z.eqb_spec (h_freq b) (h_freq c)),
           (Z.eqb_spec (h_freq a) (h_freq c)); rewrite ?Z.ltb_lt; lia.
Qed.

Lemma cmp_main_asym a b : Hamm.cmp_main a b = true -> Hamm.cmp_main b a = false.
Proof.
  unfold Hamm.cmp_main. destruct a as [a|], b as [b|]; try done.
  destruct (Z.eqb_spec (h_freq a) (h_freq b)), (Z.eqb_spec (h_freq b) (h_freq a));
    rewrite ?Z.ltb_lt, ?Z.ltb_ge; lia.
Qed.

Lemma cmp_main_total a b :
  Hamm.cmp_main (Some a) (Some b) = false -> Hamm.cmp_main (Some b) (Some a) = false ->
  h_item a = h_item b /\ h_freq a = h_freq b.
Proof.
  unfold Hamm.cmp_main.
  destruct (Z.eqb_spec (h_freq a) (h_freq b)), (Z.eqb_spec (h_freq b) (h_freq a));
    rewrite ?Z.ltb_ge; lia.
Qed.

Lemma StronglySorted_omap {A B} (g : A -> option B) (R : A -> A -> Prop)
    (R' : B -> B -> Prop) l :
  (forall a b a' b', g a = Some a' -> g b = Some b' -> R a b -> R' a' b') ->
  StronglySorted R l -> StronglySorted R' (omap g l).
Proof.
  intros Hg. induction 1 as [|a l Hs IH Ha]; [constructor|].
  change (omap g (a :: l)) with (match g a with Some y => y :: omap g l | None => omap g l end).
  destruct (g a) as [a'|] eqn:E; [|exact IH]. constructor; [exact IH|].
  apply Forall_forall. intros b' Hb'. apply list_elem_of_omap in Hb' as (b & Hb & Hgb).
  rewrite Forall_forall in Ha. by apply (Hg a b a' b' E Hgb), Ha.
Qed.

Lemma StronglySorted_strengthen {A} (R R' : A -> A -> Prop) l :
  (forall a b, a ∈ l -> b ∈ l -> R a b -> a <> b -> R' a b) ->
  NoDup l -> StronglySorted R l -> StronglySorted R' l.
Proof.
  intros HR Hnd Hs. induction Hs as [|a l Hs IH Ha]; [constructor|].
  apply NoDup_cons in Hnd as [Hna Hnd]. constructor.
  - apply IH; [|done]. intros x y Hx Hy. apply HR; by right.
  - apply Forall_forall. intros b Hb. rewrite Forall_forall in Ha.
    apply HR; [by left|by right|by apply Ha|]. intros ->. done.
Qed.

Section Orders.
Variable ms : Z.
Variable D : list (list Z).
Hypothesis Hms : 1 <= ms.
Hypothesis Hwf : wf_db D.
Variable tb : list (option Header).
Hypothesis Htb : counts_table D tb.

Lemma headers_sorted :
  StronglySorted
    (fun a b => h_freq a < h_freq b \/ (h_freq a = h_freq b /\ h_item b < h_item a))
    (remove_infrequent_items (sort Hamm.cmp_main tb) ms).
Proof.
  set (P := fun oh : option Header => forall h, oh = Some h -> h = header_of D (h_item h)).
  assert (HP : Forall P tb).
  { apply Forall_forall. intros oh Hoh h ->. apply list_elem_of_lookup in Hoh as [k Hk].
    by destruct (tb_Some D tb Htb k h Hk) as (-> & _). }
  pose proof (sort_sorted Hamm.cmp_main P) as Hs.
  specialize (Hs ltac:(intros a b c _ _ _; apply cmp_main_trans)
                 ltac:(intros a b _ _; apply cmp_main_asym)).
  assert (Htot : forall a b, P a -> P b -> Hamm.cmp_main a b = false ->
            Hamm.cmp_main b a = false -> a = b).
  { intros [a|] [b|] Ha Hb H1 H2; try done.
    destruct (cmp_main_total a b H1 H2) as [Hi Hf].
    by rewrite (Ha a eq_refl), (Hb b eq_refl), Hi. }
  specialize (Hs Htot tb HP).
  apply (StronglySorted_strengthen
           (fun a b => Hamm.cmp_main (Some b) (Some a) = false)).
  - intros a b Ha Hb Hba Hne.
    assert (Hi : h_item a <> h_item b).
    { intros E. apply Hne.
      apply (Hamm_headers_elem ms D Hms Hwf tb Htb) in Ha as (x & -> & _).
      apply (Hamm_headers_elem ms D Hms Hwf tb Htb) in Hb as (y & -> & _).
      cbn in E. by subst. }
    unfold Hamm.cmp_main in Hba.
    destruct (Z.eqb_spec (h_freq b) (h_freq a)); rewrite Z.ltb_ge in Hba; lia.
  - eapply NoDup_fmap_1. apply (Hamm_headers_NoDup ms D tb Htb).
  - unfold remove_infrequent_items. eapply StronglySorted_omap; [|exact Hs].
    intros [a|] [b|] a' b' Ea Eb Hab; try done.
    destruct (h_freq a <? ms); [done|]. destruct (h_freq b <? ms); [done|].
    inversion Ea; inversion Eb; subst. exact Hab.
Qed.

Lemma transaction_sorted trans :
  trans ∈ D ->
  StronglySorted
    (fun a b => h_freq b < h_freq a \/ (h_freq a = h_freq b /\ h_item a < h_item b))
    (remove_infrequent_items
       (map Some (sort cmp_path (omap (fun x => tb !!! Z.to_nat x) trans))) ms).
Proof.
  intros Ht. rewrite (Hamm_transaction D Hwf tb Htb trans Ht).
  unfold wf_db in Hwf. rewrite Forall_forall in Hwf. destruct (Hwf trans Ht) as [Hnd _].
  pose proof (pruned_sorted ms D trans Hnd) as Hs.
  eapply StronglySorted_map with (f := fun h : Header => h) in Hs.
  - rewrite map_id in Hs. exact Hs.
  - intros a b _ _ Hab. cbv beta in Hab. unfold cmp_path in Hab.
    destruct (Z.eqb_spec (h_freq a) (h_freq b)); rewrite Z.ltb_lt in Hab; lia.
Qed.

End Orders.

(** X30. After the sort and the pruning of the first pass (part_002, and
    the same lines of Hamm.cpp and part_003), for transactions without
    repeated items, every item below 1000 and a threshold of at least 1:
    the header vector holds exactly the frequent items with their supports,
    by ascending support and, among equal supports, descending item; every
    transaction holds exactly its frequent items, by descending support and,
    among equal supports, ascending item. *)
Theorem first_pass_orders (D : list (list Z)) (ms : Z) (tb : list (option Header)) :
  wf_db D -> 1 <= ms ->
  Hamm.count_items (concat D) (replicate CAP None) = Done tb ->
  StronglySorted
    (fun a b => h_freq a < h_freq b \/ (h_freq a = h_freq b /\ h_item b < h_item a))
    (fst (sort_and_prune ms tb D)) /\
  (forall h, h ∈ fst (sort_and_prune ms tb D) <->
             exists x, h = mkHeader x (support D [x]) None None /\ ms <= support D [x]) /\
  Forall2
    (fun trans tx =>
       StronglySorted
         (fun a b => h_freq b < h_freq a \/ (h_freq a = h_freq b /\ h_item a < h_item b))
         tx /\
       forall h, h ∈ tx <->
                 exists x, x ∈ trans /\ h = mkHeader x (support D [x]) None None /\
                           ms <= support D [x])
    D (snd (sort_and_prune ms tb D)).
Proof.
  intros Hwf Hms Hc.
  destruct (count_items_table D Hwf) as (tb' & Hc' & Htb).
  rewrite Hc in Hc'. injection Hc' as <-.
  unfold sort_and_prune. cbn [fst snd]. split; [|split].
  - exact (headers_sorted ms D Hms Hwf tb Htb).
  - apply (Hamm_headers_elem ms D Hms Hwf tb Htb).
  - apply Forall2_fmap_r, Forall_Forall2_diag, Forall_forall. intros trans Ht. split.
    + exact (transaction_sorted ms D Hwf tb Htb trans Ht).
    + intros h. rewrite (Hamm_transaction D Hwf tb Htb trans Ht). apply pruned_elem.
Qed.

Lemma first_pass_orders_witness :
  exists tb, Hamm.count_items (concat db_small) (replicate CAP None) = Done tb /\
  Forall2
    (fun trans tx =>
       StronglySorted
         (fun a b => h_freq b < h_freq a \/ (h_freq a = h_freq b /\ h_item a < h_item b))
         tx /\
       forall h, h ∈ tx <->
                 exists x, x ∈ trans /\ h = mkHeader x (support db_small [x]) None None /\
                           2 <= support db_small [x])
    db_small (snd (sort_and_prune 2 tb db_small)).
Proof.
  eexists. split; [vm_compute; reflexivity|].
  refine (proj2 (proj2 (first_pass_orders db_small 2 _ _ _ _))).
  - unfold wf_db. compute_done.
  - lia.
  - vm_compute. reflexivity.
Defined.
